(** * Language-Modelling-with-RNN: the layer library [lib/layer_utils.py]

    A shallow embedding of the network container [RNN] and of the layers
    [VanillaRNN], [LSTM], [word_embedding], [temporal_fc] and
    [temporal_softmax_loss], with the properties their specification states
    and further properties of the code: the values and the failures of
    the passes, and that the backward passes compute derivatives.

    Conventions of the embedding.
    - The source is Python 2 ([dict.iteritems]); a dict is a [gmap], and a
      loop over its items is a [map_fold] (a Python 2 dict has no specified
      iteration order, and no loop of the source depends on one).
    - A numpy array is a shape together with its row-major buffer
      ([ndarray]).  Floating point numbers are idealised as real numbers:
      an equation between real numbers holds of the binary64 results up
      to rounding, and a bound on a result is stated with its endpoints,
      which a rounded result can reach ([sigmoid] and [tanh] return
      exactly 1.0 on a large argument).  Where a property depends on
      them, underflow to zero and the values [inf] and [nan] are modelled
      ([Ieee], [forward_ieee] of the loss unit).
    - An exception is a value of [exn]; a method that can raise returns a
      [result].  The state of an object after a raised exception is not
      modelled.
    - numpy primitives are given by their index functions.  On operands
      whose shapes do not match, numpy raises or broadcasts; the primitives
      below are total, and every theorem about a layer carries the shapes
      of its arguments, under which they agree with numpy.  The failures
      on which the source or a property depends (unpacking a shape, an
      index out of range, [reshape], a missing attribute or key,
      [np.vectorize] on an array without elements) are explicit.
    - A derivative is [derivable_pt_lim] of the real numbers; the
      function that is differentiated is the pass of the source applied
      to an array or a parameter with one entry replaced. *)

From Stdlib Require Import Reals Lra Lia ZArith List.
From stdpp Require Import gmap strings list fin_maps.

(* ===================================================================== *)
(** * Exceptions *)
(* ===================================================================== *)

Inductive exn : Type :=
| AttributeError
| TypeError
| IndexError
| AssertionError
| KeyError (key : string)
| ValueError (msg : string).

Inductive result (A : Type) : Type :=
| Ok (a : A)
| Raise (e : exn).

Arguments Ok {A} a.
Arguments Raise {A} e.

Definition bind {A B : Type} (m : result A) (k : A → result B) : result B :=
  match m with
  | Ok a => k a
  | Raise e => Raise e
  end.

Notation "x <- m ;; k" := (bind m (λ x, k))
  (at level 20, m at level 99, k at level 200, right associativity).
Notation "' p <- m ;; k" := (bind m (λ x, match x with p => k end))
  (at level 20, p pattern, m at level 99, k at level 200, right associativity).

(** [d[k]] on a dict. *)
Definition getitem {V : Type} (d : gmap string V) (k : string) : result V :=
  match d !! k with
  | Some v => Ok v
  | None => Raise (KeyError k)
  end.

(** [l[i]] on a list, for an index that is not negative. *)
Definition list_getitem {V : Type} (l : list V) (i : nat) : result V :=
  match l !! i with
  | Some v => Ok v
  | None => Raise IndexError
  end.

(** Equality of real numbers is decided classically. *)
#[global] Instance R_eq_dec : EqDecision R := Req_dec_T.

(* ===================================================================== *)
(** * numpy arrays *)
(* ===================================================================== *)

Module Np.

Record ndarray (A : Type) : Type := mk { shape : list nat; data : list A }.
Arguments mk {A} shape data.
Arguments shape {A} n.
Arguments data {A} n.

(** [np.prod(shape)], the number of elements. *)
Definition size_of (sh : list nat) : nat := fold_right Nat.mul 1%nat sh.

(** An array of shape [sh]: the buffer holds exactly [size_of sh] elements. *)
Definition has_shape {A : Type} (a : ndarray A) (sh : list nat) : Prop :=
  shape a = sh ∧ length (data a) = size_of sh.

(** [a.shape[k]] *)
Definition dim {A : Type} (k : nat) (a : ndarray A) : nat := nth k (shape a) 0%nat.

Local Open Scope R_scope.

(** Row-major indexing. *)
Definition get1 (a : ndarray R) (i : nat) : R := nth i (data a) 0.
Definition get2 (a : ndarray R) (i j : nat) : R :=
  nth (i * dim 1 a + j)%nat (data a) 0.
Definition get3 (a : ndarray R) (i j k : nat) : R :=
  nth ((i * dim 1 a + j) * dim 2 a + k)%nat (data a) 0.

(** The array with a given shape and a given entry at every index. *)
Definition build1 (n : nat) (f : nat → R) : ndarray R :=
  mk [n] (map f (seq 0 n)).
Definition build2 (r c : nat) (f : nat → nat → R) : ndarray R :=
  mk [r; c] (flat_map (λ i, map (f i) (seq 0 c)) (seq 0 r)).
Definition build3 (a b c : nat) (f : nat → nat → nat → R) : ndarray R :=
  mk [a; b; c]
     (flat_map (λ i, flat_map (λ j, map (f i j) (seq 0 c)) (seq 0 b)) (seq 0 a)).

(** [sum_n f n] is [f 0 + ... + f (n-1)]. *)
Fixpoint sum_n (f : nat → R) (n : nat) : R :=
  match n with
  | O => 0
  | S k => sum_n f k + f k
  end.

(** The sum of a list of real numbers. *)
Definition Rsum_list (l : list R) : R := fold_right Rplus 0 l.

(** The maximum of [f 0, ..., f (n-1)], for [n > 0]. *)
Fixpoint max_n (f : nat → R) (n : nat) : R :=
  match n with
  | O => 0
  | S O => f O
  | S k => Rmax (max_n f k) (f k)
  end.

(** [np.zeros(sh)] *)
Definition zeros (sh : list nat) : ndarray R := mk sh (repeat 0 (size_of sh)).

(** [a.shape[k]] as an expression that can fail. *)
Definition shape_at {A : Type} (k : nat) (a : ndarray A) : result nat :=
  list_getitem (shape a) k.

(** [a.reshape(sh)]: the same buffer under another shape of the same size. *)
Definition reshape {A : Type} (sh : list nat) (a : ndarray A) : result (ndarray A) :=
  if decide (size_of sh = length (data a)) then Ok (mk sh (data a))
  else Raise (ValueError "cannot reshape array").

(** [a.reshape(n, t, -1)]: the last dimension is inferred; numpy refuses
    when the known dimensions multiply to zero or do not divide the size. *)
Definition reshape_infer {A : Type} (n t : nat) (a : ndarray A) : result (ndarray A) :=
  if decide (n * t = 0)%nat then Raise (ValueError "cannot reshape array")
  else if decide (length (data a) `mod` (n * t) = 0)%nat
       then Ok (mk [n; t; (length (data a) `div` (n * t))%nat] (data a))
       else Raise (ValueError "cannot reshape array").

(** Elementwise operations on arrays of one shape. *)
Definition amap (f : R → R) (a : ndarray R) : ndarray R :=
  mk (shape a) (map f (data a)).
Definition ew2 (op : R → R → R) (a b : ndarray R) : ndarray R :=
  mk (shape a) (zip_with op (data a) (data b)).
Definition add : ndarray R → ndarray R → ndarray R := ew2 Rplus.
Definition mul : ndarray R → ndarray R → ndarray R := ew2 Rmult.

(** [a.dot(b)] and [a.T] on matrices. *)
Definition dot (a b : ndarray R) : ndarray R :=
  build2 (dim 0 a) (dim 1 b)
         (λ i j, sum_n (λ k, get2 a i k * get2 b k j) (dim 1 a)).
Definition transpose (a : ndarray R) : ndarray R :=
  build2 (dim 1 a) (dim 0 a) (λ i j, get2 a j i).

(** [a + b] for a matrix [a] and a vector [b], broadcast over the rows. *)
Definition add_bias (a b : ndarray R) : ndarray R :=
  build2 (dim 0 a) (dim 1 a) (λ i j, get2 a i j + get1 b j).

(** [a[:, lo:hi]] for [0 <= lo] and [0 <= hi]. *)
Definition slice_cols (lo hi : nat) (a : ndarray R) : ndarray R :=
  build2 (dim 0 a) (Nat.min hi (dim 1 a) - Nat.min lo (dim 1 a))
         (λ i j, get2 a i (lo + j)).

(** [np.sum(a, axis=0)] on a matrix. *)
Definition sum_axis0 (a : ndarray R) : ndarray R :=
  build1 (dim 1 a) (λ j, sum_n (λ i, get2 a i j) (dim 0 a)).

(** [a.sum(axis=(0, 1))] on a rank 3 array. *)
Definition sum_axis01 (a : ndarray R) : ndarray R :=
  build1 (dim 2 a)
         (λ k, sum_n (λ i, sum_n (λ j, get3 a i j k) (dim 1 a)) (dim 0 a)).

(** [a[:, t, :]] for [0 <= t]. *)
Definition tslice (a : ndarray R) (t : nat) : result (ndarray R) :=
  if decide (t < dim 1 a)%nat
  then Ok (build2 (dim 0 a) (dim 2 a) (λ i k, get3 a i t k))
  else Raise IndexError.

(** [a[:, t, :] = m], in range. *)
Definition set_tslice (a : ndarray R) (t : nat) (m : ndarray R) : ndarray R :=
  build3 (dim 0 a) (dim 1 a) (dim 2 a)
         (λ i j k, if decide (j = t) then get2 m i k else get3 a i j k).

(** An index [i] into an axis of length [n]: negative indices count from
    the end, and anything outside [-n <= i < n] is an [IndexError]. *)
Definition resolve_index (n : nat) (i : Z) : result nat :=
  if decide (0 ≤ i < Z.of_nat n)%Z then Ok (Z.to_nat i)
  else if decide (- Z.of_nat n ≤ i < 0)%Z then Ok (Z.to_nat (i + Z.of_nat n))
  else Raise IndexError.

(** Every entry of the index array [a] is a position [0 <= i < n]. *)
Definition valid_indices (n : nat) (a : ndarray Z) : Prop :=
  Forall (λ z, (0 ≤ z < Z.of_nat n)%Z) (data a).

(** Resolve every index of a list, in order. *)
Fixpoint resolve_all (n : nat) (l : list Z) : result (list nat) :=
  match l with
  | [] => Ok []
  | i :: l' =>
      k <- resolve_index n i ;;
      ks <- resolve_all n l' ;;
      Ok (k :: ks)
  end.

(** [a[np.arange(a.shape[0]), idx]]: one entry of every row.  The two index
    arrays must have one length (numpy would also broadcast an index array
    of length one, which no caller below produces). *)
Definition take_rows (a : ndarray R) (idx : ndarray Z) : result (ndarray R) :=
  if decide (dim 0 a = length (data idx)) then
    ks <- resolve_all (dim 1 a) (data idx) ;;
    Ok (build1 (dim 0 a) (λ r, get2 a r (nth r ks 0%nat)))
  else Raise IndexError.

(** [a[np.arange(a.shape[0]), idx] -= v] *)
Definition sub_at_rows (a : ndarray R) (idx : ndarray Z) (v : R) : result (ndarray R) :=
  if decide (dim 0 a = length (data idx)) then
    ks <- resolve_all (dim 1 a) (data idx) ;;
    Ok (build2 (dim 0 a) (dim 1 a)
               (λ r j, if decide (j = nth r ks 0%nat) then get2 a r j - v
                       else get2 a r j))
  else Raise IndexError.

(** [np.max(a, axis=1, keepdims=True)] and [np.sum(a, axis=1,
    keepdims=True)] on a matrix, as the vector of the row values; numpy
    refuses the maximum of empty rows. *)
Definition max_axis1 (a : ndarray R) : result (ndarray R) :=
  if decide (dim 1 a = 0 ∧ dim 0 a ≠ 0)%nat
  then Raise (ValueError "zero-size array to reduction operation maximum")
  else Ok (build1 (dim 0 a) (λ i, max_n (λ j, get2 a i j) (dim 1 a))).
Definition sum_axis1 (a : ndarray R) : ndarray R :=
  build1 (dim 0 a) (λ i, sum_n (λ j, get2 a i j) (dim 1 a)).

(** A matrix combined with one value per row ([m[:, None]]). *)
Definition row_op (op : R → R → R) (a m : ndarray R) : ndarray R :=
  build2 (dim 0 a) (dim 1 a) (λ i j, op (get2 a i j) (get1 m i)).

(** [np.sum(a)] on a vector. *)
Definition sum1 (a : ndarray R) : R := sum_n (get1 a) (dim 0 a).

(** [a + b] for a rank 3 array [a] and a vector [b] along the last axis. *)
Definition add_bias3 (a b : ndarray R) : ndarray R :=
  build3 (dim 0 a) (dim 1 a) (dim 2 a) (λ i j k, get3 a i j k + get1 b k).

(** [w[x, :]]: the rows of the matrix [w] selected by the index array [x]. *)
Definition gather_rows (w : ndarray R) (x : ndarray Z) : result (ndarray R) :=
  ks <- resolve_all (dim 0 w) (data x) ;;
  Ok (mk (shape x ++ [dim 1 w])
         (flat_map (λ k, map (λ j, get2 w k j) (seq 0 (dim 1 w))) ks)).

(** [g[k, :] += row] *)
Definition add_row (g : ndarray R) (k : nat) (row : nat → R) : ndarray R :=
  build2 (dim 0 g) (dim 1 g)
         (λ i j, if decide (i = k) then get2 g i j + row j else get2 g i j).

(** [np.add.at(g, x, dout)] for a matrix [g]: the rows of [dout], taken in
    the order of the indices of [x], are added one after the other to the
    rows of [g] they name; an index that occurs again adds again. *)
Fixpoint add_at_loop (dout : list R) (p : nat) (ks : list nat) (g : ndarray R)
  : ndarray R :=
  match ks with
  | [] => g
  | k :: ks' =>
      add_at_loop dout (S p) ks'
                  (add_row g k (λ j, nth (p * dim 1 g + j)%nat dout 0))
  end.
Definition add_at (g : ndarray R) (x : ndarray Z) (dout : ndarray R)
  : result (ndarray R) :=
  ks <- resolve_all (dim 0 g) (data x) ;;
  Ok (add_at_loop (data dout) 0 ks g).

(** [np.hstack((a, b))] for two matrices with the same number of rows, and
    for two vectors. *)
Definition hstack2 (a b : ndarray R) : ndarray R :=
  build2 (dim 0 a) (dim 1 a + dim 1 b)
         (λ i j, if decide (j < dim 1 a)%nat then get2 a i j
                 else get2 b i (j - dim 1 a)).
Definition hstack1 (a b : ndarray R) : ndarray R :=
  mk [(dim 0 a + dim 0 b)%nat] (data a ++ data b).

(** [np.vectorize(f)(a)]: [f] on every element; numpy refuses an array
    without elements. *)
Definition vectorize (f : R → R) (a : ndarray R) : result (ndarray R) :=
  if decide (length (data a) = 0%nat)
  then Raise (ValueError "cannot call `vectorize` on size 0 inputs unless `otypes` is set")
  else Ok (amap f a).

End Np.

(** A loop whose body can raise. *)
Fixpoint for_each {S I : Type} (body : S → I → result S) (l : list I) (s : S)
  : result S :=
  match l with
  | [] => Ok s
  | i :: l' => s' <- body s i ;; for_each body l' s'
  end.

(* ===================================================================== *)
(** * Numeric kernel helpers *)
(* ===================================================================== *)

Section kernel.
Local Open Scope R_scope.

(** One element of [sigmoid]: [z] and [top] as the two masks fill them.
    Over the real numbers the value lies strictly between 0 and 1; the
    binary64 value is exactly 0.0 or 1.0 on an argument of large
    magnitude, so that properties of the code bound it by 0 and 1
    included. *)
Definition sigmoid1 (x : R) : R :=
  let z := if Rle_dec 0 x then exp (- x) else exp x in
  let top := if Rle_dec 0 x then 1 else z in
  top / (1 + z).

Definition sigmoid (x : Np.ndarray R) : Np.ndarray R := Np.amap sigmoid1 x.

Definition sigmoid_derivative (values : Np.ndarray R) : Np.ndarray R :=
  Np.amap (λ v, v * (1 - v)) values.

(** The logistic function, as the specification writes it. *)
Definition logistic (x : R) : R := 1 / (1 + exp (- x)).

End kernel.

(* ===================================================================== *)
(** * The special values of binary64 *)
(* ===================================================================== *)

(** The results that binary64 arithmetic gives outside the real numbers:
    a value is a number, an infinity or [nan].  Of the rounding, only the
    rounding to zero is modelled: a result of magnitude at most
    [2^-1075], half the smallest positive binary64 number, is zero.
    Overflow is not modelled; it does not occur in the code this is used
    for, whose numbers are probabilities, their logarithms and sums of
    these. *)
Module Ieee.
Local Open Scope R_scope.

Inductive t : Type :=
| Num (r : R)
| PInf
| NInf
| NaN.

(** Half the smallest positive number, and the smallest normal number. *)
Definition tiny : R := / 2 ^ 1075.
Definition min_normal : R := / 2 ^ 1022.

Definition underflow (r : R) : R := if Rle_dec (Rabs r) tiny then 0 else r.

(** [np.exp] at an argument that is not positive, and the quotient of two
    numbers by a divisor that is not zero; both can underflow. *)
Definition exp (x : R) : R := underflow (Rtrigo_def.exp x).
Definition div (a b : R) : R := underflow (a / b).

(** [np.log] of a number: [-inf] at zero, [nan] below. *)
Definition log (p : R) : t :=
  if Rlt_dec 0 p then Num (ln p)
  else if Rlt_dec p 0 then NaN else NInf.

(** The product of a number and a value: zero times an infinity is
    [nan]. *)
Definition mul (m : R) (v : t) : t :=
  match v with
  | Num r => Num (m * r)
  | PInf => if Rlt_dec 0 m then PInf else if Rlt_dec m 0 then NInf else NaN
  | NInf => if Rlt_dec 0 m then NInf else if Rlt_dec m 0 then PInf else NaN
  | NaN => NaN
  end.

Definition add (a b : t) : t :=
  match a, b with
  | NaN, _ | _, NaN => NaN
  | PInf, NInf | NInf, PInf => NaN
  | PInf, _ | _, PInf => PInf
  | NInf, _ | _, NInf => NInf
  | Num x, Num y => Num (x + y)
  end.

Definition neg (a : t) : t :=
  match a with
  | Num r => Num (- r)
  | PInf => NInf
  | NInf => PInf
  | NaN => NaN
  end.

(** [np.sum] of the values of a vector. *)
Definition sum (l : list t) : t := fold_left add l (Num 0).

(** [a / n] for a value [a] and a Python integer [n >= 0]: a numpy scalar
    divided by zero is an infinity, or [nan] when it is zero itself. *)
Definition div_int (a : t) (n : nat) : t :=
  match a with
  | Num r =>
      if decide (n = 0%nat)
      then if Rlt_dec 0 r then PInf else if Rlt_dec r 0 then NInf else NaN
      else Num (r / INR n)
  | _ => a
  end.

(** A value that is not negative: a number [>= 0], [+inf] or [nan]. *)
Definition not_negative (a : t) : Prop :=
  match a with
  | Num r => 0 <= r
  | PInf | NaN => True
  | NInf => False
  end.

End Ieee.

(* ===================================================================== *)
(** * temporal_softmax_loss *)
(* ===================================================================== *)

Module temporal_softmax_loss.
Import Np.
Local Open Scope R_scope.

(** The attributes of the loss unit.  [label] is [None] until a forward;
    [mask] does not exist until a forward ([None] here as well). *)
Record t : Type := mkT {
  dim_average : bool;
  dLoss : option (ndarray R);
  label : option (ndarray Z);
  mask : option (ndarray R)
}.

Definition __init__ (dim_average : bool) : t := mkT dim_average None None None.

Definition no_forward : string :=
  "No forward function called before for this module!".

(** [forward] over the real numbers.  The stored probabilities are those
    of the code up to rounding (a binary64 probability can be exactly
    0.0); the loss is that of the code up to rounding when no probability
    underflows and the batch is not empty.  [forward_ieee] below covers
    the other inputs. *)
Definition forward (self : t) (feat : ndarray R) (label : ndarray Z)
           (mask : ndarray R) : result (R * t) :=
  match shape feat with
  | [N; T; V] =>
      feat_flat <- reshape [N * T; V]%nat feat ;;
      label_flat <- reshape [N * T]%nat label ;;
      mask_flat <- reshape [N * T]%nat mask ;;
      rowmax <- max_axis1 feat_flat ;;
      let probs := amap exp (row_op Rminus feat_flat rowmax) in
      let probs := row_op Rdiv probs (sum_axis1 probs) in
      picked <- take_rows probs label_flat ;;
      let loss := - sum1 (mul mask_flat (amap ln picked)) in
      let loss := if dim_average self then loss / INR N else loss in
      Ok (loss, mkT (dim_average self) (Some probs) (Some label) (Some mask))
  | _ => Raise (ValueError "unpack")
  end.

(** [forward] with the special values of binary64: the same statements,
    where [np.exp] and the division of the probabilities can underflow to
    zero, [np.log] of zero is [-inf], and the loss is a value of
    [Ieee.t]. *)
Definition forward_ieee (self : t) (feat : ndarray R) (label : ndarray Z)
           (mask : ndarray R) : result (Ieee.t * t) :=
  match shape feat with
  | [N; T; V] =>
      feat_flat <- reshape [N * T; V]%nat feat ;;
      label_flat <- reshape [N * T]%nat label ;;
      mask_flat <- reshape [N * T]%nat mask ;;
      rowmax <- max_axis1 feat_flat ;;
      let probs := amap Ieee.exp (row_op Rminus feat_flat rowmax) in
      let probs := row_op Ieee.div probs (sum_axis1 probs) in
      picked <- take_rows probs label_flat ;;
      let loss :=
        Ieee.neg (Ieee.sum (zip_with Ieee.mul (data mask_flat)
                                     (map Ieee.log (data picked)))) in
      let loss := if dim_average self then Ieee.div_int loss N else loss in
      Ok (loss, mkT (dim_average self) (Some probs) (Some label) (Some mask))
  | _ => Raise (ValueError "unpack")
  end.

Definition backward (self : t) : result (ndarray R * t) :=
  lab <- match label self with
         | Some l => Ok l
         | None => Raise AttributeError
         end ;;
  match shape lab with
  | [N; T] =>
      match dLoss self with
      | None => Raise (ValueError no_forward)
      | Some dLoss =>
          label_flat <- reshape [N * T]%nat lab ;;
          dLoss <- sub_at_rows dLoss label_flat 1 ;;
          let dLoss :=
            if dim_average self then amap (λ v, v / INR N) dLoss else dLoss in
          msk <- match mask self with
                 | Some m => Ok m
                 | None => Raise AttributeError
                 end ;;
          mask_flat <- reshape [N * T]%nat msk ;;
          let dLoss := row_op Rmult dLoss mask_flat in
          out <- reshape_infer N T dLoss ;;
          Ok (out, mkT (dim_average self) (Some dLoss) (label self) (mask self))
      end
  | _ => Raise (ValueError "unpack")
  end.

(** The specification's words: the softmax probability of class [j] in row
    [r], computed after subtracting the maximum of the row, and the loss as
    a sum over the positions whose mask is one. *)
Definition softmax_prob (V : nat) (feat_flat : ndarray R) (r j : nat) : R :=
  let m := max_n (λ k, get2 feat_flat r k) V in
  exp (get2 feat_flat r j - m) / sum_n (λ k, exp (get2 feat_flat r k - m)) V.

Definition true_class (label : ndarray Z) (r : nat) : nat :=
  Z.to_nat (nth r (data label) 0%Z).

(** A mask of zeros and ones. *)
Definition binary_mask (mask : ndarray R) : Prop :=
  Forall (λ m, m = 0 ∨ m = 1) (data mask).

Definition masked_positions (mask : ndarray R) (n : nat) : list nat :=
  filter (λ r, nth r (data mask) 0 = 1) (seq 0 n).

Definition masked_nll (N T V : nat) (feat : ndarray R) (label : ndarray Z)
           (mask : ndarray R) : R :=
  - Rsum_list (map (λ r, ln (softmax_prob V (mk [N * T; V]%nat (data feat)) r
                                         (true_class label r)))
                   (masked_positions mask (N * T))).

(** No softmax probability underflows: each is at least the smallest
    normal binary64 number. *)
Definition no_underflow (N T V : nat) (feat : ndarray R) : Prop :=
  ∀ r j, (r < N * T)%nat → (j < V)%nat →
    Ieee.min_normal <= softmax_prob V (mk [N * T; V]%nat (data feat)) r j.

(** The probabilities that [forward_ieee] stores, and the value of its
    loss before the division, from the stored probabilities. *)
Definition ieee_prob (V : nat) (ff : ndarray R) (r j : nat) : R :=
  let m := max_n (λ k, get2 ff r k) V in
  Ieee.div (Ieee.exp (get2 ff r j - m))
           (sum_n (λ k, Ieee.exp (get2 ff r k - m)) V).

Definition ieee_sum (N T : nat) (probs : ndarray R) (label : ndarray Z)
           (mask : ndarray R) : Ieee.t :=
  Ieee.neg (Ieee.sum (zip_with Ieee.mul (data mask)
     (map (λ r, Ieee.log (get2 probs r (true_class label r))) (seq 0 (N * T))))).

(** What one [backward] makes of the stored entry [p] in column [j] of a
    row whose true class is [cls] and whose mask is [m]: one is subtracted
    at the true class, the result is divided by [N] when [dim_average] is
    on, and multiplied by the mask. *)
Definition grad_entry (avg : bool) (N : nat) (cls : nat) (m : R) (j : nat)
           (p : R) : R :=
  let s := if decide (j = cls) then p - 1 else p in
  (if avg then s / INR N else s) * m.

End temporal_softmax_loss.

(* ===================================================================== *)
(** * VanillaRNN *)
(* ===================================================================== *)

Module VanillaRNN.
Import Np.
Local Open Scope R_scope.

(** [meta] is [None] after construction and a list with one entry
    [[x, prev_h, next_h]] per timestep after a forward. *)
Record t : Type := mkT {
  name : string;
  wx_name : string;
  wh_name : string;
  b_name : string;
  input_dim : nat;
  h_dim : nat;
  params : gmap string (ndarray R);
  grads : gmap string (option (ndarray R));
  meta : option (list (list (ndarray R)))
}.

(** The constructor; [randn_wx] and [randn_wh] are the draws of
    [np.random.randn]. *)
Definition __init__ (input_dim h_dim : nat) (init_scale : R) (name : string)
           (randn_wx randn_wh : ndarray R) : t :=
  let wx_name := name +:+ "_wx" in
  let wh_name := name +:+ "_wh" in
  let b_name := name +:+ "_b" in
  mkT name wx_name wh_name b_name input_dim h_dim
      (<[b_name := zeros [h_dim]]>
         (<[wh_name := amap (Rmult init_scale) randn_wh]>
            (<[wx_name := amap (Rmult init_scale) randn_wx]> ∅)))
      (<[b_name := None]> (<[wh_name := None]> (<[wx_name := None]> ∅)))
      None.

Definition step_forward (self : t) (x prev_h : ndarray R)
  : result (ndarray R * list (ndarray R)) :=
  if decide (size_of (tail (shape x)) = input_dim self) then
    Wx <- getitem (params self) (wx_name self) ;;
    Wh <- getitem (params self) (wh_name self) ;;
    b <- getitem (params self) (b_name self) ;;
    let next_h := amap tanh (add_bias (add (dot x Wx) (dot prev_h Wh)) b) in
    Ok (next_h, [x; prev_h; next_h])
  else Raise AssertionError.

(** The five gradients of one timestep: [(dx, dprev_h, dWx, dWh, db)]. *)
Record step_grads : Type := mkG {
  g_dx : ndarray R;
  g_dprev_h : ndarray R;
  g_dWx : ndarray R;
  g_dWh : ndarray R;
  g_db : ndarray R
}.

Definition step_backward (self : t) (dnext_h : ndarray R)
           (meta : list (ndarray R)) : result step_grads :=
  match meta with
  | [x; prev_h; next_h] =>
      let dtanh := mul dnext_h (amap (λ v, 1 - v ^ 2) next_h) in
      Wx <- getitem (params self) (wx_name self) ;;
      let dx := dot dtanh (transpose Wx) in
      Wh <- getitem (params self) (wh_name self) ;;
      let dprev_h := dot dtanh (transpose Wh) in
      let dWx := dot (transpose x) dtanh in
      let dWh := dot (transpose prev_h) dtanh in
      let db := sum_axis0 dtanh in
      Ok (mkG dx dprev_h dWx dWh db)
  | _ => Raise (ValueError "unpack")
  end.

(** The variables of the loop of [forward]. *)
Definition forward_body (self : t) (x : ndarray R)
           (st : ndarray R * list (list (ndarray R))) (i : nat)
  : result (ndarray R * list (list (ndarray R))) :=
  let '(h, metas) := st in
  xi <- tslice x i ;;
  hprev <- tslice h (i - 1) ;;
  '(hi, meta_i) <- step_forward self xi hprev ;;
  Ok (set_tslice h i hi, metas ++ [meta_i]).

Definition forward (self : t) (x h0 : ndarray R) : result (ndarray R * t) :=
  N <- shape_at 0 x ;;
  T <- shape_at 1 x ;;
  H <- shape_at 1 h0 ;;
  let h := zeros [N; T; H] in
  x0 <- tslice x 0 ;;
  '(h_0, meta_i) <- step_forward self x0 h0 ;;
  '(h, metas) <- for_each (forward_body self x) (seq 1 (T - 1))
                          (set_tslice h 0 h_0, [meta_i]) ;;
  Ok (h, mkT (name self) (wx_name self) (wh_name self) (b_name self)
             (input_dim self) (h_dim self) (params self) (grads self)
             (Some metas)).

(** The variables of the loop of [backward]. *)
Record bw_state : Type := mkS {
  s_dnext_h : ndarray R;
  s_dx : ndarray R;
  s_dh0 : ndarray R;
  s_gWx : ndarray R;
  s_gWh : ndarray R;
  s_gb : ndarray R
}.

Definition backward_body (self : t) (dh : ndarray R)
           (metas : list (list (ndarray R))) (st : bw_state) (i : nat)
  : result bw_state :=
  meta_i <- list_getitem metas i ;;
  g <- step_backward self (s_dnext_h st) meta_i ;;
  let dx := set_tslice (s_dx st) i (g_dx g) in
  '(dh0, dnext_h) <-
     (if decide (i = 0)%nat then Ok (g_dprev_h g, s_dnext_h st)
      else (dhp <- tslice dh (i - 1) ;;
            Ok (s_dh0 st, add (g_dprev_h g) dhp))) ;;
  Ok (mkS dnext_h dx dh0
          (add (s_gWx st) (g_dWx g))
          (add (s_gWh st) (g_dWh g))
          (add (s_gb st) (g_db g))).

Definition backward (self : t) (dh : ndarray R)
  : result (ndarray R * ndarray R * t) :=
  N <- shape_at 0 dh ;;
  T <- shape_at 1 dh ;;
  H <- shape_at 2 dh ;;
  metas <- match meta self with
           | Some ms => Ok ms
           | None => Raise TypeError
           end ;;
  meta_0 <- list_getitem metas 0 ;;
  x_0 <- list_getitem meta_0 0 ;;
  D <- shape_at 1 x_0 ;;
  dnext_h <- (if decide (T = 0)%nat then Raise IndexError
              else tslice dh (T - 1)) ;;
  st <- for_each (backward_body self dh metas) (rev (seq 0 T))
                 (mkS dnext_h (zeros [N; T; D]) (zeros [N; H])
                      (zeros [D; H]) (zeros [H; H]) (zeros [H])) ;;
  Ok (s_dx st, s_dh0 st,
      mkT (name self) (wx_name self) (wh_name self) (b_name self)
          (input_dim self) (h_dim self) (params self)
          (<[b_name self := Some (s_gb st)]>
             (<[wh_name self := Some (s_gWh st)]>
                (<[wx_name self := Some (s_gWx st)]> (grads self))))
          (Some [])).

(** Backpropagation through time in the specification's words.
    [bptt self dh metas T i gs rs] relates the timesteps [i], ..., [T - 1]:
    [gs] lists the hidden-state gradients that come into these timesteps and
    [rs] the gradients that [step_backward] returns for them.  At the last
    timestep the incoming gradient is [dh[:, T-1, :]]; at an earlier one it
    is the sum of [dh] at that timestep and of the recurrent gradient of the
    timestep that follows. *)
Inductive bptt (self : t) (dh : ndarray R) (metas : list (list (ndarray R)))
          (T : nat) : nat → list (ndarray R) → list step_grads → Prop :=
| bptt_last i g r mi :
    T = S i →
    tslice dh i = Ok g →
    metas !! i = Some mi →
    step_backward self g mi = Ok r →
    bptt self dh metas T i [g] [r]
| bptt_earlier i g r mi dhi r' gs rs :
    bptt self dh metas T (S i) gs (r' :: rs) →
    tslice dh i = Ok dhi →
    g = add dhi (g_dprev_h r') →
    metas !! i = Some mi →
    step_backward self g mi = Ok r →
    bptt self dh metas T i (g :: gs) (r :: r' :: rs).

(** An entry of [meta] as [step_forward] leaves it. *)
Definition meta_shaped (N D H : nat) (m : list (ndarray R)) : Prop :=
  ∃ x prev_h next_h, m = [x; prev_h; next_h]
    ∧ has_shape x [N; D] ∧ has_shape prev_h [N; H] ∧ has_shape next_h [N; H].

(** The invariant of the loop of [backward] when the timesteps [k], ...,
    [T - 1] have been processed. *)
Record bw_inv (self : t) (dh : ndarray R) (metas : list (list (ndarray R)))
       (N T D H : nat) (k : nat) (st : bw_state) (gs : list (ndarray R))
       (rs : list step_grads) : Prop := {
  inv_len : length rs = (T - k)%nat;
  inv_len_gs : length gs = length rs;
  inv_dnext : has_shape (s_dnext_h st) [N; H];
  inv_dx : has_shape (s_dx st) [N; T; D];
  inv_gWx : has_shape (s_gWx st) [D; H];
  inv_gWh : has_shape (s_gWh st) [H; H];
  inv_gb : has_shape (s_gb st) [H];
  inv_bptt : match rs with
             | [] => k = T ∧ tslice dh (T - 1) = Ok (s_dnext_h st)
             | r :: _ =>
                 bptt self dh metas T k gs rs
                 ∧ has_shape (g_dprev_h r) [N; H]
                 ∧ (k = 0%nat → s_dh0 st = g_dprev_h r)
                 ∧ (k ≠ 0%nat → ∃ dhi, tslice dh (k - 1) = Ok dhi
                                  ∧ s_dnext_h st = add dhi (g_dprev_h r))
             end;
  inv_dx_at : ∀ j r n d, rs !! j = Some r → (n < N)%nat → (d < D)%nat →
                get3 (s_dx st) n (k + j) d = get2 (g_dx r) n d;
  inv_sum_Wx : ∀ d h, (d < D)%nat → (h < H)%nat →
                get2 (s_gWx st) d h = Rsum_list (map (λ r, get2 (g_dWx r) d h) rs);
  inv_sum_Wh : ∀ d h, (d < H)%nat → (h < H)%nat →
                get2 (s_gWh st) d h = Rsum_list (map (λ r, get2 (g_dWh r) d h) rs);
  inv_sum_b : ∀ h, (h < H)%nat →
                get1 (s_gb st) h = Rsum_list (map (λ r, get1 (g_db r) h) rs)
}.

End VanillaRNN.

(* ===================================================================== *)
(** * LSTM *)
(* ===================================================================== *)

Module LSTM.
Import Np.
Local Open Scope R_scope.

Record t : Type := mkT {
  name : string;
  wx_name : string;
  wh_name : string;
  b_name : string;
  input_dim : nat;
  h_dim : nat;
  params : gmap string (ndarray R);
  grads : gmap string (option (ndarray R));
  meta : option (list (list (ndarray R)))
}.

Definition __init__ (input_dim h_dim : nat) (init_scale : R) (name : string)
           (randn_wx randn_wh : ndarray R) : t :=
  let wx_name := name +:+ "_wx" in
  let wh_name := name +:+ "_wh" in
  let b_name := name +:+ "_b" in
  mkT name wx_name wh_name b_name input_dim h_dim
      (<[b_name := zeros [4 * h_dim]%nat]>
         (<[wh_name := amap (Rmult init_scale) randn_wh]>
            (<[wx_name := amap (Rmult init_scale) randn_wx]> ∅)))
      (<[b_name := None]> (<[wh_name := None]> (<[wx_name := None]> ∅)))
      None.

Definition step_forward (self : t) (x prev_h prev_c : ndarray R)
  : result (ndarray R * ndarray R * list (ndarray R)) :=
  Wx <- getitem (params self) (wx_name self) ;;
  Wh <- getitem (params self) (wh_name self) ;;
  b <- getitem (params self) (b_name self) ;;
  let A := add_bias (add (dot x Wx) (dot prev_h Wh)) b in
  let H := h_dim self in
  let a_i := slice_cols 0 H A in
  let i_t := sigmoid a_i in
  let a_f := slice_cols H (2 * H) A in
  let f_t := sigmoid a_f in
  let a_o := slice_cols (2 * H) (3 * H) A in
  let o_t := sigmoid a_o in
  let a_g := slice_cols (3 * H) (4 * H) A in
  let g_t := amap tanh a_g in
  let c_t := add (mul f_t prev_c) (mul i_t g_t) in
  let h_t := mul o_t (amap tanh c_t) in
  let next_h := h_t in
  let next_c := c_t in
  Ok (next_h, next_c, [x; prev_h; next_h; prev_c; i_t; f_t; c_t; o_t; g_t]).

(** The pre-activation [A[n, j]] as the specification writes it. *)
Definition affine (x prev_h Wx Wh b : ndarray R) (D H n j : nat) : R :=
  sum_n (λ d, get2 x n d * get2 Wx d j) D
  + sum_n (λ k, get2 prev_h n k * get2 Wh k j) H
  + get1 b j.

(** The six gradients of one timestep:
    [(dx, dprev_h, dprev_c, dWx, dWh, db)]. *)
Record step_grads : Type := mkG {
  g_dx : ndarray R;
  g_dprev_h : ndarray R;
  g_dprev_c : ndarray R;
  g_dWx : ndarray R;
  g_dWh : ndarray R;
  g_db : ndarray R
}.

(** The four gate gradients side by side, [np.hstack((a, b, c, d))]. *)
Definition hstack4 (a b c d : ndarray R) : ndarray R :=
  hstack2 (hstack2 (hstack2 a b) c) d.

Definition step_backward (self : t) (dnext_h dnext_c : ndarray R)
           (meta : list (ndarray R)) : result step_grads :=
  let dsigmoid := vectorize (λ x, x * (1 - x)) in
  let dtanh := vectorize (λ x, 1 - tanh x ^ 2) in
  let dtanh2 := vectorize (λ x, 1 - x ^ 2) in
  let dh := dnext_h in
  match meta with
  | [x; prev_h; next_h; prev_c; i_t; f_t; c_t; o_t; g_t] =>
      dtanh_c <- dtanh c_t ;;
      let dc_t := add (mul (mul dh o_t) dtanh_c) dnext_c in
      dsig_o <- dsigmoid o_t ;;
      let do_t := mul (mul (amap tanh c_t) dh) dsig_o in
      dtanh2_g <- dtanh2 g_t ;;
      let dg_t := mul (mul dc_t i_t) dtanh2_g in
      dsig_f <- dsigmoid f_t ;;
      let df_t := mul (mul dc_t prev_c) dsig_f in
      dsig_i <- dsigmoid i_t ;;
      let di_t := mul (mul dc_t g_t) dsig_i in
      let db := hstack1 (hstack1 (hstack1 (sum_axis0 di_t) (sum_axis0 df_t))
                                 (sum_axis0 do_t)) (sum_axis0 dg_t) in
      let dWx_i := dot (transpose x) di_t in
      let dWx_f := dot (transpose x) df_t in
      let dWx_o := dot (transpose x) do_t in
      let dWx_g := dot (transpose x) dg_t in
      let dWx := hstack4 dWx_i dWx_f dWx_o dWx_g in
      let dWh_i := dot (transpose prev_h) di_t in
      let dWh_f := dot (transpose prev_h) df_t in
      let dWh_o := dot (transpose prev_h) do_t in
      let dWh_g := dot (transpose prev_h) dg_t in
      let dWh := hstack4 dWh_i dWh_f dWh_o dWh_g in
      let H := h_dim self in
      Wx <- getitem (params self) (wx_name self) ;;
      let dx_i := dot di_t (transpose (slice_cols 0 H Wx)) in
      let dx_f := dot df_t (transpose (slice_cols H (2 * H) Wx)) in
      let dx_o := dot do_t (transpose (slice_cols (2 * H) (3 * H) Wx)) in
      let dx_g := dot dg_t (transpose (slice_cols (3 * H) (4 * H) Wx)) in
      let dx := add (add (add dx_i dx_f) dx_o) dx_g in
      Wh <- getitem (params self) (wh_name self) ;;
      let dprev_h_i := dot di_t (transpose (slice_cols 0 H Wh)) in
      let dprev_h_f := dot df_t (transpose (slice_cols H (2 * H) Wh)) in
      let dprev_h_o := dot do_t (transpose (slice_cols (2 * H) (3 * H) Wh)) in
      let dprev_h_g := dot dg_t (transpose (slice_cols (3 * H) (4 * H) Wh)) in
      let dprev_h := add (add (add dprev_h_i dprev_h_f) dprev_h_o) dprev_h_g in
      let dprev_c := mul dc_t f_t in
      Ok (mkG dx dprev_h dprev_c dWx dWh db)
  | _ => Raise (ValueError "unpack")
  end.

(** The variables of the loop of [forward]: [h], [c] and [self.meta]. *)
Definition forward_body (self : t) (x : ndarray R)
           (st : ndarray R * ndarray R * list (list (ndarray R))) (i : nat)
  : result (ndarray R * ndarray R * list (list (ndarray R))) :=
  let '(h, c, metas) := st in
  xi <- tslice x i ;;
  hprev <- tslice h (i - 1) ;;
  cprev <- tslice c (i - 1) ;;
  '(hi, ci, meta_i) <- step_forward self xi hprev cprev ;;
  Ok (set_tslice h i hi, set_tslice c i ci, metas ++ [meta_i]).

Definition forward (self : t) (x h0 : ndarray R) : result (ndarray R * t) :=
  N <- shape_at 0 x ;;
  T <- shape_at 1 x ;;
  H <- shape_at 1 h0 ;;
  let h := zeros [N; T; H] in
  let c := zeros [N; T; H] in
  let c0 := zeros (shape h0) in
  x0 <- tslice x 0 ;;
  '(h_0, c_0, meta_i) <- step_forward self x0 h0 c0 ;;
  '(h, c, metas) <- for_each (forward_body self x) (seq 1 (T - 1))
                             (set_tslice h 0 h_0, set_tslice c 0 c_0, [meta_i]) ;;
  Ok (h, mkT (name self) (wx_name self) (wh_name self) (b_name self)
             (input_dim self) (h_dim self) (params self) (grads self)
             (Some metas)).

(** The variables of the loop of [backward]. *)
Record bw_state : Type := mkS {
  s_dnext_h : ndarray R;
  s_dnext_c : ndarray R;
  s_dx : ndarray R;
  s_dh0 : ndarray R;
  s_gWx : ndarray R;
  s_gWh : ndarray R;
  s_gb : ndarray R
}.

Definition backward_body (self : t) (dh : ndarray R)
           (metas : list (list (ndarray R))) (st : bw_state) (i : nat)
  : result bw_state :=
  meta_i <- list_getitem metas i ;;
  g <- step_backward self (s_dnext_h st) (s_dnext_c st) meta_i ;;
  let dx := set_tslice (s_dx st) i (g_dx g) in
  '(dh0, dnext_h) <-
     (if decide (i = 0)%nat then Ok (g_dprev_h g, s_dnext_h st)
      else (dhp <- tslice dh (i - 1) ;;
            Ok (s_dh0 st, add (g_dprev_h g) dhp))) ;;
  Ok (mkS dnext_h (g_dprev_c g) dx dh0
          (add (s_gWx st) (g_dWx g))
          (add (s_gWh st) (g_dWh g))
          (add (s_gb st) (g_db g))).

Definition backward (self : t) (dh : ndarray R)
  : result (ndarray R * ndarray R * t) :=
  N <- shape_at 0 dh ;;
  T <- shape_at 1 dh ;;
  H <- shape_at 2 dh ;;
  metas <- match meta self with
           | Some ms => Ok ms
           | None => Raise TypeError
           end ;;
  meta_0 <- list_getitem metas 0 ;;
  x_0 <- list_getitem meta_0 0 ;;
  D <- shape_at 1 x_0 ;;
  dnext_h <- (if decide (T = 0)%nat then Raise IndexError
              else tslice dh (T - 1)) ;;
  let dnext_c := zeros (shape dnext_h) in
  st <- for_each (backward_body self dh metas) (rev (seq 0 T))
                 (mkS dnext_h dnext_c (zeros [N; T; D]) (zeros [N; H])
                      (zeros [D; 4 * H]%nat) (zeros [H; 4 * H]%nat)
                      (zeros [(4 * H)%nat])) ;;
  Ok (s_dx st, s_dh0 st,
      mkT (name self) (wx_name self) (wh_name self) (b_name self)
          (input_dim self) (h_dim self) (params self)
          (<[b_name self := Some (s_gb st)]>
             (<[wh_name self := Some (s_gWh st)]>
                (<[wx_name self := Some (s_gWx st)]> (grads self))))
          (Some [])).

End LSTM.

(* ===================================================================== *)
(** * word_embedding *)
(* ===================================================================== *)

Module word_embedding.
Import Np.
Local Open Scope R_scope.

(** [meta] is [None] after construction and [[out, x]] after a forward. *)
Record t : Type := mkT {
  name : string;
  w_name : string;
  voc_dim : nat;
  vec_dim : nat;
  params : gmap string (ndarray R);
  grads : gmap string (option (ndarray R));
  meta : option (ndarray R * ndarray Z)
}.

Definition __init__ (voc_dim vec_dim : nat) (name : string)
           (randn_w : ndarray R) : t :=
  let w_name := name +:+ "_w" in
  mkT name w_name voc_dim vec_dim (<[w_name := randn_w]> ∅)
      (<[w_name := None]> ∅) None.

Definition forward (self : t) (x : ndarray Z) : result (ndarray R * t) :=
  W <- getitem (params self) (w_name self) ;;
  out <- gather_rows W x ;;
  Ok (out, mkT (name self) (w_name self) (voc_dim self) (vec_dim self)
               (params self) (grads self) (Some (out, x))).

Definition backward (self : t) (dout : ndarray R) : result t :=
  match meta self with
  | None => Raise TypeError
  | Some (out, x) =>
      W <- getitem (params self) (w_name self) ;;
      g <- add_at (zeros (shape W)) x dout ;;
      Ok (mkT (name self) (w_name self) (voc_dim self) (vec_dim self)
              (params self) (<[w_name self := Some g]> (grads self))
              (meta self))
  end.

(** The specification's words: row [v] of the gradient is the sum of the
    rows of [dout] at the positions [(n, t)] where [x] holds [v]. *)
Definition scatter_sum (N T : nat) (x : ndarray Z) (dout : ndarray R)
           (v d : nat) : R :=
  sum_n (λ n, sum_n (λ t,
           if decide (nth (n * T + t)%nat (data x) 0%Z = Z.of_nat v)
           then get3 dout n t d else 0) T) N.

End word_embedding.

(* ===================================================================== *)
(** * temporal_fc *)
(* ===================================================================== *)

Module temporal_fc.
Import Np.
Local Open Scope R_scope.

(** [meta] is [None] after construction and [[x, out]] after a forward. *)
Record t : Type := mkT {
  name : string;
  w_name : string;
  b_name : string;
  input_dim : nat;
  output_dim : nat;
  params : gmap string (ndarray R);
  grads : gmap string (option (ndarray R));
  meta : option (ndarray R * ndarray R)
}.

Definition __init__ (input_dim output_dim : nat) (init_scale : R)
           (name : string) (randn_w : ndarray R) : t :=
  let w_name := name +:+ "_w" in
  let b_name := name +:+ "_b" in
  mkT name w_name b_name input_dim output_dim
      (<[b_name := zeros [output_dim]]>
         (<[w_name := amap (Rmult init_scale) randn_w]> ∅))
      (<[b_name := None]> (<[w_name := None]> ∅)) None.

Definition forward (self : t) (x : ndarray R) : result (ndarray R * t) :=
  match shape x with
  | [N; T; D] =>
      b <- getitem (params self) (b_name self) ;;
      M <- shape_at 0 b ;;
      x_flat <- reshape [N * T; D]%nat x ;;
      W <- getitem (params self) (w_name self) ;;
      o <- reshape [N; T; M] (dot x_flat W) ;;
      let out := add_bias3 o b in
      Ok (out, mkT (name self) (w_name self) (b_name self) (input_dim self)
                   (output_dim self) (params self) (grads self)
                   (Some (x, out)))
  | _ => Raise (ValueError "unpack")
  end.

Definition backward (self : t) (dout : ndarray R) : result (ndarray R * t) :=
  match meta self with
  | None => Raise TypeError
  | Some (x, out) =>
      match shape x with
      | [N; T; D] =>
          b <- getitem (params self) (b_name self) ;;
          M <- shape_at 0 b ;;
          dout_flat <- reshape [N * T; M]%nat dout ;;
          W <- getitem (params self) (w_name self) ;;
          dx <- reshape [N; T; D] (dot dout_flat (transpose W)) ;;
          x_flat <- reshape [N * T; D]%nat x ;;
          let gw := transpose (dot (transpose dout_flat) x_flat) in
          let gb := sum_axis01 dout in
          Ok (dx, mkT (name self) (w_name self) (b_name self)
                      (input_dim self) (output_dim self) (params self)
                      (<[b_name self := Some gb]>
                         (<[w_name self := Some gw]> (grads self)))
                      (meta self))
      | _ => Raise (ValueError "unpack")
      end
  end.

(** The specification's words: the weight gradient computed directly. *)
Definition direct_weight_grad (N T D M : nat) (x dout : ndarray R) : ndarray R :=
  dot (transpose (mk [N * T; D]%nat (data x))) (mk [N * T; M]%nat (data dout)).

End temporal_fc.

(* ===================================================================== *)
(** * RNN, the network container *)
(* ===================================================================== *)

(** The container never looks inside a tensor: it stores, for every name,
    a reference to the array object or [None].  Array objects live in a
    heap, so that [copy] makes a new object and two slots can hold the same
    one. *)
Abbreviation loc := positive (only parsing).
Abbreviation pyval := (option positive) (only parsing).
Abbreviation heap := (gmap positive (Np.ndarray R)) (only parsing).

(** What the container uses of a layer: its [name], its [params] (an object
    without this attribute has [None] here) and its [grads]. *)
Module Layer.
Record t : Type := mk {
  name : string;
  params : option (gmap string pyval);
  grads : gmap string pyval
}.

(** [layer.params] *)
Definition attr_params (layer : t) : result (gmap string pyval) :=
  match params layer with
  | Some d => Ok d
  | None => Raise AttributeError
  end.

(** [layer.params[n] = v] on a layer that has the attribute. *)
Definition set_param (layer : t) (n : string) (v : pyval) : t :=
  mk (name layer) (option_map (λ d, <[n := v]> d) (params layer)) (grads layer).
End Layer.

Module RNN.

Record t : Type := mk {
  params : gmap string pyval;
  grads : gmap string pyval;
  layers : list Layer.t;
  paramName2Indices : gmap string nat;
  layer_names : gmap string bool
}.

Definition existing_name (n : string) : string := "Existing name " +:+ n +:+ "!".

(** The first inner loop of [__init__]: the entries of one layer that are
    not [None] go to the registry, with the position of the layer. *)
Definition register_params (layer_cnt : nat) (d : gmap string pyval)
           (acc : gmap string pyval * gmap string nat)
  : gmap string pyval * gmap string nat :=
  map_fold (λ n v acc,
              match v with
              | None => acc
              | Some _ => (<[n := v]> acc.1, <[n := layer_cnt]> acc.2)
              end) acc d.

(** [for n, v in d.items(): target[n] = v] *)
Definition copy_items (d target : gmap string pyval) : gmap string pyval :=
  map_fold (λ n v acc, <[n := v]> acc) target d.

Fixpoint init_loop (args : list Layer.t) (self : t) (layer_cnt : nat)
  : result t :=
  match args with
  | [] => Ok self
  | layer :: rest =>
      d <- Layer.attr_params layer ;;
      let '(P, Ix) :=
        register_params layer_cnt d (params self, paramName2Indices self) in
      let G := copy_items (Layer.grads layer) (grads self) in
      if decide (is_Some (layer_names self !! Layer.name layer))
      then Raise (ValueError (existing_name (Layer.name layer)))
      else init_loop rest
                     (mk P G (layers self ++ [layer]) Ix
                         (<[Layer.name layer := true]> (layer_names self)))
                     (S layer_cnt)
  end.

Definition __init__ (args : list Layer.t) : result t :=
  init_loop args (mk ∅ ∅ [] ∅ ∅) 0.

Definition assign (self : t) (name : string) (val : pyval) : result t :=
  layer_cnt <- getitem (paramName2Indices self) name ;;
  layer <- list_getitem (layers self) layer_cnt ;;
  _ <- Layer.attr_params layer ;;
  Ok (mk (params self) (grads self)
         (<[layer_cnt := Layer.set_param layer name val]> (layers self))
         (paramName2Indices self) (layer_names self)).

Definition assign_grads (self : t) (name : string) (val : pyval) : result t :=
  layer_cnt <- getitem (paramName2Indices self) name ;;
  layer <- list_getitem (layers self) layer_cnt ;;
  Ok (mk (params self) (grads self)
         (<[layer_cnt := Layer.mk (Layer.name layer) (Layer.params layer)
                                  (<[name := val]> (Layer.grads layer))]>
            (layers self))
         (paramName2Indices self) (layer_names self)).

Definition get_params (self : t) (name : string) : result pyval :=
  getitem (params self) name.

Definition get_grads (self : t) (name : string) : result pyval :=
  getitem (grads self) name.

Definition gather_params (self : t) : result t :=
  P <- for_each (λ P layer, d <- Layer.attr_params layer ;; Ok (copy_items d P))
                (layers self) (params self) ;;
  Ok (mk P (grads self) (layers self) (paramName2Indices self)
         (layer_names self)).

Definition gather_grads (self : t) : result t :=
  Ok (mk (params self)
         (fold_left (λ G layer, copy_items (Layer.grads layer) G)
                    (layers self) (grads self))
         (layers self) (paramName2Indices self) (layer_names self)).

(** [load]: the state of the loops is the heap, the mapping of the layer
    at hand and the lines printed so far (a name and a shape each).
    [pretrained] gives, for a name, the contents of the pretrained array;
    [pretrained[n].copy()] allocates a new object with these contents. *)
Definition load_state : Type :=
  heap * gmap string pyval * list (string * list nat).

Definition load_item (pretrained : gmap string (Np.ndarray R))
           (n : string) (v : pyval) (st : load_state) : load_state :=
  let '(h, d, out) := st in
  match pretrained !! n with
  | Some a =>
      let l := fresh (dom h) in
      (<[l := a]> h, <[n := Some l]> d, out ++ [(n, Np.shape a)])
  | None => st
  end.

Definition load_layer (pretrained : gmap string (Np.ndarray R))
           (st : heap * list Layer.t * list (string * list nat))
           (layer : Layer.t)
  : heap * list Layer.t * list (string * list nat) :=
  let '(h, done, out) := st in
  match Layer.params layer with
  | None => (h, done ++ [layer], out)
  | Some d =>
      let '(h', d', out') := map_fold (load_item pretrained) (h, d, out) d in
      (h', done ++ [Layer.mk (Layer.name layer) (Some d') (Layer.grads layer)],
       out')
  end.

Definition load (pretrained : gmap string (Np.ndarray R)) (h : heap) (self : t)
  : heap * t * list (string * list nat) :=
  let '(h', ls, out) :=
    fold_left (load_layer pretrained) (layers self) (h, [], []) in
  (h', mk (params self) (grads self) ls (paramName2Indices self)
          (layer_names self), out).

End RNN.

(* ===================================================================== *)
(** * Notions used to state the properties of the container *)
(* ===================================================================== *)

(** The tensor that layer [l] stores under the name [n], when it has one. *)
Definition held_value (l : Layer.t) (n : string) : option loc :=
  d ← Layer.params l; v ← d !! n; v.

(** The last layer of [args] that stores a tensor under [n], with the
    tensor. *)
Fixpoint last_owner (args : list Layer.t) (n : string) : option (nat * loc) :=
  match args with
  | [] => None
  | l :: rest =>
      match last_owner rest n with
      | Some (k, v) => Some (S k, v)
      | None =>
          match held_value l n with
          | Some v => Some (0%nat, v)
          | None => None
          end
      end
  end.

(** Layer [i] of [args] owns [n], with tensor [v]: it stores [v] under [n]
    and no later layer stores a tensor under [n]. *)
Definition owner_at (args : list Layer.t) (n : string) (i : nat) (v : loc) : Prop :=
  (∃ l, args !! i = Some l ∧ held_value l n = Some v) ∧
  ∀ j l', (i < j)%nat → args !! j = Some l' → held_value l' n = None.

(** The entry (a tensor or [None]) of the last layer that has the key [n]. *)
Fixpoint last_key (ls : list Layer.t) (n : string) : option pyval :=
  match ls with
  | [] => None
  | l :: rest =>
      match last_key rest n with
      | Some v => Some v
      | None => d ← Layer.params l; d !! n
      end
  end.

(** The registry has an entry for every name that is a key of a layer. *)
Definition registry_covers (args : list Layer.t) (net : RNN.t) : Prop :=
  ∀ i l d n, args !! i = Some l → Layer.params l = Some d → is_Some (d !! n) →
             RNN.paramName2Indices net !! n = Some i.

(** The mapping [d'] is [d] once [load] has gone through the entries [m]:
    those named in [pretrained] hold a new object with the pretrained
    contents, the others are untouched. *)
Definition items_loaded (pretrained : gmap string (Np.ndarray R))
           (h h' : heap) (m d d' : gmap string pyval) : Prop :=
  ∀ n, match m !! n with
       | None => d' !! n = d !! n
       | Some _ =>
           match pretrained !! n with
           | Some a => ∃ l0, d' !! n = Some (Some l0)
                             ∧ h !! l0 = None ∧ h' !! l0 = Some a
           | None => d' !! n = d !! n
           end
       end.

(** Layer [l'] is layer [l] after [load pretrained], between the heaps [h]
    and [h']: the entries named in [pretrained] hold new objects with the
    pretrained contents, and everything else is as before. *)
Definition layer_loaded (pretrained : gmap string (Np.ndarray R))
           (h h' : heap) (l l' : Layer.t) : Prop :=
  Layer.name l' = Layer.name l ∧ Layer.grads l' = Layer.grads l ∧
  match Layer.params l with
  | None => Layer.params l' = None
  | Some d =>
      ∃ d', Layer.params l' = Some d' ∧
        ∀ n, match d !! n with
             | None => d' !! n = None
             | Some v =>
                 match pretrained !! n with
                 | Some a => ∃ l0, d' !! n = Some (Some l0)
                                   ∧ h !! l0 = None ∧ h' !! l0 = Some a
                 | None => d' !! n = Some v
                 end
             end
  end.

(* ===================================================================== *)
(** * Example objects *)
(* ===================================================================== *)

(** A layer whose only parameter is [None]. *)
Definition layer_absent : Layer.t :=
  Layer.mk "fc" (Some {[ "fc_w" := None ]}) ∅.

(** Two layers with a tensor each, at the heap locations 1, 2 and 3. *)
Definition layer_fc : Layer.t :=
  Layer.mk "fc" (Some (<[ "fc_b" := Some 2%positive ]>
                         {[ "fc_w" := Some 1%positive ]}))
           (<[ "fc_b" := None ]> {[ "fc_w" := None ]}).
Definition layer_we : Layer.t :=
  Layer.mk "we" (Some {[ "we_w" := Some 3%positive ]}) {[ "we_w" := None ]}.

(** Scores that are uniform over two classes, for one position. *)
Definition feat_uniform : Np.ndarray R := Np.mk [1; 1; 2]%nat [0; 0]%R.
Definition label_first : Np.ndarray Z := Np.mk [1; 1]%nat [0%Z].
Definition mask_ones : Np.ndarray R := Np.mk [1; 1]%nat [1%R].
Definition mask_zeros : Np.ndarray R := Np.mk [1; 1]%nat [0%R].


(** A temporal fully-connected layer after a forward on two timesteps. *)
Definition fc_x : Np.ndarray R := Np.mk [1; 2; 1]%nat [1; 2]%R.
Definition fc_dout : Np.ndarray R := Np.mk [1; 2; 1]%nat [3; 4]%R.
Definition fc_example : temporal_fc.t :=
  temporal_fc.mkT "t_fc" "t_fc_w" "t_fc_b" 1 1
    (<["t_fc_b" := Np.mk [1%nat] [0%R]]> {["t_fc_w" := Np.mk [1; 1]%nat [5%R]]})
    ∅ (Some (fc_x, fc_x)).

(** An embedding of two words after a forward on [[0, 1, 0]]. *)
Definition emb_x : Np.ndarray Z := Np.mk [1; 3]%nat [0; 1; 0]%Z.
Definition emb_dout : Np.ndarray R := Np.mk [1; 3; 1]%nat [1; 2; 4]%R.
Definition emb_w : Np.ndarray R := Np.mk [2; 1]%nat [0; 0]%R.
Definition emb_example : word_embedding.t :=
  word_embedding.mkT "we" "we_w" 2 1 {["we_w" := emb_w]} {["we_w" := None]}
                     (Some (Np.mk [1; 3; 1]%nat [0; 0; 0]%R, emb_x)).

(** An LSTM and a vanilla RNN with one input and one hidden unit. *)
Definition lstm_example : LSTM.t :=
  LSTM.__init__ 1 1 1 "lstm" (Np.mk [1; 4]%nat [1; 2; 3; 4]%R)
                (Np.mk [1; 4]%nat [0; 0; 0; 0]%R).
Definition lstm_x : Np.ndarray R := Np.mk [1; 1]%nat [1%R].
Definition lstm_h : Np.ndarray R := Np.mk [1; 1]%nat [0%R].

Definition rnn_example : VanillaRNN.t :=
  VanillaRNN.__init__ 1 1 1 "vanilla_rnn" (Np.mk [1; 1]%nat [1%R])
                      (Np.mk [1; 1]%nat [1%R]).
Definition rnn_x : Np.ndarray R := Np.mk [1; 2; 1]%nat [1; 2]%R.
Definition rnn_h0 : Np.ndarray R := Np.mk [1; 1]%nat [0%R].
Definition rnn_dh : Np.ndarray R := Np.mk [1; 2; 1]%nat [1; 1]%R.

(* ===================================================================== *)
(** * Notions used to state further properties of the code *)
(* ===================================================================== *)

(** The entry of the last layer that has the key [n] among its gradients. *)
Fixpoint last_grad_key (ls : list Layer.t) (n : string) : option (option positive) :=
  match ls with
  | [] => None
  | l :: rest =>
      match last_grad_key rest n with
      | Some v => Some v
      | None => Layer.grads l !! n
      end
  end.

(** A layer that holds a gradient under a name whose parameter is absent. *)
Definition layer_grad_only : Layer.t :=
  Layer.mk "fc" (Some {[ "fc_w" := None ]}) {[ "fc_w" := Some 5%positive ]}.

Section further_notions.
Import Np.



(** The position that numpy gives to the index [i] on an axis of length
    [n]: a negative index counts from the end. *)
Definition wrap_index (n : nat) (i : Z) : nat :=
  if decide (0 ≤ i)%Z then Z.to_nat i else Z.to_nat (i + Z.of_nat n).

(** The indices that numpy accepts on an axis of length [n]. *)
Definition index_in_range (n : nat) (i : Z) : Prop :=
  (- Z.of_nat n ≤ i < Z.of_nat n)%Z.

(** The gradient of the loss in the cell state [c_t[n, j]] of one LSTM
    step: what arrives through the hidden state plus what arrives from the
    next step. *)
Definition lstm_dcell (dh dnext_c o c : ndarray R) (n j : nat) : R :=
  (get2 dh n j * get2 o n j * (1 - tanh (get2 c n j) ^ 2) + get2 dnext_c n j)%R.

(** An entry of the meta list of the LSTM as [step_forward] leaves it. *)
Definition lstm_meta_shaped (N D H : nat) (m : list (ndarray R)) : Prop :=
  ∃ x prev_h next_h prev_c i f c o g,
    m = [x; prev_h; next_h; prev_c; i; f; c; o; g]
    ∧ has_shape x [N; D] ∧ has_shape prev_h [N; H] ∧ has_shape next_h [N; H]
    ∧ has_shape prev_c [N; H] ∧ has_shape i [N; H] ∧ has_shape f [N; H]
    ∧ has_shape c [N; H] ∧ has_shape o [N; H] ∧ has_shape g [N; H].

(** The LSTM unrolled by hand: [step_forward] iterated over the timesteps
    [0], ..., [t] of [x], from the hidden state [h0] and the zero cell
    state. *)
Fixpoint lstm_unroll (self : LSTM.t) (x h0 : ndarray R) (N D H : nat) (t : nat)
  : result (ndarray R * ndarray R * list (ndarray R)) :=
  let x_t := build2 N D (λ n d, get3 x n t d) in
  match t with
  | O => LSTM.step_forward self x_t h0 (zeros [N; H])
  | S t' =>
      ' (h, c, _) <- lstm_unroll self x h0 N D H t' ;;
      LSTM.step_forward self x_t h c
  end.

(** What the loop of [LSTM.forward] has established once the timesteps
    before [s] are done: the slices of [h] and [c] and the entries of
    [metas] are those of the LSTM unrolled by hand. *)
Definition lstm_fw_inv (self : LSTM.t) (x h0 : ndarray R) (N T D H : nat)
           (s : nat) (h c : ndarray R) (metas : list (list (ndarray R))) : Prop :=
  has_shape h [N; T; H] ∧ has_shape c [N; T; H] ∧ length metas = s
  ∧ Forall (lstm_meta_shaped N D H) metas
  ∧ ∀ t, (t < s)%nat →
      ∃ nh nc m, lstm_unroll self x h0 N D H t = Ok (nh, nc, m)
        ∧ metas !! t = Some m
        ∧ build2 N H (λ n j, get3 h n t j) = nh
        ∧ build2 N H (λ n j, get3 c n t j) = nc
        ∧ ∀ n j, (n < N)%nat → (j < H)%nat → (-1 < get2 nh n j < 1)%R.

(** The shapes of the variables of the loop of [LSTM.backward]. *)
Definition lstm_bw_shaped (N T D H : nat) (st : LSTM.bw_state) : Prop :=
  has_shape (LSTM.s_dnext_h st) [N; H] ∧ has_shape (LSTM.s_dnext_c st) [N; H]
  ∧ has_shape (LSTM.s_dx st) [N; T; D] ∧ has_shape (LSTM.s_dh0 st) [N; H]
  ∧ has_shape (LSTM.s_gWx st) [D; (4 * H)%nat]
  ∧ has_shape (LSTM.s_gWh st) [H; (4 * H)%nat]
  ∧ has_shape (LSTM.s_gb st) [(4 * H)%nat].

(** [a] with its entry [(n, d)] replaced by [v]. *)
Definition perturb2 (a : ndarray R) (n d : nat) (v : R) : ndarray R :=
  build2 (dim 0 a) (dim 1 a)
         (λ i k, if decide (i = n ∧ k = d) then v else get2 a i k).

(** [a] with its entry [j] replaced by [v]. *)
Definition perturb1 (a : ndarray R) (j : nat) (v : R) : ndarray R :=
  build1 (dim 0 a) (λ k, if decide (k = j) then v else get1 a k).

(** The layer [self] with the array [a] as its parameter [name]. *)
Definition rnn_with_param (self : VanillaRNN.t) (name : string) (a : ndarray R)
  : VanillaRNN.t :=
  VanillaRNN.mkT (VanillaRNN.name self) (VanillaRNN.wx_name self)
                 (VanillaRNN.wh_name self) (VanillaRNN.b_name self)
                 (VanillaRNN.input_dim self) (VanillaRNN.h_dim self)
                 (<[name := a]> (VanillaRNN.params self))
                 (VanillaRNN.grads self) (VanillaRNN.meta self).

(** The scalar of which an upstream gradient [dnext_h] makes
    [step_backward] compute the gradient: the sum over the entries of
    [dnext_h * next_h], for the [next_h] that [step_forward] returns. *)
Definition rnn_step_objective (self : VanillaRNN.t) (dnext_h : ndarray R)
           (N H : nat) (x prev_h : ndarray R) : R :=
  match VanillaRNN.step_forward self x prev_h with
  | Ok (next_h, _) =>
      sum_n (λ i, sum_n (λ j, get2 dnext_h i j * get2 next_h i j)%R H) N
  | Raise _ => 0%R
  end.

(** The pre-activation of the hidden unit [j] of sample [i] in
    [VanillaRNN.step_forward], and the gradient that reaches it from
    [dnext_h] through [tanh]. *)
Definition rnn_preact (x prev_h Wx Wh b : ndarray R) (D H i j : nat) : R :=
  (sum_n (λ k, get2 x i k * get2 Wx k j) D
   + sum_n (λ k, get2 prev_h i k * get2 Wh k j) H
   + get1 b j)%R.

Definition rnn_dtanh (dnext_h x prev_h Wx Wh b : ndarray R) (D H i j : nat) : R :=
  (get2 dnext_h i j * (1 - tanh (rnn_preact x prev_h Wx Wh b D H i j) ^ 2))%R.

(** [a] with its entry [(n, t, j)] replaced by [v]. *)
Definition perturb3 (a : ndarray R) (n t j : nat) (v : R) : ndarray R :=
  build3 (dim 0 a) (dim 1 a) (dim 2 a)
         (λ i s k, if decide (i = n ∧ s = t ∧ k = j) then v else get3 a i s k).

(** The loss that [temporal_softmax_loss.forward] returns. *)
Definition loss_value (self : temporal_softmax_loss.t) (feat : ndarray R)
           (label : ndarray Z) (mask : ndarray R) : R :=
  match temporal_softmax_loss.forward self feat label mask with
  | Ok (loss, _) => loss
  | Raise _ => 0%R
  end.

(** The LSTM [self] with the array [a] as its parameter [name]. *)
Definition lstm_with_param (self : LSTM.t) (name : string) (a : ndarray R)
  : LSTM.t :=
  LSTM.mkT (LSTM.name self) (LSTM.wx_name self) (LSTM.wh_name self)
           (LSTM.b_name self) (LSTM.input_dim self) (LSTM.h_dim self)
           (<[name := a]> (LSTM.params self)) (LSTM.grads self) (LSTM.meta self).

(** The scalar of which the upstream gradients [dnext_h] and [dnext_c]
    make [LSTM.step_backward] compute the gradient: the sum over the
    entries of [dnext_h * next_h + dnext_c * next_c], for the states that
    [LSTM.step_forward] returns. *)
Definition lstm_step_objective (self : LSTM.t) (dnext_h dnext_c : ndarray R)
           (N H : nat) (x prev_h prev_c : ndarray R) : R :=
  match LSTM.step_forward self x prev_h prev_c with
  | Ok (next_h, next_c, _) =>
      sum_n (λ i, sum_n (λ j, get2 dnext_h i j * get2 next_h i j
                              + get2 dnext_c i j * get2 next_c i j)%R H) N
  | Raise _ => 0%R
  end.

(** The gradient that reaches the cell state of the unit [(i, j)], and
    the gradient that reaches the pre-activation of its gate number [blk]
    (input, forget, output, candidate), from the pre-activations [A]. *)
Definition lstm_cell_grad (dnh dnc pc : ndarray R) (A : nat → nat → R)
           (H i j : nat) : R :=
  let gi := sigmoid1 (A i j) in
  let gf := sigmoid1 (A i (H + j)%nat) in
  let go := sigmoid1 (A i (2 * H + j)%nat) in
  let gg := tanh (A i (3 * H + j)%nat) in
  let c := (gf * get2 pc i j + gi * gg)%R in
  (get2 dnh i j * go * (1 - tanh c ^ 2) + get2 dnc i j)%R.

Definition lstm_gate_grad (dnh dnc pc : ndarray R) (A : nat → nat → R)
           (H blk i j : nat) : R :=
  let gi := sigmoid1 (A i j) in
  let gf := sigmoid1 (A i (H + j)%nat) in
  let go := sigmoid1 (A i (2 * H + j)%nat) in
  let gg := tanh (A i (3 * H + j)%nat) in
  let c := (gf * get2 pc i j + gi * gg)%R in
  let dc := lstm_cell_grad dnh dnc pc A H i j in
  match blk with
  | 0 => dc * gg * (gi * (1 - gi))
  | 1 => dc * get2 pc i j * (gf * (1 - gf))
  | 2 => tanh c * get2 dnh i j * (go * (1 - go))
  | _ => dc * gi * (1 - gg ^ 2)
  end%R.

(** The gate gradients side by side: the column [col] of sample [i]. *)
Definition lstm_dA (dnh dnc pc : ndarray R) (A : nat → nat → R)
           (H i col : nat) : R :=
  lstm_gate_grad dnh dnc pc A H (col / H) i (col mod H).

(** The layer [self] with the array [a] as its parameter [name]. *)
Definition fc_with_param (self : temporal_fc.t) (name : string) (a : ndarray R)
  : temporal_fc.t :=
  temporal_fc.mkT (temporal_fc.name self) (temporal_fc.w_name self)
                  (temporal_fc.b_name self) (temporal_fc.input_dim self)
                  (temporal_fc.output_dim self)
                  (<[name := a]> (temporal_fc.params self))
                  (temporal_fc.grads self) (temporal_fc.meta self).

(** The scalar of which an upstream gradient [dout] makes
    [temporal_fc.backward] compute the gradient: the sum over the entries
    of [dout * out], for the [out] that [forward] returns. *)
Definition fc_objective (self : temporal_fc.t) (dout : ndarray R)
           (N T M : nat) (x : ndarray R) : R :=
  match temporal_fc.forward self x with
  | Ok (out, _) =>
      sum_n (λ n, sum_n (λ t, sum_n (λ m,
        get3 dout n t m * get3 out n t m)%R M) T) N
  | Raise _ => 0%R
  end.

(** The embedding [self] with the matrix [a] as its weights. *)
Definition emb_with_weights (self : word_embedding.t) (a : ndarray R)
  : word_embedding.t :=
  word_embedding.mkT (word_embedding.name self) (word_embedding.w_name self)
                     (word_embedding.voc_dim self) (word_embedding.vec_dim self)
                     (<[word_embedding.w_name self := a]>
                        (word_embedding.params self))
                     (word_embedding.grads self) (word_embedding.meta self).

(** The scalar of which an upstream gradient [dout] makes
    [word_embedding.backward] compute the gradient: the sum over the
    entries of [dout * out], for the [out] that [forward] returns. *)
Definition emb_objective (self : word_embedding.t) (dout : ndarray R)
           (N T D : nat) (x : ndarray Z) : R :=
  match word_embedding.forward self x with
  | Ok (out, _) =>
      sum_n (λ n, sum_n (λ t, sum_n (λ d,
        get3 dout n t d * get3 out n t d)%R D) T) N
  | Raise _ => 0%R
  end.

End further_notions.

(* ===================================================================== *)
(** * The container: construction *)
(* ===================================================================== *)

Section container.
Import RNN.

Lemma register_params_lookup cnt d P Ix n :
  (register_params cnt d (P, Ix)).1 !! n
  = match d !! n with Some (Some v) => Some (Some v) | _ => P !! n end
  ∧ (register_params cnt d (P, Ix)).2 !! n
  = match d !! n with Some (Some _) => Some cnt | _ => Ix !! n end.
Proof.
  unfold register_params.
  apply (map_fold_weak_ind (λ acc (m : gmap string pyval),
    acc.1 !! n = match m !! n with Some (Some v) => Some (Some v) | _ => P !! n end
    ∧ acc.2 !! n = match m !! n with Some (Some _) => Some cnt | _ => Ix !! n end)).
  - rewrite lookup_empty. done.
  - intros k x m r Hk [IH1 IH2]. cbv beta in *.
    destruct (decide (k = n)) as [->|Hne].
    + rewrite lookup_insert_eq. rewrite Hk in IH1, IH2.
      destruct x as [v|]; simpl; [|done].
      by rewrite !lookup_insert_eq.
    + rewrite lookup_insert_ne by done.
      destruct x as [v|]; simpl; [|done].
      by rewrite !lookup_insert_ne by done.
Qed.

Lemma copy_items_lookup (d target : gmap string pyval) n :
  copy_items d target !! n
  = match d !! n with Some v => Some v | None => target !! n end.
Proof.
  unfold copy_items.
  apply (map_fold_weak_ind (λ acc (m : gmap string pyval),
    acc !! n = match m !! n with Some v => Some v | None => target !! n end)).
  - by rewrite lookup_empty.
  - intros k x m r Hk IH. cbv beta in *. destruct (decide (k = n)) as [->|Hne].
    + by rewrite !lookup_insert_eq.
    + by rewrite !lookup_insert_ne by done.
Qed.

Lemma init_loop_ok args : ∀ self cnt,
  Forall (λ l, is_Some (Layer.params l)) args →
  NoDup (Layer.name <$> args) →
  (∀ l, l ∈ args → layer_names self !! Layer.name l = None) →
  ∃ net, init_loop args self cnt = Ok net
    ∧ layers net = layers self ++ args
    ∧ ∀ n, paramName2Indices net !! n
           = match last_owner args n with
             | Some (k, _) => Some (cnt + k)%nat
             | None => paramName2Indices self !! n
             end
         ∧ params net !! n
           = match last_owner args n with
             | Some (_, v) => Some (Some v)
             | None => params self !! n
             end.
Proof.
  induction args as [|l rest IH]; intros self cnt Hp Hnd Hfresh.
  - exists self. simpl. rewrite app_nil_r. done.
  - inversion Hp as [|? ? [d Hd] Hp']; subst.
    rewrite fmap_cons in Hnd. apply NoDup_cons in Hnd as [Hnotin Hnd].
    simpl. unfold Layer.attr_params. rewrite Hd. simpl.
    destruct (register_params cnt d (params self, paramName2Indices self))
      as [P Ix] eqn:Ereg.
    rewrite decide_False; last first.
    { rewrite Hfresh; [by intros [? ?]|]. apply list_elem_of_here. }
    edestruct (IH (mk P (copy_items (Layer.grads l) (grads self))
                      (layers self ++ [l]) Ix
                      (<[Layer.name l := true]> (layer_names self))) (S cnt))
      as (net & Hnet & Hl & Hchar); [done|done| |].
    { intros l' Hl'. simpl. rewrite lookup_insert_ne.
      - apply Hfresh. by apply list_elem_of_further.
      - intros Heq. apply Hnotin. rewrite Heq. by apply list_elem_of_fmap_2. }
    exists net. split; [done|]. split.
    { rewrite Hl. simpl. by rewrite <- app_assoc. }
    intros n. destruct (Hchar n) as [H1 H2]. simpl in H1, H2.
    pose proof (register_params_lookup cnt d (params self) (paramName2Indices self) n) as [R1 R2].
    rewrite Ereg in R1, R2. simpl in R1, R2.
    rewrite H1, H2. destruct (last_owner rest n) as [[k v]|].
    + split; [f_equal; lia|done].
    + unfold held_value. rewrite Hd. simpl. rewrite R1, R2.
      destruct (d !! n) as [[v|]|]; simpl; try done.
      split; [f_equal; lia|done].
Qed.

Lemma init_loop_dup args : ∀ self cnt,
  Forall (λ l, is_Some (Layer.params l)) args →
  ¬ (NoDup (Layer.name <$> args)
     ∧ ∀ l, l ∈ args → layer_names self !! Layer.name l = None) →
  ∃ l, l ∈ args
       ∧ init_loop args self cnt = Raise (ValueError (existing_name (Layer.name l))).
Proof.
  induction args as [|l rest IH]; intros self cnt Hp Hbad.
  - exfalso. apply Hbad. split; [constructor|]. intros l Hl. by apply elem_of_nil in Hl.
  - inversion Hp as [|? ? [d Hd] Hp']; subst.
    simpl. unfold Layer.attr_params. rewrite Hd. simpl.
    destruct (register_params cnt d (params self, paramName2Indices self))
      as [P Ix] eqn:Ereg.
    destruct (decide (is_Some (layer_names self !! Layer.name l))) as [Hs|Hs].
    { exists l. split; [apply list_elem_of_here|done]. }
    edestruct (IH (mk P (copy_items (Layer.grads l) (grads self))
                      (layers self ++ [l]) Ix
                      (<[Layer.name l := true]> (layer_names self))) (S cnt))
      as (l' & Hl' & Hr); [done| |].
    { intros [Hnd Hfr]. apply Hbad. split.
      - rewrite fmap_cons. apply NoDup_cons. split; [|done].
        intros Hin. apply list_elem_of_fmap in Hin as (l' & Heq & Hl').
        specialize (Hfr l' Hl'). simpl in Hfr. rewrite <- Heq in Hfr.
        by rewrite lookup_insert_eq in Hfr.
      - intros l' Hl'. apply elem_of_cons in Hl' as [->|Hl'].
        + destruct (layer_names self !! Layer.name l) eqn:E; [|done].
          exfalso. apply Hs. eauto.
        + specialize (Hfr l' Hl'). simpl in Hfr.
          destruct (decide (Layer.name l = Layer.name l')) as [Heq|Hne].
          * rewrite Heq in Hfr. by rewrite lookup_insert_eq in Hfr.
          * by rewrite lookup_insert_ne in Hfr. }
    exists l'. split; [by apply list_elem_of_further|done].
Qed.

Lemma last_owner_none rest n j l' :
  last_owner rest n = None → rest !! j = Some l' → held_value l' n = None.
Proof.
  revert j. induction rest as [|a rest IHr]; intros j E Hl'; [done|].
  simpl in E. destruct (last_owner rest n) as [[? ?]|] eqn:E'; [done|].
  destruct j as [|j]; simpl in Hl'.
  - injection Hl' as ->. by destruct (held_value l' n).
  - by eapply IHr.
Qed.

Lemma last_owner_owner_at args n i v :
  last_owner args n = Some (i, v) ↔ owner_at args n i v.
Proof.
  revert i v. induction args as [|l rest IH]; intros i v; simpl.
  - split; [done|]. intros [(l & Hl & _) _]. done.
  - destruct (last_owner rest n) as [[k w]|] eqn:E.
    + destruct (proj1 (IH k w) eq_refl) as [(l1 & Hl1 & Hv1) Hlast1].
      split.
      * intros [= <- <-]. split; [exists l1; done|].
        intros j l' Hj Hl'. destruct j as [|j]; [lia|]. simpl in Hl'.
        apply (Hlast1 j); [lia|done].
      * intros [(l0 & Hl0 & Hv) Hlast].
        destruct i as [|i].
        { specialize (Hlast (S k) l1 ltac:(lia) Hl1). congruence. }
        simpl in Hl0.
        assert (owner_at rest n i v) as Ho.
        { split; [eauto|]. intros j l' Hj Hl'. apply (Hlast (S j)); [lia|done]. }
        apply IH in Ho. congruence.
    + split.
      * destruct (held_value l n) as [w|] eqn:Ew; [|done].
        intros [= <- <-]. split; [exists l; done|].
        intros j l' Hj Hl'. destruct j as [|j]; [lia|]. simpl in Hl'.
        by eapply last_owner_none.
      * intros [(l0 & Hl0 & Hv) Hlast]. destruct i as [|i].
        { simpl in Hl0. injection Hl0 as ->. by rewrite Hv. }
        simpl in Hl0.
        assert (owner_at rest n i v) as Ho.
        { split; [eauto|]. intros j l' Hj Hl'. apply (Hlast (S j)); [lia|done]. }
        apply IH in Ho. congruence.
Qed.

Lemma init_loop_has_params args : ∀ self cnt net,
  init_loop args self cnt = Ok net →
  Forall (λ l, is_Some (Layer.params l)) args.
Proof.
  induction args as [|l rest IH]; intros self cnt net H; [constructor|].
  simpl in H. unfold Layer.attr_params in H.
  destruct (Layer.params l) as [d|] eqn:Hd; simpl in H; [|done].
  destruct (register_params cnt d (params self, paramName2Indices self)) as [P Ix].
  destruct (decide (is_Some (layer_names self !! Layer.name l))); [done|].
  constructor; [by rewrite Hd|]. by eapply IH.
Qed.

Lemma init_inv args net :
  __init__ args = Ok net →
  Forall (λ l, is_Some (Layer.params l)) args
  ∧ NoDup (Layer.name <$> args)
  ∧ layers net = args
  ∧ ∀ n, paramName2Indices net !! n = fst <$> last_owner args n
         ∧ params net !! n = (Some ∘ snd) <$> last_owner args n.
Proof.
  intros H. pose proof (init_loop_has_params _ _ _ _ H) as Hp.
  destruct (decide (NoDup (Layer.name <$> args))) as [Hnd|Hnd].
  - destruct (init_loop_ok args (mk ∅ ∅ [] ∅ ∅) 0 Hp Hnd) as (net' & H' & Hl & Hc).
    { intros l _. apply lookup_empty. }
    unfold __init__ in H. rewrite H in H'. injection H' as <-.
    repeat split; try done.
    + destruct (Hc n) as [-> _]. simpl. by destruct (last_owner args n) as [[? ?]|].
    + destruct (Hc n) as [_ ->]. simpl. by destruct (last_owner args n) as [[? ?]|].
  - destruct (init_loop_dup args (mk ∅ ∅ [] ∅ ∅) 0 Hp) as (l & _ & Hr).
    { intros [? _]. done. }
    unfold __init__ in H. congruence.
Qed.

(** C7 (as amended).  When every layer has a parameter mapping,
    construction succeeds exactly when the layer names are pairwise
    different, and fails with the duplicate-name error of a layer
    otherwise.  After a successful construction the registry has an entry
    for a name exactly when some layer stores a tensor (not [None]) under
    it; the entry is the position of the layer that owns the name, which is
    the last such layer, together with the tensor of that layer.  A name
    that the layers only map to [None] has no entry. *)
Theorem init_registry (args : list Layer.t) :
  Forall (λ l, is_Some (Layer.params l)) args →
  (NoDup (Layer.name <$> args) →
   ∃ net, __init__ args = Ok net
     ∧ layers net = args
     ∧ (∀ n i, paramName2Indices net !! n = Some i ↔ ∃ v, owner_at args n i v)
     ∧ (∀ n v, params net !! n = Some (Some v) ↔ ∃ i, owner_at args n i v)
     ∧ (∀ n, params net !! n ≠ Some None))
  ∧ (¬ NoDup (Layer.name <$> args) →
     ∃ l, l ∈ args
       ∧ __init__ args = Raise (ValueError (existing_name (Layer.name l)))).
Proof.
  intros Hp. split.
  - intros Hnd.
    destruct (init_loop_ok args (mk ∅ ∅ [] ∅ ∅) 0 Hp Hnd) as (net & H & _).
    { intros l _. apply lookup_empty. }
    exists net. split; [done|].
    destruct (init_inv _ _ H) as (_ & _ & Hl & Hc). split; [done|].
    split; [|split].
    + intros n i. destruct (Hc n) as [-> _]. split.
      * destruct (last_owner args n) as [[k v]|] eqn:E; [|done].
        intros [= <-]. exists v. by apply last_owner_owner_at.
      * intros [v Ho]. apply last_owner_owner_at in Ho. by rewrite Ho.
    + intros n v. destruct (Hc n) as [_ ->]. split.
      * destruct (last_owner args n) as [[k w]|] eqn:E; [|done].
        intros [= <-]. exists k. by apply last_owner_owner_at.
      * intros [i Ho]. apply last_owner_owner_at in Ho. by rewrite Ho.
    + intros n. destruct (Hc n) as [_ ->]. by destruct (last_owner args n) as [[? ?]|].
  - intros Hnd. apply init_loop_dup; [done|]. intros [? _]. done.
Qed.

(** C7 as stated fails: a parameter whose value is [None] is a name of its
    layer that the registry does not hold. *)
Lemma init_registry_absent_value :
  ∃ net, __init__ [layer_absent] = Ok net ∧ ¬ registry_covers [layer_absent] net.
Proof.
  eexists. split; [vm_compute; reflexivity|].
  intros H. specialize (H 0%nat layer_absent {[ "fc_w" := None ]} "fc_w" eq_refl eq_refl).
  assert (is_Some (({[ "fc_w" := None ]} : gmap string (option positive)) !! "fc_w")) as Hs.
  { rewrite lookup_singleton_eq. eauto. }
  specialize (H Hs). vm_compute in H. done.
Qed.

End container.

(* ===================================================================== *)
(** * The container: assign, get_params, gather_params *)
(* ===================================================================== *)

Section container_assign.
Import RNN.

Lemma last_owner_lookup args n i v :
  last_owner args n = Some (i, v) →
  ∃ l d, args !! i = Some l ∧ Layer.params l = Some d ∧ d !! n = Some (Some v).
Proof.
  intros H. apply last_owner_owner_at in H as [(l & Hl & Hv) _].
  unfold held_value in Hv. destruct (Layer.params l) as [d|] eqn:Hd; [|done].
  simpl in Hv. destruct (d !! n) as [[w|]|] eqn:E; simpl in Hv; try done.
  injection Hv as ->. eauto.
Qed.

Lemma gather_loop ls : ∀ (P : gmap string (option positive)),
  Forall (λ l, is_Some (Layer.params l)) ls →
  ∃ P', for_each (λ P layer, d <- Layer.attr_params layer ;; Ok (copy_items d P))
                 ls P = Ok P'
    ∧ ∀ n, P' !! n = match last_key ls n with Some v => Some v | None => P !! n end.
Proof.
  induction ls as [|l rest IH]; intros P Hp.
  - exists P. done.
  - inversion Hp as [|? ? [d Hd] Hp']; subst. simpl.
    unfold Layer.attr_params at 1. rewrite Hd. simpl.
    destruct (IH (copy_items d P) Hp') as (P' & HP' & Hc).
    exists P'. split; [done|]. intros n. rewrite Hc.
    destruct (last_key rest n); [done|].
    rewrite copy_items_lookup. by destruct (d !! n).
Qed.

Lemma last_key_none ls n :
  (∀ j l d, ls !! j = Some l → Layer.params l = Some d → d !! n = None) →
  last_key ls n = None.
Proof.
  induction ls as [|b rest IH]; intros H; [done|]. simpl.
  rewrite IH.
  - destruct (Layer.params b) as [db|] eqn:Eb; [|done]. simpl.
    by apply (H 0%nat b db).
  - intros j l d ? ?. by apply (H (S j) l d).
Qed.

Lemma last_key_unique ls n : ∀ i l d v,
  ls !! i = Some l → Layer.params l = Some d → d !! n = Some v →
  (∀ j l' d', j ≠ i → ls !! j = Some l' → Layer.params l' = Some d' → d' !! n = None) →
  last_key ls n = Some v.
Proof.
  induction ls as [|a rest IH]; intros i l d v Hl Hd Hv Hothers; [done|].
  simpl. destruct i as [|i]; simpl in Hl.
  - injection Hl as ->. rewrite last_key_none.
    + by rewrite Hd.
    + intros j l' d' ? ?. apply (Hothers (S j) l' d'); [lia|done|done].
  - rewrite (IH i l d v Hl Hd Hv); [done|].
    intros j l' d' Hj. apply (Hothers (S j)). lia.
Qed.

(** C1 (as amended).  For a network built from layers and a parameter name
    registered in it, [assign(name, v)] succeeds and stores [v], unchanged,
    in the parameter mapping of the owning layer; it leaves the registry
    alone, so that [get_params(name)] still returns the tensor registered
    at construction.  [get_params(name)] returns [v] once [gather_params()]
    has run, when no other layer has the name among its parameters. *)
Theorem assign_then_get_params (args : list Layer.t) (net : RNN.t)
        (name : string) (val : option positive) :
  __init__ args = Ok net →
  is_Some (paramName2Indices net !! name) →
  ∃ net' i old,
    assign net name val = Ok net'
    ∧ paramName2Indices net !! name = Some i
    ∧ get_params net name = Ok (Some old)
    ∧ get_params net' name = Ok (Some old)
    ∧ (∃ l' d', layers net' !! i = Some l' ∧ Layer.params l' = Some d'
                ∧ d' !! name = Some val)
    ∧ ((∀ j l d, j ≠ i → layers net !! j = Some l →
                 Layer.params l = Some d → d !! name = None) →
       ∃ net'', gather_params net' = Ok net'' ∧ get_params net'' name = Ok val).
Proof.
  intros Hinit [i Hi].
  destruct (init_inv _ _ Hinit) as (Hp & _ & Hl & Hc).
  destruct (Hc name) as [H1 H2]. rewrite Hi in H1.
  destruct (last_owner args name) as [[k old]|] eqn:E; [|done].
  simpl in H1, H2. injection H1 as <-.
  destruct (last_owner_lookup _ _ _ _ E) as (l & d & Hli & Hd & Hdn).
  unfold assign, get_params, getitem. rewrite Hi. simpl.
  unfold list_getitem. rewrite Hl, Hli. simpl.
  unfold Layer.attr_params. rewrite Hd. simpl.
  eexists _, i, old. split; [reflexivity|]. split; [done|].
  simpl. rewrite H2. split; [done|]. split; [done|].
  assert (i < length args)%nat as Hlt by (by eapply lookup_lt_Some).
  split.
  { exists (Layer.set_param l name val), (<[name := val]> d).
    rewrite list_lookup_insert_eq by done. unfold Layer.set_param. rewrite Hd. simpl.
    by rewrite lookup_insert_eq. }
  intros Hothers. unfold gather_params. simpl.
  destruct (gather_loop (<[i := Layer.set_param l name val]> args) (params net))
    as (P' & HP' & HcP).
  { apply Forall_insert; [done|]. unfold Layer.set_param. rewrite Hd. simpl. eauto. }
  rewrite HP'. simpl. eexists. split; [reflexivity|]. simpl.
  rewrite HcP.
  erewrite (last_key_unique _ name i (Layer.set_param l name val) (<[name := val]> d) val).
  - done.
  - by rewrite list_lookup_insert_eq.
  - unfold Layer.set_param. simpl. by rewrite Hd.
  - by rewrite lookup_insert_eq.
  - intros j l' d' Hj Hl' Hd'. rewrite list_lookup_insert_ne in Hl' by done.
    by eapply Hothers.
Qed.

(** C1 as stated fails: right after [assign], [get_params] returns the
    tensor of the construction and not the assigned one. *)
Lemma assign_get_params_stale :
  ∃ net net',
    __init__ [layer_fc; layer_we] = Ok net
    ∧ assign net "fc_w" (Some 7%positive) = Ok net'
    ∧ get_params net' "fc_w" = Ok (Some 1%positive)
    ∧ get_params net' "fc_w" ≠ Ok (Some 7%positive).
Proof.
  eexists _, _. split; [vm_compute; reflexivity|].
  split; [vm_compute; reflexivity|].
  split; [vm_compute; reflexivity|]. vm_compute. discriminate.
Qed.

(** [assign], [get_params], [gather_params] and [get_params] on a network
    of two layers. *)
Lemma assign_then_get_params_witness :
  ∃ net net' net'',
    __init__ [layer_fc; layer_we] = Ok net
    ∧ assign net "fc_w" (Some 7%positive) = Ok net'
    ∧ get_params net' "fc_w" = Ok (Some 1%positive)
    ∧ gather_params net' = Ok net''
    ∧ get_params net'' "fc_w" = Ok (Some 7%positive).
Proof.
  destruct (assign_then_get_params [layer_fc; layer_we]
              (mk (<["we_w" := Some 3%positive]> (<["fc_b" := Some 2%positive]> {["fc_w" := Some 1%positive]}))
                  (<["we_w" := None]> (<["fc_b" := None]> {["fc_w" := None]}))
                  [layer_fc; layer_we]
                  (<["we_w" := 1%nat]> (<["fc_b" := 0%nat]> {["fc_w" := 0%nat]}))
                  (<["we" := true]> {["fc" := true]}))
              "fc_w" (Some 7%positive))
    as (net' & i & old & Ha & Hi & Hg & Hg' & _ & Hgather).
  - vm_compute. reflexivity.
  - vm_compute. eauto.
  - vm_compute in Hi. injection Hi as <-.
    vm_compute in Hg. injection Hg as <-.
    destruct Hgather as (net'' & H1 & H2).
    { intros j l d Hj Hl Hd. destruct j as [|[|j]]; [done| |done].
      vm_compute in Hl. injection Hl as <-. vm_compute in Hd. injection Hd as <-.
      vm_compute. reflexivity. }
    eexists _, net', net''. split; [vm_compute; reflexivity|]. done.
Defined.

End container_assign.

(* ===================================================================== *)
(** * The container: load *)
(* ===================================================================== *)

Section container_load.
Import RNN.

Lemma load_items_spec pretrained (h : gmap positive (Np.ndarray R))
      (d : gmap string (option positive)) out (m : gmap string (option positive)) :
  ∃ h' d' out',
    map_fold (load_item pretrained) (h, d, out) m = (h', d', out')
    ∧ h ⊆ h'
    ∧ items_loaded pretrained h h' m d d'
    ∧ (∀ e, e ∈ out' → e ∈ out ∨ is_Some (m !! e.1) ∧ is_Some (pretrained !! e.1)).
Proof.
  apply (map_fold_weak_ind (λ (acc : load_state) (m : gmap string (option positive)),
    ∃ h' d' out', acc = (h', d', out') ∧ h ⊆ h'
      ∧ items_loaded pretrained h h' m d d'
      ∧ (∀ e, e ∈ out' → e ∈ out ∨ is_Some (m !! e.1) ∧ is_Some (pretrained !! e.1)))).
  - exists h, d, out. split; [done|]. split; [done|]. split.
    + intros n. by rewrite lookup_empty.
    + intros e He. by left.
  - intros k x m0 r Hk (h' & d' & out' & -> & Hsub & Hit & Hout). cbv beta.
    unfold load_item. destruct (pretrained !! k) as [a|] eqn:Ek.
    + set (l := fresh (dom h')).
      assert (h' !! l = None) as Hfresh.
      { apply not_elem_of_dom. apply is_fresh. }
      eexists _, _, _. split; [reflexivity|]. split; [|split].
      * etrans; [exact Hsub|]. by apply insert_subseteq.
      * intros n. destruct (decide (k = n)) as [<-|Hne].
        -- rewrite lookup_insert_eq, Ek. exists l.
           rewrite !lookup_insert_eq. split; [done|]. split; [|done].
           destruct (h !! l) eqn:E; [|done].
           eapply lookup_weaken in E; [|exact Hsub]. congruence.
        -- rewrite !lookup_insert_ne by done. specialize (Hit n).
           destruct (m0 !! n); [|done].
           destruct (pretrained !! n); [|done].
           destruct Hit as (l0 & H1 & H2 & H3). exists l0.
           split; [done|]. split; [done|].
           rewrite lookup_insert_ne; [done|]. intros <-. congruence.
      * intros e He. apply elem_of_app in He as [He|He].
        -- destruct (Hout e He) as [?|[Hs ?]]; [by left|right]. split; [|done].
           destruct (decide (k = e.1)) as [<-|Hne].
           ++ rewrite lookup_insert_eq. eauto.
           ++ by rewrite lookup_insert_ne.
        -- apply list_elem_of_singleton in He as ->. right. simpl.
           rewrite lookup_insert_eq, Ek. eauto.
    + exists h', d', out'. split; [done|]. split; [done|]. split.
      * intros n. destruct (decide (k = n)) as [<-|Hne].
        -- rewrite lookup_insert_eq, Ek. specialize (Hit k). by rewrite Hk in Hit.
        -- rewrite lookup_insert_ne by done. apply Hit.
      * intros e He. destruct (Hout e He) as [?|[Hs ?]]; [by left|right].
        split; [|done]. destruct (decide (k = e.1)) as [<-|Hne].
        -- rewrite lookup_insert_eq. eauto.
        -- by rewrite lookup_insert_ne.
Qed.

Lemma layer_loaded_mono pretrained (h0 h h' h1 : gmap positive (Np.ndarray R)) l l' :
  h0 ⊆ h → h' ⊆ h1 → layer_loaded pretrained h h' l l' →
  layer_loaded pretrained h0 h1 l l'.
Proof.
  intros H0 H1 (Hn & Hg & Hp). split; [done|]. split; [done|].
  destruct (Layer.params l) as [d|]; [|done].
  destruct Hp as (d' & Hd' & Hc). exists d'. split; [done|].
  intros n. specialize (Hc n). destruct (d !! n); [|done].
  destruct (pretrained !! n); [|done].
  destruct Hc as (l0 & ? & Hnone & Hsome). exists l0. split; [done|]. split.
  - destruct (h0 !! l0) eqn:E; [|done].
    eapply lookup_weaken in E; [|exact H0]. congruence.
  - by eapply lookup_weaken.
Qed.

Lemma load_layers_spec pretrained ls :
  ∀ (h : gmap positive (Np.ndarray R)) done out,
  ∃ h' ls' out',
    fold_left (load_layer pretrained) ls (h, done, out) = (h', done ++ ls', out')
    ∧ h ⊆ h'
    ∧ length ls' = length ls
    ∧ (∀ i l, ls !! i = Some l →
         ∃ l', ls' !! i = Some l' ∧ layer_loaded pretrained h h' l l')
    ∧ (∀ e, e ∈ out' → e ∈ out ∨ is_Some (pretrained !! e.1)).
Proof.
  induction ls as [|l rest IH]; intros h done out.
  - exists h, [], out. simpl. rewrite app_nil_r. repeat split; try done.
    intros e He. by left.
  - simpl. destruct (Layer.params l) as [d|] eqn:Hd.
    + destruct (load_items_spec pretrained h d out d) as (h1 & d1 & out1 & Hf & Hsub & Hit & Hout).
      rewrite Hf.
      destruct (IH h1 (done ++ [Layer.mk (Layer.name l) (Some d1) (Layer.grads l)]) out1)
        as (h' & ls' & out' & Hfold & Hsub' & Hlen & Hls & Hout').
      exists h', (Layer.mk (Layer.name l) (Some d1) (Layer.grads l) :: ls'), out'.
      split; [by rewrite Hfold, <- app_assoc|].
      split; [by etrans|]. split; [simpl; by rewrite Hlen|]. split.
      * intros [|i] l0 Hl0; simpl in Hl0.
        -- injection Hl0 as <-. eexists. split; [reflexivity|].
           apply (layer_loaded_mono pretrained h h h1 h'); [done|done|].
           split; [done|]. split; [done|]. rewrite Hd. exists d1. split; [done|].
           intros n. specialize (Hit n). by destruct (d !! n).
        -- destruct (Hls i l0 Hl0) as (l' & ? & ?). exists l'. split; [done|].
           by apply (layer_loaded_mono pretrained h h1 h' h').
      * intros e He. destruct (Hout' e He) as [He1|?]; [|by right].
        destruct (Hout e He1) as [?|[_ ?]]; [by left|by right].
    + destruct (IH h (done ++ [l]) out)
        as (h' & ls' & out' & Hfold & Hsub' & Hlen & Hls & Hout').
      exists h', (l :: ls'), out'.
      split; [by rewrite Hfold, <- app_assoc|].
      split; [done|]. split; [simpl; by rewrite Hlen|]. split; [|done].
      intros [|i] l0 Hl0; simpl in Hl0.
      * injection Hl0 as <-. exists l. split; [done|].
        split; [done|]. split; [done|]. by rewrite Hd.
      * destruct (Hls i l0 Hl0) as (l' & ? & ?). by exists l'.
Qed.

(** C8.  [load(pretrained)] returns, for every network and every pretrained
    mapping.  In every layer that has a parameter mapping, exactly the
    parameters whose names occur in [pretrained] are overwritten, each with
    a new array object that holds the pretrained contents (a copy); every
    other parameter keeps its value, no key is added or removed, the
    objects already in the heap are untouched, and so is the registry.  A
    layer without a parameter mapping is left as it is, and nothing is
    printed for it: every printed name is a pretrained name. *)
Theorem load_overwrites_pretrained (pretrained : gmap string (Np.ndarray R))
        (h : gmap positive (Np.ndarray R)) (self : RNN.t) :
  ∃ h' self' out,
    load pretrained h self = (h', self', out)
    ∧ length (layers self') = length (layers self)
    ∧ (∀ i l, layers self !! i = Some l →
         ∃ l', layers self' !! i = Some l' ∧ layer_loaded pretrained h h' l l')
    ∧ h ⊆ h'
    ∧ params self' = params self ∧ grads self' = grads self
    ∧ paramName2Indices self' = paramName2Indices self
    ∧ layer_names self' = layer_names self
    ∧ (∀ e, e ∈ out → is_Some (pretrained !! e.1)).
Proof.
  unfold load.
  destruct (load_layers_spec pretrained (layers self) h [] [])
    as (h' & ls' & out' & Hfold & Hsub & Hlen & Hls & Hout).
  rewrite Hfold. simpl. eexists _, _, _. split; [reflexivity|]. simpl.
  repeat split; try done.
  intros e He. destruct (Hout e He) as [Hn|?]; [|done]. by apply elem_of_nil in Hn.
Qed.

End container_load.

(* ===================================================================== *)
(** * numpy arrays: shapes and entries *)
(* ===================================================================== *)

Import Np.

Section arrays.
Local Open Scope R_scope.

Lemma length_flat_map_uniform {A : Type} (f : nat → list A) (c : nat) :
  (∀ i, length (f i) = c) →
  ∀ r s, length (flat_map f (seq s r)) = (r * c)%nat.
Proof.
  intros Hf. induction r as [|r IH]; intros s; simpl; [done|].
  rewrite length_app, Hf, IH. done.
Qed.

Lemma nth_flat_map_uniform {A : Type} (f : nat → list A) (c : nat) (d : A) :
  (∀ i, length (f i) = c) →
  ∀ r s i j, (i < r)%nat → (j < c)%nat →
    nth (i * c + j) (flat_map f (seq s r)) d = nth j (f (s + i)%nat) d.
Proof.
  intros Hf. induction r as [|r IH]; intros s i j Hi Hj; [lia|]. simpl.
  destruct i as [|i].
  - simpl. rewrite app_nth1 by (rewrite Hf; lia). by rewrite Nat.add_0_r.
  - rewrite app_nth2 by (rewrite Hf; lia). rewrite Hf.
    replace (S i * c + j - c)%nat with (i * c + j)%nat by lia.
    rewrite IH by lia. f_equal. f_equal. lia.
Qed.

Lemma nth_map_seq (f : nat → R) (n j : nat) :
  (j < n)%nat → nth j (map f (seq 0 n)) 0 = f j.
Proof.
  intros Hj. rewrite (nth_indep _ 0 (f 0%nat)) by (rewrite length_map, length_seq; lia).
  rewrite map_nth, seq_nth by lia. done.
Qed.

Lemma has_shape_build1 n f : has_shape (build1 n f) [n].
Proof. split; [done|]. simpl. rewrite length_map, length_seq. lia. Qed.

Lemma has_shape_build2 r c f : has_shape (build2 r c f) [r; c].
Proof.
  split; [done|]. simpl.
  rewrite (length_flat_map_uniform _ c).
  - lia.
  - intros i. by rewrite length_map, length_seq.
Qed.

Lemma has_shape_build3 a b c f : has_shape (build3 a b c f) [a; b; c].
Proof.
  split; [done|]. simpl.
  rewrite (length_flat_map_uniform _ (b * c)).
  - lia.
  - intros i. rewrite (length_flat_map_uniform _ c); [done|].
    intros j. by rewrite length_map, length_seq.
Qed.

Lemma get1_build1 n f i : (i < n)%nat → get1 (build1 n f) i = f i.
Proof. intros Hi. unfold get1. simpl. by apply nth_map_seq. Qed.

Lemma get2_build2 r c f i j :
  (i < r)%nat → (j < c)%nat → get2 (build2 r c f) i j = f i j.
Proof.
  intros Hi Hj. unfold get2, dim. simpl.
  rewrite (nth_flat_map_uniform _ c) by (done || intros; by rewrite length_map, length_seq).
  by apply nth_map_seq.
Qed.

Lemma get3_build3 a b c f i j k :
  (i < a)%nat → (j < b)%nat → (k < c)%nat →
  get3 (build3 a b c f) i j k = f i j k.
Proof.
  intros Hi Hj Hk. unfold get3, dim. simpl.
  replace ((i * b + j) * c + k)%nat with (i * (b * c) + (j * c + k))%nat by lia.
  rewrite (nth_flat_map_uniform _ (b * c)); [| |done|nia].
  - simpl. rewrite (nth_flat_map_uniform _ c) by (done || intros; by rewrite length_map, length_seq).
    by apply nth_map_seq.
  - intros i0. rewrite (length_flat_map_uniform _ c); [done|].
    intros j0. by rewrite length_map, length_seq.
Qed.

(** Two arrays of one shape with the same entries are equal. *)
Lemma ndarray_ext (a b : ndarray R) sh :
  has_shape a sh → has_shape b sh →
  (∀ i, (i < size_of sh)%nat → nth i (data a) 0 = nth i (data b) 0) →
  a = b.
Proof.
  destruct a as [sa da], b as [sb db]. intros [Hs1 Hl1] [Hs2 Hl2] H. simpl in *.
  subst. f_equal. apply (nth_ext _ _ 0 0); [congruence|].
  intros i Hi. apply H. lia.
Qed.

Lemma build1_ext n f g :
  (∀ i, (i < n)%nat → f i = g i) → build1 n f = build1 n g.
Proof.
  intros H. unfold build1. f_equal. apply map_ext_in.
  intros i Hi%in_seq. apply H. lia.
Qed.

Lemma build2_ext r c f g :
  (∀ i j, (i < r)%nat → (j < c)%nat → f i j = g i j) → build2 r c f = build2 r c g.
Proof.
  intros H. unfold build2. f_equal. rewrite !flat_map_concat_map. f_equal.
  apply map_ext_in. intros i Hi%in_seq. apply map_ext_in.
  intros j Hj%in_seq. apply H; lia.
Qed.

Lemma dim_has_shape (a : ndarray R) sh k : has_shape a sh → dim k a = nth k sh 0%nat.
Proof. intros [<- _]. done. Qed.

Lemma sum_n_ext f g n :
  (∀ i, (i < n)%nat → f i = g i) → sum_n f n = sum_n g n.
Proof.
  induction n as [|n IH]; intros H; simpl; [done|].
  rewrite IH, H by (intros; auto with lia). done.
Qed.

Lemma sum_n_plus f g n : sum_n (λ i, f i + g i) n = sum_n f n + sum_n g n.
Proof. induction n as [|n IH]; simpl; [lra|]. rewrite IH. lra. Qed.

Lemma sum_n_zero n : sum_n (λ _, 0) n = 0.
Proof. induction n as [|n IH]; simpl; [done|]. rewrite IH. lra. Qed.

Lemma nth_map_in (f : R → R) (l : list R) i :
  (i < length l)%nat → nth i (map f l) 0 = f (nth i l 0).
Proof.
  intros Hi. rewrite (nth_indep _ 0 (f 0)) by (by rewrite length_map).
  apply map_nth.
Qed.

Lemma nth_zip_with_in (op : R → R → R) (l1 l2 : list R) i :
  (i < length l1)%nat → (i < length l2)%nat →
  nth i (zip_with op l1 l2) 0 = op (nth i l1 0) (nth i l2 0).
Proof.
  revert l2 i. induction l1 as [|a l1 IH]; intros [|b l2] i H1 H2; simpl in *; try lia.
  destruct i as [|i]; [done|]. apply IH; lia.
Qed.

Lemma has_shape_amap f (a : ndarray R) sh : has_shape a sh → has_shape (amap f a) sh.
Proof. intros [Hs Hl]. split; [done|]. simpl. by rewrite length_map. Qed.

Lemma has_shape_ew2 op (a b : ndarray R) sh :
  has_shape a sh → has_shape b sh → has_shape (ew2 op a b) sh.
Proof.
  intros [Hs Hl] [Hs' Hl']. split; [done|]. simpl.
  rewrite length_zip_with. lia.
Qed.

Lemma index2_lt r c i j : (i < r)%nat → (j < c)%nat → (i * c + j < r * c)%nat.
Proof. nia. Qed.

Lemma get2_amap f (a : ndarray R) r c i j :
  has_shape a [r; c] → (i < r)%nat → (j < c)%nat →
  get2 (amap f a) i j = f (get2 a i j).
Proof.
  intros [Hs Hl] Hi Hj. unfold get2, dim. simpl. rewrite Hs. simpl.
  apply nth_map_in. rewrite Hl. simpl. pose proof (index2_lt r c i j Hi Hj). lia.
Qed.

Lemma get2_ew2 op (a b : ndarray R) r c i j :
  has_shape a [r; c] → has_shape b [r; c] → (i < r)%nat → (j < c)%nat →
  get2 (ew2 op a b) i j = op (get2 a i j) (get2 b i j).
Proof.
  intros [Hs Hl] [Hs' Hl'] Hi Hj. unfold get2, dim. simpl. rewrite Hs, Hs'. simpl.
  pose proof (index2_lt r c i j Hi Hj).
  apply nth_zip_with_in; [rewrite Hl|rewrite Hl']; simpl; lia.
Qed.

Lemma get1_ew2 op (a b : ndarray R) n i :
  has_shape a [n] → has_shape b [n] → (i < n)%nat →
  get1 (ew2 op a b) i = op (get1 a i) (get1 b i).
Proof.
  intros [Hs Hl] [Hs' Hl'] Hi. unfold get1. simpl.
  apply nth_zip_with_in; [rewrite Hl|rewrite Hl']; simpl; lia.
Qed.

Lemma get1_amap f (a : ndarray R) n i :
  has_shape a [n] → (i < n)%nat → get1 (amap f a) i = f (get1 a i).
Proof.
  intros [Hs Hl] Hi. unfold get1. simpl. apply nth_map_in. rewrite Hl. simpl. lia.
Qed.

Lemma dot_build (a b : ndarray R) r k c :
  has_shape a [r; k] → has_shape b [k; c] →
  dot a b = build2 r c (λ i j, sum_n (λ l, get2 a i l * get2 b l j) k).
Proof.
  intros Ha Hb. unfold dot.
  by rewrite (dim_has_shape a _ 0 Ha), (dim_has_shape a _ 1 Ha), (dim_has_shape b _ 1 Hb).
Qed.

Lemma transpose_build (a : ndarray R) r c :
  has_shape a [r; c] → transpose a = build2 c r (λ i j, get2 a j i).
Proof.
  intros Ha. unfold transpose.
  by rewrite (dim_has_shape a _ 0 Ha), (dim_has_shape a _ 1 Ha).
Qed.

Lemma has_shape_dot (a b : ndarray R) r k c :
  has_shape a [r; k] → has_shape b [k; c] → has_shape (dot a b) [r; c].
Proof. intros Ha Hb. rewrite (dot_build a b r k c Ha Hb). apply has_shape_build2. Qed.

Lemma has_shape_transpose (a : ndarray R) r c :
  has_shape a [r; c] → has_shape (transpose a) [c; r].
Proof. intros Ha. rewrite (transpose_build a r c Ha). apply has_shape_build2. Qed.

Lemma get2_dot (a b : ndarray R) r k c i j :
  has_shape a [r; k] → has_shape b [k; c] → (i < r)%nat → (j < c)%nat →
  get2 (dot a b) i j = sum_n (λ l, get2 a i l * get2 b l j) k.
Proof. intros Ha Hb Hi Hj. rewrite (dot_build a b r k c Ha Hb). by rewrite get2_build2. Qed.

Lemma get2_transpose (a : ndarray R) r c i j :
  has_shape a [r; c] → (i < c)%nat → (j < r)%nat →
  get2 (transpose a) i j = get2 a j i.
Proof. intros Ha Hi Hj. rewrite (transpose_build a r c Ha). by rewrite get2_build2. Qed.

Lemma reshape_ok {A : Type} (a : ndarray A) sh sh' :
  has_shape a sh → size_of sh' = size_of sh → reshape sh' a = Ok (mk sh' (data a)).
Proof.
  intros [_ Hl] Hs. unfold reshape. rewrite decide_True; [done|congruence].
Qed.

Lemma has_shape_mk {A : Type} (l : list A) sh :
  length l = size_of sh → has_shape (mk sh l) sh.
Proof. intros H. split; done. Qed.

End arrays.

(* ===================================================================== *)
(** * temporal_fc *)
(* ===================================================================== *)

Section fc.
Import temporal_fc.
Local Open Scope R_scope.

(** C9.  For [x] of shape (N,T,D) kept by a forward and [dout] of shape
    (N,T,M), [backward] returns and stores as the weight gradient the
    transpose of (flattened [dout])^T . (flattened [x]), and this array is
    equal to (flattened [x])^T . (flattened [dout]) computed directly. *)
Theorem temporal_fc_weight_grad (self : temporal_fc.t) (x out dout W b : ndarray R)
        (N T D M : nat) :
  meta self = Some (x, out) →
  params self !! w_name self = Some W →
  params self !! b_name self = Some b →
  has_shape x [N; T; D] → has_shape dout [N; T; M] →
  has_shape W [D; M] → has_shape b [M] →
  ∃ dx self',
    backward self dout = Ok (dx, self')
    ∧ grads self' !! w_name self
      = Some (Some (transpose (dot (transpose (mk [N * T; M]%nat (data dout)))
                                   (mk [N * T; D]%nat (data x)))))
    ∧ transpose (dot (transpose (mk [N * T; M]%nat (data dout)))
                     (mk [N * T; D]%nat (data x)))
      = direct_weight_grad N T D M x dout.
Proof.
  intros Hmeta HW Hb Hx Hdout HsW Hsb.
  assert (w_name self ≠ b_name self) as Hne.
  { intros Heq. rewrite Heq, Hb in HW. injection HW as ->.
    destruct HsW as [HsW _], Hsb as [Hsb _]. congruence. }
  assert (has_shape (mk [N * T; M]%nat (data dout)) [N * T; M]%nat) as Hdf.
  { apply has_shape_mk. destruct Hdout as [_ ->]. simpl. lia. }
  assert (has_shape (mk [N * T; D]%nat (data x)) [N * T; D]%nat) as Hxf.
  { apply has_shape_mk. destruct Hx as [_ ->]. simpl. lia. }
  unfold backward. rewrite Hmeta. destruct Hx as [Hsx Hlx]. rewrite Hsx.
  unfold getitem. rewrite Hb. simpl.
  unfold shape_at, list_getitem. destruct Hsb as [Hsb Hlb]. rewrite Hsb. simpl.
  rewrite (reshape_ok dout [N; T; M] _ Hdout) by (simpl; lia). simpl.
  rewrite HW. simpl.
  pose proof (has_shape_dot _ _ _ _ _ Hdf (has_shape_transpose _ _ _ HsW)) as Hdx.
  rewrite (reshape_ok _ _ [N; T; D] Hdx) by (simpl; lia). simpl.
  rewrite (reshape_ok x [N; T; D] [N * T; D]%nat) by (done || simpl; lia). simpl.
  eexists _, _. split; [reflexivity|]. simpl.
  split.
  { rewrite lookup_insert_ne by done. by rewrite lookup_insert_eq. }
  unfold direct_weight_grad.
  pose proof (has_shape_transpose _ _ _ Hdf) as Hdt.
  pose proof (has_shape_transpose _ _ _ Hxf) as Hxt.
  rewrite (transpose_build _ _ _ (has_shape_dot _ _ _ _ _ Hdt Hxf)).
  rewrite (dot_build _ _ _ _ _ Hxt Hdf).
  apply build2_ext. intros i j Hi Hj.
  rewrite (get2_dot _ _ _ _ _ _ _ Hdt Hxf) by done.
  apply sum_n_ext. intros k Hk.
  rewrite (get2_transpose _ _ _ _ _ Hdf), (get2_transpose _ _ _ _ _ Hxf) by done.
  apply Rmult_comm.
Qed.

End fc.

(* ===================================================================== *)
(** * temporal_softmax_loss *)
(* ===================================================================== *)

Section loss.
Import temporal_softmax_loss.
Local Open Scope R_scope.

Lemma resolve_all_ok (n : nat) (l : list Z) :
  Forall (λ z, (0 ≤ z < Z.of_nat n)%Z) l →
  resolve_all n l = Ok (map Z.to_nat l).
Proof.
  induction 1 as [|z l Hz _ IH]; [done|]. simpl.
  unfold resolve_index. rewrite decide_True by done. simpl. by rewrite IH.
Qed.

Lemma nth_map_to_nat (l : list Z) r :
  nth r (map Z.to_nat l) 0%nat = Z.to_nat (nth r l 0%Z).
Proof. apply (map_nth Z.to_nat l 0%Z r). Qed.

Lemma Rsum_list_app l1 l2 : Rsum_list (l1 ++ l2) = Rsum_list l1 + Rsum_list l2.
Proof. induction l1 as [|a l1 IH]; simpl; [lra|]. rewrite IH. lra. Qed.

Lemma masked_sum (m g : nat → R) (n : nat) :
  (∀ r, (r < n)%nat → m r = 0 ∨ m r = 1) →
  sum_n (λ r, m r * g r) n = Rsum_list (map g (filter (λ r, m r = 1) (seq 0 n))).
Proof.
  induction n as [|n IH]; intros H; [done|].
  rewrite seq_S, filter_app, map_app, Rsum_list_app. simpl sum_n.
  rewrite IH by (intros; apply H; lia). f_equal.
  rewrite filter_cons, filter_nil. simpl.
  destruct (H n ltac:(lia)) as [E|E].
  - rewrite decide_False by (rewrite E; lra). simpl. rewrite E. lra.
  - rewrite decide_True by done. simpl. rewrite E. lra.
Qed.

Lemma row_op_build op (a m : ndarray R) r c :
  has_shape a [r; c] →
  row_op op a m = build2 r c (λ i j, op (get2 a i j) (get1 m i)).
Proof.
  intros Ha. unfold row_op.
  by rewrite (dim_has_shape a _ 0 Ha), (dim_has_shape a _ 1 Ha).
Qed.

Lemma sum_axis1_build (a : ndarray R) r c :
  has_shape a [r; c] →
  sum_axis1 a = build1 r (λ i, sum_n (λ j, get2 a i j) c).
Proof.
  intros Ha. unfold sum_axis1.
  by rewrite (dim_has_shape a _ 0 Ha), (dim_has_shape a _ 1 Ha).
Qed.

(** The probabilities that [forward] stores. *)
Lemma probs_softmax (ff : ndarray R) (R0 V : nat) :
  has_shape ff [R0; V] →
  let rowmax := build1 R0 (λ i, max_n (λ j, get2 ff i j) V) in
  let e := amap exp (row_op Rminus ff rowmax) in
  let probs := row_op Rdiv e (sum_axis1 e) in
  has_shape probs [R0; V]
  ∧ ∀ r j, (r < R0)%nat → (j < V)%nat → get2 probs r j = softmax_prob V ff r j.
Proof.
  intros Hff rowmax e probs.
  assert (has_shape (row_op Rminus ff rowmax) [R0; V]) as Hsub.
  { rewrite (row_op_build _ _ _ _ _ Hff). apply has_shape_build2. }
  assert (has_shape e [R0; V]) as He by (by apply has_shape_amap).
  assert (∀ r j, (r < R0)%nat → (j < V)%nat →
            get2 e r j = exp (get2 ff r j - max_n (λ k, get2 ff r k) V)) as Hge.
  { intros r j Hr Hj. unfold e. rewrite (get2_amap _ _ _ _ _ _ Hsub) by done.
    rewrite (row_op_build _ _ _ _ _ Hff), get2_build2 by done.
    unfold rowmax. by rewrite get1_build1. }
  split.
  { unfold probs. rewrite (row_op_build _ _ _ _ _ He). apply has_shape_build2. }
  intros r j Hr Hj. unfold probs.
  rewrite (row_op_build _ _ _ _ _ He), get2_build2 by done.
  rewrite (sum_axis1_build _ _ _ He), get1_build1 by done.
  unfold softmax_prob. rewrite Hge by done. f_equal.
  apply sum_n_ext. intros k Hk. by apply Hge.
Qed.

Lemma valid_indices_pos V (label : ndarray Z) n :
  valid_indices V label → length (data label) = n → n ≠ 0%nat → V ≠ 0%nat.
Proof.
  unfold valid_indices. intros Hv Hl Hn.
  destruct (data label) as [|z l]; [simpl in Hl; lia|].
  inversion Hv; subst. lia.
Qed.

Lemma valid_indices_nth V (label : ndarray Z) r :
  valid_indices V label → (r < length (data label))%nat →
  (Z.to_nat (nth r (data label) 0%Z) < V)%nat.
Proof.
  intros Hv Hr. unfold valid_indices in Hv. rewrite Forall_forall in Hv.
  specialize (Hv (nth r (data label) 0%Z)).
  assert (nth r (data label) 0%Z ∈ data label) as Hin.
  { apply list_elem_of_In. by apply nth_In. }
  specialize (Hv Hin). lia.
Qed.

Lemma forward_probs (self : temporal_softmax_loss.t) (feat : ndarray R)
        (label : ndarray Z) (mask : ndarray R) (N T V : nat) :
  has_shape feat [N; T; V] → has_shape label [N; T] → has_shape mask [N; T] →
  valid_indices V label → binary_mask mask →
  ∃ probs,
    forward self feat label mask
    = Ok (if dim_average self
          then masked_nll N T V feat label mask / INR N
          else masked_nll N T V feat label mask,
          mkT (dim_average self) (Some probs) (Some label) (Some mask))
    ∧ has_shape probs [N * T; V]%nat
    ∧ ∀ r j, (r < N * T)%nat → (j < V)%nat →
        get2 probs r j = softmax_prob V (mk [N * T; V]%nat (data feat)) r j.
Proof.
  intros Hf Hl Hm Hv Hb.
  assert (has_shape (mk [N * T; V]%nat (data feat)) [N * T; V]%nat) as Hff.
  { apply has_shape_mk. destruct Hf as [_ ->]. simpl. lia. }
  assert (length (data label) = (N * T)%nat) as Hll.
  { destruct Hl as [_ ->]. simpl. lia. }
  assert (length (data mask) = (N * T)%nat) as Hlm.
  { destruct Hm as [_ ->]. simpl. lia. }
  unfold forward. destruct Hf as [Hsf Hlf]. rewrite Hsf.
  rewrite (reshape_ok feat [N; T; V]) by (done || simpl; lia). simpl.
  rewrite (reshape_ok label [N; T]) by (done || simpl; lia). simpl.
  rewrite (reshape_ok mask [N; T]) by (done || simpl; lia). simpl.
  unfold max_axis1.
  rewrite (dim_has_shape _ _ 0 Hff), (dim_has_shape _ _ 1 Hff). simpl nth.
  rewrite decide_False; last first.
  { intros [HV HNT]. by apply (valid_indices_pos V label (N * T) Hv Hll). }
  simpl.
  destruct (probs_softmax _ _ _ Hff) as [Hps Hpg].
  set (probs := row_op Rdiv _ _) in *.
  unfold take_rows. rewrite (dim_has_shape _ _ 0 Hps), (dim_has_shape _ _ 1 Hps).
  simpl nth. simpl data. rewrite decide_True by done.
  rewrite (resolve_all_ok _ _ Hv). simpl.
  exists probs. split; [|done].
  f_equal. f_equal.
  assert (masked_nll N T V feat label mask
          = - sum1 (mul (mk [(N * T)%nat] (data mask))
                        (amap ln (build1 (N * T)
                           (λ r, get2 probs r (nth r (map Z.to_nat (data label)) 0%nat))))))
    as ->; [|done].
  unfold masked_nll, sum1, masked_positions. f_equal.
  unfold dim. simpl shape. simpl nth.
  rewrite <- (masked_sum (λ r, nth r (data mask) 0)).
  - apply sum_n_ext. intros r Hr. unfold mul.
    rewrite (get1_ew2 _ _ _ (N * T)); [| |by apply has_shape_amap, has_shape_build1|done].
    + unfold get1 at 1. simpl. f_equal.
      rewrite (get1_amap _ _ (N * T)) by (done || apply has_shape_build1).
      rewrite get1_build1 by done. rewrite nth_map_to_nat.
      rewrite Hpg; [done|done|]. apply valid_indices_nth; [done|lia].
    + apply has_shape_mk. simpl. lia.
  - intros r Hr. unfold binary_mask in Hb. rewrite Forall_forall in Hb.
    apply Hb. apply list_elem_of_In, nth_In. lia.
Qed.

(** C2 (the code at the failing input).  On a loss unit on which [forward]
    was never called, [backward] raises the [AttributeError] of
    [self.label.shape], and not the error of the guard that follows it. *)
Theorem backward_before_forward (dim_average : bool) :
  backward (__init__ dim_average) = Raise AttributeError
  ∧ backward (__init__ dim_average) ≠ Raise (ValueError no_forward).
Proof. split; [reflexivity|discriminate]. Qed.

Lemma backward_step (st : temporal_softmax_loss.t) (d : ndarray R)
      (lab : ndarray Z) (msk : ndarray R) (N T V : nat) :
  dLoss st = Some d → label st = Some lab → mask st = Some msk →
  has_shape d [N * T; V]%nat → has_shape lab [N; T] → has_shape msk [N; T] →
  valid_indices V lab → (N * T)%nat ≠ 0%nat →
  ∃ d', backward st
        = Ok (mk [N; T; V] (data d'),
              mkT (dim_average st) (Some d') (Some lab) (Some msk))
    ∧ has_shape d' [N * T; V]%nat
    ∧ ∀ r j, (r < N * T)%nat → (j < V)%nat →
        get2 d' r j
        = grad_entry (dim_average st) N (true_class lab r)
                     (nth r (data msk) 0) j (get2 d r j).
Proof.
  intros Hd Hlab Hmsk Hsd Hsl Hsm Hv Hnz.
  assert (length (data lab) = (N * T)%nat) as Hll.
  { destruct Hsl as [_ ->]. simpl. lia. }
  unfold backward. rewrite Hlab. simpl. destruct Hsl as [Hsl Hll']. rewrite Hsl.
  rewrite Hd.
  rewrite (reshape_ok lab [N; T]) by (done || simpl; lia). simpl.
  unfold sub_at_rows. rewrite (dim_has_shape _ _ 0 Hsd), (dim_has_shape _ _ 1 Hsd).
  simpl nth. simpl data. rewrite decide_True by done.
  rewrite (resolve_all_ok _ _ Hv). simpl. rewrite Hmsk. simpl.
  rewrite (reshape_ok msk [N; T]) by (done || simpl; lia). simpl.
  set (d1 := build2 (N * T) V _).
  set (d2 := if dim_average st then _ else _).
  assert (has_shape d1 [N * T; V]%nat) as H1 by apply has_shape_build2.
  assert (has_shape d2 [N * T; V]%nat) as H2.
  { unfold d2. destruct (dim_average st); [by apply has_shape_amap|done]. }
  rewrite (row_op_build _ _ _ _ _ H2).
  set (d3 := build2 (N * T) V _).
  assert (has_shape d3 [N * T; V]%nat) as H3 by apply has_shape_build2.
  unfold reshape_infer. rewrite decide_False by done.
  destruct H3 as [Hs3 Hl3]. rewrite Hl3. simpl size_of.
  replace (N * T * (V * 1))%nat with (V * (N * T))%nat by lia.
  rewrite Nat.Div0.mod_mul, Nat.div_mul by done.
  rewrite decide_True by done. rewrite <- Hlab, <- Hmsk.
  exists d3. split; [by rewrite Hlab, Hmsk|]. split; [by split|].
  intros r j Hr Hj. unfold d3. rewrite get2_build2 by done.
  unfold grad_entry, get1. simpl data. f_equal.
  unfold d2. destruct (dim_average st).
  - rewrite (get2_amap _ _ _ _ _ _ H1) by done. unfold d1.
    rewrite get2_build2 by done. rewrite nth_map_to_nat. done.
  - unfold d1. rewrite get2_build2 by done. rewrite nth_map_to_nat. done.
Qed.

Lemma sum_n_pos f n : (∀ i, (i < n)%nat → 0 < f i) → (0 < n)%nat → 0 < sum_n f n.
Proof.
  induction n as [|n IH]; intros H Hn; [lia|]. simpl.
  destruct n as [|n].
  - simpl. specialize (H 0%nat ltac:(lia)). lra.
  - specialize (H (S n) ltac:(lia)) as Hn'.
    assert (0 < sum_n f (S n)); [|lra]. apply IH; [|lia]. intros; apply H; lia.
Qed.

Lemma sum_n_ge_term f n j :
  (∀ i, (i < n)%nat → 0 < f i) → (j < n)%nat → f j <= sum_n f n.
Proof.
  induction n as [|n IH]; intros H Hj; [lia|]. simpl.
  destruct (decide (j = n)) as [->|Hne].
  - destruct n as [|n]; [simpl; lra|].
    assert (0 < sum_n f (S n)); [|lra]. apply sum_n_pos; [|lia]. intros; apply H; lia.
  - specialize (H n ltac:(lia)) as Hn.
    assert (f j <= sum_n f n); [|lra]. apply IH; [|lia]. intros; apply H; lia.
Qed.

Lemma softmax_prob_range V ff r j :
  (j < V)%nat → 0 < softmax_prob V ff r j <= 1.
Proof.
  intros Hj. unfold softmax_prob.
  set (m := max_n _ V). set (f := λ k, exp (get2 ff r k - m)).
  assert (0 < sum_n f V) as Hs.
  { apply sum_n_pos; [|lia]. intros; apply exp_pos. }
  assert (f j <= sum_n f V) as Hle.
  { apply sum_n_ge_term; [|done]. intros; apply exp_pos. }
  assert (0 < f j) as Hp by apply exp_pos.
  change (exp (get2 ff r j - m)) with (f j).
  split.
  - by apply Rdiv_lt_0_compat.
  - apply (Rmult_le_reg_r (sum_n f V)); [done|].
    unfold Rdiv. rewrite Rmult_assoc, Rinv_l by lra. lra.
Qed.

Lemma grad_entry_twice_neq (avg : bool) (N cls : nat) (p : R) :
  (0 < N)%nat → 0 < p <= 1 →
  grad_entry avg N cls 1 cls (grad_entry avg N cls 1 cls p)
  ≠ grad_entry avg N cls 1 cls p.
Proof.
  intros HN [Hp0 Hp1]. unfold grad_entry. rewrite !decide_True by done.
  destruct avg; [|lra].
  assert (1 <= INR N) as Hc.
  { replace 1 with (INR 1) by done. apply le_INR. lia. }
  set (c := INR N) in *. intros Heq.
  assert (((p - 1) / c - 1) = (p - 1)) as H.
  { apply (Rmult_eq_reg_r (/ c)); [|apply Rinv_neq_0_compat; lra].
    unfold Rdiv in Heq. lra. }
  assert ((p - 1) = c * p) as H'.
  { apply (Rmult_eq_compat_r c) in H. unfold Rdiv in H.
    rewrite Rmult_minus_distr_r, Rmult_assoc, Rinv_l in H by lra. lra. }
  nra.
Qed.

Lemma get2_same_data (a b : ndarray R) sh i j :
  has_shape a sh → has_shape b sh → data a = data b → get2 a i j = get2 b i j.
Proof.
  intros [Ha _] [Hb _] Hd. unfold get2, dim. by rewrite Ha, Hb, Hd.
Qed.

(** C10 (as amended).  After a forward on at least one position,
    [backward] succeeds and leaves [dLoss] present, so that a second
    [backward] without a forward in between succeeds as well; it works on
    the array the first call left, subtracts one at the label positions and
    rescales again, and the array it returns differs from the one the
    first call returned whenever the mask is one at some position. *)
Theorem backward_twice (self : temporal_softmax_loss.t) (feat : ndarray R)
        (label : ndarray Z) (mask : ndarray R) (N T V : nat) :
  has_shape feat [N; T; V] → has_shape label [N; T] → has_shape mask [N; T] →
  valid_indices V label → binary_mask mask → (0 < N * T)%nat →
  ∃ loss st1 g1 st2 g2 st3 d1 d2,
    forward self feat label mask = Ok (loss, st1)
    ∧ backward st1 = Ok (g1, st2)
    ∧ dLoss st2 = Some d1 ∧ g1 = mk [N; T; V] (data d1)
    ∧ backward st2 = Ok (g2, st3)
    ∧ dLoss st3 = Some d2 ∧ g2 = mk [N; T; V] (data d2)
    ∧ (∀ r j, (r < N * T)%nat → (j < V)%nat →
         get2 d2 r j
         = grad_entry (dim_average self) N (true_class label r)
                      (nth r (data mask) 0) j (get2 d1 r j))
    ∧ ((∃ r, (r < N * T)%nat ∧ nth r (data mask) 0 = 1) → g2 ≠ g1).
Proof.
  intros Hf Hl Hm Hv Hb Hpos.
  destruct (forward_probs self feat label mask N T V Hf Hl Hm Hv Hb)
    as (probs & Hfw & Hsp & Hgp).
  destruct (backward_step (mkT (dim_average self) (Some probs) (Some label) (Some mask))
              probs label mask N T V eq_refl eq_refl eq_refl Hsp Hl Hm Hv ltac:(lia))
    as (d1 & Hb1 & Hs1 & Hg1).
  destruct (backward_step (mkT (dim_average self) (Some d1) (Some label) (Some mask))
              d1 label mask N T V eq_refl eq_refl eq_refl Hs1 Hl Hm Hv ltac:(lia))
    as (d2 & Hb2 & Hs2 & Hg2).
  simpl in *.
  eexists _, _, _, _, _, _, d1, d2.
  split; [exact Hfw|]. split; [exact Hb1|]. split; [done|]. split; [done|].
  split; [exact Hb2|]. split; [done|]. split; [done|]. split; [exact Hg2|].
  intros (r & Hr & Hmask) Heq.
  injection Heq as Hdata.
  assert (length (data label) = (N * T)%nat) as Hll.
  { destruct Hl as [_ ->]. simpl. lia. }
  pose proof (valid_indices_nth V label r Hv ltac:(lia)) as Hcls.
  fold (true_class label r) in Hcls.
  pose proof (get2_same_data d2 d1 _ r (true_class label r) Hs2 Hs1 Hdata) as Hsame.
  rewrite Hg2, Hg1 in Hsame by done. rewrite Hmask in Hsame.
  apply (grad_entry_twice_neq (dim_average self) N (true_class label r)
           (get2 probs r (true_class label r))); [lia| |exact Hsame].
  rewrite Hgp by done. by apply softmax_prob_range.
Qed.

(** C10 as stated fails: when the mask is zero everywhere, the second
    [backward] returns the same array as the first. *)
Lemma backward_twice_masked_out :
  ∃ loss st1 g st2 st3,
    forward (__init__ true) feat_uniform label_first mask_zeros = Ok (loss, st1)
    ∧ backward st1 = Ok (g, st2)
    ∧ backward st2 = Ok (g, st3).
Proof.
  assert (has_shape feat_uniform [1; 1; 2]%nat) as Hf by (split; reflexivity).
  assert (has_shape label_first [1; 1]%nat) as Hl by (split; reflexivity).
  assert (has_shape mask_zeros [1; 1]%nat) as Hm by (split; reflexivity).
  assert (valid_indices 2 label_first) as Hv.
  { constructor; [lia|constructor]. }
  assert (binary_mask mask_zeros) as Hb.
  { constructor; [by left|constructor]. }
  destruct (forward_probs (__init__ true) _ _ _ 1 1 2 Hf Hl Hm Hv Hb)
    as (probs & Hfw & Hsp & Hgp).
  destruct (backward_step (mkT true (Some probs) (Some label_first) (Some mask_zeros))
              probs label_first mask_zeros 1 1 2 eq_refl eq_refl eq_refl Hsp Hl Hm Hv
              ltac:(done))
    as (d1 & Hb1 & Hs1 & Hg1).
  destruct (backward_step (mkT true (Some d1) (Some label_first) (Some mask_zeros))
              d1 label_first mask_zeros 1 1 2 eq_refl eq_refl eq_refl Hs1 Hl Hm Hv
              ltac:(done))
    as (d2 & Hb2 & Hs2 & Hg2).
  simpl in *.
  assert (d2 = d1) as Heq.
  { apply (ndarray_ext _ _ [1; 2]%nat Hs2 Hs1). intros i Hi. simpl in Hi.
    assert (∀ d : ndarray R, has_shape d [1; 2]%nat → nth i (data d) 0 = get2 d 0 i) as Hn.
    { intros d [Hd _]. unfold get2, dim. rewrite Hd. done. }
    rewrite (Hn d2 Hs2), (Hn d1 Hs1), Hg2, Hg1 by lia.
    unfold grad_entry. simpl. lra. }
  eexists _, _, _, _, _. split; [exact Hfw|]. split; [exact Hb1|].
  rewrite Hb2, Heq. done.
Qed.


End loss.

(* ===================================================================== *)
(** * word_embedding *)
(* ===================================================================== *)

Section more_arrays.
Local Open Scope R_scope.

Lemma sum_n_S_first f n : sum_n f (S n) = f 0%nat + sum_n (λ i, f (S i)) n.
Proof.
  induction n as [|n IH]; [simpl; lra|].
  change (sum_n f (S (S n))) with (sum_n f (S n) + f (S n)).
  rewrite IH. simpl. lra.
Qed.

Lemma sum_n_add f n m :
  sum_n f (n + m) = sum_n f n + sum_n (λ i, f (n + i)%nat) m.
Proof.
  induction m as [|m IH].
  - rewrite Nat.add_0_r. simpl. lra.
  - rewrite Nat.add_succ_r. simpl. rewrite IH. lra.
Qed.

Lemma sum_n_mul f N T :
  sum_n f (N * T) = sum_n (λ n, sum_n (λ t, f (n * T + t)%nat) T) N.
Proof.
  induction N as [|N IH]; [done|].
  replace (S N * T)%nat with (N * T + T)%nat by lia.
  rewrite sum_n_add, IH. done.
Qed.

Lemma sum_n_all_zero f n : (∀ i, (i < n)%nat → f i = 0) → sum_n f n = 0.
Proof.
  intros H. rewrite (sum_n_ext f (λ _, 0)) by done. apply sum_n_zero.
Qed.

Lemma has_shape_zeros sh : has_shape (zeros sh) sh.
Proof. split; [done|]. simpl. by rewrite repeat_length. Qed.

Lemma nth_zeros sh i : nth i (data (zeros sh)) 0 = 0.
Proof.
  simpl. destruct (decide (i < size_of sh)%nat).
  - by rewrite nth_repeat_lt.
  - rewrite nth_overflow; [done|]. rewrite repeat_length. lia.
Qed.

Lemma get2_zeros sh i j : get2 (zeros sh) i j = 0.
Proof. apply nth_zeros. Qed.

Lemma get1_zeros sh i : get1 (zeros sh) i = 0.
Proof. apply nth_zeros. Qed.

Lemma get3_zeros sh i j k : get3 (zeros sh) i j k = 0.
Proof. apply nth_zeros. Qed.

Lemma add_row_build (g : ndarray R) V D k row :
  has_shape g [V; D] →
  add_row g k row
  = build2 V D (λ i j, if decide (i = k) then get2 g i j + row j else get2 g i j).
Proof.
  intros Hg. unfold add_row.
  by rewrite (dim_has_shape g _ 0 Hg), (dim_has_shape g _ 1 Hg).
Qed.

Lemma add_at_loop_spec (dout : list R) (V D : nat) (ks : list nat) :
  ∀ p g, has_shape g [V; D] →
  has_shape (add_at_loop dout p ks g) [V; D]
  ∧ ∀ v d, (v < V)%nat → (d < D)%nat →
      get2 (add_at_loop dout p ks g) v d
      = get2 g v d
        + sum_n (λ q, if decide (nth q ks 0%nat = v)
                      then nth ((p + q) * D + d) dout 0 else 0) (length ks).
Proof.
  induction ks as [|k ks IH]; intros p g Hg.
  - simpl. split; [done|]. intros; lra.
  - assert (add_at_loop dout p (k :: ks) g
            = add_at_loop dout (S p) ks
                (build2 V D (λ i j, if decide (i = k)
                   then get2 g i j + nth (p * D + j) dout 0 else get2 g i j))) as ->.
    { simpl. rewrite (add_row_build g V D) by done.
      by rewrite (dim_has_shape g _ 1 Hg). }
    destruct (IH (S p) (build2 V D (λ i j, if decide (i = k)
                  then get2 g i j + nth (p * D + j) dout 0 else get2 g i j))
                 (has_shape_build2 _ _ _)) as [Hs Hg'].
    split; [done|]. intros v d Hv Hd.
    rewrite Hg' by done. rewrite get2_build2 by done.
    simpl length. rewrite sum_n_S_first.
    match goal with
    | |- _ + sum_n ?F1 _ = _ + (_ + sum_n ?F2 _) =>
        assert (sum_n F2 (length ks) = sum_n F1 (length ks)) as ->
    end.
    { apply sum_n_ext. intros q _. simpl nth.
      by replace (p + S q)%nat with (S p + q)%nat by lia. }
    simpl nth. rewrite Nat.add_0_r.
    destruct (decide (v = k)) as [->|Hne].
    + rewrite decide_True by done. lra.
    + rewrite (decide_False (P := k = v)) by done. lra.
Qed.

End more_arrays.

Section embedding.
Import word_embedding.
Local Open Scope R_scope.

(** C6.  For an index array [x] of shape (N,T) kept by a forward and
    [dout] of shape (N,T,D), [backward] stores a gradient table of the
    shape of the embedding table in which row [v] is the sum of the rows of
    [dout] at the positions where [x] holds [v] (an index that occurs k
    times receives the sum of k rows), and a row whose index does not occur
    is zero. *)
Theorem embedding_backward_scatter_add (self : word_embedding.t)
        (out : ndarray R) (x : ndarray Z) (dout W : ndarray R) (N T V D : nat) :
  meta self = Some (out, x) →
  params self !! w_name self = Some W →
  has_shape W [V; D] → has_shape x [N; T] → has_shape dout [N; T; D] →
  valid_indices V x →
  ∃ self' g,
    backward self dout = Ok self'
    ∧ grads self' !! w_name self = Some (Some g)
    ∧ has_shape g [V; D]
    ∧ (∀ v d, (v < V)%nat → (d < D)%nat →
         get2 g v d = scatter_sum N T x dout v d)
    ∧ (∀ v d, (v < V)%nat → (d < D)%nat →
         (∀ q, (q < N * T)%nat → nth q (data x) 0%Z ≠ Z.of_nat v) →
         get2 g v d = 0).
Proof.
  intros Hmeta HW HsW Hx Hdout Hv.
  assert (length (data x) = (N * T)%nat) as Hlx.
  { destruct Hx as [_ ->]. simpl. lia. }
  unfold backward. rewrite Hmeta. unfold getitem. rewrite HW. simpl.
  unfold add_at. simpl shape. destruct HsW as [HsW HlW]. rewrite HsW.
  rewrite (dim_has_shape (zeros [V; D]) _ 0 (has_shape_zeros _)). simpl nth.
  rewrite (resolve_all_ok _ _ Hv). simpl.
  destruct (add_at_loop_spec (data dout) V D (map Z.to_nat (data x)) 0
              (zeros [V; D]) (has_shape_zeros _)) as [Hs Hg].
  eexists _, _. split; [reflexivity|]. simpl.
  split; [by rewrite lookup_insert_eq|]. split; [done|].
  assert (∀ v d, (v < V)%nat → (d < D)%nat →
    get2 (add_at_loop (data dout) 0 (map Z.to_nat (data x)) (zeros [V; D])) v d
    = scatter_sum N T x dout v d) as Hsc.
  { intros v d Hlv Hld. rewrite Hg by done. rewrite get2_zeros.
    rewrite length_map, Hlx, sum_n_mul. unfold scatter_sum. rewrite Rplus_0_l.
    apply sum_n_ext. intros n Hn. apply sum_n_ext. intros t Ht.
    assert (n * T + t < N * T)%nat as Hq by nia.
    rewrite nth_map_to_nat.
    pose proof (valid_indices_nth V x (n * T + t) Hv ltac:(lia)) as Hlt.
    assert (0 ≤ nth (n * T + t) (data x) 0%Z)%Z as Hnn.
    { unfold valid_indices in Hv. rewrite Forall_forall in Hv.
      apply (Hv (nth (n * T + t) (data x) 0%Z)).
      apply list_elem_of_In, nth_In. lia. }
    unfold get3. rewrite (dim_has_shape dout _ 1 Hdout), (dim_has_shape dout _ 2 Hdout).
    simpl nth.
    destruct (decide (Z.to_nat (nth (n * T + t) (data x) 0%Z) = v)) as [E|E].
    - rewrite decide_True by lia. done.
    - rewrite decide_False by lia. done. }
  split; [exact Hsc|].
  intros v d Hlv Hld Hno. rewrite Hsc by done. unfold scatter_sum.
  apply sum_n_all_zero. intros n Hn. apply sum_n_all_zero. intros t Ht.
  rewrite decide_False; [done|]. apply Hno. nia.
Qed.

End embedding.

(* ===================================================================== *)
(** * LSTM *)
(* ===================================================================== *)

Section lstm.
Import LSTM.
Local Open Scope R_scope.

Lemma sigmoid1_logistic x : sigmoid1 x = logistic x.
Proof.
  unfold sigmoid1, logistic. destruct (Rle_dec 0 x) as [H|H]; [done|].
  rewrite exp_Ropp. pose proof (exp_pos x). field. lra.
Qed.

Lemma add_bias_build (a b : ndarray R) r c :
  has_shape a [r; c] →
  add_bias a b = build2 r c (λ i j, get2 a i j + get1 b j).
Proof.
  intros Ha. unfold add_bias.
  by rewrite (dim_has_shape a _ 0 Ha), (dim_has_shape a _ 1 Ha).
Qed.

Lemma slice_cols_build (a : ndarray R) r c lo hi :
  has_shape a [r; c] → (lo <= hi)%nat → (hi <= c)%nat →
  slice_cols lo hi a = build2 r (hi - lo) (λ i j, get2 a i (lo + j)).
Proof.
  intros Ha Hlo Hhi. unfold slice_cols.
  rewrite (dim_has_shape a _ 0 Ha), (dim_has_shape a _ 1 Ha). simpl nth.
  by replace (Nat.min hi c - Nat.min lo c)%nat with (hi - lo)%nat by lia.
Qed.

(** C4.  For [x] of shape (N,D), [prev_h] and [prev_c] of shape (N,H) and
    parameters of shapes (D,4H), (H,4H) and (4H), [step_forward] returns
    [next_h], [next_c] and the nine entries
    (x, prev_h, next_h, prev_c, i, f, next_c, o, g) of meta, where with
    A = x.Wx + prev_h.Wh + b the gates i, f and o are the logistic function
    of the first three H-wide blocks of A, g is the tanh of the fourth,
    next_c = f * prev_c + i * g and next_h = o * tanh(next_c). *)
Theorem lstm_step_forward_gates (self : LSTM.t) (x prev_h prev_c Wx Wh b : ndarray R)
        (N D : nat) :
  let H := h_dim self in
  params self !! wx_name self = Some Wx →
  params self !! wh_name self = Some Wh →
  params self !! b_name self = Some b →
  has_shape x [N; D] → has_shape prev_h [N; H] → has_shape prev_c [N; H] →
  has_shape Wx [D; 4 * H]%nat → has_shape Wh [H; 4 * H]%nat →
  has_shape b [4 * H]%nat →
  ∃ next_h next_c i f o g,
    step_forward self x prev_h prev_c
    = Ok (next_h, next_c, [x; prev_h; next_h; prev_c; i; f; next_c; o; g])
    ∧ has_shape next_h [N; H] ∧ has_shape next_c [N; H]
    ∧ has_shape i [N; H] ∧ has_shape f [N; H]
    ∧ has_shape o [N; H] ∧ has_shape g [N; H]
    ∧ ∀ n j, (n < N)%nat → (j < H)%nat →
        get2 i n j = logistic (affine x prev_h Wx Wh b D H n j)
        ∧ get2 f n j = logistic (affine x prev_h Wx Wh b D H n (H + j))
        ∧ get2 o n j = logistic (affine x prev_h Wx Wh b D H n (2 * H + j))
        ∧ get2 g n j = tanh (affine x prev_h Wx Wh b D H n (3 * H + j))
        ∧ get2 next_c n j = get2 f n j * get2 prev_c n j + get2 i n j * get2 g n j
        ∧ get2 next_h n j = get2 o n j * tanh (get2 next_c n j).
Proof.
  intros H HWx HWh Hb Hx Hh Hc HsWx HsWh Hsb.
  unfold step_forward, getitem. rewrite HWx, HWh, Hb. simpl. fold H.
  set (A := add_bias (add (dot x Wx) (dot prev_h Wh)) b).
  assert (has_shape A [N; 4 * H]%nat ∧
          ∀ n j, (n < N)%nat → (j < 4 * H)%nat →
                 get2 A n j = affine x prev_h Wx Wh b D H n j) as [HsA HgA].
  { pose proof (has_shape_dot _ _ _ _ _ Hx HsWx) as H1.
    pose proof (has_shape_dot _ _ _ _ _ Hh HsWh) as H2.
    pose proof (has_shape_ew2 Rplus _ _ _ H1 H2) as H3.
    unfold A. rewrite (add_bias_build _ _ _ _ H3). split; [apply has_shape_build2|].
    intros n j Hn Hj. rewrite get2_build2 by done. unfold add.
    rewrite (get2_ew2 _ _ _ _ _ _ _ H1 H2) by done.
    rewrite (get2_dot _ _ _ _ _ _ _ Hx HsWx), (get2_dot _ _ _ _ _ _ _ Hh HsWh) by done.
    done. }
  assert (∀ lo, (lo + H <= 4 * H)%nat →
            has_shape (slice_cols lo (lo + H) A) [N; H]
            ∧ ∀ n j, (n < N)%nat → (j < H)%nat →
                get2 (slice_cols lo (lo + H) A) n j
                = affine x prev_h Wx Wh b D H n (lo + j)) as Hslice.
  { intros lo Hlo. rewrite (slice_cols_build A N (4 * H)) by (done || lia).
    replace (lo + H - lo)%nat with H by lia. split; [apply has_shape_build2|].
    intros n j Hn Hj. rewrite get2_build2 by done. apply HgA; lia. }
  destruct (Hslice 0%nat ltac:(lia)) as [Hsi Hgi].
  destruct (Hslice H ltac:(lia)) as [Hsf Hgf].
  destruct (Hslice (2 * H)%nat ltac:(lia)) as [Hso Hgo].
  destruct (Hslice (3 * H)%nat ltac:(lia)) as [Hsg Hgg].
  simpl in Hsi, Hgi.
  replace (H + H)%nat with (2 * H)%nat in * by lia.
  replace (2 * H + H)%nat with (3 * H)%nat in * by lia.
  replace (3 * H + H)%nat with (4 * H)%nat in * by lia.
  set (i_t := sigmoid (slice_cols 0 H A)) in *.
  set (f_t := sigmoid (slice_cols H (2 * H) A)) in *.
  set (o_t := sigmoid (slice_cols (2 * H) (3 * H) A)) in *.
  set (g_t := amap tanh (slice_cols (3 * H) (4 * H) A)) in *.
  assert (has_shape i_t [N; H]) as Hi by (by apply has_shape_amap).
  assert (has_shape f_t [N; H]) as Hf by (by apply has_shape_amap).
  assert (has_shape o_t [N; H]) as Ho by (by apply has_shape_amap).
  assert (has_shape g_t [N; H]) as Hg by (by apply has_shape_amap).
  pose proof (has_shape_ew2 Rmult _ _ _ Hf Hc) as Hfc.
  pose proof (has_shape_ew2 Rmult _ _ _ Hi Hg) as Hig.
  pose proof (has_shape_ew2 Rplus _ _ _ Hfc Hig) as Hct.
  pose proof (has_shape_amap tanh _ _ Hct) as Htc.
  pose proof (has_shape_ew2 Rmult _ _ _ Ho Htc) as Hht.
  eexists _, _, _, _, _, _. split; [reflexivity|].
  repeat (split; [done|]).
  intros n j Hn Hj.
  assert (get2 i_t n j = logistic (affine x prev_h Wx Wh b D H n j)) as Ei.
  { unfold i_t, sigmoid. rewrite (get2_amap _ _ _ _ _ _ Hsi) by done.
    rewrite sigmoid1_logistic, Hgi by done. done. }
  assert (get2 f_t n j = logistic (affine x prev_h Wx Wh b D H n (H + j))) as Ef.
  { unfold f_t, sigmoid. rewrite (get2_amap _ _ _ _ _ _ Hsf) by done.
    rewrite sigmoid1_logistic, Hgf by done. done. }
  assert (get2 o_t n j = logistic (affine x prev_h Wx Wh b D H n (2 * H + j))) as Eo.
  { unfold o_t, sigmoid. rewrite (get2_amap _ _ _ _ _ _ Hso) by done.
    rewrite sigmoid1_logistic, Hgo by done. done. }
  assert (get2 g_t n j = tanh (affine x prev_h Wx Wh b D H n (3 * H + j))) as Eg.
  { unfold g_t. rewrite (get2_amap _ _ _ _ _ _ Hsg) by done.
    rewrite Hgg by done. done. }
  repeat (split; [done|]).
  split.
  - unfold add, mul. rewrite (get2_ew2 _ _ _ _ _ _ _ Hfc Hig) by done.
    rewrite (get2_ew2 _ _ _ _ _ _ _ Hf Hc), (get2_ew2 _ _ _ _ _ _ _ Hi Hg) by done.
    done.
  - unfold mul at 1. rewrite (get2_ew2 _ _ _ _ _ _ _ Ho Htc) by done.
    rewrite (get2_amap _ _ _ _ _ _ Hct) by done. done.
Qed.

End lstm.

(* ===================================================================== *)
(** * VanillaRNN *)
(* ===================================================================== *)

Section rnn.
Import VanillaRNN.
Local Open Scope R_scope.

Variables (self : VanillaRNN.t) (dh Wx Wh : ndarray R)
          (metas : list (list (ndarray R))) (N T D H : nat).
Hypothesis HWx : params self !! wx_name self = Some Wx.
Hypothesis HWh : params self !! wh_name self = Some Wh.
Hypothesis HsWx : has_shape Wx [D; H].
Hypothesis HsWh : has_shape Wh [H; H].
Hypothesis Hdh : has_shape dh [N; T; H].
Hypothesis Hlen : length metas = T.
Hypothesis Hmetas : Forall (meta_shaped N D H) metas.

Lemma add_comm (a b : ndarray R) sh :
  has_shape a sh → has_shape b sh → add a b = add b a.
Proof.
  intros [Ha Hla] [Hb Hlb]. unfold add, ew2. rewrite Ha, Hb. f_equal.
  apply (nth_ext _ _ 0 0).
  - rewrite !length_zip_with. lia.
  - intros i Hi. rewrite length_zip_with in Hi.
    rewrite !nth_zip_with_in by lia. lra.
Qed.

Lemma sum_axis0_build (a : ndarray R) r c :
  has_shape a [r; c] →
  sum_axis0 a = build1 c (λ j, sum_n (λ i, get2 a i j) r).
Proof.
  intros Ha. unfold sum_axis0.
  by rewrite (dim_has_shape a _ 0 Ha), (dim_has_shape a _ 1 Ha).
Qed.

Lemma step_backward_ok (g : ndarray R) (m : list (ndarray R)) :
  has_shape g [N; H] → meta_shaped N D H m →
  ∃ r, step_backward self g m = Ok r
    ∧ has_shape (g_dx r) [N; D] ∧ has_shape (g_dprev_h r) [N; H]
    ∧ has_shape (g_dWx r) [D; H] ∧ has_shape (g_dWh r) [H; H]
    ∧ has_shape (g_db r) [H].
Proof.
  intros Hg (x & p & n & -> & Hx & Hp & Hn).
  unfold step_backward, getitem. rewrite HWx, HWh. cbn [bind].
  eexists. split; [reflexivity|]. cbn [g_dx g_dprev_h g_dWx g_dWh g_db].
  assert (has_shape (mul g (amap (λ v, 1 - v ^ 2) n)) [N; H]) as Hdt.
  { apply has_shape_ew2; [done|]. by apply has_shape_amap. }
  split; [|split; [|split; [|split]]].
  - eapply has_shape_dot; [exact Hdt|]. by apply has_shape_transpose.
  - eapply has_shape_dot; [exact Hdt|]. by apply has_shape_transpose.
  - eapply has_shape_dot; [|exact Hdt]. by apply has_shape_transpose.
  - eapply has_shape_dot; [|exact Hdt]. by apply has_shape_transpose.
  - rewrite (sum_axis0_build _ _ _ Hdt). apply has_shape_build1.
Qed.

Lemma tslice_ok (a : ndarray R) n t c i :
  has_shape a [n; t; c] → (i < t)%nat →
  tslice a i = Ok (build2 n c (λ j k, get3 a j i k)).
Proof.
  intros Ha Hi. unfold tslice.
  rewrite (dim_has_shape a _ 0 Ha), (dim_has_shape a _ 1 Ha), (dim_has_shape a _ 2 Ha).
  simpl nth. by rewrite decide_True.
Qed.

Lemma set_tslice_build (a m : ndarray R) n t c i :
  has_shape a [n; t; c] →
  set_tslice a i m
  = build3 n t c (λ j l k, if decide (l = i) then get2 m j k else get3 a j l k).
Proof.
  intros Ha. unfold set_tslice.
  by rewrite (dim_has_shape a _ 0 Ha), (dim_has_shape a _ 1 Ha), (dim_has_shape a _ 2 Ha).
Qed.

Lemma backward_body_inv k st gs rs :
  (k < T)%nat → bw_inv self dh metas N T D H (S k) st gs rs →
  ∃ st' r, backward_body self dh metas st k = Ok st'
    ∧ bw_inv self dh metas N T D H k st' (s_dnext_h st :: gs) (r :: rs).
Proof.
  intros Hk [Hl Hlg Hdn Hdx HgWx HgWh Hgb Hb Hdxat HsWx' HsWh' Hsb'].
  assert (∃ mi, metas !! k = Some mi ∧ meta_shaped N D H mi) as (mi & Hmi & Hms).
  { destruct (lookup_lt_is_Some_2 metas k ltac:(lia)) as [mi Hmi].
    exists mi. split; [done|]. rewrite Forall_forall in Hmetas.
    apply Hmetas. by eapply list_elem_of_lookup_2. }
  destruct (step_backward_ok (s_dnext_h st) mi Hdn Hms)
    as (r & Hr & Hrdx & Hrdp & HrWx & HrWh & Hrb).
  unfold backward_body, list_getitem. rewrite Hmi. cbn [bind]. rewrite Hr. cbn [bind].
  assert (bptt self dh metas T k (s_dnext_h st :: gs) (r :: rs)) as Hbptt.
  { destruct rs as [|r' rs'].
    - destruct Hb as [HkT Hts]. simpl in Hl.
      destruct gs; [|done].
      apply (bptt_last _ _ _ _ k _ _ mi); [lia| |done|done].
      replace k with (T - 1)%nat by lia. done.
    - destruct Hb as (Hb & _ & _ & Hnz).
      destruct Hnz as (dhi & Hts & Heq); [lia|].
      replace (S k - 1)%nat with k in Hts by lia.
      by apply (bptt_earlier _ _ _ _ k _ _ mi dhi r'). }
  assert (∃ dh0' dn', (if decide (k = 0%nat) then Ok (g_dprev_h r, s_dnext_h st)
                       else dhp <- tslice dh (k - 1);; Ok (s_dh0 st, add (g_dprev_h r) dhp))
                      = Ok (dh0', dn')
            ∧ has_shape dn' [N; H]
            ∧ (k = 0%nat → dh0' = g_dprev_h r)
            ∧ (k ≠ 0%nat → ∃ dhi, tslice dh (k - 1) = Ok dhi
                              ∧ dn' = add dhi (g_dprev_h r)))
    as (dh0' & dn' & Hif & Hsdn & Hk0 & Hkn).
  { destruct (decide (k = 0%nat)) as [->|Hne].
    - eexists _, _. split; [reflexivity|]. split; [done|]. split; [done|]. done.
    - rewrite (tslice_ok dh N T H (k - 1) Hdh) by lia. cbn [bind].
      eexists _, _. split; [reflexivity|].
      split; [apply has_shape_ew2; [done|apply has_shape_build2]|].
      split; [done|]. intros _. eexists. split; [reflexivity|].
      apply (add_comm _ _ [N; H]); [done|apply has_shape_build2]. }
  rewrite Hif. cbn [bind].
  eexists _, r. split; [reflexivity|].
  constructor; cbn [s_dnext_h s_dx s_dh0 s_gWx s_gWh s_gb].
  - simpl. lia.
  - simpl. lia.
  - done.
  - rewrite (set_tslice_build _ _ N T D) by done. apply has_shape_build3.
  - by apply has_shape_ew2.
  - by apply has_shape_ew2.
  - by apply has_shape_ew2.
  - done.
  - intros j r0 n d Hj Hn Hd'.
    rewrite (set_tslice_build _ _ N T D) by done.
    assert (k + j < T)%nat as Hkj.
    { apply lookup_lt_Some in Hj. simpl in Hj. lia. }
    rewrite get3_build3 by done.
    destruct j as [|j]; simpl in Hj.
    + injection Hj as <-. rewrite decide_True by lia. done.
    + rewrite decide_False by lia.
      replace (k + S j)%nat with (S k + j)%nat by lia. by apply Hdxat.
  - intros d h Hd' Hh. unfold add. rewrite (get2_ew2 _ _ _ D H) by done.
    rewrite HsWx' by done. simpl. lra.
  - intros d h Hd' Hh. unfold add. rewrite (get2_ew2 _ _ _ H H) by done.
    rewrite HsWh' by done. simpl. lra.
  - intros h Hh. unfold add. rewrite (get1_ew2 _ _ _ H) by done.
    rewrite Hsb' by done. simpl. lra.
Qed.

Lemma backward_loop_inv k : ∀ st gs rs,
  (k <= T)%nat → bw_inv self dh metas N T D H k st gs rs →
  ∃ st' gs' rs', for_each (backward_body self dh metas) (rev (seq 0 k)) st = Ok st'
    ∧ bw_inv self dh metas N T D H 0 st' gs' rs'.
Proof.
  induction k as [|k IH]; intros st gs rs Hk Hinv.
  - exists st, gs, rs. done.
  - rewrite seq_S, rev_app_distr. simpl.
    destruct (backward_body_inv k st gs rs ltac:(lia) Hinv) as (st1 & r & Hbody & Hinv1).
    rewrite Hbody. cbn [bind]. apply (IH st1 _ _ ltac:(lia) Hinv1).
Qed.

Lemma backward_general :
  T ≠ 0%nat → meta self = Some metas →
  NoDup [wx_name self; wh_name self; b_name self] →
  ∃ dx dh0 self' gs rs gWx gWh gb,
    backward self dh = Ok (dx, dh0, self')
    ∧ bptt self dh metas T 0 gs rs
    ∧ length rs = T
    ∧ has_shape dx [N; T; D]
    ∧ (∀ i r n d, rs !! i = Some r → (n < N)%nat → (d < D)%nat →
         get3 dx n i d = get2 (g_dx r) n d)
    ∧ (∃ r0, rs !! 0%nat = Some r0 ∧ dh0 = g_dprev_h r0)
    ∧ grads self' !! wx_name self = Some (Some gWx)
    ∧ grads self' !! wh_name self = Some (Some gWh)
    ∧ grads self' !! b_name self = Some (Some gb)
    ∧ has_shape gWx [D; H] ∧ has_shape gWh [H; H] ∧ has_shape gb [H]
    ∧ (∀ d h, (d < D)%nat → (h < H)%nat →
         get2 gWx d h = Rsum_list (map (λ r, get2 (g_dWx r) d h) rs))
    ∧ (∀ d h, (d < H)%nat → (h < H)%nat →
         get2 gWh d h = Rsum_list (map (λ r, get2 (g_dWh r) d h) rs))
    ∧ (∀ h, (h < H)%nat →
         get1 gb h = Rsum_list (map (λ r, get1 (g_db r) h) rs))
    ∧ meta self' = Some [] ∧ params self' = params self.
Proof.
  intros HT Hmeta Hnd.
  apply NoDup_cons in Hnd as [Hn1 Hnd]. apply NoDup_cons in Hnd as [Hn2 _].
  rewrite !elem_of_cons in Hn1. rewrite !elem_of_cons in Hn2.
  assert (wx_name self ≠ wh_name self ∧ wx_name self ≠ b_name self
          ∧ wh_name self ≠ b_name self) as (N1 & N2 & N3) by tauto.
  unfold backward, shape_at, list_getitem.
  pose proof Hdh as [Hsdh Hldh]. rewrite Hsdh. cbn [lookup list_lookup bind].
  rewrite Hmeta. cbn [bind].
  destruct (lookup_lt_is_Some_2 metas 0%nat ltac:(lia)) as [m0 Hm0].
  rewrite Hm0. cbn [bind].
  assert (meta_shaped N D H m0) as (x0 & p0 & n0 & -> & Hx0 & _).
  { pose proof Hmetas as HF. rewrite Forall_forall in HF. apply HF.
    by eapply list_elem_of_lookup_2. }
  cbn [lookup list_lookup bind]. destruct Hx0 as [Hsx0 Hlx0]. rewrite Hsx0.
  cbn [lookup list_lookup bind].
  rewrite decide_False by done.
  rewrite (tslice_ok dh N T H (T - 1)) by (done || lia). cbn [bind].
  destruct (backward_loop_inv T
              (mkS (build2 N H (λ j k, get3 dh j (T - 1) k)) (zeros [N; T; D])
                   (zeros [N; H]) (zeros [D; H]) (zeros [H; H]) (zeros [H]))
              [] [] ltac:(lia)) as (st' & gs' & rs' & Hloop & Hinv).
  { constructor; cbn [s_dnext_h s_dx s_dh0 s_gWx s_gWh s_gb].
    - simpl. lia.
    - done.
    - apply has_shape_build2.
    - apply has_shape_zeros.
    - apply has_shape_zeros.
    - apply has_shape_zeros.
    - apply has_shape_zeros.
    - split; [done|]. apply (tslice_ok dh N T H); [done|lia].
    - intros j r n d Hj. done.
    - intros. by rewrite get2_zeros.
    - intros. by rewrite get2_zeros.
    - intros. by rewrite get1_zeros. }
  rewrite Hloop. cbn [bind].
  destruct Hinv as [Hl Hlg Hdn Hdx HgWx HgWh Hgb Hb Hdxat HsWx' HsWh' Hsb'].
  destruct rs' as [|r0 rs']; [simpl in Hl; lia|].
  destruct Hb as (Hbptt & _ & Hdh0 & _).
  eexists _, _, _, gs', (r0 :: rs'), _, _, _. split; [reflexivity|].
  cbn [grads VanillaRNN.meta params].
  split; [done|]. split; [lia|]. split; [done|].
  split; [intros i r n d ?; by apply (Hdxat i)|].
  split; [exists r0; split; [done|by apply Hdh0]|].
  split; [by rewrite lookup_insert_ne, lookup_insert_ne, lookup_insert_eq|].
  split; [by rewrite lookup_insert_ne, lookup_insert_eq|].
  split; [by rewrite lookup_insert_eq|].
  done.
Qed.

End rnn.

Section rnn_forward.
Import VanillaRNN.
Local Open Scope R_scope.

Variables (self : VanillaRNN.t) (x h0 Wx Wh b : ndarray R) (N T D H : nat).
Hypothesis HWx : params self !! wx_name self = Some Wx.
Hypothesis HWh : params self !! wh_name self = Some Wh.
Hypothesis Hb : params self !! b_name self = Some b.
Hypothesis HsWx : has_shape Wx [D; H].
Hypothesis HsWh : has_shape Wh [H; H].
Hypothesis Hin : input_dim self = D.
Hypothesis Hx : has_shape x [N; T; D].
Hypothesis Hh0 : has_shape h0 [N; H].

Lemma step_forward_ok (xi hp : ndarray R) :
  has_shape xi [N; D] → has_shape hp [N; H] →
  ∃ nh, step_forward self xi hp = Ok (nh, [xi; hp; nh]) ∧ has_shape nh [N; H].
Proof.
  intros Hxi Hhp. unfold step_forward.
  destruct Hxi as [Hsxi Hlxi]. rewrite Hsxi. cbn [tail size_of fold_right].
  rewrite decide_True by lia.
  unfold getitem. rewrite HWx, HWh, Hb. cbn [bind].
  eexists. split; [reflexivity|].
  apply has_shape_amap.
  pose proof (has_shape_dot _ _ _ _ _ (conj Hsxi Hlxi) HsWx) as H1.
  pose proof (has_shape_dot _ _ _ _ _ Hhp HsWh) as H2.
  rewrite (add_bias_build _ _ N H); [apply has_shape_build2|].
  by apply has_shape_ew2.
Qed.

Lemma forward_loop n : ∀ s h metas,
  (1 <= s)%nat → (s + n = T)%nat →
  has_shape h [N; T; H] → length metas = s →
  Forall (meta_shaped N D H) metas →
  ∃ h' metas',
    for_each (forward_body self x) (seq s n) (h, metas) = Ok (h', metas')
    ∧ has_shape h' [N; T; H] ∧ length metas' = T
    ∧ Forall (meta_shaped N D H) metas'.
Proof.
  induction n as [|n IH]; intros s h metas Hs HT Hh Hl HF.
  - exists h, metas. simpl. split; [done|]. split; [done|]. split; [lia|done].
  - simpl. rewrite (tslice_ok x N T D s) by (done || lia). cbn [bind].
    rewrite (tslice_ok h N T H (s - 1)) by (done || lia). cbn [bind].
    destruct (step_forward_ok (build2 N D (λ j k, get3 x j s k))
                (build2 N H (λ j k, get3 h j (s - 1) k))) as (nh & Hstep & Hnh);
      [apply has_shape_build2|apply has_shape_build2|].
    rewrite Hstep. cbn [bind].
    apply IH; [lia|lia| | |].
    + rewrite (set_tslice_build _ _ N T H) by done. apply has_shape_build3.
    + rewrite length_app. simpl. lia.
    + apply Forall_app. split; [done|]. constructor; [|constructor].
      eexists _, _, _. split; [reflexivity|].
      split; [apply has_shape_build2|]. split; [apply has_shape_build2|done].
Qed.

Lemma forward_ok :
  T ≠ 0%nat →
  ∃ h metas,
    forward self x h0
    = Ok (h, mkT (name self) (wx_name self) (wh_name self) (b_name self)
                 (input_dim self) (h_dim self) (params self) (grads self)
                 (Some metas))
    ∧ has_shape h [N; T; H] ∧ length metas = T
    ∧ Forall (meta_shaped N D H) metas.
Proof.
  intros HT. unfold forward, shape_at, list_getitem.
  pose proof Hx as [Hsx Hlx]. pose proof Hh0 as [Hsh0 Hlh0].
  rewrite Hsx, Hsh0. cbn [lookup list_lookup bind].
  rewrite (tslice_ok x N T D 0) by (done || lia). cbn [bind].
  destruct (step_forward_ok (build2 N D (λ j k, get3 x j 0 k)) h0)
    as (nh & Hstep & Hnh); [apply has_shape_build2|done|].
  rewrite Hstep. cbn [bind].
  destruct (forward_loop (T - 1) 1
              (set_tslice (zeros [N; T; H]) 0 nh)
              [[build2 N D (λ j k, get3 x j 0 k); h0; nh]])
    as (h' & metas' & Hloop & Hh' & Hl' & HF'); [lia|lia| |done| |].
  - rewrite (set_tslice_build _ _ N T H) by apply has_shape_zeros.
    apply has_shape_build3.
  - constructor; [|constructor]. eexists _, _, _. split; [reflexivity|].
    split; [apply has_shape_build2|]. done.
  - rewrite Hloop. cbn [bind]. by exists h', metas'.
Qed.

End rnn_forward.

Section rnn_backward.
Import VanillaRNN.
Local Open Scope R_scope.

(** C5.  After a forward over T timesteps and for [dh] of shape (N,T,H),
    [backward] returns.  It goes through the timesteps in reverse ([bptt]):
    the hidden-state gradient coming into the last timestep is
    [dh[:, T-1, :]], the one coming into an earlier timestep is the sum of
    [dh] at that timestep and of the recurrent gradient returned for the
    next one.  The stored dWx, dWh and db are the sums over all timesteps
    of the gradients of the steps, [dx] has shape (N,T,D) and holds the
    input gradient of every step, [dh0] is the recurrent gradient returned
    for timestep 0, and meta is emptied. *)
Theorem rnn_backward_through_time (self0 : VanillaRNN.t)
        (x h0 dh Wx Wh b : ndarray R) (N T D H : nat) :
  params self0 !! wx_name self0 = Some Wx →
  params self0 !! wh_name self0 = Some Wh →
  params self0 !! b_name self0 = Some b →
  NoDup [wx_name self0; wh_name self0; b_name self0] →
  has_shape Wx [D; H] → has_shape Wh [H; H] → has_shape b [H] →
  input_dim self0 = D →
  has_shape x [N; T; D] → has_shape h0 [N; H] → has_shape dh [N; T; H] →
  T ≠ 0%nat →
  ∃ hs self metas dx dh0 self' gs rs gWx gWh gb,
    forward self0 x h0 = Ok (hs, self)
    ∧ meta self = Some metas ∧ length metas = T
    ∧ backward self dh = Ok (dx, dh0, self')
    ∧ bptt self dh metas T 0 gs rs
    ∧ length rs = T
    ∧ has_shape dx [N; T; D]
    ∧ (∀ i r n d, rs !! i = Some r → (n < N)%nat → (d < D)%nat →
         get3 dx n i d = get2 (g_dx r) n d)
    ∧ (∃ r0, rs !! 0%nat = Some r0 ∧ dh0 = g_dprev_h r0)
    ∧ grads self' !! wx_name self = Some (Some gWx)
    ∧ grads self' !! wh_name self = Some (Some gWh)
    ∧ grads self' !! b_name self = Some (Some gb)
    ∧ has_shape gWx [D; H] ∧ has_shape gWh [H; H] ∧ has_shape gb [H]
    ∧ (∀ d h, (d < D)%nat → (h < H)%nat →
         get2 gWx d h = Rsum_list (map (λ r, get2 (g_dWx r) d h) rs))
    ∧ (∀ d h, (d < H)%nat → (h < H)%nat →
         get2 gWh d h = Rsum_list (map (λ r, get2 (g_dWh r) d h) rs))
    ∧ (∀ h, (h < H)%nat →
         get1 gb h = Rsum_list (map (λ r, get1 (g_db r) h) rs))
    ∧ meta self' = Some [].
Proof.
  intros HWx HWh Hb Hnd HsWx HsWh Hsb Hin Hx Hh0 Hdh HT.
  destruct (forward_ok self0 x h0 Wx Wh b N T D H HWx HWh Hb HsWx HsWh Hin Hx Hh0 HT)
    as (hs & metas & Hfw & Hhs & Hlen & HF).
  set (self := mkT _ _ _ _ _ _ _ _ (Some metas)) in *.
  destruct (backward_general self dh Wx Wh metas N T D H HWx HWh HsWx HsWh Hdh Hlen HF
              HT eq_refl Hnd)
    as (dx & dh0 & self' & gs & rs & gWx & gWh & gb & Hbw & H1 & H2 & H3 & H4 & H5
        & H6 & H7 & H8 & H9 & H10 & H11 & H12 & H13 & H14 & H15 & _).
  exists hs, self, metas, dx, dh0, self', gs, rs, gWx, gWh, gb.
  repeat (split; [done|]). done.
Qed.

End rnn_backward.

(* ===================================================================== *)
(** * The theorems at concrete inputs *)
(* ===================================================================== *)

Section instances.
Local Open Scope R_scope.

(** The weight gradient of a layer with one input and one output, on two
    timesteps. *)
Lemma temporal_fc_weight_grad_witness :
  ∃ dx self',
    temporal_fc.backward fc_example fc_dout = Ok (dx, self')
    ∧ temporal_fc.grads self' !! "t_fc_w"
      = Some (Some (temporal_fc.direct_weight_grad 1 2 1 1 fc_x fc_dout)).
Proof.
  destruct (temporal_fc_weight_grad fc_example fc_x fc_x fc_dout
              (mk [1; 1]%nat [5]) (mk [1%nat] [0]) 1 2 1 1)
    as (dx & self' & Hb & Hg & Heq).
  - reflexivity.
  - reflexivity.
  - reflexivity.
  - split; reflexivity.
  - split; reflexivity.
  - split; reflexivity.
  - split; reflexivity.
  - exists dx, self'. split; [exact Hb|]. rewrite <- Heq. exact Hg.
Defined.

(** The index 0 occurs twice in [x = [[0, 1, 0]]]: its gradient row is the
    sum of the first and the third row of [dout]. *)
Lemma embedding_backward_repeated_index :
  ∃ self' g,
    word_embedding.backward emb_example emb_dout = Ok self'
    ∧ word_embedding.grads self' !! "we_w" = Some (Some g)
    ∧ get2 g 0 0 = 1 + 4 ∧ get2 g 1 0 = 2.
Proof.
  destruct (embedding_backward_scatter_add emb_example
              (mk [1; 3; 1]%nat [0; 0; 0]) emb_x emb_dout emb_w 1 3 2 1)
    as (self' & g & Hb & Hg & Hs & Hsc & _).
  - reflexivity.
  - reflexivity.
  - split; reflexivity.
  - split; reflexivity.
  - split; reflexivity.
  - repeat constructor; lia.
  - exists self', g. split; [exact Hb|]. split; [exact Hg|].
    rewrite !Hsc by lia. unfold word_embedding.scatter_sum, get3, dim. simpl.
    split; lra.
Defined.

(** One step of an LSTM with one input and one hidden unit. *)
Lemma lstm_step_forward_gates_witness :
  ∃ next_h next_c i f o g,
    LSTM.step_forward lstm_example lstm_x lstm_h lstm_h
    = Ok (next_h, next_c, [lstm_x; lstm_h; next_h; lstm_h; i; f; next_c; o; g])
    ∧ get2 next_c 0 0 = get2 f 0 0 * 0 + get2 i 0 0 * get2 g 0 0.
Proof.
  destruct (lstm_step_forward_gates lstm_example lstm_x lstm_h lstm_h
              (amap (Rmult 1) (mk [1; 4]%nat [1; 2; 3; 4]))
              (amap (Rmult 1) (mk [1; 4]%nat [0; 0; 0; 0]))
              (zeros [4%nat]) 1 1)
    as (nh & nc & i & f & o & g & Hs & _ & _ & _ & _ & _ & _ & Hg).
  - reflexivity.
  - reflexivity.
  - reflexivity.
  - split; reflexivity.
  - split; reflexivity.
  - split; reflexivity.
  - split; reflexivity.
  - split; reflexivity.
  - split; reflexivity.
  - exists nh, nc, i, f, o, g. split; [exact Hs|].
    destruct (Hg 0%nat 0%nat) as (_ & _ & _ & _ & Hc & _); [simpl; lia|simpl; lia|].
    exact Hc.
Defined.

(** A forward and a backward over two timesteps. *)
Lemma rnn_backward_through_time_witness :
  ∃ hs self dx dh0 self',
    VanillaRNN.forward rnn_example rnn_x rnn_h0 = Ok (hs, self)
    ∧ VanillaRNN.backward self rnn_dh = Ok (dx, dh0, self')
    ∧ has_shape dx [1; 2; 1]%nat
    ∧ VanillaRNN.meta self' = Some [].
Proof.
  destruct (rnn_backward_through_time rnn_example rnn_x rnn_h0 rnn_dh
              (amap (Rmult 1) (mk [1; 1]%nat [1]))
              (amap (Rmult 1) (mk [1; 1]%nat [1]))
              (zeros [1%nat]) 1 2 1 1)
    as (hs & self & metas & dx & dh0 & self' & gs & rs & gWx & gWh & gb
        & Hf & _ & _ & Hb & _ & _ & Hdx & H).
  - reflexivity.
  - reflexivity.
  - reflexivity.
  - vm_compute. repeat (apply NoDup_cons_2 || apply NoDup_nil_2);
      rewrite ?elem_of_cons, ?elem_of_nil; intuition discriminate.
  - split; reflexivity.
  - split; reflexivity.
  - split; reflexivity.
  - reflexivity.
  - split; reflexivity.
  - split; reflexivity.
  - split; reflexivity.
  - lia.
  - exists hs, self, dx, dh0, self'. split; [exact Hf|]. split; [exact Hb|].
    split; [exact Hdx|]. apply H.
Defined.

(** With a mask of ones, the second [backward] returns another array than
    the first. *)
Lemma backward_twice_witness :
  ∃ loss st1 g1 st2 g2 st3,
    temporal_softmax_loss.forward (temporal_softmax_loss.__init__ true)
      feat_uniform label_first mask_ones = Ok (loss, st1)
    ∧ temporal_softmax_loss.backward st1 = Ok (g1, st2)
    ∧ temporal_softmax_loss.backward st2 = Ok (g2, st3)
    ∧ g2 ≠ g1.
Proof.
  destruct (backward_twice (temporal_softmax_loss.__init__ true)
              feat_uniform label_first mask_ones 1 1 2)
    as (loss & st1 & g1 & st2 & g2 & st3 & d1 & d2 & Hf & Hb1 & _ & _ & Hb2 & _ & _ & _ & Hne).
  - split; reflexivity.
  - split; reflexivity.
  - split; reflexivity.
  - constructor; [lia|constructor].
  - constructor; [right; reflexivity|constructor].
  - simpl. lia.
  - exists loss, st1, g1, st2, g2, st3. split; [exact Hf|]. split; [exact Hb1|].
    split; [exact Hb2|]. apply Hne. exists 0%nat. split; [simpl; lia|reflexivity].
Defined.

(** The registry of a network of two layers. *)
Lemma init_registry_witness :
  ∃ net,
    RNN.__init__ [layer_fc; layer_we] = Ok net
    ∧ RNN.paramName2Indices net !! "we_w" = Some 1%nat
    ∧ RNN.params net !! "we_w" = Some (Some 3%positive).
Proof.
  destruct (init_registry [layer_fc; layer_we]) as [Hok _].
  - repeat constructor; vm_compute; eauto.
  - destruct Hok as (net & Hinit & _ & Hidx & Hpar & _).
    + vm_compute. repeat (apply NoDup_cons_2 || apply NoDup_nil_2);
        rewrite ?elem_of_cons, ?elem_of_nil; intuition discriminate.
    + exists net. split; [exact Hinit|]. split.
      * apply Hidx. exists 3%positive. split.
        -- exists layer_we. split; reflexivity.
        -- intros j l' Hj Hl'. destruct j as [|[|j]]; [lia|lia|done].
      * apply Hpar. exists 1%nat. split.
        -- exists layer_we. split; reflexivity.
        -- intros j l' Hj Hl'. destruct j as [|[|j]]; [lia|lia|done].
Defined.

End instances.

(* ===================================================================== *)
(** * The activation functions *)
(* ===================================================================== *)

Section kernel_props.
Import Np.
Local Open Scope R_scope.

Lemma logistic_range x : 0 < logistic x < 1.
Proof.
  unfold logistic. pose proof (exp_pos (- x)) as He.
  split.
  - apply Rdiv_lt_0_compat; lra.
  - apply (Rmult_lt_reg_r (1 + exp (- x))); [lra|].
    unfold Rdiv. rewrite Rmult_assoc, Rinv_l by lra. lra.
Qed.

Lemma logistic_opp x : logistic (- x) = 1 - logistic x.
Proof.
  unfold logistic. rewrite Ropp_involutive, exp_Ropp.
  pose proof (exp_pos x). field. split; lra.
Qed.

Lemma tanh_range x : -1 < tanh x < 1.
Proof.
  unfold tanh, sinh, cosh.
  pose proof (exp_pos x) as H1. pose proof (exp_pos (- x)) as H2.
  replace ((exp x - exp (- x)) / 2 / ((exp x + exp (- x)) / 2))
    with ((exp x - exp (- x)) / (exp x + exp (- x))) by (field; lra).
  split.
  - apply (Rmult_lt_reg_r (exp x + exp (- x))); [lra|].
    unfold Rdiv. rewrite Rmult_assoc, Rinv_l by lra. lra.
  - apply (Rmult_lt_reg_r (exp x + exp (- x))); [lra|].
    unfold Rdiv. rewrite Rmult_assoc, Rinv_l by lra. lra.
Qed.

Lemma derivable_pt_lim_logistic x :
  derivable_pt_lim logistic x (logistic x * (1 - logistic x)).
Proof.
  pose proof (exp_pos (- x)) as He.
  pose proof (derivable_pt_lim_opp id x 1 (derivable_pt_lim_id x)) as Hopp.
  pose proof (derivable_pt_lim_comp (- id)%F exp x (- 1) (exp (- x)) Hopp
                (derivable_pt_lim_exp ((- id)%F x))) as Hexp.
  pose proof (derivable_pt_lim_plus (fct_cte 1) (comp exp (- id)%F) x 0
                (exp (- x) * - 1) (derivable_pt_lim_const 1 x) Hexp) as Hden.
  assert ((fct_cte 1 + comp exp (- id))%F x ≠ 0) as Hnz.
  { unfold plus_fct, fct_cte, comp, opp_fct, id. lra. }
  pose proof (derivable_pt_lim_div (fct_cte 1) (fct_cte 1 + comp exp (- id))%F x 0
                (0 + exp (- x) * - 1) (derivable_pt_lim_const 1 x) Hden Hnz) as Hd.
  replace (logistic x * (1 - logistic x))
    with ((0 * (fct_cte 1 + comp exp (- id))%F x
           - (0 + exp (- x) * - 1) * fct_cte 1 x)
          / Rsqr ((fct_cte 1 + comp exp (- id))%F x)).
  - exact Hd.
  - unfold logistic, Rsqr, plus_fct, fct_cte, comp, opp_fct, id. field. lra.
Qed.

Lemma derivable_pt_lim_sigmoid1 x :
  derivable_pt_lim sigmoid1 x (sigmoid1 x * (1 - sigmoid1 x)).
Proof.
  rewrite sigmoid1_logistic. intros eps Heps.
  destruct (derivable_pt_lim_logistic x eps Heps) as [delta Hd].
  exists delta. intros h Hh Hlt. rewrite !sigmoid1_logistic. by apply Hd.
Qed.

(** X1.  [sigmoid] keeps the shape of its argument and sends every element
    [x] to [1 / (1 + exp (- x))], a value between 0 and 1 (the bounds
    included: the binary64 result is 1.0 or 0.0 on a large argument): the
    branch for [x >= 0] and the branch for [x < 0] of the source compute
    the same logistic function. *)
Theorem sigmoid_logistic_range (x : ndarray R) :
  shape (sigmoid x) = shape x
  ∧ length (data (sigmoid x)) = length (data x)
  ∧ ∀ i, (i < length (data x))%nat →
      nth i (data (sigmoid x)) 0 = 1 / (1 + exp (- nth i (data x) 0))
      ∧ 0 <= nth i (data (sigmoid x)) 0 <= 1.
Proof.
  split; [done|]. split; [apply length_map|].
  intros i Hi. unfold sigmoid, amap. simpl.
  rewrite nth_map_in by done. rewrite sigmoid1_logistic.
  split; [done|]. pose proof (logistic_range (nth i (data x) 0)). lra.
Qed.

(** X2.  [sigmoid_derivative] applied to the output of [sigmoid] is, element
    by element, the derivative of the element function of [sigmoid] at the
    input, and lies between 0 and 1/4 (the bounds included: the binary64
    result is 0.0 on a large argument). *)
Theorem sigmoid_derivative_of_sigmoid (x : ndarray R) :
  shape (sigmoid_derivative (sigmoid x)) = shape x
  ∧ ∀ i, (i < length (data x))%nat →
      derivable_pt_lim sigmoid1 (nth i (data x) 0)
                       (nth i (data (sigmoid_derivative (sigmoid x))) 0)
      ∧ 0 <= nth i (data (sigmoid_derivative (sigmoid x))) 0 <= 1 / 4.
Proof.
  split; [done|]. intros i Hi. unfold sigmoid_derivative, sigmoid, amap. simpl.
  rewrite nth_map_in by (by rewrite length_map).
  rewrite nth_map_in by done.
  split; [apply derivable_pt_lim_sigmoid1|].
  rewrite sigmoid1_logistic. pose proof (logistic_range (nth i (data x) 0)) as Hr.
  pose proof (Rle_0_sqr (logistic (nth i (data x) 0) - 1 / 2)) as Hsq.
  unfold Rsqr in Hsq. split; nra.
Qed.

End kernel_props.

(* ===================================================================== *)
(** * The container: gradients, assignment and gathering *)
(* ===================================================================== *)

Section container_more.
Import RNN.

Lemma init_loop_grads args : ∀ self cnt net,
  init_loop args self cnt = Ok net →
  ∀ n, grads net !! n
       = match last_grad_key args n with
         | Some v => Some v
         | None => grads self !! n
         end.
Proof.
  induction args as [|l rest IH]; intros self cnt net H n.
  - simpl in H. by injection H as <-.
  - simpl in H. unfold Layer.attr_params in H.
    destruct (Layer.params l) as [d|]; simpl in H; [|done].
    destruct (register_params cnt d (params self, paramName2Indices self)) as [P Ix].
    destruct (decide (is_Some (layer_names self !! Layer.name l))); [done|].
    rewrite (IH _ _ _ H n). simpl.
    destruct (last_grad_key rest n); [done|].
    rewrite copy_items_lookup. by destruct (Layer.grads l !! n).
Qed.

(** X3.  After construction the gradient registry holds, for every name, the
    entry of the last layer that has the name among its gradients, absent
    values included ([__init__] filters the parameters but not the
    gradients), and [get_grads] returns it or raises [KeyError]. *)
Theorem init_grads_registry (args : list Layer.t) (net : RNN.t) :
  __init__ args = Ok net →
  ∀ n, grads net !! n = last_grad_key args n
       ∧ get_grads net n = match last_grad_key args n with
                           | Some v => Ok v
                           | None => Raise (KeyError n)
                           end.
Proof.
  intros H n. pose proof (init_loop_grads _ _ _ _ H n) as Hg. simpl in Hg.
  rewrite lookup_empty in Hg.
  assert (grads net !! n = last_grad_key args n) as E.
  { rewrite Hg. by destruct (last_grad_key args n). }
  split; [done|]. unfold get_grads, getitem. by rewrite E.
Qed.

Lemma init_grads_registry_witness :
  ∃ net, __init__ [layer_grad_only] = Ok net
    ∧ get_grads net "fc_w" = Ok (Some 5%positive)
    ∧ get_params net "fc_w" = Raise (KeyError "fc_w").
Proof.
  destruct (init_grads_registry [layer_grad_only]
              (mk ∅ {["fc_w" := Some 5%positive]} [layer_grad_only] ∅ {["fc" := true]}))
    with (n := "fc_w") as [_ Hget].
  - vm_compute. reflexivity.
  - exists (mk ∅ {["fc_w" := Some 5%positive]} [layer_grad_only] ∅ {["fc" := true]}).
    split; [vm_compute; reflexivity|].
    split; [rewrite Hget|]; vm_compute; reflexivity.
Defined.

Lemma last_owner_None_iff args n :
  last_owner args n = None ↔ ∀ l, l ∈ args → held_value l n = None.
Proof.
  split.
  - intros H l Hl. apply list_elem_of_lookup in Hl as [j Hj].
    by eapply last_owner_none.
  - intros H. destruct (last_owner args n) as [[i v]|] eqn:E; [|done].
    apply last_owner_owner_at in E as [(l & Hl & Hv) _].
    rewrite (H l) in Hv; [done|]. by eapply list_elem_of_lookup_2.
Qed.

(** X4.  [assign] succeeds on a name under which some layer stores a tensor,
    and raises [KeyError], as [get_params] does, on a name under which no
    layer stores one. *)
Theorem assign_registered_only (args : list Layer.t) (net : RNN.t)
        (name : string) (val : option positive) :
  __init__ args = Ok net →
  ((∃ l, l ∈ args ∧ is_Some (held_value l name)) →
   ∃ net', assign net name val = Ok net')
  ∧ ((∀ l, l ∈ args → held_value l name = None) →
     assign net name val = Raise (KeyError name)
     ∧ get_params net name = Raise (KeyError name)).
Proof.
  intros Hinit. destruct (init_inv _ _ Hinit) as (Hp & _ & Hl & Hc).
  destruct (Hc name) as [H1 H2]. split.
  - intros (l & Hin & Hs).
    destruct (last_owner args name) as [[i v]|] eqn:E.
    + simpl in H1.
      apply last_owner_owner_at in E as [(l0 & Hl0 & Hv) _].
      unfold assign, getitem. rewrite H1. cbn [bind].
      unfold list_getitem. rewrite Hl, Hl0. cbn [bind].
      unfold Layer.attr_params. unfold held_value in Hv.
      destruct (Layer.params l0); [|done]. cbn [bind]. eauto.
    + rewrite last_owner_None_iff in E. rewrite (E l Hin) in Hs. by destruct Hs.
  - intros Hnone. apply last_owner_None_iff in Hnone. rewrite Hnone in H1, H2.
    simpl in H1, H2. unfold assign, get_params, getitem. by rewrite H1, H2.
Qed.

Lemma assign_registered_only_witness :
  ∃ net net',
    __init__ [layer_fc; layer_we] = Ok net
    ∧ assign net "we_w" None = Ok net'
    ∧ assign net "we_b" None = Raise (KeyError "we_b").
Proof.
  destruct (assign_registered_only [layer_fc; layer_we]
              (mk (<["we_w" := Some 3%positive]> (<["fc_b" := Some 2%positive]> {["fc_w" := Some 1%positive]}))
                  (<["we_w" := None]> (<["fc_b" := None]> {["fc_w" := None]}))
                  [layer_fc; layer_we]
                  (<["we_w" := 1%nat]> (<["fc_b" := 0%nat]> {["fc_w" := 0%nat]}))
                  (<["we" := true]> {["fc" := true]}))
              "we_w" None) as [[net' Hok] _].
  - vm_compute. reflexivity.
  - exists layer_we. split; [set_solver|]. vm_compute. eauto.
  - eexists _, net'. split; [vm_compute; reflexivity|]. split; [exact Hok|].
    vm_compute. reflexivity.
Defined.

Lemma last_key_params ls n :
  Forall (λ l, is_Some (Layer.params l)) ls →
  last_key ls n = None →
  ∀ l d, l ∈ ls → Layer.params l = Some d → d !! n = None.
Proof.
  induction ls as [|a rest IH]; intros Hp H l d Hl Hd.
  - by apply elem_of_nil in Hl.
  - simpl in H. destruct (last_key rest n) eqn:E; [done|].
    inversion Hp; subst. apply elem_of_cons in Hl as [->|Hl].
    + by rewrite Hd in H.
    + by eapply IH.
Qed.

(** X5.  [gather_params] after construction succeeds; the registry then holds
    for every name the entry of the last layer that has the name among its
    parameters, absent values included, the other fields are unchanged and
    a second [gather_params] changes nothing. *)
Theorem gather_params_after_init (args : list Layer.t) (net : RNN.t) :
  __init__ args = Ok net →
  ∃ net', gather_params net = Ok net'
    ∧ (∀ n, params net' !! n = last_key args n)
    ∧ (∀ n, get_params net' n = match last_key args n with
                                | Some v => Ok v
                                | None => Raise (KeyError n)
                                end)
    ∧ layers net' = layers net ∧ grads net' = grads net
    ∧ paramName2Indices net' = paramName2Indices net
    ∧ gather_params net' = Ok net'.
Proof.
  intros Hinit. destruct (init_inv _ _ Hinit) as (Hp & _ & Hl & Hc).
  unfold gather_params. rewrite Hl.
  destruct (gather_loop args (params net) Hp) as (P' & HP' & HcP).
  rewrite HP'. cbn [bind].
  assert (∀ n, P' !! n = last_key args n) as HP.
  { intros n. rewrite HcP. destruct (last_key args n) eqn:E; [done|].
    destruct (Hc n) as [_ ->].
    destruct (last_owner args n) as [[i v]|] eqn:Eo; [|done].
    exfalso. apply last_owner_owner_at in Eo as [(l & Hli & Hv) _].
    unfold held_value in Hv. destruct (Layer.params l) as [d|] eqn:Ed; [|done].
    simpl in Hv.
    rewrite (last_key_params args n Hp E l d) in Hv; [done| |done].
    by eapply list_elem_of_lookup_2. }
  eexists. split; [reflexivity|]. cbn [params layers grads paramName2Indices].
  split; [done|]. split.
  { intros n. unfold get_params, getitem. cbn [params]. rewrite HP.
    by destruct (last_key args n). }
  split; [done|]. split; [done|]. split; [done|].
  destruct (gather_loop args P' Hp) as (P'' & HP'' & HcP'').
  rewrite HP''. cbn [bind]. do 2 f_equal.
  apply map_eq. intros n. rewrite HcP'', HP. by destruct (last_key args n).
Qed.

Lemma gather_params_after_init_witness :
  ∃ net net',
    __init__ [layer_absent] = Ok net
    ∧ get_params net "fc_w" = Raise (KeyError "fc_w")
    ∧ gather_params net = Ok net'
    ∧ get_params net' "fc_w" = Ok None.
Proof.
  destruct (gather_params_after_init [layer_absent] (mk ∅ ∅ [layer_absent] ∅ {["fc" := true]}))
    as (net' & Hg & _ & Hget & _).
  - vm_compute. reflexivity.
  - eexists _, net'. split; [vm_compute; reflexivity|].
    split; [vm_compute; reflexivity|]. split; [exact Hg|].
    rewrite Hget. vm_compute. reflexivity.
Defined.

End container_more.

Section container_grads.
Import RNN.

Lemma gather_grads_loop ls : ∀ (G : gmap string (option positive)) n,
  fold_left (λ G layer, copy_items (Layer.grads layer) G) ls G !! n
  = match last_grad_key ls n with Some v => Some v | None => G !! n end.
Proof.
  induction ls as [|l rest IH]; intros G n; [done|].
  simpl. rewrite IH. destruct (last_grad_key rest n); [done|].
  rewrite copy_items_lookup. by destruct (Layer.grads l !! n).
Qed.

Lemma last_grad_key_unique ls n : ∀ i l v,
  ls !! i = Some l → Layer.grads l !! n = Some v →
  (∀ j l', j ≠ i → ls !! j = Some l' → Layer.grads l' !! n = None) →
  last_grad_key ls n = Some v.
Proof.
  induction ls as [|a rest IH]; intros i l v Hl Hv Hothers; [done|].
  simpl. destruct i as [|i]; simpl in Hl.
  - injection Hl as ->.
    assert (last_grad_key rest n = None) as ->; [|done].
    assert (∀ j l', rest !! j = Some l' → Layer.grads l' !! n = None) as H.
    { intros j l' ?. apply (Hothers (S j)); [lia|done]. }
    clear -H. induction rest as [|b rest IHr]; [done|]. simpl.
    rewrite IHr; [by apply (H 0%nat)|]. intros j l' ?. by apply (H (S j)).
  - rewrite (IH i l v Hl Hv); [done|].
    intros j l' Hj. apply (Hothers (S j)). lia.
Qed.

(** X6.  [assign_grads] on a registered name stores the value in the gradients
    of the owning layer and leaves the registry and [get_grads] as they
    were; after [gather_grads], when no other layer has the name among its
    gradients, [get_grads] returns the value.  On an unregistered name
    [assign_grads] raises [KeyError]. *)
Theorem assign_grads_then_get_grads (args : list Layer.t) (net : RNN.t)
        (name : string) (val : option positive) :
  __init__ args = Ok net →
  (∀ i, paramName2Indices net !! name = Some i →
     ∃ net' l',
       assign_grads net name val = Ok net'
       ∧ get_grads net' name = get_grads net name
       ∧ params net' = params net
       ∧ layers net' !! i = Some l' ∧ Layer.grads l' !! name = Some val
       ∧ ((∀ j l, j ≠ i → layers net !! j = Some l →
                  Layer.grads l !! name = None) →
          ∃ net'', gather_grads net' = Ok net''
                   ∧ get_grads net'' name = Ok val))
  ∧ (paramName2Indices net !! name = None →
     assign_grads net name val = Raise (KeyError name)).
Proof.
  intros Hinit. destruct (init_inv _ _ Hinit) as (Hp & _ & Hl & Hc). split.
  - intros i Hi. destruct (Hc name) as [H1 _]. rewrite Hi in H1.
    destruct (last_owner args name) as [[k old]|] eqn:E; [|done].
    simpl in H1. injection H1 as <-.
    apply last_owner_owner_at in E as [(l & Hli & _) _].
    unfold assign_grads, getitem. rewrite Hi. cbn [bind].
    unfold list_getitem. rewrite Hl, Hli. cbn [bind].
    assert (i < length args)%nat as Hlt by (by eapply lookup_lt_Some).
    eexists _, _. split; [reflexivity|]. cbn [grads params layers].
    split; [done|]. split; [done|].
    split; [by rewrite list_lookup_insert_eq|].
    split; [cbn; by rewrite lookup_insert_eq|].
    intros Hothers. unfold gather_grads. cbn [grads params layers].
    eexists. split; [reflexivity|]. unfold get_grads, getitem. cbn [grads].
    rewrite gather_grads_loop.
    erewrite (last_grad_key_unique _ name i _ val); [done| | |].
    + by rewrite list_lookup_insert_eq.
    + cbn. by rewrite lookup_insert_eq.
    + intros j l' Hj Hl'. rewrite list_lookup_insert_ne in Hl' by done.
      by eapply Hothers.
  - intros Hnone. unfold assign_grads, getitem. by rewrite Hnone.
Qed.

Lemma assign_grads_then_get_grads_witness :
  ∃ net net' net'',
    __init__ [layer_fc; layer_we] = Ok net
    ∧ get_grads net "fc_w" = Ok None
    ∧ assign_grads net "fc_w" (Some 9%positive) = Ok net'
    ∧ get_grads net' "fc_w" = Ok None
    ∧ gather_grads net' = Ok net''
    ∧ get_grads net'' "fc_w" = Ok (Some 9%positive).
Proof.
  set (net := mk (<["we_w" := Some 3%positive]> (<["fc_b" := Some 2%positive]> {["fc_w" := Some 1%positive]}))
                 (<["we_w" := None]> (<["fc_b" := None]> {["fc_w" := None]}))
                 [layer_fc; layer_we]
                 (<["we_w" := 1%nat]> (<["fc_b" := 0%nat]> {["fc_w" := 0%nat]}))
                 (<["we" := true]> {["fc" := true]})).
  destruct (assign_grads_then_get_grads [layer_fc; layer_we] net "fc_w" (Some 9%positive))
    as [Hsome _].
  - vm_compute. reflexivity.
  - destruct (Hsome 0%nat) as (net' & l' & Ha & Hg & _ & _ & _ & Hgather).
    + vm_compute. reflexivity.
    + destruct Hgather as (net'' & Hgg & Hget).
      { intros j l Hj Hlj. destruct j as [|[|j]]; [done| |done].
        vm_compute in Hlj. injection Hlj as <-. vm_compute. reflexivity. }
      exists net, net', net''. split; [vm_compute; reflexivity|].
      split; [vm_compute; reflexivity|]. split; [exact Ha|].
      split; [rewrite Hg; vm_compute; reflexivity|]. split; [exact Hgg|exact Hget].
Defined.

End container_grads.

Section container_load_gather.
Import RNN.

Lemma layer_loaded_has_params pretrained (h h' : gmap positive (Np.ndarray R)) l l' :
  layer_loaded pretrained h h' l l' →
  is_Some (Layer.params l) → is_Some (Layer.params l').
Proof.
  intros (_ & _ & Hp) [d Hd]. rewrite Hd in Hp.
  destruct Hp as (d' & -> & _). eauto.
Qed.

(** X7.  For a name of [pretrained] that exactly one layer has among its
    parameters, [load] leaves [get_params] as it was, and after
    [gather_params] the registry holds a tensor that did not exist before
    the load and whose contents are the pretrained array. *)
Theorem load_then_gather_params (pretrained : gmap string (Np.ndarray R))
        (h : gmap positive (Np.ndarray R)) (args : list Layer.t) (net : RNN.t)
        (name : string) (a : Np.ndarray R) (i : nat) :
  __init__ args = Ok net →
  pretrained !! name = Some a →
  (∃ l d, args !! i = Some l ∧ Layer.params l = Some d ∧ is_Some (d !! name)) →
  (∀ j l d, j ≠ i → args !! j = Some l → Layer.params l = Some d →
            d !! name = None) →
  ∃ h' net' out net'' l0,
    load pretrained h net = (h', net', out)
    ∧ get_params net' name = get_params net name
    ∧ gather_params net' = Ok net''
    ∧ get_params net'' name = Ok (Some l0)
    ∧ h !! l0 = None ∧ h' !! l0 = Some a.
Proof.
  intros Hinit Hpre (l & d & Hli & Hd & Hdn) Hothers.
  destruct (init_inv _ _ Hinit) as (Hp & _ & Hl & _).
  unfold load. rewrite Hl.
  destruct (load_layers_spec pretrained args h [] [])
    as (h' & ls' & out' & Hfold & Hsub & Hlen & Hls & _).
  rewrite Hfold. simpl app.
  assert (Forall (λ l, is_Some (Layer.params l)) ls') as Hp'.
  { apply Forall_lookup. intros j l' Hl'.
    destruct (lookup_lt_is_Some_2 args j) as [lj Hlj].
    { rewrite <- Hlen. by eapply lookup_lt_Some. }
    destruct (Hls j lj Hlj) as (l'' & Hl'' & Hloaded).
    rewrite Hl' in Hl''. injection Hl'' as <-.
    eapply layer_loaded_has_params; [exact Hloaded|].
    rewrite Forall_lookup in Hp. by eapply Hp. }
  destruct (Hls i l Hli) as (l' & Hl' & (_ & _ & Hpar)).
  rewrite Hd in Hpar. destruct Hpar as (d' & Hd' & Hitems).
  specialize (Hitems name) as Hname. destruct Hdn as [v Hv].
  rewrite Hv, Hpre in Hname. destruct Hname as (l0 & Hd'n & Hfresh & Hnew).
  destruct (gather_loop ls' (params net) Hp') as (P' & HP' & HcP).
  eexists _, _, _, _, l0. split; [reflexivity|].
  split; [done|]. split.
  { unfold gather_params. cbn [layers params]. rewrite HP'. cbn [bind]. reflexivity. }
  split; [|done].
  unfold get_params, getitem. cbn [params]. rewrite HcP.
  erewrite (last_key_unique ls' name i l' d' (Some l0)); [done|done|done|done|].
  intros j lj' dj' Hj Hlj' Hdj'.
  destruct (lookup_lt_is_Some_2 args j) as [lj Hlj].
  { rewrite <- Hlen. by eapply lookup_lt_Some. }
  destruct (Hls j lj Hlj) as (l'' & Hl'' & (_ & _ & Hparj)).
  rewrite Hlj' in Hl''. injection Hl'' as <-.
  destruct (Layer.params lj) as [dj|] eqn:Edj.
  - destruct Hparj as (dj'' & Hdj'' & Hij). rewrite Hdj' in Hdj''.
    injection Hdj'' as <-. specialize (Hij name).
    by rewrite (Hothers j lj dj Hj Hlj Edj) in Hij.
  - congruence.
Qed.

End container_load_gather.

(* ===================================================================== *)
(** * VanillaRNN: the values of the forward pass *)
(* ===================================================================== *)

Section rnn_forward_values.
Import Np.
Import VanillaRNN.
Local Open Scope R_scope.

Variables (self : VanillaRNN.t) (x h0 Wx Wh b : ndarray R) (N T D H : nat).
Hypothesis HWx : params self !! wx_name self = Some Wx.
Hypothesis HWh : params self !! wh_name self = Some Wh.
Hypothesis Hb : params self !! b_name self = Some b.
Hypothesis HsWx : has_shape Wx [D; H].
Hypothesis HsWh : has_shape Wh [H; H].
Hypothesis Hin : input_dim self = D.
Hypothesis Hx : has_shape x [N; T; D].
Hypothesis Hh0 : has_shape h0 [N; H].

Lemma step_forward_values (xi hp : ndarray R) :
  has_shape xi [N; D] → has_shape hp [N; H] →
  ∃ nh, step_forward self xi hp = Ok (nh, [xi; hp; nh]) ∧ has_shape nh [N; H]
    ∧ ∀ n j, (n < N)%nat → (j < H)%nat →
        get2 nh n j = tanh (sum_n (λ d, get2 xi n d * get2 Wx d j) D
                            + sum_n (λ k, get2 hp n k * get2 Wh k j) H
                            + get1 b j).
Proof.
  intros Hxi Hhp. unfold step_forward.
  pose proof Hxi as [Hsxi Hlxi]. rewrite Hsxi. cbn [tail size_of fold_right].
  rewrite decide_True by lia.
  unfold getitem. rewrite HWx, HWh, Hb. cbn [bind].
  pose proof (has_shape_dot _ _ _ _ _ Hxi HsWx) as H1.
  pose proof (has_shape_dot _ _ _ _ _ Hhp HsWh) as H2.
  pose proof (has_shape_ew2 Rplus _ _ _ H1 H2) as H3.
  assert (has_shape (add_bias (add (dot xi Wx) (dot hp Wh)) b) [N; H]) as H4.
  { rewrite (add_bias_build _ _ N H) by done. apply has_shape_build2. }
  eexists. split; [reflexivity|]. split; [by apply has_shape_amap|].
  intros n j Hn Hj. rewrite (get2_amap _ _ _ _ _ _ H4) by done.
  rewrite (add_bias_build _ _ N H) by done. rewrite get2_build2 by done.
  unfold add. rewrite (get2_ew2 _ _ _ _ _ _ _ H1 H2) by done.
  by rewrite (get2_dot _ _ _ _ _ _ _ Hxi HsWx), (get2_dot _ _ _ _ _ _ _ Hhp HsWh).
Qed.

Lemma get3_set_tslice (h m : ndarray R) i n t j :
  has_shape h [N; T; H] → (n < N)%nat → (t < T)%nat → (j < H)%nat →
  get3 (set_tslice h i m) n t j
  = if decide (t = i) then get2 m n j else get3 h n t j.
Proof.
  intros Hh Hn Ht Hj. rewrite (set_tslice_build _ _ N T H) by done.
  by rewrite get3_build3.
Qed.



End rnn_forward_values.

Section rnn_forward_claims.
Import Np.
Import VanillaRNN.
Local Open Scope R_scope.


(** X9.  [VanillaRNN.forward] raises [IndexError] on a sequence without
    timesteps and [AssertionError] when the feature dimension of [x] is
    not [input_dim]. *)
Theorem rnn_forward_rejects (self : VanillaRNN.t) (x h0 : ndarray R)
        (N T D H : nat) :
  has_shape x [N; T; D] → has_shape h0 [N; H] →
  (T = 0%nat → forward self x h0 = Raise IndexError)
  ∧ (T ≠ 0%nat → D ≠ input_dim self → forward self x h0 = Raise AssertionError).
Proof.
  intros Hx Hh0. unfold forward, shape_at, list_getitem.
  pose proof Hx as [Hsx _]. pose proof Hh0 as [Hsh0 _].
  rewrite Hsx, Hsh0. cbn [lookup list_lookup bind]. split.
  - intros ->. unfold tslice. rewrite (dim_has_shape x _ 1 Hx). simpl nth.
    rewrite decide_False by lia. done.
  - intros HT HD. rewrite (tslice_ok x N T D 0) by (done || lia). cbn [bind].
    unfold step_forward. cbn [shape build2 tail size_of fold_right].
    rewrite decide_False by lia. done.
Qed.

End rnn_forward_claims.

Section rnn_one_shot.
Import Np.
Import VanillaRNN.
Local Open Scope R_scope.

Lemma backward_empty_meta (self : VanillaRNN.t) (dh : ndarray R) :
  meta self = Some [] → backward self dh = Raise IndexError.
Proof.
  intros Hm. unfold backward, shape_at, list_getitem. rewrite Hm.
  destruct (shape dh) as [|a [|b' [|c rest]]]; done.
Qed.

(** X10.  [VanillaRNN.backward] raises [TypeError] before any forward; after a
    forward it succeeds once, keeps the parameters, and a second call
    without a forward in between raises [IndexError], whatever the
    upstream gradient. *)
Theorem rnn_backward_one_shot (self0 : VanillaRNN.t)
        (x h0 dh dh2 Wx Wh b : ndarray R) (N T D H : nat) :
  params self0 !! wx_name self0 = Some Wx →
  params self0 !! wh_name self0 = Some Wh →
  params self0 !! b_name self0 = Some b →
  NoDup [wx_name self0; wh_name self0; b_name self0] →
  has_shape Wx [D; H] → has_shape Wh [H; H] → has_shape b [H] →
  input_dim self0 = D →
  has_shape x [N; T; D] → has_shape h0 [N; H] → has_shape dh [N; T; H] →
  T ≠ 0%nat →
  (meta self0 = None → backward self0 dh = Raise TypeError)
  ∧ ∃ hs self dx dh0 self',
      forward self0 x h0 = Ok (hs, self)
      ∧ backward self dh = Ok (dx, dh0, self')
      ∧ params self' = params self0
      ∧ backward self' dh2 = Raise IndexError.
Proof.
  intros HWx HWh Hb Hnd HsWx HsWh Hsb Hin Hx Hh0 Hdh HT. split.
  - intros Hm. unfold backward, shape_at, list_getitem.
    destruct Hdh as [-> _]. cbn [lookup list_lookup bind]. by rewrite Hm.
  - destruct (forward_ok self0 x h0 Wx Wh b N T D H HWx HWh Hb HsWx HsWh Hin Hx Hh0 HT)
      as (hs & metas & Hfw & Hhs & Hlen & HF).
    set (self := mkT _ _ _ _ _ _ _ _ (Some metas)) in *.
    destruct (backward_general self dh Wx Wh metas N T D H HWx HWh HsWx HsWh Hdh Hlen HF
                HT eq_refl Hnd)
      as (dx & dh0 & self' & gs & rs & gWx & gWh & gb & Hbw & _ & _ & _ & _ & _
          & _ & _ & _ & _ & _ & _ & _ & _ & _ & Hmeta & Hpar).
    exists hs, self, dx, dh0, self'. split; [done|]. split; [done|].
    split; [done|]. by apply backward_empty_meta.
Qed.

Lemma rnn_backward_one_shot_witness :
  ∃ hs self dx dh0 self',
    VanillaRNN.forward rnn_example rnn_x rnn_h0 = Ok (hs, self)
    ∧ VanillaRNN.backward self rnn_dh = Ok (dx, dh0, self')
    ∧ VanillaRNN.backward self' rnn_dh = Raise IndexError
    ∧ VanillaRNN.backward rnn_example rnn_dh = Raise TypeError.
Proof.
  destruct (rnn_backward_one_shot rnn_example rnn_x rnn_h0 rnn_dh rnn_dh
              (amap (Rmult 1) (mk [1; 1]%nat [1]))
              (amap (Rmult 1) (mk [1; 1]%nat [1]))
              (zeros [1%nat]) 1 2 1 1)
    as (Hnone & hs & self & dx & dh0 & self' & Hf & Hb & _ & Hb2).
  - reflexivity.
  - reflexivity.
  - reflexivity.
  - vm_compute. repeat (apply NoDup_cons_2 || apply NoDup_nil_2);
      rewrite ?elem_of_cons, ?elem_of_nil; intuition discriminate.
  - split; reflexivity.
  - split; reflexivity.
  - split; reflexivity.
  - reflexivity.
  - split; reflexivity.
  - split; reflexivity.
  - split; reflexivity.
  - lia.
  - exists hs, self, dx, dh0, self'. split; [exact Hf|]. split; [exact Hb|].
    split; [exact Hb2|]. apply Hnone. reflexivity.
Defined.

End rnn_one_shot.

(* ===================================================================== *)
(** * word_embedding: indexing and conservation *)
(* ===================================================================== *)

Section indexing.
Import Np.
Local Open Scope R_scope.

Lemma resolve_index_range n i :
  (index_in_range n i → resolve_index n i = Ok (wrap_index n i))
  ∧ (¬ index_in_range n i → resolve_index n i = Raise IndexError).
Proof.
  unfold resolve_index, wrap_index, index_in_range. split; intros H.
  - destruct (decide (0 ≤ i < Z.of_nat n)%Z).
    + by rewrite decide_True by lia.
    + rewrite decide_True by lia. by rewrite decide_False by lia.
  - rewrite decide_False by lia. by rewrite decide_False by lia.
Qed.

Lemma resolve_all_range n l :
  (Forall (index_in_range n) l → resolve_all n l = Ok (map (wrap_index n) l))
  ∧ (¬ Forall (index_in_range n) l → resolve_all n l = Raise IndexError).
Proof.
  induction l as [|i l [IH1 IH2]]; split; intros H.
  - done.
  - exfalso. apply H. constructor.
  - inversion H; subst. simpl.
    rewrite (proj1 (resolve_index_range n i)) by done. cbn [bind].
    by rewrite IH1.
  - simpl. destruct (decide (index_in_range n i)) as [Hi|Hi].
    + rewrite (proj1 (resolve_index_range n i)) by done. cbn [bind].
      rewrite IH2; [done|]. intros Hl. apply H. by constructor.
    + by rewrite (proj2 (resolve_index_range n i)).
Qed.

Lemma nth_flat_map_list {A B : Type} (f : A → list B) (c : nat) (a0 : A) (b0 : B) :
  (∀ k, length (f k) = c) →
  ∀ l i j, (i < length l)%nat → (j < c)%nat →
    nth (i * c + j) (flat_map f l) b0 = nth j (f (nth i l a0)) b0.
Proof.
  intros Hf. induction l as [|a l IH]; intros i j Hi Hj; [simpl in Hi; lia|].
  simpl. destruct i as [|i].
  - simpl. by rewrite app_nth1 by (rewrite Hf; lia).
  - rewrite app_nth2 by (rewrite Hf; lia). rewrite Hf.
    replace (S i * c + j - c)%nat with (i * c + j)%nat by lia.
    apply IH; [simpl in Hi; lia|done].
Qed.

Lemma length_flat_map_list {A B : Type} (f : A → list B) (c : nat) (l : list A) :
  (∀ k, length (f k) = c) → length (flat_map f l) = (length l * c)%nat.
Proof.
  intros Hf. induction l as [|a l IH]; [done|].
  simpl. rewrite length_app, Hf, IH. done.
Qed.

Lemma sum_n_swap (f : nat → nat → R) n m :
  sum_n (λ i, sum_n (λ j, f i j) m) n = sum_n (λ j, sum_n (λ i, f i j) n) m.
Proof.
  induction n as [|n IH].
  - simpl. by rewrite sum_n_zero.
  - simpl. rewrite IH. by rewrite <- sum_n_plus.
Qed.

Lemma sum_n_indicator (k V : nat) (a : R) :
  (k < V)%nat → sum_n (λ v, if decide (k = v) then a else 0) V = a.
Proof.
  induction V as [|V IH]; intros Hk; [lia|]. simpl.
  destruct (decide (k = V)) as [->|Hne].
  - rewrite sum_n_all_zero; [lra|]. intros i Hi. rewrite decide_False by lia. done.
  - rewrite IH by lia. lra.
Qed.

End indexing.

Section embedding_more.
Import Np.
Import word_embedding.
Local Open Scope R_scope.

Lemma embedding_forward_values (self : word_embedding.t) (x : ndarray Z)
        (W : ndarray R) (N T V D : nat) :
  params self !! w_name self = Some W →
  has_shape W [V; D] → has_shape x [N; T] →
  Forall (index_in_range V) (data x) →
  ∃ out,
    forward self x
    = Ok (out, mkT (name self) (w_name self) (voc_dim self) (vec_dim self)
                   (params self) (grads self) (Some (out, x)))
    ∧ has_shape out [N; T; D]
    ∧ ∀ n t d, (n < N)%nat → (t < T)%nat → (d < D)%nat →
        get3 out n t d
        = get2 W (wrap_index V (nth (n * T + t) (data x) 0%Z)) d.
Proof.
  intros HW HsW Hx Hr.
  assert (length (data x) = (N * T)%nat) as Hlx.
  { destruct Hx as [_ ->]. simpl. lia. }
  unfold forward, getitem. rewrite HW. cbn [bind]. unfold gather_rows.
  rewrite (dim_has_shape W _ 0 HsW), (dim_has_shape W _ 1 HsW). simpl nth.
  rewrite (proj1 (resolve_all_range V (data x)) Hr). cbn [bind].
  eexists. split; [reflexivity|].
  assert (∀ k : nat, length (map (λ j, get2 W k j) (seq 0 D)) = D) as Hrow.
  { intros k. by rewrite length_map, length_seq. }
  split.
  { split.
    - simpl. destruct Hx as [-> _]. done.
    - simpl. rewrite (length_flat_map_list _ D) by done.
      rewrite length_map, Hlx. lia. }
  intros n t d Hn Ht Hd. unfold get3, dim. simpl shape.
  destruct Hx as [-> _]. simpl nth. simpl data.
  assert (n * T + t < N * T)%nat as Hq by nia.
  rewrite (nth_flat_map_list _ D 0%nat 0 Hrow) by (rewrite ?length_map; lia).
  rewrite nth_map_seq by done.
  f_equal. rewrite (nth_indep _ 0%nat (wrap_index V 0%Z)) by (rewrite length_map; lia).
  apply (map_nth (wrap_index V)).
Qed.

Lemma embedding_backward_values (self : word_embedding.t)
        (out : ndarray R) (x : ndarray Z) (dout W : ndarray R) (N T V D : nat) :
  meta self = Some (out, x) →
  params self !! w_name self = Some W →
  has_shape W [V; D] → has_shape x [N; T] → has_shape dout [N; T; D] →
  Forall (index_in_range V) (data x) →
  ∃ g,
    backward self dout
    = Ok (mkT (name self) (w_name self) (voc_dim self) (vec_dim self)
              (params self) (<[w_name self := Some g]> (grads self))
              (meta self))
    ∧ has_shape g [V; D]
    ∧ ∀ v d, (v < V)%nat → (d < D)%nat →
        get2 g v d
        = sum_n (λ n, sum_n (λ t,
            if decide (wrap_index V (nth (n * T + t) (data x) 0%Z) = v)
            then get3 dout n t d else 0) T) N.
Proof.
  intros Hmeta HW HsW Hx Hdout Hr.
  assert (length (data x) = (N * T)%nat) as Hlx.
  { destruct Hx as [_ ->]. simpl. lia. }
  unfold backward. rewrite Hmeta. unfold getitem. rewrite HW. cbn [bind].
  unfold add_at. simpl shape. destruct HsW as [HsW HlW]. rewrite HsW.
  rewrite (dim_has_shape (zeros [V; D]) _ 0 (has_shape_zeros _)). simpl nth.
  rewrite (proj1 (resolve_all_range V (data x)) Hr). cbn [bind].
  destruct (add_at_loop_spec (data dout) V D (map (wrap_index V) (data x)) 0
              (zeros [V; D]) (has_shape_zeros _)) as [Hs Hg].
  eexists. split; [reflexivity|]. split; [done|].
  intros v d Hlv Hld. rewrite Hg by done. rewrite get2_zeros, length_map, Hlx.
  rewrite Rplus_0_l, sum_n_mul.
  apply sum_n_ext. intros n Hn. apply sum_n_ext. intros t Ht.
  assert (n * T + t < N * T)%nat as Hq by nia.
  rewrite (nth_indep _ 0%nat (wrap_index V 0%Z)) by (rewrite length_map; lia).
  rewrite (map_nth (wrap_index V)).
  unfold get3. by rewrite (dim_has_shape dout _ 1 Hdout), (dim_has_shape dout _ 2 Hdout).
Qed.

(** X11.  [word_embedding.forward] succeeds exactly when every index of [x]
    lies in [-V, V): the output row at (n,t) is the row of the weights at
    the index, a negative index counting from the end; otherwise it raises
    [IndexError]. *)
Theorem embedding_forward_gather (self : word_embedding.t) (x : ndarray Z)
        (W : ndarray R) (N T V D : nat) :
  params self !! w_name self = Some W →
  has_shape W [V; D] → has_shape x [N; T] →
  (Forall (index_in_range V) (data x) →
   ∃ out self',
     forward self x = Ok (out, self')
     ∧ has_shape out [N; T; D]
     ∧ meta self' = Some (out, x)
     ∧ params self' = params self ∧ grads self' = grads self
     ∧ ∀ n t d, (n < N)%nat → (t < T)%nat → (d < D)%nat →
         get3 out n t d
         = get2 W (wrap_index V (nth (n * T + t) (data x) 0%Z)) d)
  ∧ (¬ Forall (index_in_range V) (data x) → forward self x = Raise IndexError).
Proof.
  intros HW HsW Hx. split.
  - intros Hr.
    destruct (embedding_forward_values self x W N T V D HW HsW Hx Hr)
      as (out & Hfw & Hso & Hg).
    eexists out, _. split; [exact Hfw|]. cbn [meta params grads].
    split; [done|]. split; [done|]. split; [done|]. split; [done|]. done.
  - intros Hr. unfold forward, getitem. rewrite HW. cbn [bind]. unfold gather_rows.
    rewrite (dim_has_shape W _ 0 HsW), (dim_has_shape W _ 1 HsW). simpl nth.
    by rewrite (proj2 (resolve_all_range V (data x)) Hr).
Qed.

(** X12.  [word_embedding.backward] loses nothing of the upstream gradient: in
    every column the weight gradient summed over the words equals [dout]
    summed over the positions. *)
Theorem embedding_backward_conserves (self : word_embedding.t)
        (out : ndarray R) (x : ndarray Z) (dout W : ndarray R) (N T V D : nat) :
  meta self = Some (out, x) →
  params self !! w_name self = Some W →
  has_shape W [V; D] → has_shape x [N; T] → has_shape dout [N; T; D] →
  valid_indices V x →
  ∃ self' g,
    backward self dout = Ok self'
    ∧ grads self' !! w_name self = Some (Some g)
    ∧ params self' = params self ∧ meta self' = meta self
    ∧ ∀ d, (d < D)%nat →
        sum_n (λ v, get2 g v d) V
        = sum_n (λ n, sum_n (λ t, get3 dout n t d) T) N.
Proof.
  intros Hmeta HW HsW Hx Hdout Hv.
  assert (length (data x) = (N * T)%nat) as Hlx.
  { destruct Hx as [_ ->]. simpl. lia. }
  unfold backward. rewrite Hmeta. unfold getitem. rewrite HW. cbn [bind].
  unfold add_at. simpl shape. destruct HsW as [HsW HlW]. rewrite HsW.
  rewrite (dim_has_shape (zeros [V; D]) _ 0 (has_shape_zeros _)). simpl nth.
  rewrite (resolve_all_ok _ _ Hv). cbn [bind].
  destruct (add_at_loop_spec (data dout) V D (map Z.to_nat (data x)) 0
              (zeros [V; D]) (has_shape_zeros _)) as [Hs Hg].
  eexists _, _. split; [reflexivity|]. cbn [grads params meta].
  split; [by rewrite lookup_insert_eq|]. split; [done|]. split; [done|].
  intros d Hd.
  rewrite (sum_n_ext _ (λ v, sum_n (λ q, if decide (nth q (map Z.to_nat (data x)) 0%nat = v)
                                          then nth (q * D + d) (data dout) 0 else 0) (N * T))).
  2:{ intros v Hlv. rewrite Hg by done. rewrite get2_zeros, length_map, Hlx.
      rewrite Rplus_0_l. done. }
  rewrite sum_n_swap. rewrite sum_n_mul.
  apply sum_n_ext. intros n Hn. apply sum_n_ext. intros t Ht.
  assert (n * T + t < N * T)%nat as Hq by nia.
  rewrite sum_n_indicator.
  - unfold get3. by rewrite (dim_has_shape dout _ 1 Hdout), (dim_has_shape dout _ 2 Hdout).
  - rewrite nth_map_to_nat. apply valid_indices_nth; [done|lia].
Qed.

End embedding_more.

(* ===================================================================== *)
(** * temporal_fc: forward and backward values *)
(* ===================================================================== *)

Section fc_more.
Import Np.
Import temporal_fc.
Local Open Scope R_scope.

Lemma get2_flat3 (a : ndarray R) N T D n t d :
  has_shape a [N; T; D] →
  get2 (mk [N * T; D]%nat (data a)) (n * T + t) d = get3 a n t d.
Proof.
  intros Ha. unfold get2, get3, dim.
  destruct Ha as [-> _]. done.
Qed.

Lemma get3_unflat2 (a : ndarray R) R0 C N T n t m :
  has_shape a [R0; C] →
  get3 (mk [N; T; C] (data a)) n t m = get2 a (n * T + t) m.
Proof.
  intros Ha. unfold get2, get3, dim. destruct Ha as [-> _]. done.
Qed.

Lemma temporal_fc_forward_values (self : temporal_fc.t) (x W b : ndarray R)
        (N T D M : nat) :
  params self !! w_name self = Some W →
  params self !! b_name self = Some b →
  has_shape W [D; M] → has_shape b [M] → has_shape x [N; T; D] →
  ∃ out,
    forward self x
    = Ok (out, mkT (name self) (w_name self) (b_name self) (input_dim self)
                   (output_dim self) (params self) (grads self)
                   (Some (x, out)))
    ∧ has_shape out [N; T; M]
    ∧ ∀ n t m, (n < N)%nat → (t < T)%nat → (m < M)%nat →
        get3 out n t m
        = sum_n (λ d, get3 x n t d * get2 W d m) D + get1 b m.
Proof.
  intros HW Hb HsW Hsb Hx.
  assert (has_shape (mk [N * T; D]%nat (data x)) [N * T; D]%nat) as Hxf.
  { apply has_shape_mk. destruct Hx as [_ ->]. simpl. lia. }
  unfold forward. pose proof Hx as [Hsx Hlx]. rewrite Hsx.
  unfold getitem. rewrite Hb. cbn [bind].
  unfold shape_at, list_getitem. pose proof Hsb as [Hsb' _]. rewrite Hsb'.
  cbn [lookup list_lookup bind].
  rewrite (reshape_ok x [N; T; D]) by (done || simpl; lia). cbn [bind].
  rewrite HW. cbn [bind].
  pose proof (has_shape_dot _ _ _ _ _ Hxf HsW) as Hdot.
  rewrite (reshape_ok _ _ [N; T; M] Hdot) by (simpl; lia). cbn [bind].
  eexists. split; [reflexivity|].
  assert (has_shape (mk [N; T; M] (data (dot (mk [N * T; D]%nat (data x)) W)))
                    [N; T; M]) as Ho.
  { apply has_shape_mk. destruct Hdot as [_ ->]. simpl. lia. }
  unfold add_bias3.
  rewrite (dim_has_shape _ _ 0 Ho), (dim_has_shape _ _ 1 Ho), (dim_has_shape _ _ 2 Ho).
  simpl nth.
  split; [apply has_shape_build3|].
  intros n t m Hn Ht Hm. rewrite get3_build3 by done. f_equal.
  rewrite (get3_unflat2 _ (N * T) M) by done.
  rewrite (get2_dot _ _ _ _ _ _ _ Hxf HsW) by (done || nia).
  apply sum_n_ext. intros d Hd. by rewrite (get2_flat3 x N T D).
Qed.

(** X13.  [temporal_fc.forward] returns [out] of shape (N,T,M) with
    [out[n,t,m] = sum_d x[n,t,d] * W[d,m] + b[m]], stores [(x, out)] in
    [meta] and leaves the parameters and gradients unchanged. *)
Theorem temporal_fc_forward_affine (self : temporal_fc.t) (x W b : ndarray R)
        (N T D M : nat) :
  params self !! w_name self = Some W →
  params self !! b_name self = Some b →
  has_shape W [D; M] → has_shape b [M] → has_shape x [N; T; D] →
  ∃ out self',
    forward self x = Ok (out, self')
    ∧ has_shape out [N; T; M]
    ∧ meta self' = Some (x, out)
    ∧ params self' = params self ∧ grads self' = grads self
    ∧ ∀ n t m, (n < N)%nat → (t < T)%nat → (m < M)%nat →
        get3 out n t m
        = sum_n (λ d, get3 x n t d * get2 W d m) D + get1 b m.
Proof.
  intros HW Hb HsW Hsb Hx.
  destruct (temporal_fc_forward_values self x W b N T D M HW Hb HsW Hsb Hx)
    as (out & Hfw & Hso & Hg).
  eexists out, _. split; [exact Hfw|]. cbn [meta params grads].
  split; [done|]. split; [done|]. split; [done|]. split; [done|]. done.
Qed.

Lemma temporal_fc_backward_values (self : temporal_fc.t)
        (x out dout W b : ndarray R) (N T D M : nat) :
  meta self = Some (x, out) →
  params self !! w_name self = Some W →
  params self !! b_name self = Some b →
  has_shape x [N; T; D] → has_shape dout [N; T; M] →
  has_shape W [D; M] → has_shape b [M] →
  ∃ dx gw gb,
    backward self dout
    = Ok (dx, mkT (name self) (w_name self) (b_name self) (input_dim self)
                  (output_dim self) (params self)
                  (<[b_name self := Some gb]>
                     (<[w_name self := Some gw]> (grads self)))
                  (meta self))
    ∧ has_shape dx [N; T; D]
    ∧ (∀ n t d, (n < N)%nat → (t < T)%nat → (d < D)%nat →
         get3 dx n t d = sum_n (λ m, get3 dout n t m * get2 W d m) M)
    ∧ has_shape gw [D; M]
    ∧ (∀ d m, (d < D)%nat → (m < M)%nat →
         get2 gw d m
         = sum_n (λ n, sum_n (λ t, get3 dout n t m * get3 x n t d) T) N)
    ∧ has_shape gb [M]
    ∧ (∀ m, (m < M)%nat →
         get1 gb m = sum_n (λ n, sum_n (λ t, get3 dout n t m) T) N).
Proof.
  intros Hmeta HW Hb Hx Hdout HsW Hsb.
  assert (has_shape (mk [N * T; M]%nat (data dout)) [N * T; M]%nat) as Hdf.
  { apply has_shape_mk. destruct Hdout as [_ ->]. simpl. lia. }
  assert (has_shape (mk [N * T; D]%nat (data x)) [N * T; D]%nat) as Hxf.
  { apply has_shape_mk. destruct Hx as [_ ->]. simpl. lia. }
  unfold backward. rewrite Hmeta. pose proof Hx as [Hsx Hlx]. rewrite Hsx.
  unfold getitem. rewrite Hb. cbn [bind].
  unfold shape_at, list_getitem. pose proof Hsb as [Hsb' Hlb]. rewrite Hsb'.
  cbn [lookup list_lookup bind].
  rewrite (reshape_ok dout [N; T; M] _ Hdout) by (simpl; lia). cbn [bind].
  rewrite HW. cbn [bind].
  pose proof (has_shape_transpose _ _ _ HsW) as HWt.
  pose proof (has_shape_dot _ _ _ _ _ Hdf HWt) as Hdx.
  rewrite (reshape_ok _ _ [N; T; D] Hdx) by (simpl; lia). cbn [bind].
  rewrite (reshape_ok x [N; T; D] [N * T; D]%nat) by (done || simpl; lia). cbn [bind].
  pose proof (has_shape_transpose _ _ _ Hdf) as Hdft.
  pose proof (has_shape_dot _ _ _ _ _ Hdft Hxf) as Hgwt.
  eexists _, _, _. split; [reflexivity|].
  split.
  { apply has_shape_mk. destruct Hdx as [_ ->]. simpl. lia. }
  split.
  { intros n t d Hn Ht Hd. rewrite (get3_unflat2 _ (N * T) D) by done.
    rewrite (get2_dot _ _ _ _ _ _ _ Hdf HWt) by (done || nia).
    apply sum_n_ext. intros m Hm.
    rewrite (get2_flat3 dout N T M) by done.
    by rewrite (get2_transpose _ _ _ _ _ HsW). }
  split; [by apply has_shape_transpose|].
  split.
  { intros d m Hd Hm. rewrite (get2_transpose _ _ _ _ _ Hgwt) by done.
    rewrite (get2_dot _ _ _ _ _ _ _ Hdft Hxf) by done.
    rewrite sum_n_mul. apply sum_n_ext. intros n Hn. apply sum_n_ext. intros t Ht.
    rewrite (get2_transpose _ _ _ _ _ Hdf) by (done || nia).
    by rewrite (get2_flat3 dout N T M), (get2_flat3 x N T D). }
  unfold sum_axis01.
  rewrite (dim_has_shape _ _ 0 Hdout), (dim_has_shape _ _ 1 Hdout),
    (dim_has_shape _ _ 2 Hdout). simpl nth.
  split; [apply has_shape_build1|].
  intros m Hm. by rewrite get1_build1.
Qed.

(** X14.  [temporal_fc.backward] returns [dx[n,t,d] = sum_m dout[n,t,m] *
    W[d,m]], stores as gradient of the bias the sum of [dout] over the
    positions, and leaves the parameters and [meta] unchanged. *)
Theorem temporal_fc_backward_dx_db (self : temporal_fc.t)
        (x out dout W b : ndarray R) (N T D M : nat) :
  meta self = Some (x, out) →
  params self !! w_name self = Some W →
  params self !! b_name self = Some b →
  has_shape x [N; T; D] → has_shape dout [N; T; M] →
  has_shape W [D; M] → has_shape b [M] →
  ∃ dx self' gb,
    backward self dout = Ok (dx, self')
    ∧ has_shape dx [N; T; D]
    ∧ (∀ n t d, (n < N)%nat → (t < T)%nat → (d < D)%nat →
         get3 dx n t d = sum_n (λ m, get3 dout n t m * get2 W d m) M)
    ∧ grads self' !! b_name self = Some (Some gb)
    ∧ has_shape gb [M]
    ∧ (∀ m, (m < M)%nat →
         get1 gb m = sum_n (λ n, sum_n (λ t, get3 dout n t m) T) N)
    ∧ params self' = params self ∧ meta self' = meta self.
Proof.
  intros Hmeta HW Hb Hx Hdout HsW Hsb.
  destruct (temporal_fc_backward_values self x out dout W b N T D M
              Hmeta HW Hb Hx Hdout HsW Hsb)
    as (dx & gw & gb & Hbw & Hsdx & Hdx & _ & _ & Hsgb & Hgb).
  eexists dx, _, gb. split; [exact Hbw|]. cbn [grads params meta].
  split; [done|]. split; [done|]. split; [by rewrite lookup_insert_eq|].
  split; [done|]. split; [done|]. done.
Qed.

End fc_more.

(* ===================================================================== *)
(** * temporal_softmax_loss: probabilities and gradient entries *)
(* ===================================================================== *)

Section loss_more.
Import Np.
Import temporal_softmax_loss.
Local Open Scope R_scope.

Lemma sum_n_div f c n : sum_n (λ j, f j / c) n = sum_n f n / c.
Proof.
  induction n as [|n IH]; simpl; [unfold Rdiv; ring|]. rewrite IH. unfold Rdiv. ring.
Qed.

Lemma softmax_prob_sum V ff r :
  (0 < V)%nat → sum_n (λ j, softmax_prob V ff r j) V = 1.
Proof.
  intros HV. unfold softmax_prob. rewrite sum_n_div.
  set (S0 := sum_n _ V).
  assert (0 < S0) as Hpos.
  { apply sum_n_pos; [|done]. intros; apply exp_pos. }
  unfold Rdiv. rewrite Rinv_r; lra.
Qed.

(** X15.  After [temporal_softmax_loss.forward] on scores over at least
    one class, the stored [dLoss] holds a probability distribution in
    every row: entries between 0 and 1 (the bounds included: a binary64
    probability underflows to 0.0 when its score is far below the maximum
    of the row) that sum to one; the labels and the mask are stored as
    given. *)
Theorem loss_forward_probabilities (self : temporal_softmax_loss.t)
        (feat : ndarray R) (label : ndarray Z) (mask : ndarray R) (N T V : nat) :
  has_shape feat [N; T; V] → has_shape label [N; T] → has_shape mask [N; T] →
  valid_indices V label → binary_mask mask → V ≠ 0%nat →
  ∃ loss probs self',
    forward self feat label mask = Ok (loss, self')
    ∧ dLoss self' = Some probs
    ∧ temporal_softmax_loss.label self' = Some label
    ∧ temporal_softmax_loss.mask self' = Some mask
    ∧ dim_average self' = dim_average self
    ∧ has_shape probs [N * T; V]%nat
    ∧ ∀ r, (r < N * T)%nat →
        sum_n (λ j, get2 probs r j) V = 1
        ∧ ∀ j, (j < V)%nat → 0 <= get2 probs r j <= 1.
Proof.
  intros Hf Hl Hm Hv Hb HV0.
  destruct (forward_probs self feat label mask N T V Hf Hl Hm Hv Hb)
    as (probs & Hfw & Hsp & Hgp).
  eexists _, probs, _. split; [exact Hfw|].
  cbn [dLoss temporal_softmax_loss.label temporal_softmax_loss.mask dim_average].
  repeat (split; [done|]).
  intros r Hr.
  assert (length (data label) = (N * T)%nat) as Hll.
  { destruct Hl as [_ ->]. simpl. lia. }
  assert (0 < V)%nat as HV.
  { pose proof (valid_indices_nth V label r Hv ltac:(lia)). lia. }
  split.
  - rewrite (sum_n_ext _ (λ j, softmax_prob V (mk [N * T; V]%nat (data feat)) r j)).
    + by apply softmax_prob_sum.
    + intros j Hj. by apply Hgp.
  - intros j Hj. rewrite Hgp by done.
    pose proof (softmax_prob_range V (mk [N * T; V]%nat (data feat)) r j Hj). lra.
Qed.

Lemma Rsum_list_nonpos (l : list R) :
  Forall (λ v, v <= 0) l → Rsum_list l <= 0.
Proof.
  induction 1 as [|v l Hv _ IH]; simpl; [lra|]. lra.
Qed.

Lemma masked_nll_nonneg (feat : ndarray R) (label : ndarray Z) (mask : ndarray R)
      (N T V : nat) :
  has_shape label [N; T] → valid_indices V label →
  0 <= masked_nll N T V feat label mask.
Proof.
  intros Hl Hv. unfold masked_nll.
  assert (length (data label) = (N * T)%nat) as Hll.
  { destruct Hl as [_ ->]. simpl. lia. }
  assert (Rsum_list (map (λ r, ln (softmax_prob V (mk [N * T; V]%nat (data feat)) r
                                      (true_class label r)))
                         (masked_positions mask (N * T))) <= 0); [|lra].
  apply Rsum_list_nonpos. rewrite Forall_forall. intros v Hin.
  apply list_elem_of_fmap in Hin as (r & -> & Hr).
  unfold masked_positions in Hr. apply list_elem_of_filter in Hr as [_ Hr].
  apply list_elem_of_In, in_seq in Hr.
  pose proof (valid_indices_nth V label r Hv ltac:(lia)) as Hcls.
  fold (true_class label r) in Hcls.
  destruct (softmax_prob_range V (mk [N * T; V]%nat (data feat)) r
              (true_class label r) Hcls) as [Hp0 Hp1].
  rewrite <- ln_1. destruct Hp1 as [Hlt| ->]; [|lra].
  left. by apply ln_increasing.
Qed.

Lemma sum_n_sub_one f cls V :
  (cls < V)%nat →
  sum_n (λ j, if decide (j = cls) then f j - 1 else f j) V = sum_n f V - 1.
Proof.
  induction V as [|V IH]; intros Hc; [lia|]. simpl.
  destruct (decide (V = cls)) as [->|Hne].
  - rewrite (sum_n_ext _ f); [lra|]. intros i Hi. by rewrite decide_False by lia.
  - rewrite IH by lia. lra.
Qed.

Lemma grad_entry_sum avg N cls m f V :
  (cls < V)%nat → sum_n f V = 1 →
  sum_n (λ j, grad_entry avg N cls m j (f j)) V = 0.
Proof.
  intros Hc Hs. unfold grad_entry.
  destruct avg.
  - rewrite (sum_n_ext _ (λ j, (if decide (j = cls) then f j - 1 else f j) * (m / INR N))).
    2:{ intros j Hj. unfold Rdiv. ring. }
    assert (∀ g c n, sum_n (λ j, g j * c) n = sum_n g n * c) as Hmul.
    { intros g c n. induction n as [|n IH]; simpl; [ring|]. rewrite IH. ring. }
    rewrite Hmul, sum_n_sub_one, Hs by done. ring.
  - assert (∀ g c n, sum_n (λ j, g j * c) n = sum_n g n * c) as Hmul.
    { intros g c n. induction n as [|n IH]; simpl; [ring|]. rewrite IH. ring. }
    rewrite Hmul, sum_n_sub_one, Hs by done. ring.
Qed.

(** X17.  [backward] after [forward] returns [g] of shape (N,T,V) with
    [g[n,t,j] = (p[j] - [j = label]) * mask / N] (without the division
    when [dim_average] is off) for the softmax probabilities [p] of the
    position; every row of [g] sums to zero and masked-out rows are
    zero. *)
Theorem loss_backward_gradient (self : temporal_softmax_loss.t)
        (feat : ndarray R) (label : ndarray Z) (mask : ndarray R) (N T V : nat) :
  has_shape feat [N; T; V] → has_shape label [N; T] → has_shape mask [N; T] →
  valid_indices V label → binary_mask mask → (0 < N * T)%nat →
  ∃ loss st1 g st2,
    forward self feat label mask = Ok (loss, st1)
    ∧ backward st1 = Ok (g, st2)
    ∧ has_shape g [N; T; V]
    ∧ ∀ n t, (n < N)%nat → (t < T)%nat →
        (∀ j, (j < V)%nat →
           get3 g n t j
           = grad_entry (dim_average self) N (true_class label (n * T + t))
                        (nth (n * T + t) (data mask) 0) j
                        (softmax_prob V (mk [N * T; V]%nat (data feat)) (n * T + t) j))
        ∧ sum_n (λ j, get3 g n t j) V = 0
        ∧ (nth (n * T + t) (data mask) 0 = 0 → ∀ j, (j < V)%nat → get3 g n t j = 0).
Proof.
  intros Hf Hl Hm Hv Hb Hpos.
  destruct (forward_probs self feat label mask N T V Hf Hl Hm Hv Hb)
    as (probs & Hfw & Hsp & Hgp).
  destruct (backward_step (mkT (dim_average self) (Some probs) (Some label) (Some mask))
              probs label mask N T V eq_refl eq_refl eq_refl Hsp Hl Hm Hv ltac:(lia))
    as (d1 & Hb1 & Hs1 & Hg1).
  cbn [dim_average] in *.
  eexists _, _, _, _. split; [exact Hfw|]. split; [exact Hb1|].
  assert (length (data label) = (N * T)%nat) as Hll.
  { destruct Hl as [_ ->]. simpl. lia. }
  split.
  { apply has_shape_mk. destruct Hs1 as [_ ->]. simpl. lia. }
  intros n t Hn Ht.
  assert (n * T + t < N * T)%nat as Hr by nia.
  assert (∀ j, (j < V)%nat →
            get3 (mk [N; T; V] (data d1)) n t j
            = grad_entry (dim_average self) N (true_class label (n * T + t))
                (nth (n * T + t) (data mask) 0) j
                (softmax_prob V (mk [N * T; V]%nat (data feat)) (n * T + t) j)) as Hent.
  { intros j Hj. rewrite (get3_unflat2 _ (N * T) V) by done.
    rewrite Hg1 by done. by rewrite Hgp. }
  split; [exact Hent|]. split.
  - etrans; [apply sum_n_ext; intros j Hj; apply (Hent j Hj)|].
    apply (grad_entry_sum _ _ _ _
             (softmax_prob V (mk [N * T; V]%nat (data feat)) (n * T + t))).
    + apply valid_indices_nth; [done|lia].
    + apply softmax_prob_sum.
      pose proof (valid_indices_nth V label (n * T + t) Hv ltac:(lia)). lia.
  - intros Hz j Hj. rewrite Hent by done. rewrite Hz. unfold grad_entry.
    destruct (dim_average self); ring.
Qed.

(** X18.  [temporal_softmax_loss.forward] raises [IndexError] when a label is
    outside [-V, V). *)
Theorem loss_forward_label_out_of_range (self : temporal_softmax_loss.t)
        (feat : ndarray R) (label : ndarray Z) (mask : ndarray R) (N T V : nat) :
  has_shape feat [N; T; V] → has_shape label [N; T] → has_shape mask [N; T] →
  V ≠ 0%nat →
  ¬ Forall (index_in_range V) (data label) →
  forward self feat label mask = Raise IndexError.
Proof.
  intros Hf Hl Hm HV Hbad.
  assert (has_shape (mk [N * T; V]%nat (data feat)) [N * T; V]%nat) as Hff.
  { apply has_shape_mk. destruct Hf as [_ ->]. simpl. lia. }
  assert (length (data label) = (N * T)%nat) as Hll.
  { destruct Hl as [_ ->]. simpl. lia. }
  unfold forward. destruct Hf as [Hsf Hlf]. rewrite Hsf.
  rewrite (reshape_ok feat [N; T; V]) by (done || simpl; lia). cbn [bind].
  rewrite (reshape_ok label [N; T]) by (done || simpl; lia). cbn [bind].
  rewrite (reshape_ok mask [N; T]) by (done || simpl; lia). cbn [bind].
  unfold max_axis1.
  rewrite (dim_has_shape _ _ 0 Hff), (dim_has_shape _ _ 1 Hff). simpl nth.
  rewrite decide_False by (intros [? _]; done). cbn [bind].
  destruct (probs_softmax _ _ _ Hff) as [Hps _].
  set (probs := row_op Rdiv _ _) in *.
  unfold take_rows. rewrite (dim_has_shape _ _ 0 Hps), (dim_has_shape _ _ 1 Hps).
  simpl nth. simpl data. rewrite decide_True by done.
  by rewrite (proj2 (resolve_all_range V (data label)) Hbad).
Qed.

End loss_more.

(* ===================================================================== *)
(** * Concatenated arrays *)
(* ===================================================================== *)

Section arrays_concat.
Import Np.
Local Open Scope R_scope.

Lemma build2_eta (a : ndarray R) r c :
  has_shape a [r; c] → a = build2 r c (get2 a).
Proof.
  intros Ha. apply (ndarray_ext _ _ [r; c]); [done|apply has_shape_build2|].
  intros k Hk. simpl in Hk.
  assert (c ≠ 0)%nat as Hc by (intros ->; lia).
  assert (k = (k `div` c) * c + k `mod` c)%nat as Hkdm.
  { rewrite Nat.mul_comm. apply Nat.div_mod_eq. }
  assert (k `div` c < r)%nat as Hi.
  { apply Nat.Div0.div_lt_upper_bound. lia. }
  assert (k `mod` c < c)%nat as Hj by (by apply Nat.mod_upper_bound).
  change (nth k (data (build2 r c (get2 a))) 0)
    with (nth k (flat_map (λ i, map (get2 a i) (seq 0 c)) (seq 0 r)) 0).
  rewrite Hkdm at 2.
  rewrite (nth_flat_map_uniform _ c) by (done || intros; by rewrite length_map, length_seq).
  rewrite nth_map_seq by done. unfold get2.
  rewrite (dim_has_shape a _ 1 Ha). simpl nth. by rewrite <- Hkdm.
Qed.

Lemma array_eq2 (a b : ndarray R) r c :
  has_shape a [r; c] → has_shape b [r; c] →
  (∀ i j, (i < r)%nat → (j < c)%nat → get2 a i j = get2 b i j) → a = b.
Proof.
  intros Ha Hb H. rewrite (build2_eta a r c Ha), (build2_eta b r c Hb).
  by apply build2_ext.
Qed.

Lemma array_eq1 (a b : ndarray R) n :
  has_shape a [n] → has_shape b [n] →
  (∀ i, (i < n)%nat → get1 a i = get1 b i) → a = b.
Proof.
  intros Ha Hb H. apply (ndarray_ext _ _ [n] Ha Hb).
  intros i Hi. simpl in Hi. apply H. lia.
Qed.

Lemma hstack2_build (a b : ndarray R) r c1 c2 :
  has_shape a [r; c1] → has_shape b [r; c2] →
  hstack2 a b = build2 r (c1 + c2)
                  (λ i j, if decide (j < c1)%nat then get2 a i j
                          else get2 b i (j - c1)).
Proof.
  intros Ha Hb. unfold hstack2.
  by rewrite (dim_has_shape a _ 0 Ha), (dim_has_shape a _ 1 Ha), (dim_has_shape b _ 1 Hb).
Qed.

Lemma has_shape_hstack2 (a b : ndarray R) r c1 c2 :
  has_shape a [r; c1] → has_shape b [r; c2] →
  has_shape (hstack2 a b) [r; (c1 + c2)%nat].
Proof. intros Ha Hb. rewrite (hstack2_build a b r c1 c2 Ha Hb). apply has_shape_build2. Qed.

Lemma has_shape_hstack1 (a b : ndarray R) n m :
  has_shape a [n] → has_shape b [m] → has_shape (hstack1 a b) [(n + m)%nat].
Proof.
  intros [Ha Hla] [Hb Hlb]. unfold hstack1, dim. rewrite Ha, Hb. simpl nth.
  split; [done|]. simpl in *. rewrite length_app. lia.
Qed.

Lemma get1_hstack1 (a b : ndarray R) n m j :
  has_shape a [n] → has_shape b [m] →
  get1 (hstack1 a b) j = if decide (j < n)%nat then get1 a j else get1 b (j - n).
Proof.
  intros [Ha Hla] [Hb Hlb]. unfold hstack1, get1. simpl in *.
  assert (length (data a) = n) as Hl by lia.
  destruct (decide (j < n)%nat).
  - rewrite app_nth1 by lia. done.
  - rewrite app_nth2 by lia. by rewrite Hl.
Qed.

Lemma sum_n_four f H :
  sum_n f (4 * H)
  = sum_n f H + sum_n (λ k, f (H + k)%nat) H
    + sum_n (λ k, f (2 * H + k)%nat) H + sum_n (λ k, f (3 * H + k)%nat) H.
Proof.
  replace (4 * H)%nat with (H + H + H + H)%nat by lia.
  rewrite !sum_n_add. f_equal; [f_equal|].
  - apply sum_n_ext. intros k _. f_equal. lia.
  - apply sum_n_ext. intros k _. f_equal. lia.
Qed.

Lemma vectorize_ok f (a : ndarray R) sh :
  has_shape a sh → size_of sh ≠ 0%nat → vectorize f a = Ok (amap f a).
Proof.
  intros [_ Hl] Hn. unfold vectorize. rewrite decide_False; [done|]. lia.
Qed.

End arrays_concat.

(* ===================================================================== *)
(** * temporal_softmax_loss: the loss with the special values of binary64 *)
(* ===================================================================== *)

Section ieee_values.
Local Open Scope R_scope.

Lemma tiny_pos : 0 < Ieee.tiny.
Proof. unfold Ieee.tiny. apply Rinv_0_lt_compat, pow_lt. lra. Qed.

Lemma tiny_lt_min_normal : Ieee.tiny < Ieee.min_normal.
Proof.
  unfold Ieee.tiny, Ieee.min_normal.
  apply Rinv_lt_contravar.
  - apply Rmult_lt_0_compat; apply pow_lt; lra.
  - apply Rlt_pow; [lra|lia].
Qed.

Lemma min_normal_le_half : Ieee.min_normal <= 1 / 2.
Proof.
  unfold Ieee.min_normal.
  replace (1 / 2) with (/ 2 ^ 1) by (simpl; lra).
  apply Rinv_le_contravar; [apply pow_lt; lra|].
  apply Rle_pow; [lra|lia].
Qed.

Lemma underflow_id r : Ieee.tiny < r → Ieee.underflow r = r.
Proof.
  intros Hr. unfold Ieee.underflow. pose proof tiny_pos.
  destruct (Rle_dec (Rabs r) Ieee.tiny) as [Hle|]; [|done].
  rewrite Rabs_pos_eq in Hle by lra. lra.
Qed.


Lemma underflow_unit r : 0 <= r <= 1 → 0 <= Ieee.underflow r <= 1.
Proof.
  intros Hr. unfold Ieee.underflow.
  destruct (Rle_dec (Rabs r) Ieee.tiny); lra.
Qed.

Lemma underflow_le r : 0 <= r → 0 <= Ieee.underflow r <= r.
Proof.
  intros Hr. unfold Ieee.underflow.
  destruct (Rle_dec (Rabs r) Ieee.tiny); lra.
Qed.



End ieee_values.

Section loss_ieee.
Import Np.
Import temporal_softmax_loss.
Local Open Scope R_scope.

Lemma probs_ieee (ff : ndarray R) (R0 V : nat) :
  has_shape ff [R0; V] →
  let rowmax := build1 R0 (λ i, max_n (λ j, get2 ff i j) V) in
  let e := amap Ieee.exp (row_op Rminus ff rowmax) in
  let probs := row_op Ieee.div e (sum_axis1 e) in
  probs = build2 R0 V (ieee_prob V ff).
Proof.
  intros Hff rowmax e probs.
  assert (has_shape (row_op Rminus ff rowmax) [R0; V]) as Hsub.
  { rewrite (row_op_build _ _ _ _ _ Hff). apply has_shape_build2. }
  assert (has_shape e [R0; V]) as He by (by apply has_shape_amap).
  assert (∀ r j, (r < R0)%nat → (j < V)%nat →
            get2 e r j = Ieee.exp (get2 ff r j - max_n (λ k, get2 ff r k) V)) as Hge.
  { intros r j Hr Hj. unfold e. rewrite (get2_amap _ _ _ _ _ _ Hsub) by done.
    rewrite (row_op_build _ _ _ _ _ Hff), get2_build2 by done.
    unfold rowmax. by rewrite get1_build1. }
  unfold probs. rewrite (row_op_build _ _ _ _ _ He).
  apply build2_ext. intros r j Hr Hj.
  rewrite (sum_axis1_build _ _ _ He), get1_build1 by done.
  unfold ieee_prob. rewrite Hge by done. f_equal.
  apply sum_n_ext. intros k Hk. by apply Hge.
Qed.

Lemma probs_real (ff : ndarray R) (R0 V : nat) :
  has_shape ff [R0; V] →
  let rowmax := build1 R0 (λ i, max_n (λ j, get2 ff i j) V) in
  let e := amap exp (row_op Rminus ff rowmax) in
  let probs := row_op Rdiv e (sum_axis1 e) in
  probs = build2 R0 V (softmax_prob V ff).
Proof.
  intros Hff rowmax e probs.
  destruct (probs_softmax ff R0 V Hff) as [Hs Hg].
  fold rowmax e probs in Hs, Hg.
  assert (has_shape e [R0; V]) as He.
  { apply has_shape_amap. rewrite (row_op_build _ _ _ _ _ Hff). apply has_shape_build2. }
  unfold probs at 1. rewrite (row_op_build _ _ _ _ _ He).
  apply build2_ext. intros r j Hr Hj.
  rewrite <- Hg by done. unfold probs.
  by rewrite (row_op_build _ _ _ _ _ He), get2_build2.
Qed.

Lemma forward_ieee_unfold (self : temporal_softmax_loss.t) (feat : ndarray R)
        (label : ndarray Z) (mask : ndarray R) (N T V : nat) :
  has_shape feat [N; T; V] → has_shape label [N; T] → has_shape mask [N; T] →
  valid_indices V label →
  let probs := build2 (N * T) V (ieee_prob V (mk [N * T; V]%nat (data feat))) in
  forward_ieee self feat label mask
  = Ok (if dim_average self
        then Ieee.div_int (ieee_sum N T probs label mask) N
        else ieee_sum N T probs label mask,
        mkT (dim_average self) (Some probs) (Some label) (Some mask)).
Proof.
  intros Hf Hl Hm Hv probs.
  assert (has_shape (mk [N * T; V]%nat (data feat)) [N * T; V]%nat) as Hff.
  { apply has_shape_mk. destruct Hf as [_ ->]. simpl. lia. }
  assert (length (data label) = (N * T)%nat) as Hll.
  { destruct Hl as [_ ->]. simpl. lia. }
  unfold forward_ieee. destruct Hf as [Hsf Hlf]. rewrite Hsf.
  rewrite (reshape_ok feat [N; T; V]) by (done || simpl; lia). simpl.
  rewrite (reshape_ok label [N; T]) by (done || simpl; lia). simpl.
  rewrite (reshape_ok mask [N; T]) by (done || simpl; lia). simpl.
  unfold max_axis1.
  rewrite (dim_has_shape _ _ 0 Hff), (dim_has_shape _ _ 1 Hff). simpl nth.
  rewrite decide_False; last first.
  { intros [HV HNT]. by apply (valid_indices_pos V label (N * T) Hv Hll). }
  simpl.
  rewrite (probs_ieee _ _ _ Hff). fold probs.
  unfold take_rows.
  assert (has_shape probs [N * T; V]%nat) as Hps by apply has_shape_build2.
  rewrite (dim_has_shape _ _ 0 Hps), (dim_has_shape _ _ 1 Hps).
  simpl nth. simpl data. rewrite decide_True by done.
  rewrite (resolve_all_ok _ _ Hv). simpl.
  assert (map Ieee.log (map (λ r, get2 probs r (nth r (map Z.to_nat (data label)) 0%nat))
                            (seq 0 (N * T)))
          = map (λ r, Ieee.log (get2 probs r (true_class label r))) (seq 0 (N * T))) as ->.
  { rewrite map_map. apply map_ext. intros r. by rewrite nth_map_to_nat. }
  done.
Qed.

(** ** The loss is never negative *)

Lemma sum_n_nonneg f n : (∀ i, (i < n)%nat → 0 <= f i) → 0 <= sum_n f n.
Proof.
  induction n as [|n IH]; intros H; simpl; [lra|].
  specialize (H n ltac:(lia)) as Hn.
  assert (0 <= sum_n f n); [|lra]. apply IH. intros; apply H; lia.
Qed.

Lemma sum_n_ge_term_nonneg f n j :
  (∀ i, (i < n)%nat → 0 <= f i) → (j < n)%nat → f j <= sum_n f n.
Proof.
  induction n as [|n IH]; intros H Hj; [lia|]. simpl.
  specialize (H n ltac:(lia)) as Hn.
  destruct (decide (j = n)) as [->|Hne].
  - assert (0 <= sum_n f n); [|lra]. apply sum_n_nonneg. intros; apply H; lia.
  - assert (f j <= sum_n f n); [|lra]. apply IH; [|lia]. intros; apply H; lia.
Qed.

Lemma ieee_exp_nonneg x : 0 <= Ieee.exp x.
Proof.
  unfold Ieee.exp. pose proof (exp_pos x).
  apply underflow_le. lra.
Qed.

Lemma ieee_prob_unit V ff r j : (j < V)%nat → 0 <= ieee_prob V ff r j <= 1.
Proof.
  intros Hj. unfold ieee_prob, Ieee.div.
  set (m := max_n _ V). set (f := λ k, Ieee.exp (get2 ff r k - m)).
  change (Ieee.exp (get2 ff r j - m)) with (f j).
  assert (0 <= f j) as H0 by apply ieee_exp_nonneg.
  assert (f j <= sum_n f V) as Hle.
  { apply sum_n_ge_term_nonneg; [|done]. intros; apply ieee_exp_nonneg. }
  apply underflow_unit.
  destruct (Req_dec_T (sum_n f V) 0) as [E|E].
  - assert (f j = 0) as -> by lra. unfold Rdiv. rewrite Rmult_0_l. lra.
  - assert (0 < sum_n f V) as Hs by lra. split.
    + apply Rmult_le_pos; [done|]. left. by apply Rinv_0_lt_compat.
    + apply (Rmult_le_reg_r (sum_n f V)); [done|].
      unfold Rdiv. rewrite Rmult_assoc, Rinv_l by lra. lra.
Qed.

Lemma ieee_log_unit p : 0 <= p <= 1 → Ieee.not_negative (Ieee.neg (Ieee.log p)).
Proof.
  intros [H0 H1]. unfold Ieee.log.
  destruct (Rlt_dec 0 p) as [Hp|Hp]; simpl.
  - destruct H1 as [Hlt| ->]; [|rewrite ln_1; lra].
    pose proof (ln_increasing p 1 Hp Hlt) as Hln. rewrite ln_1 in Hln. lra.
  - destruct (Rlt_dec p 0); [lra|]. done.
Qed.

Lemma ieee_mul_mask m v :
  m = 0 ∨ m = 1 → Ieee.not_negative (Ieee.neg v) →
  Ieee.not_negative (Ieee.neg (Ieee.mul m v)).
Proof.
  intros Hm Hv. destruct v as [r| | |]; simpl in *; try done.
  - destruct Hm as [-> | ->]; lra.
  - destruct (Rlt_dec 0 m); [done|]. destruct (Rlt_dec m 0); [|done].
    destruct Hm; lra.
Qed.

Lemma ieee_add_nonpos a b :
  Ieee.not_negative (Ieee.neg a) → Ieee.not_negative (Ieee.neg b) →
  Ieee.not_negative (Ieee.neg (Ieee.add a b)).
Proof.
  destruct a as [x| | |], b as [y| | |]; simpl; try done. lra.
Qed.

Lemma ieee_fold_nonpos l : ∀ a,
  Ieee.not_negative (Ieee.neg a) →
  Forall (λ v, Ieee.not_negative (Ieee.neg v)) l →
  Ieee.not_negative (Ieee.neg (fold_left Ieee.add l a)).
Proof.
  induction l as [|v l IH]; intros a Ha Hl; simpl; [done|].
  inversion Hl; subst. apply IH; [|done]. by apply ieee_add_nonpos.
Qed.

Lemma Forall_zip_with_mask (ms : list R) (vs : list Ieee.t) :
  Forall (λ m, m = 0 ∨ m = 1) ms →
  Forall (λ v, Ieee.not_negative (Ieee.neg v)) vs →
  Forall (λ v, Ieee.not_negative (Ieee.neg v)) (zip_with Ieee.mul ms vs).
Proof.
  intros Hm. revert vs. induction Hm as [|m ms Hm _ IH]; intros vs Hv; [constructor|].
  destruct Hv as [|v vs Hv Hvs]; simpl; [constructor|].
  constructor; [by apply ieee_mul_mask|by apply IH].
Qed.

Lemma ieee_div_int_not_negative a n :
  Ieee.not_negative a → Ieee.not_negative (Ieee.div_int a n).
Proof.
  destruct a as [r| | |]; simpl; try done. intros Hr.
  destruct (decide (n = 0%nat)) as [->|Hn].
  - destruct (Rlt_dec 0 r); [done|]. destruct (Rlt_dec r 0); [lra|done].
  - simpl. apply Rmult_le_pos; [done|]. left. apply Rinv_0_lt_compat.
    apply lt_0_INR. lia.
Qed.

Lemma ieee_sum_not_negative (N T V : nat) (ff : ndarray R) (label : ndarray Z)
      (mask : ndarray R) :
  has_shape label [N; T] → valid_indices V label → binary_mask mask →
  Ieee.not_negative
    (ieee_sum N T (build2 (N * T) V (ieee_prob V ff)) label mask).
Proof.
  intros Hl Hv Hb. unfold ieee_sum, Ieee.sum.
  assert (length (data label) = (N * T)%nat) as Hll.
  { destruct Hl as [_ ->]. simpl. lia. }
  apply ieee_fold_nonpos; [simpl; lra|].
  apply Forall_zip_with_mask; [exact Hb|].
  rewrite Forall_forall. intros v Hin.
  apply list_elem_of_fmap in Hin as (r & -> & Hr).
  apply list_elem_of_In, in_seq in Hr.
  pose proof (valid_indices_nth V label r Hv ltac:(lia)) as Hcls.
  fold (true_class label r) in Hcls.
  rewrite get2_build2 by (lia || done).
  apply ieee_log_unit. by apply ieee_prob_unit.
Qed.

(** ** Agreement with the real numbers when nothing underflows *)

Lemma max_n_attained f n : (0 < n)%nat → ∃ k, (k < n)%nat ∧ max_n f n = f k.
Proof.
  induction n as [|n IH]; intros Hn; [lia|].
  destruct n as [|n]; [exists 0%nat; split; [lia|done]|].
  destruct (IH ltac:(lia)) as (k & Hk & Hmax).
  change (max_n f (S (S n))) with (Rmax (max_n f (S n)) (f (S n))).
  destruct (Rmax_case (max_n f (S n)) (f (S n)) (λ v, v = max_n f (S n) ∨ v = f (S n)))
    as [E|E]; [by left|by right| |].
  - exists k. split; [lia|]. by rewrite E.
  - exists (S n). split; [lia|done].
Qed.

Lemma softmax_sum_ge_1 V ff r :
  (0 < V)%nat →
  1 <= sum_n (λ k, exp (get2 ff r k - max_n (λ k, get2 ff r k) V)) V.
Proof.
  intros HV. destruct (max_n_attained (λ k, get2 ff r k) V HV) as (k & Hk & Hmax).
  set (m := max_n _ V) in *. set (f := λ k, exp (get2 ff r k - m)).
  assert (f k = 1) as <-.
  { unfold f. rewrite Hmax. replace (get2 ff r k - get2 ff r k) with 0 by lra.
    apply exp_0. }
  apply sum_n_ge_term; [|done]. intros; apply exp_pos.
Qed.

Lemma ieee_prob_softmax V ff r j :
  (j < V)%nat →
  (∀ k, (k < V)%nat → Ieee.min_normal <= softmax_prob V ff r k) →
  ieee_prob V ff r j = softmax_prob V ff r j.
Proof.
  intros Hj Hno. pose proof tiny_lt_min_normal as Htm. pose proof tiny_pos as Htp.
  assert (0 < V)%nat as HV by lia.
  pose proof (softmax_sum_ge_1 V ff r HV) as HS.
  assert (∀ k, (k < V)%nat →
            Ieee.exp (get2 ff r k - max_n (λ k, get2 ff r k) V)
            = exp (get2 ff r k - max_n (λ k, get2 ff r k) V)) as He.
  { intros k Hk. unfold Ieee.exp. apply underflow_id.
    specialize (Hno k Hk). unfold softmax_prob in Hno. cbv zeta in Hno.
    set (S0 := sum_n _ V) in *. set (e := exp _) in *.
    assert (0 < e) as Hpos by apply exp_pos.
    assert (e / S0 <= e); [|lra].
    apply (Rmult_le_reg_r S0); [lra|].
    unfold Rdiv. rewrite Rmult_assoc, Rinv_l by lra. nra. }
  unfold ieee_prob. cbv zeta. rewrite He by done.
  rewrite (sum_n_ext _ (λ k, exp (get2 ff r k - max_n (λ k, get2 ff r k) V)))
    by (intros; by apply He).
  unfold Ieee.div. rewrite underflow_id; [done|].
  specialize (Hno j Hj). unfold softmax_prob in Hno. cbv zeta in Hno. lra.
Qed.

Lemma ieee_sum_nums (l : list R) : ∀ a,
  fold_left Ieee.add (map Ieee.Num l) (Ieee.Num a) = Ieee.Num (fold_left Rplus l a).
Proof. induction l as [|x l IH]; intros a; simpl; [done|]. apply IH. Qed.

Lemma fold_left_sum_n (g : nat → R) n :
  fold_left Rplus (map g (seq 0 n)) 0 = sum_n g n.
Proof.
  induction n as [|n IH]; [done|].
  rewrite seq_S, map_app, fold_left_app, IH. done.
Qed.

Lemma zip_with_seq {B C : Type} (op : R → B → C) (h : nat → B) (ms : list R) : ∀ s,
  zip_with op ms (map h (seq s (length ms)))
  = map (λ r, op (nth (r - s) ms 0) (h r)) (seq s (length ms)).
Proof.
  induction ms as [|m ms IH]; intros s; [done|]. simpl.
  rewrite Nat.sub_diag. f_equal. rewrite IH.
  apply map_ext_in. intros r Hr%in_seq.
  replace (r - s)%nat with (S (r - S s)) by lia. done.
Qed.

Lemma ieee_sum_real (N T V : nat) (feat : ndarray R) (label : ndarray Z)
      (mask : ndarray R) :
  has_shape label [N; T] → has_shape mask [N; T] →
  valid_indices V label → binary_mask mask →
  ieee_sum N T (build2 (N * T) V (softmax_prob V (mk [N * T; V]%nat (data feat))))
           label mask
  = Ieee.Num (masked_nll N T V feat label mask).
Proof.
  intros Hl Hm Hv Hb.
  assert (length (data label) = (N * T)%nat) as Hll.
  { destruct Hl as [_ ->]. simpl. lia. }
  assert (length (data mask) = (N * T)%nat) as Hlm.
  { destruct Hm as [_ ->]. simpl. lia. }
  set (ff := mk [N * T; V]%nat (data feat)).
  unfold ieee_sum.
  rewrite (map_ext_in _ (λ r, Ieee.Num (ln (softmax_prob V ff r (true_class label r))))).
  2:{ intros r Hr%in_seq.
      pose proof (valid_indices_nth V label r Hv ltac:(lia)) as Hcls.
      fold (true_class label r) in Hcls.
      rewrite get2_build2 by (lia || done).
      destruct (softmax_prob_range V ff r (true_class label r) Hcls) as [Hp _].
      unfold Ieee.log. by destruct (Rlt_dec 0 _). }
  rewrite <- Hlm, zip_with_seq.
  rewrite (map_ext _ (λ r, Ieee.Num (nth r (data mask) 0
                                     * ln (softmax_prob V ff r (true_class label r)))))
    by (intros r; by rewrite Nat.sub_0_r).
  rewrite <- (map_map (λ r, nth r (data mask) 0
                            * ln (softmax_prob V ff r (true_class label r))) Ieee.Num).
  unfold Ieee.sum. rewrite ieee_sum_nums, fold_left_sum_n. simpl Ieee.neg.
  f_equal. unfold masked_nll. f_equal. rewrite Hlm.
  apply (masked_sum (λ r, nth r (data mask) 0)).
  intros r Hr. unfold binary_mask in Hb. rewrite Forall_forall in Hb.
  apply Hb. apply list_elem_of_In, nth_In. lia.
Qed.

Lemma forward_agrees (self : temporal_softmax_loss.t) (feat : ndarray R)
        (label : ndarray Z) (mask : ndarray R) (N T V : nat) :
  has_shape feat [N; T; V] → has_shape label [N; T] → has_shape mask [N; T] →
  valid_indices V label → binary_mask mask →
  V ≠ 0%nat → (dim_average self = true → N ≠ 0%nat) →
  no_underflow N T V feat →
  ∃ self',
    forward_ieee self feat label mask
    = Ok (Ieee.Num (if dim_average self
                    then masked_nll N T V feat label mask / INR N
                    else masked_nll N T V feat label mask), self')
    ∧ forward self feat label mask
      = Ok (if dim_average self
            then masked_nll N T V feat label mask / INR N
            else masked_nll N T V feat label mask, self').
Proof.
  intros Hf Hl Hm Hv Hb HV HN Hno.
  destruct (forward_probs self feat label mask N T V Hf Hl Hm Hv Hb)
    as (probs & Hfw & Hsp & Hgp).
  eexists. split; [|exact Hfw].
  rewrite (forward_ieee_unfold self feat label mask N T V Hf Hl Hm Hv).
  set (ff := mk [N * T; V]%nat (data feat)) in *.
  assert (build2 (N * T) V (ieee_prob V ff) = probs) as Hp.
  { apply (array_eq2 _ _ (N * T) V); [apply has_shape_build2|done|].
    intros r j Hr Hj. rewrite get2_build2, Hgp by done.
    apply ieee_prob_softmax; [done|]. intros k Hk. by apply Hno. }
  assert (probs = build2 (N * T) V (softmax_prob V ff)) as Hp'.
  { apply (array_eq2 _ _ (N * T) V); [done|apply has_shape_build2|].
    intros r j Hr Hj. by rewrite get2_build2, Hgp. }
  cbv zeta. rewrite Hp. f_equal. f_equal.
  rewrite Hp'. unfold ff. rewrite (ieee_sum_real N T V feat label mask Hl Hm Hv Hb).
  destruct (dim_average self) eqn:Ea; [|done].
  simpl. rewrite decide_False by (by apply HN). done.
Qed.

End loss_ieee.

Section loss_ieee_claims.
Import Np.
Import temporal_softmax_loss.
Local Open Scope R_scope.


Lemma no_underflow_uniform : no_underflow 1 1 2 feat_uniform.
Proof.
  intros r j Hr Hj. pose proof min_normal_le_half as Hh.
  assert (r = 0%nat) as -> by lia.
  assert (softmax_prob 2 (mk [1 * 1; 2]%nat (data feat_uniform)) 0 j = 1 / 2) as ->;
    [|done].
  assert (j = 0 ∨ j = 1)%nat as [-> | ->] by lia.
  - unfold softmax_prob, get2, dim. simpl.
    assert (Rmax 0 0 = 0) as -> by (apply Rmax_left; lra).
    replace (0 - 0) with 0 by lra. rewrite exp_0. lra.
  - unfold softmax_prob, get2, dim. simpl.
    assert (Rmax 0 0 = 0) as -> by (apply Rmax_left; lra).
    replace (0 - 0) with 0 by lra. rewrite exp_0. lra.
Qed.




(** X16.  The loss that [temporal_softmax_loss.forward] returns in binary64
    ([forward_ieee]), for class ids as labels and a mask of zeros and
    ones, is never negative: it is a number [>= 0], [+inf] or [nan]; and
    it is a number [>= 0] when no softmax probability underflows and, with
    [dim_average] on, the batch is not empty. *)
Theorem loss_forward_nonneg (self : temporal_softmax_loss.t)
        (feat : ndarray R) (label : ndarray Z) (mask : ndarray R) (N T V : nat) :
  has_shape feat [N; T; V] → has_shape label [N; T] → has_shape mask [N; T] →
  valid_indices V label → binary_mask mask → V ≠ 0%nat →
  ∃ loss self',
    forward_ieee self feat label mask = Ok (loss, self')
    ∧ Ieee.not_negative loss
    ∧ ((dim_average self = true → N ≠ 0%nat) → no_underflow N T V feat →
       ∃ v, loss = Ieee.Num v ∧ 0 <= v).
Proof.
  intros Hf Hl Hm Hv Hb HV.
  pose proof (forward_ieee_unfold self feat label mask N T V Hf Hl Hm Hv) as Hfw.
  cbv zeta in Hfw.
  eexists _, _. split; [exact Hfw|]. split.
  - pose proof (ieee_sum_not_negative N T V (mk [N * T; V]%nat (data feat))
                  label mask Hl Hv Hb) as Hnn.
    destruct (dim_average self); [|done]. by apply ieee_div_int_not_negative.
  - intros HN Hno.
    destruct (forward_agrees self feat label mask N T V Hf Hl Hm Hv Hb HV HN Hno)
      as (st & Hfw' & _).
    rewrite Hfw in Hfw'. injection Hfw' as Hloss _.
    eexists. split; [exact Hloss|].
    pose proof (masked_nll_nonneg feat label mask N T V Hl Hv) as Hnn.
    destruct (dim_average self) eqn:Ea; [|done].
    apply Rmult_le_pos; [done|]. left. apply Rinv_0_lt_compat.
    apply lt_0_INR. specialize (HN eq_refl). lia.
Qed.

Lemma loss_forward_nonneg_witness :
  ∃ v st,
    forward_ieee (__init__ true) feat_uniform label_first mask_ones
    = Ok (Ieee.Num v, st)
    ∧ 0 <= v.
Proof.
  destruct (loss_forward_nonneg (__init__ true) feat_uniform label_first mask_ones 1 1 2)
    as (loss & st & Hfw & _ & Hnum).
  - split; reflexivity.
  - split; reflexivity.
  - split; reflexivity.
  - constructor; [lia|constructor].
  - constructor; [by right|constructor].
  - lia.
  - destruct Hnum as (v & -> & Hv); [intros _; lia|exact no_underflow_uniform|].
    by exists v, st.
Defined.

End loss_ieee_claims.


Section lstm_concat.
Import Np.
Import LSTM.
Local Open Scope R_scope.

Variables (a b c d : ndarray R) (N H : nat).
Hypothesis Ha : has_shape a [N; H].
Hypothesis Hb : has_shape b [N; H].
Hypothesis Hc : has_shape c [N; H].
Hypothesis Hd : has_shape d [N; H].

Lemma has_shape_hstack4 : has_shape (hstack4 a b c d) [N; (4 * H)%nat].
Proof.
  unfold hstack4. replace (4 * H)%nat with (H + H + H + H)%nat by lia.
  by repeat apply has_shape_hstack2.
Qed.

Lemma get2_hstack4 n j :
  (n < N)%nat → (j < H)%nat →
  get2 (hstack4 a b c d) n j = get2 a n j
  ∧ get2 (hstack4 a b c d) n (H + j) = get2 b n j
  ∧ get2 (hstack4 a b c d) n (2 * H + j) = get2 c n j
  ∧ get2 (hstack4 a b c d) n (3 * H + j) = get2 d n j.
Proof.
  intros Hn Hj. unfold hstack4.
  pose proof (has_shape_hstack2 _ _ _ _ _ Ha Hb) as Hab.
  pose proof (has_shape_hstack2 _ _ _ _ _ Hab Hc) as Habc.
  rewrite (hstack2_build _ d N (H + H + H) H Habc Hd).
  rewrite !get2_build2 by lia.
  rewrite (hstack2_build _ c N (H + H) H Hab Hc).
  rewrite (hstack2_build a b N H H Ha Hb).
  repeat split.
  - rewrite decide_True by lia. rewrite get2_build2 by lia.
    rewrite decide_True by lia. rewrite get2_build2 by lia.
    by rewrite decide_True by lia.
  - rewrite decide_True by lia. rewrite get2_build2 by lia.
    rewrite decide_True by lia. rewrite get2_build2 by lia.
    rewrite decide_False by lia. f_equal. lia.
  - rewrite decide_True by lia. rewrite get2_build2 by lia.
    rewrite decide_False by lia. f_equal. lia.
  - rewrite decide_False by lia. f_equal. lia.
Qed.

(** The sum of the four products with the column blocks of [W] is the
    product with the four gate gradients side by side. *)
Lemma dot_blocks_hstack4 (W : ndarray R) (D : nat) :
  has_shape W [D; (4 * H)%nat] →
  add (add (add (dot a (transpose (slice_cols 0 H W)))
                (dot b (transpose (slice_cols H (2 * H) W))))
           (dot c (transpose (slice_cols (2 * H) (3 * H) W))))
      (dot d (transpose (slice_cols (3 * H) (4 * H) W)))
  = dot (hstack4 a b c d) (transpose W).
Proof.
  intros HW.
  assert (∀ lo, (lo + H <= 4 * H)%nat →
            has_shape (transpose (slice_cols lo (lo + H) W)) [H; D]
            ∧ ∀ k j, (k < H)%nat → (j < D)%nat →
                get2 (transpose (slice_cols lo (lo + H) W)) k j = get2 W j (lo + k))
    as Hsl.
  { intros lo Hlo. rewrite (slice_cols_build W D (4 * H)) by (done || lia).
    replace (lo + H - lo)%nat with H by lia.
    pose proof (has_shape_build2 D H (λ i j, get2 W i (lo + j))) as Hs.
    split; [by apply has_shape_transpose|].
    intros k j Hk Hj. rewrite (get2_transpose _ _ _ _ _ Hs) by done.
    by rewrite get2_build2. }
  destruct (Hsl 0%nat ltac:(lia)) as [H0 G0].
  destruct (Hsl H ltac:(lia)) as [H1 G1].
  destruct (Hsl (2 * H)%nat ltac:(lia)) as [H2 G2].
  destruct (Hsl (3 * H)%nat ltac:(lia)) as [H3 G3].
  simpl in H0, G0.
  replace (H + H)%nat with (2 * H)%nat in * by lia.
  replace (2 * H + H)%nat with (3 * H)%nat in * by lia.
  replace (3 * H + H)%nat with (4 * H)%nat in * by lia.
  pose proof (has_shape_dot _ _ _ _ _ Ha H0) as S0.
  pose proof (has_shape_dot _ _ _ _ _ Hb H1) as S1.
  pose proof (has_shape_dot _ _ _ _ _ Hc H2) as S2.
  pose proof (has_shape_dot _ _ _ _ _ Hd H3) as S3.
  pose proof (has_shape_ew2 Rplus _ _ _ S0 S1) as S01.
  pose proof (has_shape_ew2 Rplus _ _ _ S01 S2) as S012.
  pose proof (has_shape_ew2 Rplus _ _ _ S012 S3) as S0123.
  pose proof has_shape_hstack4 as Hhs.
  pose proof (has_shape_transpose _ _ _ HW) as HWt.
  apply (array_eq2 _ _ N D); [exact S0123|by eapply has_shape_dot|].
  intros n j Hn Hj. unfold add.
  rewrite (get2_ew2 _ _ _ _ _ _ _ S012 S3) by done.
  rewrite (get2_ew2 _ _ _ _ _ _ _ S01 S2) by done.
  rewrite (get2_ew2 _ _ _ _ _ _ _ S0 S1) by done.
  rewrite (get2_dot _ _ _ _ _ _ _ Ha H0), (get2_dot _ _ _ _ _ _ _ Hb H1),
    (get2_dot _ _ _ _ _ _ _ Hc H2), (get2_dot _ _ _ _ _ _ _ Hd H3) by done.
  rewrite (get2_dot _ _ _ _ _ _ _ Hhs HWt) by done.
  rewrite sum_n_four.
  f_equal; [f_equal; [f_equal|]|]; apply sum_n_ext; intros k Hk;
    destruct (get2_hstack4 n k Hn Hk) as (E0 & E1 & E2 & E3).
  - rewrite E0, G0 by done. by rewrite (get2_transpose _ _ _ _ _ HW) by lia.
  - rewrite E1, G1 by done. by rewrite (get2_transpose _ _ _ _ _ HW) by lia.
  - rewrite E2, G2 by done. by rewrite (get2_transpose _ _ _ _ _ HW) by lia.
  - rewrite E3, G3 by done. by rewrite (get2_transpose _ _ _ _ _ HW) by lia.
Qed.

(** The four weight-gradient blocks side by side are one product with
    the four gate gradients side by side. *)
Lemma hstack4_dot (M : ndarray R) (D : nat) :
  has_shape M [D; N] →
  hstack4 (dot M a) (dot M b) (dot M c) (dot M d)
  = dot M (hstack4 a b c d).
Proof.
  intros HM.
  pose proof (has_shape_dot _ _ _ _ _ HM Ha) as S0.
  pose proof (has_shape_dot _ _ _ _ _ HM Hb) as S1.
  pose proof (has_shape_dot _ _ _ _ _ HM Hc) as S2.
  pose proof (has_shape_dot _ _ _ _ _ HM Hd) as S3.
  pose proof has_shape_hstack4 as Hhs.
  pose proof (has_shape_dot _ _ _ _ _ HM Hhs) as SR.
  pose proof (has_shape_hstack2 _ _ _ _ _ S0 S1) as S01.
  pose proof (has_shape_hstack2 _ _ _ _ _ S01 S2) as S012.
  pose proof (has_shape_hstack2 _ _ _ _ _ S012 S3) as SL.
  replace (H + H + H + H)%nat with (4 * H)%nat in SL by lia.
  apply (array_eq2 _ _ D (4 * H)); [exact SL|exact SR|].
  intros i j Hi Hj.
  rewrite (get2_dot _ _ _ _ _ _ _ HM Hhs) by done.
  unfold hstack4.
  rewrite (hstack2_build _ _ D (H + H + H) H S012 S3), get2_build2 by lia.
  destruct (decide (j < H + H + H)%nat) as [J3|J3].
  - rewrite (hstack2_build _ _ D (H + H) H S01 S2), get2_build2 by lia.
    destruct (decide (j < H + H)%nat) as [J2|J2].
    + rewrite (hstack2_build _ _ D H H S0 S1), get2_build2 by lia.
      destruct (decide (j < H)%nat) as [J1|J1].
      * rewrite (get2_dot _ _ _ _ _ _ _ HM Ha) by done.
        apply sum_n_ext. intros n Hn.
        destruct (get2_hstack4 n j Hn J1) as (E0 & _). fold (hstack4 a b c d).
        by rewrite E0.
      * rewrite (get2_dot _ _ _ _ _ _ _ HM Hb) by lia.
        apply sum_n_ext. intros n Hn.
        destruct (get2_hstack4 n (j - H) Hn ltac:(lia)) as (_ & E1 & _).
        fold (hstack4 a b c d).
        replace (H + (j - H))%nat with j in E1 by lia. by rewrite E1.
    + rewrite (get2_dot _ _ _ _ _ _ _ HM Hc) by lia.
      apply sum_n_ext. intros n Hn.
      destruct (get2_hstack4 n (j - (H + H)) Hn ltac:(lia)) as (_ & _ & E2 & _).
      fold (hstack4 a b c d).
      replace (2 * H + (j - (H + H)))%nat with j in E2 by lia. by rewrite E2.
  - rewrite (get2_dot _ _ _ _ _ _ _ HM Hd) by lia.
    apply sum_n_ext. intros n Hn.
    destruct (get2_hstack4 n (j - (H + H + H)) Hn ltac:(lia)) as (_ & _ & _ & E3).
    fold (hstack4 a b c d).
    replace (3 * H + (j - (H + H + H)))%nat with j in E3 by lia. by rewrite E3.
Qed.

(** The four bias-gradient blocks one after the other are the column
    sums of the four gate gradients side by side. *)
Lemma hstack1_sum_axis0 :
  hstack1 (hstack1 (hstack1 (sum_axis0 a) (sum_axis0 b)) (sum_axis0 c))
          (sum_axis0 d)
  = sum_axis0 (hstack4 a b c d).
Proof.
  pose proof has_shape_hstack4 as Hhs.
  rewrite (sum_axis0_build a N H Ha), (sum_axis0_build b N H Hb),
    (sum_axis0_build c N H Hc), (sum_axis0_build d N H Hd),
    (sum_axis0_build _ N (4 * H) Hhs).
  set (fa := λ j, sum_n (λ n, get2 a n j) N).
  set (fb := λ j, sum_n (λ n, get2 b n j) N).
  set (fc := λ j, sum_n (λ n, get2 c n j) N).
  set (fd := λ j, sum_n (λ n, get2 d n j) N).
  pose proof (has_shape_build1 H fa) as Sa.
  pose proof (has_shape_build1 H fb) as Sb.
  pose proof (has_shape_build1 H fc) as Sc.
  pose proof (has_shape_build1 H fd) as Sd.
  pose proof (has_shape_hstack1 _ _ _ _ Sa Sb) as Sab.
  pose proof (has_shape_hstack1 _ _ _ _ Sab Sc) as Sabc.
  pose proof (has_shape_hstack1 _ _ _ _ Sabc Sd) as SL.
  replace (H + H + H + H)%nat with (4 * H)%nat in SL by lia.
  apply (array_eq1 _ _ (4 * H)); [exact SL|apply has_shape_build1|].
  intros j Hj. rewrite get1_build1 by done.
  rewrite (get1_hstack1 _ _ _ _ j Sabc Sd) by lia.
  destruct (decide (j < H + H + H)%nat) as [J3|J3].
  - rewrite (get1_hstack1 _ _ _ _ j Sab Sc) by lia.
    destruct (decide (j < H + H)%nat) as [J2|J2].
    + rewrite (get1_hstack1 _ _ _ _ j Sa Sb) by lia.
      destruct (decide (j < H)%nat) as [J1|J1].
      * rewrite get1_build1 by done. apply sum_n_ext. intros n Hn.
        by destruct (get2_hstack4 n j Hn J1) as (-> & _).
      * rewrite get1_build1 by lia. apply sum_n_ext. intros n Hn.
        destruct (get2_hstack4 n (j - H) Hn ltac:(lia)) as (_ & E1 & _).
        replace (H + (j - H))%nat with j in E1 by lia. by rewrite E1.
    + rewrite get1_build1 by lia. apply sum_n_ext. intros n Hn.
      destruct (get2_hstack4 n (j - (H + H)) Hn ltac:(lia)) as (_ & _ & E2 & _).
      replace (2 * H + (j - (H + H)))%nat with j in E2 by lia. by rewrite E2.
  - rewrite get1_build1 by lia. apply sum_n_ext. intros n Hn.
    destruct (get2_hstack4 n (j - (H + H + H)) Hn ltac:(lia)) as (_ & _ & _ & E3).
    replace (3 * H + (j - (H + H + H)))%nat with j in E3 by lia. by rewrite E3.
Qed.

End lstm_concat.

(* ===================================================================== *)
(** * LSTM: the passes over a sequence *)
(* ===================================================================== *)

Section lstm_more.
Import Np.
Import LSTM.
Local Open Scope R_scope.

Variables (self : LSTM.t) (Wx Wh b : ndarray R) (N D H : nat).
Hypothesis HWx : params self !! wx_name self = Some Wx.
Hypothesis HWh : params self !! wh_name self = Some Wh.
Hypothesis Hb : params self !! b_name self = Some b.
Hypothesis HsWx : has_shape Wx [D; (4 * H)%nat].
Hypothesis HsWh : has_shape Wh [H; (4 * H)%nat].
Hypothesis HH : h_dim self = H.

Lemma lstm_step_forward_ok (x ph pc : ndarray R) :
  has_shape x [N; D] → has_shape ph [N; H] → has_shape pc [N; H] →
  ∃ nh nc i f o g,
    step_forward self x ph pc = Ok (nh, nc, [x; ph; nh; pc; i; f; nc; o; g])
    ∧ has_shape nh [N; H] ∧ has_shape nc [N; H]
    ∧ has_shape i [N; H] ∧ has_shape f [N; H]
    ∧ has_shape o [N; H] ∧ has_shape g [N; H]
    ∧ ∀ n j, (n < N)%nat → (j < H)%nat → -1 < get2 nh n j < 1.
Proof.
  intros Hx Hh Hc.
  unfold step_forward, getitem. rewrite HWx, HWh, Hb. cbn [bind]. rewrite HH.
  set (A := add_bias (add (dot x Wx) (dot ph Wh)) b).
  assert (has_shape A [N; 4 * H]%nat) as HsA.
  { pose proof (has_shape_dot _ _ _ _ _ Hx HsWx) as H1.
    pose proof (has_shape_dot _ _ _ _ _ Hh HsWh) as H2.
    pose proof (has_shape_ew2 Rplus _ _ _ H1 H2) as H3.
    unfold A. rewrite (add_bias_build _ _ _ _ H3). apply has_shape_build2. }
  assert (∀ lo, (lo + H <= 4 * H)%nat →
            has_shape (slice_cols lo (lo + H) A) [N; H]) as Hslice.
  { intros lo Hlo. rewrite (slice_cols_build A N (4 * H)) by (done || lia).
    replace (lo + H - lo)%nat with H by lia. apply has_shape_build2. }
  pose proof (Hslice 0%nat ltac:(lia)) as Hsi.
  pose proof (Hslice H ltac:(lia)) as Hsf.
  pose proof (Hslice (2 * H)%nat ltac:(lia)) as Hso.
  pose proof (Hslice (3 * H)%nat ltac:(lia)) as Hsg.
  simpl in Hsi.
  replace (H + H)%nat with (2 * H)%nat in * by lia.
  replace (2 * H + H)%nat with (3 * H)%nat in * by lia.
  replace (3 * H + H)%nat with (4 * H)%nat in * by lia.
  set (i_t := sigmoid (slice_cols 0 H A)) in *.
  set (f_t := sigmoid (slice_cols H (2 * H) A)) in *.
  set (o_t := sigmoid (slice_cols (2 * H) (3 * H) A)) in *.
  set (g_t := amap tanh (slice_cols (3 * H) (4 * H) A)) in *.
  assert (has_shape i_t [N; H]) as Hi by (by apply has_shape_amap).
  assert (has_shape f_t [N; H]) as Hf by (by apply has_shape_amap).
  assert (has_shape o_t [N; H]) as Ho by (by apply has_shape_amap).
  assert (has_shape g_t [N; H]) as Hg by (by apply has_shape_amap).
  pose proof (has_shape_ew2 Rmult _ _ _ Hf Hc) as Hfc.
  pose proof (has_shape_ew2 Rmult _ _ _ Hi Hg) as Hig.
  pose proof (has_shape_ew2 Rplus _ _ _ Hfc Hig) as Hct.
  pose proof (has_shape_amap tanh _ _ Hct) as Htc.
  pose proof (has_shape_ew2 Rmult _ _ _ Ho Htc) as Hht.
  eexists _, _, _, _, _, _. split; [reflexivity|].
  repeat (split; [done|]).
  intros n j Hn Hj.
  assert (get2 (mul o_t (amap tanh (add (mul f_t pc) (mul i_t g_t)))) n j
          = logistic (get2 (slice_cols (2 * H) (3 * H) A) n j)
            * tanh (get2 (add (mul f_t pc) (mul i_t g_t)) n j)) as ->.
  { unfold mul at 1. rewrite (get2_ew2 _ _ _ _ _ _ _ Ho Htc) by done.
    rewrite (get2_amap _ _ _ _ _ _ Hct) by done.
    unfold o_t, sigmoid. rewrite (get2_amap _ _ _ _ _ _ Hso) by done.
    by rewrite sigmoid1_logistic. }
  match goal with |- -1 < logistic ?u * tanh ?v < 1 =>
    pose proof (logistic_range u); pose proof (tanh_range v) end.
  split; nra.
Qed.

Lemma lstm_step_backward_ok (dh dnc x ph nh pc i f c o g : ndarray R) :
  (N * H ≠ 0)%nat →
  has_shape dh [N; H] → has_shape dnc [N; H] →
  has_shape x [N; D] → has_shape ph [N; H] → has_shape pc [N; H] →
  has_shape i [N; H] → has_shape f [N; H] → has_shape c [N; H] →
  has_shape o [N; H] → has_shape g [N; H] →
  ∃ r di df d_o dg,
    step_backward self dh dnc [x; ph; nh; pc; i; f; c; o; g] = Ok r
    ∧ has_shape di [N; H] ∧ has_shape df [N; H]
    ∧ has_shape d_o [N; H] ∧ has_shape dg [N; H]
    ∧ (∀ n j, (n < N)%nat → (j < H)%nat →
         get2 di n j = lstm_dcell dh dnc o c n j * get2 g n j
                       * (get2 i n j * (1 - get2 i n j))
         ∧ get2 df n j = lstm_dcell dh dnc o c n j * get2 pc n j
                         * (get2 f n j * (1 - get2 f n j))
         ∧ get2 d_o n j = tanh (get2 c n j) * get2 dh n j
                         * (get2 o n j * (1 - get2 o n j))
         ∧ get2 dg n j = lstm_dcell dh dnc o c n j * get2 i n j
                         * (1 - get2 g n j ^ 2)
         ∧ get2 (g_dprev_c r) n j = lstm_dcell dh dnc o c n j * get2 f n j)
    ∧ g_dx r = dot (hstack4 di df d_o dg) (transpose Wx)
    ∧ g_dprev_h r = dot (hstack4 di df d_o dg) (transpose Wh)
    ∧ g_dWx r = dot (transpose x) (hstack4 di df d_o dg)
    ∧ g_dWh r = dot (transpose ph) (hstack4 di df d_o dg)
    ∧ g_db r = sum_axis0 (hstack4 di df d_o dg)
    ∧ has_shape (g_dx r) [N; D] ∧ has_shape (g_dprev_h r) [N; H]
    ∧ has_shape (g_dprev_c r) [N; H]
    ∧ has_shape (g_dWx r) [D; (4 * H)%nat]
    ∧ has_shape (g_dWh r) [H; (4 * H)%nat]
    ∧ has_shape (g_db r) [(4 * H)%nat].
Proof.
  intros HNH Hdh Hdnc Hx Hph Hpc Hi Hf Hc Ho Hg.
  assert (size_of [N; H] ≠ 0%nat) as Hsz by (simpl; lia).
  unfold step_backward.
  rewrite (vectorize_ok _ c [N; H] Hc Hsz). cbn [bind].
  rewrite (vectorize_ok _ o [N; H] Ho Hsz). cbn [bind].
  rewrite (vectorize_ok _ g [N; H] Hg Hsz). cbn [bind].
  rewrite (vectorize_ok _ f [N; H] Hf Hsz). cbn [bind].
  rewrite (vectorize_ok _ i [N; H] Hi Hsz). cbn [bind].
  unfold getitem. rewrite HWx, HWh. cbn [bind]. rewrite HH.
  set (dc_t := add (mul (mul dh o) (amap (λ x0, 1 - tanh x0 ^ 2) c)) dnc).
  set (di := mul (mul dc_t g) (amap (λ x0, x0 * (1 - x0)) i)).
  set (df := mul (mul dc_t pc) (amap (λ x0, x0 * (1 - x0)) f)).
  set (d_o := mul (mul (amap tanh c) dh) (amap (λ x0, x0 * (1 - x0)) o)).
  set (dg := mul (mul dc_t i) (amap (λ x0, 1 - x0 ^ 2) g)).
  pose proof (has_shape_amap (λ x0, 1 - tanh x0 ^ 2) _ _ Hc) as Hdtc.
  pose proof (has_shape_amap (λ x0, x0 * (1 - x0)) _ _ Hi) as Hdsi.
  pose proof (has_shape_amap (λ x0, x0 * (1 - x0)) _ _ Hf) as Hdsf.
  pose proof (has_shape_amap (λ x0, x0 * (1 - x0)) _ _ Ho) as Hdso.
  pose proof (has_shape_amap (λ x0, 1 - x0 ^ 2) _ _ Hg) as Hdtg.
  pose proof (has_shape_amap tanh _ _ Hc) as Htc.
  pose proof (has_shape_ew2 Rmult _ _ _ Hdh Ho) as Hdho.
  pose proof (has_shape_ew2 Rmult _ _ _ Hdho Hdtc) as Hdhot.
  assert (has_shape dc_t [N; H]) as Hdc by (by apply has_shape_ew2).
  pose proof (has_shape_ew2 Rmult _ _ _ Hdc Hg) as Hdcg.
  pose proof (has_shape_ew2 Rmult _ _ _ Hdc Hpc) as Hdcp.
  pose proof (has_shape_ew2 Rmult _ _ _ Hdc Hi) as Hdci.
  pose proof (has_shape_ew2 Rmult _ _ _ Htc Hdh) as Htcdh.
  assert (has_shape di [N; H]) as Hdi by (by apply has_shape_ew2).
  assert (has_shape df [N; H]) as Hdf by (by apply has_shape_ew2).
  assert (has_shape d_o [N; H]) as Hdo by (by apply has_shape_ew2).
  assert (has_shape dg [N; H]) as Hdg by (by apply has_shape_ew2).
  assert (∀ n j, (n < N)%nat → (j < H)%nat →
            get2 dc_t n j = lstm_dcell dh dnc o c n j) as Edc.
  { intros n j Hn Hj. unfold dc_t, add, mul, lstm_dcell.
    rewrite (get2_ew2 _ _ _ _ _ _ _ Hdhot Hdnc) by done.
    rewrite (get2_ew2 _ _ _ _ _ _ _ Hdho Hdtc) by done.
    rewrite (get2_ew2 _ _ _ _ _ _ _ Hdh Ho) by done.
    by rewrite (get2_amap _ _ _ _ _ _ Hc) by done. }
  rewrite (dot_blocks_hstack4 di df d_o dg N H Hdi Hdf Hdo Hdg Wx D HsWx).
  rewrite (dot_blocks_hstack4 di df d_o dg N H Hdi Hdf Hdo Hdg Wh H HsWh).
  pose proof (has_shape_transpose _ _ _ Hx) as HxT.
  pose proof (has_shape_transpose _ _ _ Hph) as HphT.
  rewrite (hstack4_dot di df d_o dg N H Hdi Hdf Hdo Hdg _ D HxT).
  rewrite (hstack4_dot di df d_o dg N H Hdi Hdf Hdo Hdg _ H HphT).
  rewrite (hstack1_sum_axis0 di df d_o dg N H Hdi Hdf Hdo Hdg).
  pose proof (has_shape_hstack4 di df d_o dg N H Hdi Hdf Hdo Hdg) as HdA.
  eexists _, di, df, d_o, dg. split; [reflexivity|].
  cbn [g_dx g_dprev_h g_dprev_c g_dWx g_dWh g_db].
  do 4 (split; [done|]).
  split.
  { intros n j Hn Hj. repeat split.
    - unfold di, mul. rewrite (get2_ew2 _ _ _ _ _ _ _ Hdcg Hdsi) by done.
      rewrite (get2_ew2 _ _ _ _ _ _ _ Hdc Hg) by done.
      rewrite (get2_amap _ _ _ _ _ _ Hi) by done. by rewrite Edc.
    - unfold df, mul. rewrite (get2_ew2 _ _ _ _ _ _ _ Hdcp Hdsf) by done.
      rewrite (get2_ew2 _ _ _ _ _ _ _ Hdc Hpc) by done.
      rewrite (get2_amap _ _ _ _ _ _ Hf) by done. by rewrite Edc.
    - unfold d_o, mul. rewrite (get2_ew2 _ _ _ _ _ _ _ Htcdh Hdso) by done.
      rewrite (get2_ew2 _ _ _ _ _ _ _ Htc Hdh) by done.
      by rewrite (get2_amap _ _ _ _ _ _ Hc), (get2_amap _ _ _ _ _ _ Ho) by done.
    - unfold dg, mul. rewrite (get2_ew2 _ _ _ _ _ _ _ Hdci Hdtg) by done.
      rewrite (get2_ew2 _ _ _ _ _ _ _ Hdc Hi) by done.
      rewrite (get2_amap _ _ _ _ _ _ Hg) by done. by rewrite Edc.
    - unfold mul. rewrite (get2_ew2 _ _ _ _ _ _ _ Hdc Hf) by done.
      by rewrite Edc. }
  do 5 (split; [done|]).
  split; [eapply has_shape_dot; [exact HdA|by apply has_shape_transpose]|].
  split; [eapply has_shape_dot; [exact HdA|by apply has_shape_transpose]|].
  split; [by apply has_shape_ew2|].
  split; [by eapply has_shape_dot|].
  split; [by eapply has_shape_dot|].
  rewrite (sum_axis0_build _ N (4 * H) HdA). apply has_shape_build1.
Qed.

Section lstm_forward_loop.
Variables (x h0 : ndarray R) (T : nat).
Hypothesis Hx : has_shape x [N; T; D].
Hypothesis Hh0 : has_shape h0 [N; H].

Lemma lstm_forward_loop n : ∀ s h c metas,
  (1 <= s)%nat → (s + n = T)%nat → lstm_fw_inv self x h0 N T D H s h c metas →
  ∃ h' c' metas',
    for_each (forward_body self x) (seq s n) (h, c, metas) = Ok (h', c', metas')
    ∧ lstm_fw_inv self x h0 N T D H T h' c' metas'.
Proof.
  induction n as [|n IH]; intros s h c metas Hs HT Hinv.
  - exists h, c, metas. simpl. replace s with T in Hinv by lia. done.
  - destruct Hinv as (Hh & Hc & Hlen & HF & Hval).
    destruct s as [|s]; [lia|].
    destruct (Hval s ltac:(lia)) as (nh & nc & m & Hun & Hm & Hnh & Hnc & Hrng).
    assert (has_shape nh [N; H]) as Hsnh by (rewrite <- Hnh; apply has_shape_build2).
    assert (has_shape nc [N; H]) as Hsnc by (rewrite <- Hnc; apply has_shape_build2).
    simpl. rewrite (tslice_ok x N T D (S s)) by (done || lia). cbn [bind].
    replace (s - 0)%nat with s by lia.
    rewrite (tslice_ok h N T H s) by (done || lia). cbn [bind].
    rewrite (tslice_ok c N T H s) by (done || lia). cbn [bind].
    rewrite Hnh, Hnc.
    destruct (lstm_step_forward_ok (build2 N D (λ j k, get3 x j (S s) k)) nh nc)
      as (nh' & nc' & gi & gf & go & gg & Hstep & Hsnh' & Hsnc' & Hsi & Hsf & Hso
          & Hsg & Hrng'); [apply has_shape_build2|done|done|].
    rewrite Hstep. cbn [bind].
    apply (IH (S (S s))); [lia|lia|].
    split; [rewrite (set_tslice_build _ _ N T H) by done; apply has_shape_build3|].
    split; [rewrite (set_tslice_build _ _ N T H) by done; apply has_shape_build3|].
    split; [rewrite length_app; simpl; lia|].
    split.
    { apply Forall_app. split; [done|]. apply Forall_singleton.
      eexists _, _, _, _, _, _, _, _, _. split; [reflexivity|].
      split; [apply has_shape_build2|]. repeat (split; [done|]). done. }
    intros t Ht. destruct (decide (t = S s)) as [->|Hne].
    + exists nh', nc', [build2 N D (λ j k, get3 x j (S s) k); nh; nh'; nc; gi; gf; nc'; go; gg].
      split.
      { cbn [lstm_unroll]. rewrite Hun. cbn [bind]. exact Hstep. }
      split.
      { rewrite lookup_app_r by lia. by replace (S s - length metas)%nat with 0%nat by lia. }
      split.
      { apply (array_eq2 _ _ N H); [apply has_shape_build2|done|].
        intros i j Hi Hj. rewrite get2_build2 by done.
        rewrite (get3_set_tslice N T H) by (done || lia).
        by rewrite decide_True. }
      split; [|done].
      apply (array_eq2 _ _ N H); [apply has_shape_build2|done|].
      intros i j Hi Hj. rewrite get2_build2 by done.
      rewrite (get3_set_tslice N T H) by (done || lia).
      by rewrite decide_True.
    + destruct (Hval t ltac:(lia)) as (nh1 & nc1 & m1 & Hun1 & Hm1 & Hnh1 & Hnc1 & Hrng1).
      exists nh1, nc1, m1. split; [done|].
      split; [rewrite lookup_app_l by lia; done|].
      split.
      { rewrite <- Hnh1. apply build2_ext. intros i j Hi Hj.
        rewrite (get3_set_tslice N T H) by (done || lia).
        by rewrite decide_False. }
      split; [|done].
      rewrite <- Hnc1. apply build2_ext. intros i j Hi Hj.
      rewrite (get3_set_tslice N T H) by (done || lia).
      by rewrite decide_False.
Qed.

Lemma lstm_forward_ok :
  T ≠ 0%nat →
  ∃ h c metas,
    forward self x h0
    = Ok (h, mkT (name self) (wx_name self) (wh_name self) (b_name self)
                 (input_dim self) (h_dim self) (params self) (grads self)
                 (Some metas))
    ∧ lstm_fw_inv self x h0 N T D H T h c metas.
Proof.
  intros HT. unfold forward, shape_at, list_getitem.
  pose proof Hx as [Hsx Hlx]. pose proof Hh0 as [Hsh0 Hlh0].
  rewrite Hsx, Hsh0. cbn [lookup list_lookup bind].
  rewrite (tslice_ok x N T D 0) by (done || lia). cbn [bind].
  destruct (lstm_step_forward_ok (build2 N D (λ j k, get3 x j 0 k)) h0 (zeros [N; H]))
    as (nh & nc & gi & gf & go & gg & Hstep & Hsnh & Hsnc & Hsi & Hsf & Hso
        & Hsg & Hrng); [apply has_shape_build2|done|apply has_shape_zeros|].
  rewrite Hstep. cbn [bind].
  destruct (lstm_forward_loop (T - 1) 1
              (set_tslice (zeros [N; T; H]) 0 nh)
              (set_tslice (zeros [N; T; H]) 0 nc)
              [[build2 N D (λ j k, get3 x j 0 k); h0; nh; zeros [N; H]; gi; gf; nc; go; gg]])
    as (h' & c' & metas' & Hloop & Hinv); [lia|lia| |].
  - split; [rewrite (set_tslice_build _ _ N T H) by apply has_shape_zeros;
            apply has_shape_build3|].
    split; [rewrite (set_tslice_build _ _ N T H) by apply has_shape_zeros;
            apply has_shape_build3|].
    split; [done|].
    split.
    { apply Forall_singleton. eexists _, _, _, _, _, _, _, _, _.
      split; [reflexivity|].
      split; [apply has_shape_build2|]. do 2 (split; [done|]).
      split; [apply has_shape_zeros|]. repeat (split; [done|]). done. }
    intros t Ht. assert (t = 0%nat) as -> by lia.
    eexists nh, nc, _. split; [exact Hstep|]. split; [reflexivity|].
    split.
    { apply (array_eq2 _ _ N H); [apply has_shape_build2|done|].
      intros i j Hi Hj. rewrite get2_build2 by done.
      rewrite (get3_set_tslice N T H) by (apply has_shape_zeros || done || lia).
      by rewrite decide_True. }
    split; [|done].
    apply (array_eq2 _ _ N H); [apply has_shape_build2|done|].
    intros i j Hi Hj. rewrite get2_build2 by done.
    rewrite (get3_set_tslice N T H) by (apply has_shape_zeros || done || lia).
    by rewrite decide_True.
  - rewrite Hloop. cbn [bind]. by exists h', c', metas'.
Qed.

End lstm_forward_loop.



Section lstm_backward_loop.
Variables (dh : ndarray R) (metas : list (list (ndarray R))) (T : nat).
Hypothesis Hdh : has_shape dh [N; T; H].
Hypothesis Hlen : length metas = T.
Hypothesis HF : Forall (lstm_meta_shaped N D H) metas.

Lemma lstm_metas_lookup k :
  (k < T)%nat → ∃ mi, metas !! k = Some mi ∧ lstm_meta_shaped N D H mi.
Proof.
  intros Hk. destruct (lookup_lt_is_Some_2 metas k ltac:(lia)) as [mi Hmi].
  exists mi. split; [done|]. rewrite Forall_forall in HF.
  apply HF. by eapply list_elem_of_lookup_2.
Qed.

Lemma lstm_backward_body_ok k st :
  (N * H ≠ 0)%nat → (k < T)%nat → lstm_bw_shaped N T D H st →
  ∃ st', backward_body self dh metas st k = Ok st' ∧ lstm_bw_shaped N T D H st'.
Proof.
  intros HNH Hk (Hdn & Hdc & Hdx & Hd0 & HgWx & HgWh & Hgb).
  destruct (lstm_metas_lookup k Hk) as (mi & Hmi & Hms).
  destruct Hms as (x & ph & nh & pc & i & f & c & o & g & -> & Hx & Hph & Hnh
                   & Hpc & Hi & Hf & Hc & Ho & Hg).
  destruct (lstm_step_backward_ok (s_dnext_h st) (s_dnext_c st) x ph nh pc i f c o g
              HNH Hdn Hdc Hx Hph Hpc Hi Hf Hc Ho Hg)
    as (r & di & df & d_o & dg & Hr & _ & _ & _ & _ & _ & _ & _ & _ & _ & _
        & Hrdx & Hrdh & Hrdc & HrWx & HrWh & Hrb).
  unfold backward_body, list_getitem. rewrite Hmi. cbn [bind]. rewrite Hr. cbn [bind].
  destruct (decide (k = 0%nat)) as [->|Hne].
  - cbn [bind]. eexists. split; [reflexivity|].
    unfold lstm_bw_shaped. cbn [s_dnext_h s_dnext_c s_dx s_dh0 s_gWx s_gWh s_gb].
    split; [done|]. split; [done|].
    split; [rewrite (set_tslice_build _ _ N T D) by done; apply has_shape_build3|].
    split; [done|].
    split; [by apply has_shape_ew2|]. split; by apply has_shape_ew2.
  - rewrite (tslice_ok dh N T H (k - 1) Hdh) by lia. cbn [bind].
    eexists. split; [reflexivity|].
    unfold lstm_bw_shaped. cbn [s_dnext_h s_dnext_c s_dx s_dh0 s_gWx s_gWh s_gb].
    split; [apply has_shape_ew2; [done|apply has_shape_build2]|]. split; [done|].
    split; [rewrite (set_tslice_build _ _ N T D) by done; apply has_shape_build3|].
    split; [done|].
    split; [by apply has_shape_ew2|]. split; by apply has_shape_ew2.
Qed.

Lemma lstm_backward_loop k : ∀ st,
  (N * H ≠ 0)%nat → (k <= T)%nat → lstm_bw_shaped N T D H st →
  ∃ st', for_each (backward_body self dh metas) (rev (seq 0 k)) st = Ok st'
    ∧ lstm_bw_shaped N T D H st'.
Proof.
  induction k as [|k IH]; intros st HNH Hk Hinv.
  - by exists st.
  - rewrite seq_S, rev_app_distr. simpl.
    destruct (lstm_backward_body_ok k st HNH ltac:(lia) Hinv) as (st1 & Hbody & Hinv1).
    rewrite Hbody. cbn [bind]. apply (IH st1 HNH ltac:(lia) Hinv1).
Qed.

(** The part of [backward] before its loop. *)
Lemma lstm_backward_prefix :
  T ≠ 0%nat → meta self = Some metas →
  backward self dh
  = (st <- for_each (backward_body self dh metas) (rev (seq 0 T))
             (mkS (build2 N H (λ i k, get3 dh i (T - 1) k)) (zeros [N; H])
                  (zeros [N; T; D]) (zeros [N; H])
                  (zeros [D; 4 * H]%nat) (zeros [H; 4 * H]%nat)
                  (zeros [(4 * H)%nat])) ;;
     Ok (s_dx st, s_dh0 st,
         mkT (name self) (wx_name self) (wh_name self) (b_name self)
             (input_dim self) (h_dim self) (params self)
             (<[b_name self := Some (s_gb st)]>
                (<[wh_name self := Some (s_gWh st)]>
                   (<[wx_name self := Some (s_gWx st)]> (grads self))))
             (Some []))).
Proof.
  intros HT Hmeta.
  destruct (lstm_metas_lookup 0 ltac:(lia)) as (m0 & Hm0 & Hms0).
  destruct Hms0 as (x0 & ph & nh & pc & i & f & c & o & g & -> & Hx0 & _).
  unfold backward, shape_at, list_getitem.
  pose proof Hdh as [Hsdh _]. rewrite Hsdh. cbn [lookup list_lookup bind].
  rewrite Hmeta. cbn [bind]. rewrite Hm0. cbn [lookup list_lookup bind].
  pose proof Hx0 as [Hsx0 _]. rewrite Hsx0. cbn [lookup list_lookup bind].
  rewrite decide_False by done.
  rewrite (tslice_ok dh N T H (T - 1) Hdh) by lia. cbn [bind].
  done.
Qed.

Lemma lstm_backward_ok :
  (N * H ≠ 0)%nat → T ≠ 0%nat → meta self = Some metas →
  ∃ st,
    backward self dh
    = Ok (s_dx st, s_dh0 st,
          mkT (name self) (wx_name self) (wh_name self) (b_name self)
              (input_dim self) (h_dim self) (params self)
              (<[b_name self := Some (s_gb st)]>
                 (<[wh_name self := Some (s_gWh st)]>
                    (<[wx_name self := Some (s_gWx st)]> (grads self))))
              (Some []))
    ∧ lstm_bw_shaped N T D H st.
Proof.
  intros HNH HT Hmeta. rewrite (lstm_backward_prefix HT Hmeta).
  edestruct (lstm_backward_loop T) as (st & Hloop & Hinv); [exact HNH|lia| |].
  2:{ rewrite Hloop. cbn [bind]. by exists st. }
  unfold lstm_bw_shaped. cbn [s_dnext_h s_dnext_c s_dx s_dh0 s_gWx s_gWh s_gb].
  split; [apply has_shape_build2|]. repeat (split; [apply has_shape_zeros|]).
  apply has_shape_zeros.
Qed.


End lstm_backward_loop.

End lstm_more.

Section lstm_claims.
Import Np.
Import LSTM.
Local Open Scope R_scope.

(** X19.  [LSTM.step_backward] on a non-empty batch: with the gradients of the
    four gates [di], [df], [do], [dg] side by side in [dA] of shape
    (N,4H), [dx = dA.Wx^T], [dprev_h = dA.Wh^T], [dWx = x^T.dA],
    [dWh = prev_h^T.dA], [db] is the column sum of [dA] and
    [dprev_c = dc * f]; the gate gradients are as the source computes
    them from the upstream gradients and the stored gates. *)
Theorem lstm_step_backward_blocks (self : LSTM.t)
        (dnext_h dnext_c x prev_h next_h prev_c i f c o g Wx Wh : ndarray R)
        (N D H : nat) :
  params self !! wx_name self = Some Wx →
  params self !! wh_name self = Some Wh →
  has_shape Wx [D; (4 * H)%nat] → has_shape Wh [H; (4 * H)%nat] →
  h_dim self = H → (N * H ≠ 0)%nat →
  has_shape dnext_h [N; H] → has_shape dnext_c [N; H] →
  has_shape x [N; D] → has_shape prev_h [N; H] → has_shape prev_c [N; H] →
  has_shape i [N; H] → has_shape f [N; H] → has_shape c [N; H] →
  has_shape o [N; H] → has_shape g [N; H] →
  ∃ r di df d_o dg,
    step_backward self dnext_h dnext_c [x; prev_h; next_h; prev_c; i; f; c; o; g]
    = Ok r
    ∧ has_shape di [N; H] ∧ has_shape df [N; H]
    ∧ has_shape d_o [N; H] ∧ has_shape dg [N; H]
    ∧ (∀ n j, (n < N)%nat → (j < H)%nat →
         get2 di n j = lstm_dcell dnext_h dnext_c o c n j * get2 g n j
                       * (get2 i n j * (1 - get2 i n j))
         ∧ get2 df n j = lstm_dcell dnext_h dnext_c o c n j * get2 prev_c n j
                         * (get2 f n j * (1 - get2 f n j))
         ∧ get2 d_o n j = tanh (get2 c n j) * get2 dnext_h n j
                          * (get2 o n j * (1 - get2 o n j))
         ∧ get2 dg n j = lstm_dcell dnext_h dnext_c o c n j * get2 i n j
                         * (1 - get2 g n j ^ 2)
         ∧ get2 (g_dprev_c r) n j = lstm_dcell dnext_h dnext_c o c n j * get2 f n j)
    ∧ g_dx r = dot (hstack4 di df d_o dg) (transpose Wx)
    ∧ g_dprev_h r = dot (hstack4 di df d_o dg) (transpose Wh)
    ∧ g_dWx r = dot (transpose x) (hstack4 di df d_o dg)
    ∧ g_dWh r = dot (transpose prev_h) (hstack4 di df d_o dg)
    ∧ g_db r = sum_axis0 (hstack4 di df d_o dg)
    ∧ has_shape (g_dx r) [N; D] ∧ has_shape (g_dprev_h r) [N; H]
    ∧ has_shape (g_dprev_c r) [N; H]
    ∧ has_shape (g_dWx r) [D; (4 * H)%nat]
    ∧ has_shape (g_dWh r) [H; (4 * H)%nat]
    ∧ has_shape (g_db r) [(4 * H)%nat].
Proof.
  intros HWx HWh HsWx HsWh HH HNH Hdh Hdc Hx Hph Hpc Hi Hf Hc Ho Hg.
  by apply lstm_step_backward_ok.
Qed.

Lemma lstm_step_backward_blocks_witness :
  ∃ r dA,
    step_backward lstm_example lstm_x lstm_h
                  [lstm_x; lstm_h; lstm_h; lstm_h; lstm_x; lstm_x; lstm_h; lstm_x; lstm_x]
    = Ok r
    ∧ has_shape dA [1; 4]%nat
    ∧ g_dWx r = dot (transpose lstm_x) dA
    ∧ g_db r = sum_axis0 dA.
Proof.
  destruct (lstm_step_backward_blocks lstm_example lstm_x lstm_h
              lstm_x lstm_h lstm_h lstm_h lstm_x lstm_x lstm_h lstm_x lstm_x
              (amap (Rmult 1) (mk [1; 4]%nat [1; 2; 3; 4]))
              (amap (Rmult 1) (mk [1; 4]%nat [0; 0; 0; 0])) 1 1 1)
    as (r & di & df & d_o & dg & Hr & Hdi & Hdf & Hdo & Hdg & _ & _ & _ & HWx
        & _ & Hb & _).
  - reflexivity.
  - reflexivity.
  - split; reflexivity.
  - split; reflexivity.
  - reflexivity.
  - simpl; lia.
  - split; reflexivity.
  - split; reflexivity.
  - split; reflexivity.
  - split; reflexivity.
  - split; reflexivity.
  - split; reflexivity.
  - split; reflexivity.
  - split; reflexivity.
  - split; reflexivity.
  - split; reflexivity.
  - exists r, (hstack4 di df d_o dg). split; [exact Hr|].
    split; [exact (has_shape_hstack4 di df d_o dg 1 1 Hdi Hdf Hdo Hdg)|].
    split; [exact HWx|exact Hb].
Defined.







End lstm_claims.

(* ===================================================================== *)
(** * Derivatives, and the gradients of the VanillaRNN step *)
(* ===================================================================== *)

Section derivatives.
Import Np.
Local Open Scope R_scope.

Lemma derivable_pt_lim_ext (f g : R → R) x l :
  (∀ v, f v = g v) → derivable_pt_lim g x l → derivable_pt_lim f x l.
Proof.
  intros Hfg Hg eps Heps. destruct (Hg eps Heps) as [delta Hd].
  exists delta. intros h Hh Hlt. rewrite !Hfg. by apply Hd.
Qed.

Lemma cosh_pos x : 0 < cosh x.
Proof.
  unfold cosh. pose proof (exp_pos x). pose proof (exp_pos (- x)). lra.
Qed.

Lemma cosh2_sinh2 x : cosh x * cosh x - sinh x * sinh x = 1.
Proof.
  unfold cosh, sinh.
  replace ((exp x + exp (- x)) / 2 * ((exp x + exp (- x)) / 2)
           - (exp x - exp (- x)) / 2 * ((exp x - exp (- x)) / 2))
    with (exp x * exp (- x)) by field.
  rewrite <- exp_plus. replace (x + - x) with 0 by lra. apply exp_0.
Qed.

Lemma derivable_pt_lim_tanh x : derivable_pt_lim tanh x (1 - tanh x ^ 2).
Proof.
  pose proof (cosh_pos x) as Hc.
  pose proof (derivable_pt_lim_div sinh cosh x (cosh x) (sinh x)
                (derivable_pt_lim_sinh x) (derivable_pt_lim_cosh x)
                ltac:(lra)) as Hd.
  replace (1 - tanh x ^ 2)
    with ((cosh x * cosh x - sinh x * sinh x) / (cosh x)²).
  - apply (derivable_pt_lim_ext _ (sinh / cosh)%F); [done|exact Hd].
  - unfold tanh, Rsqr. field. lra.
Qed.

Lemma derivable_pt_lim_sum_n (f : nat → R → R) (l : nat → R) x n :
  (∀ k, (k < n)%nat → derivable_pt_lim (f k) x (l k)) →
  derivable_pt_lim (λ v, sum_n (λ k, f k v) n) x (sum_n l n).
Proof.
  induction n as [|n IH]; intros Hf.
  - simpl. apply derivable_pt_lim_const.
  - simpl.
    apply (derivable_pt_lim_ext _ ((λ v, sum_n (λ k, f k v) n) + f n)%F); [done|].
    apply derivable_pt_lim_plus; [apply IH; intros k Hk; apply Hf; lia|apply Hf; lia].
Qed.

(** The derivative of a weighted sum of [tanh] of pre-activations that
    are differentiable in the perturbed quantity. *)
Lemma derivable_pt_lim_tanh_sum (w : nat → nat → R) (A : nat → nat → R → R)
      (s : nat → nat → R) (N H : nat) x0 :
  (∀ i j, (i < N)%nat → (j < H)%nat → derivable_pt_lim (A i j) x0 (s i j)) →
  derivable_pt_lim
    (λ v, sum_n (λ i, sum_n (λ j, w i j * tanh (A i j v)) H) N) x0
    (sum_n (λ i, sum_n (λ j, w i j * (1 - tanh (A i j x0) ^ 2) * s i j) H) N).
Proof.
  intros HA.
  apply (derivable_pt_lim_sum_n
           (λ i v, sum_n (λ j, w i j * tanh (A i j v)) H)
           (λ i, sum_n (λ j, w i j * (1 - tanh (A i j x0) ^ 2) * s i j) H)).
  intros i Hi.
  apply (derivable_pt_lim_sum_n
           (λ j v, w i j * tanh (A i j v))
           (λ j, w i j * (1 - tanh (A i j x0) ^ 2) * s i j)).
  intros j Hj.
  pose proof (derivable_pt_lim_comp (A i j) tanh x0 (s i j) _
                (HA i j Hi Hj) (derivable_pt_lim_tanh (A i j x0))) as Hc.
  pose proof (derivable_pt_lim_scal _ (w i j) x0 _ Hc) as Hs.
  replace (w i j * (1 - tanh (A i j x0) ^ 2) * s i j)
    with (w i j * ((1 - tanh (A i j x0) ^ 2) * s i j)) by ring.
  apply (derivable_pt_lim_ext _ (mult_real_fct (w i j) (comp tanh (A i j))));
    [done|exact Hs].
Qed.

End derivatives.

Section rnn_gradient.
Import Np.
Import VanillaRNN.
Local Open Scope R_scope.

Lemma derivable_pt_lim_pick (P : Prop) `{Decision P} (c x0 : R) :
  derivable_pt_lim (λ v, if decide P then v else c) x0
                   (if decide P then 1 else 0).
Proof.
  destruct (decide P).
  - apply derivable_pt_lim_id.
  - apply derivable_pt_lim_const.
Qed.

Lemma derivable_pt_lim_dot (a u : nat → R → R) (a' u' : nat → R) x0 n :
  (∀ k, (k < n)%nat → derivable_pt_lim (a k) x0 (a' k)) →
  (∀ k, (k < n)%nat → derivable_pt_lim (u k) x0 (u' k)) →
  derivable_pt_lim (λ v, sum_n (λ k, a k v * u k v) n) x0
                   (sum_n (λ k, a' k * u k x0 + a k x0 * u' k) n).
Proof.
  intros Ha Hu.
  apply (derivable_pt_lim_sum_n (λ k v, a k v * u k v)
           (λ k, a' k * u k x0 + a k x0 * u' k)).
  intros k Hk.
  apply (derivable_pt_lim_ext _ (a k * u k)%F); [done|].
  apply derivable_pt_lim_mult; [by apply Ha|by apply Hu].
Qed.

(** The pre-activation of the unit [(i, j)]. *)
Lemma derivable_pt_lim_preact (a u p q : nat → R → R) (bf : R → R)
      (a' u' p' q' : nat → R) (bf' : R) x0 D H :
  (∀ k, (k < D)%nat → derivable_pt_lim (a k) x0 (a' k)) →
  (∀ k, (k < D)%nat → derivable_pt_lim (u k) x0 (u' k)) →
  (∀ k, (k < H)%nat → derivable_pt_lim (p k) x0 (p' k)) →
  (∀ k, (k < H)%nat → derivable_pt_lim (q k) x0 (q' k)) →
  derivable_pt_lim bf x0 bf' →
  derivable_pt_lim
    (λ v, sum_n (λ k, a k v * u k v) D + sum_n (λ k, p k v * q k v) H + bf v) x0
    (sum_n (λ k, a' k * u k x0 + a k x0 * u' k) D
     + sum_n (λ k, p' k * q k x0 + p k x0 * q' k) H + bf').
Proof.
  intros Ha Hu Hp Hq Hb.
  pose proof (derivable_pt_lim_dot a u a' u' x0 D Ha Hu) as H1.
  pose proof (derivable_pt_lim_dot p q p' q' x0 H Hp Hq) as H2.
  pose proof (derivable_pt_lim_plus _ _ _ _ _ H1 H2) as H3.
  pose proof (derivable_pt_lim_plus _ _ _ _ _ H3 Hb) as H4.
  eapply derivable_pt_lim_ext; [|exact H4]. done.
Qed.

Lemma rnn_objective_deriv (selfv : R → VanillaRNN.t)
      (xv pv Wxv Whv bv : R → ndarray R) (dnh : ndarray R) (N D H : nat) (x0 : R)
      (sX sP sWx sWh : nat → nat → R) (sb : nat → R) :
  (∀ v, params (selfv v) !! wx_name (selfv v) = Some (Wxv v)) →
  (∀ v, params (selfv v) !! wh_name (selfv v) = Some (Whv v)) →
  (∀ v, params (selfv v) !! b_name (selfv v) = Some (bv v)) →
  (∀ v, has_shape (Wxv v) [D; H]) → (∀ v, has_shape (Whv v) [H; H]) →
  (∀ v, input_dim (selfv v) = D) →
  (∀ v, has_shape (xv v) [N; D]) → (∀ v, has_shape (pv v) [N; H]) →
  (∀ i k, (i < N)%nat → (k < D)%nat →
     derivable_pt_lim (λ v, get2 (xv v) i k) x0 (sX i k)) →
  (∀ i k, (i < N)%nat → (k < H)%nat →
     derivable_pt_lim (λ v, get2 (pv v) i k) x0 (sP i k)) →
  (∀ k j, (k < D)%nat → (j < H)%nat →
     derivable_pt_lim (λ v, get2 (Wxv v) k j) x0 (sWx k j)) →
  (∀ k j, (k < H)%nat → (j < H)%nat →
     derivable_pt_lim (λ v, get2 (Whv v) k j) x0 (sWh k j)) →
  (∀ j, (j < H)%nat → derivable_pt_lim (λ v, get1 (bv v) j) x0 (sb j)) →
  derivable_pt_lim
    (λ v, rnn_step_objective (selfv v) dnh N H (xv v) (pv v)) x0
    (sum_n (λ i, sum_n (λ j,
       get2 dnh i j
       * (1 - tanh (sum_n (λ k, get2 (xv x0) i k * get2 (Wxv x0) k j) D
                    + sum_n (λ k, get2 (pv x0) i k * get2 (Whv x0) k j) H
                    + get1 (bv x0) j) ^ 2)
       * (sum_n (λ k, sX i k * get2 (Wxv x0) k j + get2 (xv x0) i k * sWx k j) D
          + sum_n (λ k, sP i k * get2 (Whv x0) k j + get2 (pv x0) i k * sWh k j) H
          + sb j)) H) N).
Proof.
  intros HWx HWh Hb HsWx HsWh Hin Hx Hp HdX HdP HdWx HdWh Hdb.
  eapply derivable_pt_lim_ext;
    [|apply (derivable_pt_lim_tanh_sum (λ i j, get2 dnh i j)
               (λ i j v, sum_n (λ k, get2 (xv v) i k * get2 (Wxv v) k j) D
                         + sum_n (λ k, get2 (pv v) i k * get2 (Whv v) k j) H
                         + get1 (bv v) j)
               (λ i j, sum_n (λ k, sX i k * get2 (Wxv x0) k j + get2 (xv x0) i k * sWx k j) D
                       + sum_n (λ k, sP i k * get2 (Whv x0) k j + get2 (pv x0) i k * sWh k j) H
                       + sb j) N H x0)].
  - intros v. cbv beta. unfold rnn_step_objective.
    destruct (step_forward_values (selfv v) (Wxv v) (Whv v) (bv v) N D H
                (HWx v) (HWh v) (Hb v) (HsWx v) (HsWh v) (Hin v) (xv v) (pv v)
                (Hx v) (Hp v)) as (nh & Hstep & _ & Hg).
    rewrite Hstep. apply sum_n_ext. intros i Hi. apply sum_n_ext. intros j Hj.
    by rewrite Hg.
  - intros i j Hi Hj.
    apply (derivable_pt_lim_preact
             (λ k v, get2 (xv v) i k) (λ k v, get2 (Wxv v) k j)
             (λ k v, get2 (pv v) i k) (λ k v, get2 (Whv v) k j)
             (λ v, get1 (bv v) j)
             (λ k, sX i k) (λ k, sWx k j) (λ k, sP i k) (λ k, sWh k j) (sb j)).
    + intros k Hk. by apply HdX.
    + intros k Hk. by apply HdWx.
    + intros k Hk. by apply HdP.
    + intros k Hk. by apply HdWh.
    + by apply Hdb.
Qed.

End rnn_gradient.

Section perturbations.
Import Np.
Local Open Scope R_scope.

Lemma has_shape_perturb2 (a : ndarray R) r c n d v :
  has_shape a [r; c] → has_shape (perturb2 a n d v) [r; c].
Proof.
  intros Ha. unfold perturb2.
  rewrite (dim_has_shape a _ 0 Ha), (dim_has_shape a _ 1 Ha). apply has_shape_build2.
Qed.

Lemma get2_perturb2 (a : ndarray R) r c n d v i k :
  has_shape a [r; c] → (i < r)%nat → (k < c)%nat →
  get2 (perturb2 a n d v) i k = if decide (i = n ∧ k = d) then v else get2 a i k.
Proof.
  intros Ha Hi Hk. unfold perturb2.
  rewrite (dim_has_shape a _ 0 Ha), (dim_has_shape a _ 1 Ha). simpl nth.
  by rewrite get2_build2.
Qed.

Lemma get2_perturb2_same (a : ndarray R) r c n d i k :
  has_shape a [r; c] → (i < r)%nat → (k < c)%nat →
  get2 (perturb2 a n d (get2 a n d)) i k = get2 a i k.
Proof.
  intros Ha Hi Hk. rewrite (get2_perturb2 a r c) by done.
  destruct (decide (i = n ∧ k = d)) as [[-> ->]|]; done.
Qed.

Lemma derivable_pt_lim_perturb2 (a : ndarray R) r c n d i k x0 :
  has_shape a [r; c] → (i < r)%nat → (k < c)%nat →
  derivable_pt_lim (λ v, get2 (perturb2 a n d v) i k) x0
                   (if decide (i = n ∧ k = d) then 1 else 0).
Proof.
  intros Ha Hi Hk.
  apply (derivable_pt_lim_ext _ (λ v, if decide (i = n ∧ k = d) then v else get2 a i k)).
  - intros v. by apply (get2_perturb2 a r c).
  - apply derivable_pt_lim_pick.
Qed.

Lemma has_shape_perturb1 (a : ndarray R) m j v :
  has_shape a [m] → has_shape (perturb1 a j v) [m].
Proof.
  intros Ha. unfold perturb1. rewrite (dim_has_shape a _ 0 Ha). apply has_shape_build1.
Qed.

Lemma get1_perturb1 (a : ndarray R) m j v k :
  has_shape a [m] → (k < m)%nat →
  get1 (perturb1 a j v) k = if decide (k = j) then v else get1 a k.
Proof.
  intros Ha Hk. unfold perturb1. rewrite (dim_has_shape a _ 0 Ha). simpl nth.
  by rewrite get1_build1.
Qed.

Lemma get1_perturb1_same (a : ndarray R) m j k :
  has_shape a [m] → (k < m)%nat →
  get1 (perturb1 a j (get1 a j)) k = get1 a k.
Proof.
  intros Ha Hk. rewrite (get1_perturb1 a m) by done.
  destruct (decide (k = j)) as [->|]; done.
Qed.

Lemma derivable_pt_lim_perturb1 (a : ndarray R) m j k x0 :
  has_shape a [m] → (k < m)%nat →
  derivable_pt_lim (λ v, get1 (perturb1 a j v) k) x0
                   (if decide (k = j) then 1 else 0).
Proof.
  intros Ha Hk.
  apply (derivable_pt_lim_ext _ (λ v, if decide (k = j) then v else get1 a k)).
  - intros v. by apply (get1_perturb1 a m).
  - apply derivable_pt_lim_pick.
Qed.

Lemma derivable_pt_lim_fixed (c x0 : R) : derivable_pt_lim (λ _, c) x0 0.
Proof. apply (derivable_pt_lim_const c x0). Qed.

Lemma sum_n_pick (f : nat → R) n N :
  (n < N)%nat → sum_n (λ i, if decide (i = n) then f i else 0) N = f n.
Proof.
  intros Hn. rewrite <- (sum_n_indicator n N (f n) Hn).
  apply sum_n_ext. intros i Hi.
  destruct (decide (i = n)) as [->|]; [by rewrite decide_True|].
  by rewrite decide_False by lia.
Qed.

End perturbations.

Section rnn_step_gradient.
Import Np.
Import VanillaRNN.
Local Open Scope R_scope.

Variables (self : VanillaRNN.t) (x p dnh Wx Wh b : ndarray R) (N D H : nat).
Hypothesis HWx : params self !! wx_name self = Some Wx.
Hypothesis HWh : params self !! wh_name self = Some Wh.
Hypothesis Hb : params self !! b_name self = Some b.
Hypothesis Hnd : NoDup [wx_name self; wh_name self; b_name self].
Hypothesis HsWx : has_shape Wx [D; H].
Hypothesis HsWh : has_shape Wh [H; H].
Hypothesis Hsb : has_shape b [H].
Hypothesis Hin : input_dim self = D.
Hypothesis Hx : has_shape x [N; D].
Hypothesis Hp : has_shape p [N; H].

Lemma derivable_pt_lim_value (f : R → R) x0 l l' :
  derivable_pt_lim f x0 l → l = l' → derivable_pt_lim f x0 l'.
Proof. by intros ? <-. Qed.

Lemma rnn_grad_x n d :
  (n < N)%nat → (d < D)%nat →
  derivable_pt_lim
    (λ v, rnn_step_objective self dnh N H (perturb2 x n d v) p) (get2 x n d)
    (sum_n (λ j, rnn_dtanh dnh x p Wx Wh b D H n j * get2 Wx d j) H).
Proof.
  intros Hn Hd.
  pose proof (rnn_objective_deriv (λ _, self) (perturb2 x n d) (λ _, p)
                (λ _, Wx) (λ _, Wh) (λ _, b) dnh N D H (get2 x n d)
                (λ i k, if decide (i = n ∧ k = d) then 1 else 0)
                (λ _ _, 0) (λ _ _, 0) (λ _ _, 0) (λ _, 0)
                (λ _, HWx) (λ _, HWh) (λ _, Hb) (λ _, HsWx) (λ _, HsWh) (λ _, Hin)
                (λ v, has_shape_perturb2 x N D n d v Hx) (λ _, Hp)) as Hder.
  cbv beta in Hder.
  eapply derivable_pt_lim_value.
  - apply Hder.
    + intros i k Hi Hk. by apply (derivable_pt_lim_perturb2 x N D).
    + intros. apply derivable_pt_lim_fixed.
    + intros. apply derivable_pt_lim_fixed.
    + intros. apply derivable_pt_lim_fixed.
    + intros. apply derivable_pt_lim_fixed.
  - etrans; [|apply (sum_n_pick
                       (λ i, sum_n (λ j, rnn_dtanh dnh x p Wx Wh b D H i j * get2 Wx d j) H)
                       n N Hn)].
    apply sum_n_ext. intros i Hi.
    assert (∀ j, sum_n (λ k, get2 (perturb2 x n d (get2 x n d)) i k * get2 Wx k j) D
                 = sum_n (λ k, get2 x i k * get2 Wx k j) D) as Esame.
    { intros j. apply sum_n_ext. intros k Hk.
      by rewrite (get2_perturb2_same x N D). }
    destruct (decide (i = n)) as [->|Hne].
    + apply sum_n_ext. intros j Hj. unfold rnn_dtanh, rnn_preact.
      rewrite Esame. f_equal.
      rewrite (sum_n_all_zero (λ k, 0 * get2 Wh k j + get2 p n k * 0))
        by (intros; ring).
      rewrite <- (sum_n_pick (λ k, get2 Wx k j) d D Hd).
      rewrite !Rplus_0_r. apply sum_n_ext. intros k Hk.
      destruct (decide (k = d)) as [->|Hk'].
      * rewrite decide_True by done. ring.
      * rewrite decide_False by (intros [_ ?]; done). ring.
    + apply sum_n_all_zero. intros j Hj.
      rewrite (sum_n_all_zero (λ k, 0 * get2 Wh k j + get2 p i k * 0))
        by (intros; ring).
      rewrite (sum_n_all_zero
                 (λ k, (if decide (i = n ∧ k = d) then 1 else 0) * get2 Wx k j
                       + get2 (perturb2 x n d (get2 x n d)) i k * 0)).
      * ring.
      * intros k Hk. rewrite decide_False by (intros [? _]; done). ring.
Qed.

Lemma rnn_grad_prev_h n k0 :
  (n < N)%nat → (k0 < H)%nat →
  derivable_pt_lim
    (λ v, rnn_step_objective self dnh N H x (perturb2 p n k0 v)) (get2 p n k0)
    (sum_n (λ j, rnn_dtanh dnh x p Wx Wh b D H n j * get2 Wh k0 j) H).
Proof.
  intros Hn Hk0.
  pose proof (rnn_objective_deriv (λ _, self) (λ _, x) (perturb2 p n k0)
                (λ _, Wx) (λ _, Wh) (λ _, b) dnh N D H (get2 p n k0)
                (λ _ _, 0) (λ i k, if decide (i = n ∧ k = k0) then 1 else 0)
                (λ _ _, 0) (λ _ _, 0) (λ _, 0)
                (λ _, HWx) (λ _, HWh) (λ _, Hb) (λ _, HsWx) (λ _, HsWh) (λ _, Hin)
                (λ _, Hx) (λ v, has_shape_perturb2 p N H n k0 v Hp)) as Hder.
  cbv beta in Hder.
  eapply derivable_pt_lim_value.
  - apply Hder.
    + intros. apply derivable_pt_lim_fixed.
    + intros i k Hi Hk. by apply (derivable_pt_lim_perturb2 p N H).
    + intros. apply derivable_pt_lim_fixed.
    + intros. apply derivable_pt_lim_fixed.
    + intros. apply derivable_pt_lim_fixed.
  - etrans; [|apply (sum_n_pick
                       (λ i, sum_n (λ j, rnn_dtanh dnh x p Wx Wh b D H i j * get2 Wh k0 j) H)
                       n N Hn)].
    apply sum_n_ext. intros i Hi.
    assert (∀ j, sum_n (λ k, get2 (perturb2 p n k0 (get2 p n k0)) i k * get2 Wh k j) H
                 = sum_n (λ k, get2 p i k * get2 Wh k j) H) as Esame.
    { intros j. apply sum_n_ext. intros k Hk.
      by rewrite (get2_perturb2_same p N H). }
    destruct (decide (i = n)) as [->|Hne].
    + apply sum_n_ext. intros j Hj. unfold rnn_dtanh, rnn_preact.
      rewrite Esame. f_equal.
      rewrite (sum_n_all_zero (λ k, 0 * get2 Wx k j + get2 x n k * 0))
        by (intros; ring).
      rewrite <- (sum_n_pick (λ k, get2 Wh k j) k0 H Hk0).
      rewrite Rplus_0_r, Rplus_0_l. apply sum_n_ext. intros k Hk.
      destruct (decide (k = k0)) as [->|Hk'].
      * rewrite decide_True by done. ring.
      * rewrite decide_False by (intros [_ ?]; done). ring.
    + apply sum_n_all_zero. intros j Hj.
      rewrite (sum_n_all_zero (λ k, 0 * get2 Wx k j + get2 x i k * 0))
        by (intros; ring).
      rewrite (sum_n_all_zero
                 (λ k, (if decide (i = n ∧ k = k0) then 1 else 0) * get2 Wh k j
                       + get2 (perturb2 p n k0 (get2 p n k0)) i k * 0)).
      * ring.
      * intros k Hk. rewrite decide_False by (intros [? _]; done). ring.
Qed.

Lemma rnn_names_distinct :
  wx_name self ≠ wh_name self ∧ wx_name self ≠ b_name self
  ∧ wh_name self ≠ b_name self.
Proof.
  pose proof Hnd as Hnd'.
  apply NoDup_cons in Hnd' as [H1 Hnd'].
  apply NoDup_cons in Hnd' as [H2 _].
  rewrite !elem_of_cons, elem_of_nil in H1.
  rewrite !elem_of_cons, elem_of_nil in H2.
  repeat split; intros E; [apply H1|apply H1|apply H2]; rewrite E; tauto.
Qed.

Lemma rnn_grad_Wx d0 j0 :
  (d0 < D)%nat → (j0 < H)%nat →
  derivable_pt_lim
    (λ v, rnn_step_objective
            (rnn_with_param self (wx_name self) (perturb2 Wx d0 j0 v)) dnh N H x p)
    (get2 Wx d0 j0)
    (sum_n (λ i, get2 x i d0 * rnn_dtanh dnh x p Wx Wh b D H i j0) N).
Proof.
  intros Hd0 Hj0. destruct rnn_names_distinct as (Hn1 & Hn2 & Hn3).
  pose proof (rnn_objective_deriv
                (λ v, rnn_with_param self (wx_name self) (perturb2 Wx d0 j0 v))
                (λ _, x) (λ _, p)
                (perturb2 Wx d0 j0) (λ _, Wh) (λ _, b) dnh N D H (get2 Wx d0 j0)
                (λ _ _, 0) (λ _ _, 0)
                (λ k j, if decide (k = d0 ∧ j = j0) then 1 else 0)
                (λ _ _, 0) (λ _, 0)) as Hder.
  cbv beta in Hder.
  eapply derivable_pt_lim_value.
  - apply Hder.
    + intros v. cbn [rnn_with_param params wx_name]. apply lookup_insert_eq.
    + intros v. cbn [rnn_with_param params wh_name].
      by rewrite lookup_insert_ne.
    + intros v. cbn [rnn_with_param params b_name].
      by rewrite lookup_insert_ne.
    + intros v. by apply has_shape_perturb2.
    + done.
    + done.
    + done.
    + done.
    + intros. apply derivable_pt_lim_fixed.
    + intros. apply derivable_pt_lim_fixed.
    + intros k j Hk Hj. by apply (derivable_pt_lim_perturb2 Wx D H).
    + intros. apply derivable_pt_lim_fixed.
    + intros. apply derivable_pt_lim_fixed.
  - apply sum_n_ext. intros i Hi.
    etrans; [|apply (sum_n_pick
                       (λ j, get2 x i d0 * rnn_dtanh dnh x p Wx Wh b D H i j)
                       j0 H Hj0)].
    apply sum_n_ext. intros j Hj.
    assert (sum_n (λ k, get2 x i k * get2 (perturb2 Wx d0 j0 (get2 Wx d0 j0)) k j) D
            = sum_n (λ k, get2 x i k * get2 Wx k j) D) as Esame.
    { apply sum_n_ext. intros k Hk. by rewrite (get2_perturb2_same Wx D H). }
    rewrite Esame.
    rewrite (sum_n_all_zero (λ k, 0 * get2 Wh k j + get2 p i k * 0))
      by (intros; ring).
    destruct (decide (j = j0)) as [->|Hne].
    + unfold rnn_dtanh, rnn_preact.
      assert (sum_n (λ k, 0 * get2 (perturb2 Wx d0 j0 (get2 Wx d0 j0)) k j0
                          + get2 x i k * (if decide (k = d0 ∧ j0 = j0) then 1 else 0)) D
              = get2 x i d0) as ->; [|ring].
      rewrite <- (sum_n_pick (λ k, get2 x i k) d0 D Hd0).
      apply sum_n_ext. intros k Hk.
      destruct (decide (k = d0)) as [->|Hk'].
      * rewrite decide_True by done. ring.
      * rewrite decide_False by (intros [? _]; done). ring.
    + rewrite (sum_n_all_zero
                 (λ k, 0 * get2 (perturb2 Wx d0 j0 (get2 Wx d0 j0)) k j
                       + get2 x i k * (if decide (k = d0 ∧ j = j0) then 1 else 0))).
      * ring.
      * intros k Hk. rewrite decide_False by (intros [_ ?]; done). ring.
Qed.

Lemma rnn_grad_Wh k0 j0 :
  (k0 < H)%nat → (j0 < H)%nat →
  derivable_pt_lim
    (λ v, rnn_step_objective
            (rnn_with_param self (wh_name self) (perturb2 Wh k0 j0 v)) dnh N H x p)
    (get2 Wh k0 j0)
    (sum_n (λ i, get2 p i k0 * rnn_dtanh dnh x p Wx Wh b D H i j0) N).
Proof.
  intros Hk0 Hj0. destruct rnn_names_distinct as (Hn1 & Hn2 & Hn3).
  pose proof (rnn_objective_deriv
                (λ v, rnn_with_param self (wh_name self) (perturb2 Wh k0 j0 v))
                (λ _, x) (λ _, p)
                (λ _, Wx) (perturb2 Wh k0 j0) (λ _, b) dnh N D H (get2 Wh k0 j0)
                (λ _ _, 0) (λ _ _, 0) (λ _ _, 0)
                (λ k j, if decide (k = k0 ∧ j = j0) then 1 else 0)
                (λ _, 0)) as Hder.
  cbv beta in Hder.
  eapply derivable_pt_lim_value.
  - apply Hder.
    + intros v. cbn [rnn_with_param params wx_name].
      by rewrite lookup_insert_ne.
    + intros v. cbn [rnn_with_param params wh_name]. apply lookup_insert_eq.
    + intros v. cbn [rnn_with_param params b_name].
      by rewrite lookup_insert_ne.
    + done.
    + intros v. by apply has_shape_perturb2.
    + done.
    + done.
    + done.
    + intros. apply derivable_pt_lim_fixed.
    + intros. apply derivable_pt_lim_fixed.
    + intros. apply derivable_pt_lim_fixed.
    + intros k j Hk Hj. by apply (derivable_pt_lim_perturb2 Wh H H).
    + intros. apply derivable_pt_lim_fixed.
  - apply sum_n_ext. intros i Hi.
    etrans; [|apply (sum_n_pick
                       (λ j, get2 p i k0 * rnn_dtanh dnh x p Wx Wh b D H i j)
                       j0 H Hj0)].
    apply sum_n_ext. intros j Hj.
    assert (sum_n (λ k, get2 p i k * get2 (perturb2 Wh k0 j0 (get2 Wh k0 j0)) k j) H
            = sum_n (λ k, get2 p i k * get2 Wh k j) H) as Esame.
    { apply sum_n_ext. intros k Hk. by rewrite (get2_perturb2_same Wh H H). }
    rewrite Esame.
    rewrite (sum_n_all_zero (λ k, 0 * get2 Wx k j + get2 x i k * 0))
      by (intros; ring).
    destruct (decide (j = j0)) as [->|Hne].
    + unfold rnn_dtanh, rnn_preact.
      assert (sum_n (λ k, 0 * get2 (perturb2 Wh k0 j0 (get2 Wh k0 j0)) k j0
                          + get2 p i k * (if decide (k = k0 ∧ j0 = j0) then 1 else 0)) H
              = get2 p i k0) as ->; [|ring].
      rewrite <- (sum_n_pick (λ k, get2 p i k) k0 H Hk0).
      apply sum_n_ext. intros k Hk.
      destruct (decide (k = k0)) as [->|Hk'].
      * rewrite decide_True by done. ring.
      * rewrite decide_False by (intros [? _]; done). ring.
    + rewrite (sum_n_all_zero
                 (λ k, 0 * get2 (perturb2 Wh k0 j0 (get2 Wh k0 j0)) k j
                       + get2 p i k * (if decide (k = k0 ∧ j = j0) then 1 else 0))).
      * ring.
      * intros k Hk. rewrite decide_False by (intros [_ ?]; done). ring.
Qed.

Lemma rnn_grad_b j0 :
  (j0 < H)%nat →
  derivable_pt_lim
    (λ v, rnn_step_objective
            (rnn_with_param self (b_name self) (perturb1 b j0 v)) dnh N H x p)
    (get1 b j0)
    (sum_n (λ i, rnn_dtanh dnh x p Wx Wh b D H i j0) N).
Proof.
  intros Hj0. destruct rnn_names_distinct as (Hn1 & Hn2 & Hn3).
  pose proof (rnn_objective_deriv
                (λ v, rnn_with_param self (b_name self) (perturb1 b j0 v))
                (λ _, x) (λ _, p)
                (λ _, Wx) (λ _, Wh) (perturb1 b j0) dnh N D H (get1 b j0)
                (λ _ _, 0) (λ _ _, 0) (λ _ _, 0) (λ _ _, 0)
                (λ j, if decide (j = j0) then 1 else 0)) as Hder.
  cbv beta in Hder.
  eapply derivable_pt_lim_value.
  - apply Hder.
    + intros v. cbn [rnn_with_param params wx_name].
      by rewrite lookup_insert_ne.
    + intros v. cbn [rnn_with_param params wh_name].
      by rewrite lookup_insert_ne.
    + intros v. cbn [rnn_with_param params b_name]. apply lookup_insert_eq.
    + done.
    + done.
    + done.
    + done.
    + done.
    + intros. apply derivable_pt_lim_fixed.
    + intros. apply derivable_pt_lim_fixed.
    + intros. apply derivable_pt_lim_fixed.
    + intros. apply derivable_pt_lim_fixed.
    + intros j Hj. by apply (derivable_pt_lim_perturb1 b H).
  - apply sum_n_ext. intros i Hi.
    etrans; [|apply (sum_n_pick (λ j, rnn_dtanh dnh x p Wx Wh b D H i j) j0 H Hj0)].
    apply sum_n_ext. intros j Hj.
    rewrite (get1_perturb1_same b H) by done.
    rewrite (sum_n_all_zero (λ k, 0 * get2 Wx k j + get2 x i k * 0))
      by (intros; ring).
    rewrite (sum_n_all_zero (λ k, 0 * get2 Wh k j + get2 p i k * 0))
      by (intros; ring).
    unfold rnn_dtanh, rnn_preact.
    destruct (decide (j = j0)); ring.
Qed.

End rnn_step_gradient.

Section rnn_gradient_claim.
Import Np.
Import VanillaRNN.
Local Open Scope R_scope.

(** X23.  [VanillaRNN.step_backward] computes gradients: for the scalar
    [sum (dnext_h * next_h)] of the output of [step_forward], the entries
    of [dx], [dprev_h], [dWx], [dWh] and [db] are its partial derivatives
    in the corresponding entries of [x], [prev_h], [Wx], [Wh] and [b]. *)
Theorem rnn_step_backward_gradient (self : VanillaRNN.t)
        (x prev_h dnext_h Wx Wh b : ndarray R) (N D H : nat) :
  params self !! wx_name self = Some Wx →
  params self !! wh_name self = Some Wh →
  params self !! b_name self = Some b →
  NoDup [wx_name self; wh_name self; b_name self] →
  has_shape Wx [D; H] → has_shape Wh [H; H] → has_shape b [H] →
  input_dim self = D →
  has_shape x [N; D] → has_shape prev_h [N; H] → has_shape dnext_h [N; H] →
  ∃ next_h r,
    step_forward self x prev_h = Ok (next_h, [x; prev_h; next_h])
    ∧ step_backward self dnext_h [x; prev_h; next_h] = Ok r
    ∧ (∀ n d, (n < N)%nat → (d < D)%nat →
         derivable_pt_lim
           (λ v, rnn_step_objective self dnext_h N H (perturb2 x n d v) prev_h)
           (get2 x n d) (get2 (g_dx r) n d))
    ∧ (∀ n k, (n < N)%nat → (k < H)%nat →
         derivable_pt_lim
           (λ v, rnn_step_objective self dnext_h N H x (perturb2 prev_h n k v))
           (get2 prev_h n k) (get2 (g_dprev_h r) n k))
    ∧ (∀ d j, (d < D)%nat → (j < H)%nat →
         derivable_pt_lim
           (λ v, rnn_step_objective
                   (rnn_with_param self (wx_name self) (perturb2 Wx d j v))
                   dnext_h N H x prev_h)
           (get2 Wx d j) (get2 (g_dWx r) d j))
    ∧ (∀ k j, (k < H)%nat → (j < H)%nat →
         derivable_pt_lim
           (λ v, rnn_step_objective
                   (rnn_with_param self (wh_name self) (perturb2 Wh k j v))
                   dnext_h N H x prev_h)
           (get2 Wh k j) (get2 (g_dWh r) k j))
    ∧ (∀ j, (j < H)%nat →
         derivable_pt_lim
           (λ v, rnn_step_objective
                   (rnn_with_param self (b_name self) (perturb1 b j v))
                   dnext_h N H x prev_h)
           (get1 b j) (get1 (g_db r) j)).
Proof.
  intros HWx HWh Hb Hnd HsWx HsWh Hsb Hin Hx Hp Hdnh.
  destruct (step_forward_values self Wx Wh b N D H HWx HWh Hb HsWx HsWh Hin
              x prev_h Hx Hp) as (nh & Hstep & Hnh & Hg).
  exists nh. unfold step_backward, getitem. rewrite HWx, HWh. cbn [bind].
  eexists. split; [exact Hstep|]. split; [reflexivity|].
  cbn [g_dx g_dprev_h g_dWx g_dWh g_db].
  set (dtanh := mul dnext_h (amap (λ v, 1 - v ^ 2) nh)).
  assert (has_shape dtanh [N; H]) as Hdt.
  { apply has_shape_ew2; [done|]. by apply has_shape_amap. }
  assert (∀ i j, (i < N)%nat → (j < H)%nat →
            get2 dtanh i j = rnn_dtanh dnext_h x prev_h Wx Wh b D H i j) as Edt.
  { intros i j Hi Hj. unfold dtanh, mul.
    rewrite (get2_ew2 _ _ _ N H) by (done || by apply has_shape_amap).
    rewrite (get2_amap _ _ N H) by done. rewrite Hg by done. done. }
  pose proof (has_shape_transpose _ _ _ HsWx) as HWxT.
  pose proof (has_shape_transpose _ _ _ HsWh) as HWhT.
  pose proof (has_shape_transpose _ _ _ Hx) as HxT.
  pose proof (has_shape_transpose _ _ _ Hp) as HpT.
  split; [|split; [|split; [|split]]].
  - intros n d Hn Hd. eapply derivable_pt_lim_value.
    + by apply (rnn_grad_x self x prev_h dnext_h Wx Wh b N D H).
    + rewrite (get2_dot _ _ N H D) by done. apply sum_n_ext. intros j Hj.
      rewrite (get2_transpose _ D H) by done. by rewrite Edt.
  - intros n k Hn Hk. eapply derivable_pt_lim_value.
    + by apply (rnn_grad_prev_h self x prev_h dnext_h Wx Wh b N D H).
    + rewrite (get2_dot _ _ N H H) by done. apply sum_n_ext. intros j Hj.
      rewrite (get2_transpose _ H H) by done. by rewrite Edt.
  - intros d j Hd Hj. eapply derivable_pt_lim_value.
    + by apply (rnn_grad_Wx self x prev_h dnext_h Wx Wh b N D H).
    + rewrite (get2_dot _ _ D N H) by done. apply sum_n_ext. intros i Hi.
      rewrite (get2_transpose _ N D) by done. by rewrite Edt.
  - intros k j Hk Hj. eapply derivable_pt_lim_value.
    + by apply (rnn_grad_Wh self x prev_h dnext_h Wx Wh b N D H).
    + rewrite (get2_dot _ _ H N H) by done. apply sum_n_ext. intros i Hi.
      rewrite (get2_transpose _ N H) by done. by rewrite Edt.
  - intros j Hj. eapply derivable_pt_lim_value.
    + by apply (rnn_grad_b self x prev_h dnext_h Wx Wh b N D H).
    + rewrite (sum_axis0_build _ N H) by done. rewrite get1_build1 by done.
      apply sum_n_ext. intros i Hi. by rewrite Edt.
Qed.

Lemma rnn_step_backward_gradient_witness :
  ∃ next_h r,
    step_forward rnn_example rnn_h0 rnn_h0 = Ok (next_h, [rnn_h0; rnn_h0; next_h])
    ∧ step_backward rnn_example rnn_h0 [rnn_h0; rnn_h0; next_h] = Ok r
    ∧ derivable_pt_lim
        (λ v, rnn_step_objective rnn_example rnn_h0 1 1 (perturb2 rnn_h0 0 0 v) rnn_h0)
        (get2 rnn_h0 0 0) (get2 (g_dx r) 0 0).
Proof.
  destruct (rnn_step_backward_gradient rnn_example rnn_h0 rnn_h0 rnn_h0
              (amap (Rmult 1) (mk [1; 1]%nat [1]))
              (amap (Rmult 1) (mk [1; 1]%nat [1]))
              (zeros [1%nat]) 1 1 1)
    as (nh & r & Hf & Hb & Hdx & _).
  - reflexivity.
  - reflexivity.
  - reflexivity.
  - vm_compute. repeat (apply NoDup_cons_2 || apply NoDup_nil_2);
      rewrite ?elem_of_cons, ?elem_of_nil; intuition discriminate.
  - split; reflexivity.
  - split; reflexivity.
  - split; reflexivity.
  - reflexivity.
  - split; reflexivity.
  - split; reflexivity.
  - split; reflexivity.
  - exists nh, r. split; [exact Hf|]. split; [exact Hb|].
    apply Hdx; lia.
Defined.

End rnn_gradient_claim.

(* ===================================================================== *)
(** * temporal_softmax_loss: backward is the gradient *)
(* ===================================================================== *)

Section loss_gradient.
Import Np.
Import temporal_softmax_loss.
Local Open Scope R_scope.

Lemma softmax_prob_unshifted V ff r j :
  (0 < V)%nat →
  softmax_prob V ff r j = exp (get2 ff r j) / sum_n (λ k, exp (get2 ff r k)) V.
Proof.
  intros HV. unfold softmax_prob. set (m := max_n _ V).
  assert (∀ a, exp (a - m) = exp a / exp m) as E.
  { intros a. unfold Rminus, Rdiv. by rewrite exp_plus, exp_Ropp. }
  rewrite E. rewrite (sum_n_ext _ (λ k, exp (get2 ff r k) / exp m)) by (intros; apply E).
  rewrite sum_n_div.
  assert (0 < sum_n (λ k, exp (get2 ff r k)) V) as Hpos.
  { apply sum_n_pos; [intros; apply exp_pos|done]. }
  pose proof (exp_pos m). field. split; lra.
Qed.

Lemma ln_softmax_prob V ff r y :
  (0 < V)%nat →
  ln (softmax_prob V ff r y)
  = get2 ff r y - ln (sum_n (λ k, exp (get2 ff r k)) V).
Proof.
  intros HV. rewrite softmax_prob_unshifted by done.
  assert (0 < sum_n (λ k, exp (get2 ff r k)) V) as Hpos.
  { apply sum_n_pos; [intros; apply exp_pos|done]. }
  unfold Rdiv. rewrite ln_mult; [|apply exp_pos|by apply Rinv_0_lt_compat].
  rewrite ln_exp, ln_Rinv by done. lra.
Qed.

(** The derivative of the logarithm of a softmax probability in one of
    the scores. *)
Lemma derivable_pt_lim_log_softmax (f : nat → R) (V y j : nat) :
  (j < V)%nat →
  derivable_pt_lim
    (λ v, (if decide (y = j) then v else f y)
          - ln (sum_n (λ k, exp (if decide (k = j) then v else f k)) V))
    (f j)
    ((if decide (y = j) then 1 else 0) - exp (f j) / sum_n (λ k, exp (f k)) V).
Proof.
  intros Hj.
  set (S0 := λ v, sum_n (λ k, exp (if decide (k = j) then v else f k)) V).
  assert (derivable_pt_lim S0 (f j) (exp (f j))) as HS.
  { eapply derivable_pt_lim_value.
    - apply (derivable_pt_lim_sum_n
               (λ k v, exp (if decide (k = j) then v else f k))
               (λ k, exp (if decide (k = j) then f j else f k)
                     * (if decide (k = j) then 1 else 0))).
      intros k Hk.
      apply (derivable_pt_lim_comp (λ v, if decide (k = j) then v else f k) exp).
      + apply derivable_pt_lim_pick.
      + apply derivable_pt_lim_exp.
    - rewrite <- (sum_n_pick (λ k, exp (f k)) j V Hj).
      apply sum_n_ext. intros k Hk. destruct (decide (k = j)) as [->|]; ring. }
  assert (S0 (f j) = sum_n (λ k, exp (f k)) V) as ES.
  { unfold S0. apply sum_n_ext. intros k Hk. by destruct (decide (k = j)) as [->|]. }
  assert (0 < S0 (f j)) as Hpos.
  { rewrite ES. apply sum_n_pos; [intros; apply exp_pos|lia]. }
  pose proof (derivable_pt_lim_comp S0 ln (f j) _ _ HS
                (derivable_pt_lim_ln _ Hpos)) as Hln.
  pose proof (derivable_pt_lim_minus _ _ _ _ _
                (derivable_pt_lim_pick (y = j) (f y) (f j)) Hln) as Hd.
  eapply derivable_pt_lim_value.
  - eapply derivable_pt_lim_ext; [|exact Hd]. done.
  - rewrite ES. unfold Rdiv. ring.
Qed.

Lemma has_shape_perturb3 (a : ndarray R) N T V n t j v :
  has_shape a [N; T; V] → has_shape (perturb3 a n t j v) [N; T; V].
Proof.
  intros Ha. unfold perturb3.
  rewrite (dim_has_shape a _ 0 Ha), (dim_has_shape a _ 1 Ha), (dim_has_shape a _ 2 Ha).
  apply has_shape_build3.
Qed.

Lemma get3_perturb3 (a : ndarray R) N T V n t j v i s k :
  has_shape a [N; T; V] → (i < N)%nat → (s < T)%nat → (k < V)%nat →
  get3 (perturb3 a n t j v) i s k
  = if decide (i = n ∧ s = t ∧ k = j) then v else get3 a i s k.
Proof.
  intros Ha Hi Hs Hk. unfold perturb3.
  rewrite (dim_has_shape a _ 0 Ha), (dim_has_shape a _ 1 Ha), (dim_has_shape a _ 2 Ha).
  simpl nth. by rewrite get3_build3.
Qed.

(** The loss as a sum over the positions. *)
Lemma loss_value_closed (self : temporal_softmax_loss.t) (feat : ndarray R)
      (label : ndarray Z) (mask : ndarray R) (N T V : nat) :
  has_shape feat [N; T; V] → has_shape label [N; T] → has_shape mask [N; T] →
  valid_indices V label → binary_mask mask → (0 < V)%nat →
  loss_value self feat label mask
  = (if dim_average self then / INR N else 1)
    * - sum_n (λ n, sum_n (λ t,
          nth (n * T + t) (data mask) 0
          * (get3 feat n t (true_class label (n * T + t))
             - ln (sum_n (λ k, exp (get3 feat n t k)) V))) T) N.
Proof.
  intros Hf Hl Hm Hv Hb HV.
  destruct (forward_probs self feat label mask N T V Hf Hl Hm Hv Hb)
    as (probs & Hfw & _).
  unfold loss_value. rewrite Hfw.
  assert (masked_nll N T V feat label mask
          = - sum_n (λ n, sum_n (λ t,
                nth (n * T + t) (data mask) 0
                * (get3 feat n t (true_class label (n * T + t))
                   - ln (sum_n (λ k, exp (get3 feat n t k)) V))) T) N) as ->.
  { unfold masked_nll, masked_positions. f_equal.
    rewrite <- (masked_sum (λ r, nth r (data mask) 0)
                  (λ r, ln (softmax_prob V (mk [N * T; V]%nat (data feat)) r
                                         (true_class label r)))).
    - rewrite sum_n_mul. apply sum_n_ext. intros n Hn. apply sum_n_ext. intros t Ht.
      rewrite ln_softmax_prob by done.
      rewrite (get2_flat3 feat N T V) by done.
      do 3 f_equal. apply sum_n_ext. intros k Hk.
      by rewrite (get2_flat3 feat N T V).
    - intros r Hr. unfold binary_mask in Hb. rewrite Forall_nth in Hb.
      apply Hb. destruct Hm as [_ ->]. simpl. lia. }
  destruct (dim_average self); unfold Rdiv; ring.
Qed.

(** The gradient that [backward] stores at [(n, t, j)], from the
    unshifted softmax. *)
Lemma grad_entry_unshifted (avg : bool) (N V cls j : nat) (m : R) (f : nat → R) :
  (0 < V)%nat →
  (if avg then / INR N else 1)
  * - (m * ((if decide (cls = j) then 1 else 0)
            - exp (f j) / sum_n (λ k, exp (f k)) V))
  = grad_entry avg N cls m j (exp (f j) / sum_n (λ k, exp (f k)) V).
Proof.
  intros HV. unfold grad_entry.
  destruct (decide (cls = j)) as [->|Hne].
  - rewrite decide_True by done. destruct avg; unfold Rdiv; ring.
  - rewrite decide_False by (intros ->; done). destruct avg; unfold Rdiv; ring.
Qed.

End loss_gradient.

Section loss_gradient_claim.
Import Np.
Import temporal_softmax_loss.
Local Open Scope R_scope.

(** X24.  [temporal_softmax_loss.backward] after [forward] returns the
    gradient of the loss: [g[n,t,j]] is the partial derivative of the
    value that [forward] returns in the score [feat[n,t,j]]. *)
Theorem loss_backward_is_gradient (self : temporal_softmax_loss.t)
        (feat : ndarray R) (label : ndarray Z) (mask : ndarray R) (N T V : nat) :
  has_shape feat [N; T; V] → has_shape label [N; T] → has_shape mask [N; T] →
  valid_indices V label → binary_mask mask → (0 < N * T)%nat →
  ∃ loss st1 g st2,
    forward self feat label mask = Ok (loss, st1)
    ∧ backward st1 = Ok (g, st2)
    ∧ loss = loss_value self feat label mask
    ∧ ∀ n t j, (n < N)%nat → (t < T)%nat → (j < V)%nat →
        derivable_pt_lim
          (λ v, loss_value self (perturb3 feat n t j v) label mask)
          (get3 feat n t j) (get3 g n t j).
Proof.
  intros Hf Hl Hm Hv Hb Hpos.
  destruct (forward_probs self feat label mask N T V Hf Hl Hm Hv Hb)
    as (probs & Hfw & Hsp & Hgp).
  destruct (backward_step (mkT (dim_average self) (Some probs) (Some label) (Some mask))
              probs label mask N T V eq_refl eq_refl eq_refl Hsp Hl Hm Hv ltac:(lia))
    as (d1 & Hb1 & Hs1 & Hg1).
  cbn [dim_average] in *.
  eexists _, _, _, _. split; [exact Hfw|]. split; [exact Hb1|].
  split; [unfold loss_value; by rewrite Hfw|].
  intros n t j Hn Ht Hj.
  assert (0 < V)%nat as HV by lia.
  assert (n * T + t < N * T)%nat as Hr by nia.
  set (c := if dim_average self then / INR N else 1).
  set (m := λ r, nth r (data mask) 0).
  set (y := λ r, true_class label r).
  set (F := λ i s k v, if decide (i = n ∧ s = t ∧ k = j) then v else get3 feat i s k).
  (* the loss of the perturbed scores, in closed form *)
  assert (∀ v, loss_value self (perturb3 feat n t j v) label mask
               = c * - sum_n (λ i, sum_n (λ s,
                   m (i * T + s)%nat
                   * (F i s (y (i * T + s)%nat) v
                      - ln (sum_n (λ k, exp (F i s k v)) V))) T) N) as Hclosed.
  { intros v.
    rewrite (loss_value_closed self _ label mask N T V
               (has_shape_perturb3 feat N T V n t j v Hf) Hl Hm Hv Hb HV).
    fold c. do 2 f_equal. apply sum_n_ext. intros i Hi. apply sum_n_ext. intros s Hs.
    assert (y (i * T + s)%nat < V)%nat as Hy.
    { apply valid_indices_nth; [done|]. destruct Hl as [_ ->]. simpl. nia. }
    unfold m, F. rewrite (get3_perturb3 feat N T V) by done. fold y.
    do 3 f_equal. apply sum_n_ext. intros k Hk.
    by rewrite (get3_perturb3 feat N T V). }
  (* the derivative of one position *)
  assert (∀ i s, (i < N)%nat → (s < T)%nat →
            derivable_pt_lim
              (λ v, m (i * T + s)%nat
                    * (F i s (y (i * T + s)%nat) v
                       - ln (sum_n (λ k, exp (F i s k v)) V)))
              (get3 feat n t j)
              (if decide (i = n)
               then if decide (s = t)
                    then m (n * T + t)%nat
                         * ((if decide (y (n * T + t)%nat = j) then 1 else 0)
                            - exp (get3 feat n t j)
                              / sum_n (λ k, exp (get3 feat n t k)) V)
                    else 0
               else 0)) as Hpos1.
  { intros i s Hi Hs.
    destruct (decide (i = n)) as [->|Hni]; [destruct (decide (s = t)) as [->|Hst]|].
    - pose proof (derivable_pt_lim_scal _ (m (n * T + t)%nat) _ _
                    (derivable_pt_lim_log_softmax (λ k, get3 feat n t k) V
                       (y (n * T + t)%nat) j Hj)) as Hd.
      eapply derivable_pt_lim_ext; [|exact Hd].
      intros v. unfold mult_real_fct, F. f_equal. f_equal.
      + destruct (decide (y (n * T + t)%nat = j)) as [E|E].
        * by rewrite decide_True.
        * rewrite decide_False; [done|]. intros (_ & _ & ?). done.
      + f_equal. apply sum_n_ext. intros k Hk.
        destruct (decide (k = j)) as [E|E].
        * by rewrite decide_True.
        * rewrite decide_False; [done|]. intros (_ & _ & ?). done.
    - eapply derivable_pt_lim_ext; [|apply (derivable_pt_lim_fixed
          (m (n * T + s)%nat
           * (get3 feat n s (y (n * T + s)%nat)
              - ln (sum_n (λ k, exp (get3 feat n s k)) V))))].
      intros v. unfold F. rewrite decide_False by (intros (_ & ? & _); done).
      do 3 f_equal. apply sum_n_ext. intros k Hk.
      by rewrite decide_False by (intros (_ & ? & _); done).
    - eapply derivable_pt_lim_ext; [|apply (derivable_pt_lim_fixed
          (m (i * T + s)%nat
           * (get3 feat i s (y (i * T + s)%nat)
              - ln (sum_n (λ k, exp (get3 feat i s k)) V))))].
      intros v. unfold F. rewrite decide_False by (intros (? & _ & _); done).
      do 3 f_equal. apply sum_n_ext. intros k Hk.
      by rewrite decide_False by (intros (? & _ & _); done). }
  set (l0 := m (n * T + t)%nat
             * ((if decide (y (n * T + t)%nat = j) then 1 else 0)
                - exp (get3 feat n t j) / sum_n (λ k, exp (get3 feat n t k)) V))
    in *.
  pose proof (derivable_pt_lim_sum_n
                (λ i v, sum_n (λ s, m (i * T + s)%nat
                                    * (F i s (y (i * T + s)%nat) v
                                       - ln (sum_n (λ k, exp (F i s k v)) V))) T)
                (λ i, if decide (i = n) then l0 else 0)
                (get3 feat n t j) N) as Hsum.
  cbv beta in Hsum.
  assert (derivable_pt_lim
            (λ v, sum_n (λ i, sum_n (λ s,
                   m (i * T + s)%nat
                   * (F i s (y (i * T + s)%nat) v
                      - ln (sum_n (λ k, exp (F i s k v)) V))) T) N)
            (get3 feat n t j) l0) as Htot.
  { eapply derivable_pt_lim_value.
    - apply Hsum. intros i Hi.
      eapply derivable_pt_lim_value.
      + apply (derivable_pt_lim_sum_n
                 (λ s v, m (i * T + s)%nat
                         * (F i s (y (i * T + s)%nat) v
                            - ln (sum_n (λ k, exp (F i s k v)) V)))
                 (λ s, if decide (i = n)
                       then if decide (s = t) then l0 else 0 else 0)).
        intros s Hs. by apply Hpos1.
      + destruct (decide (i = n)) as [->|].
        * apply (sum_n_pick (λ _, l0) t T Ht).
        * apply sum_n_all_zero. done.
    - apply (sum_n_pick (λ _, l0) n N Hn). }
  pose proof (derivable_pt_lim_scal _ c _ _ (derivable_pt_lim_opp _ _ _ Htot)) as Hd.
  eapply derivable_pt_lim_value.
  - eapply derivable_pt_lim_ext; [|exact Hd]. intros v. by rewrite Hclosed.
  - rewrite (get3_unflat2 _ (N * T) V) by done.
    rewrite Hg1, Hgp by done.
    rewrite softmax_prob_unshifted by done.
    rewrite (get2_flat3 feat N T V) by done.
    rewrite (sum_n_ext (λ k, exp (get2 (mk [N * T; V]%nat (data feat)) (n * T + t) k))
               (λ k, exp (get3 feat n t k)))
      by (intros k Hk; by rewrite (get2_flat3 feat N T V)).
    unfold l0, c, m, y.
    apply (grad_entry_unshifted (dim_average self) N V
             (true_class label (n * T + t)) j _ (λ k, get3 feat n t k) HV).
Qed.

Lemma loss_backward_is_gradient_witness :
  ∃ loss st1 g st2,
    forward (__init__ true) feat_uniform label_first mask_ones = Ok (loss, st1)
    ∧ backward st1 = Ok (g, st2)
    ∧ derivable_pt_lim
        (λ v, loss_value (__init__ true) (perturb3 feat_uniform 0 0 1 v)
                         label_first mask_ones)
        (get3 feat_uniform 0 0 1) (get3 g 0 0 1).
Proof.
  destruct (loss_backward_is_gradient (__init__ true)
              feat_uniform label_first mask_ones 1 1 2)
    as (loss & st1 & g & st2 & Hfw & Hbw & _ & Hg).
  - split; reflexivity.
  - split; reflexivity.
  - split; reflexivity.
  - constructor; [lia|constructor].
  - constructor; [by right|constructor].
  - simpl; lia.
  - exists loss, st1, g, st2. split; [exact Hfw|]. split; [exact Hbw|].
    apply Hg; lia.
Defined.

End loss_gradient_claim.

(* ===================================================================== *)
(** * LSTM: the gradients of one step *)
(* ===================================================================== *)

Section lstm_unit.
Import Np.
Local Open Scope R_scope.

(** One hidden unit of the LSTM as a function of a perturbed quantity:
    the four pre-activations [ai], [af], [ao], [ag] and the previous cell
    state [pc] are differentiable at [x0]; [wh] and [wc] weigh the hidden
    and the cell state. *)
Lemma derivable_pt_lim_lstm_unit (ai af ao ag pc : R → R) (wh wc : R)
      (x0 si sf so sg sc : R) :
  derivable_pt_lim ai x0 si → derivable_pt_lim af x0 sf →
  derivable_pt_lim ao x0 so → derivable_pt_lim ag x0 sg →
  derivable_pt_lim pc x0 sc →
  let I := sigmoid1 (ai x0) in
  let F := sigmoid1 (af x0) in
  let O := sigmoid1 (ao x0) in
  let G := tanh (ag x0) in
  let C := F * pc x0 + I * G in
  let DC := wh * O * (1 - tanh C ^ 2) + wc in
  derivable_pt_lim
    (λ v, wh * (sigmoid1 (ao v)
                * tanh (sigmoid1 (af v) * pc v + sigmoid1 (ai v) * tanh (ag v)))
          + wc * (sigmoid1 (af v) * pc v + sigmoid1 (ai v) * tanh (ag v)))
    x0
    (DC * G * (I * (1 - I)) * si
     + DC * pc x0 * (F * (1 - F)) * sf
     + tanh C * wh * (O * (1 - O)) * so
     + DC * I * (1 - G ^ 2) * sg
     + DC * F * sc).
Proof.
  intros Hi Hf Ho Hg Hpc I F O G C DC.
  pose proof (derivable_pt_lim_comp ai sigmoid1 x0 _ _ Hi
                (derivable_pt_lim_sigmoid1 (ai x0))) as HI.
  pose proof (derivable_pt_lim_comp af sigmoid1 x0 _ _ Hf
                (derivable_pt_lim_sigmoid1 (af x0))) as HF.
  pose proof (derivable_pt_lim_comp ao sigmoid1 x0 _ _ Ho
                (derivable_pt_lim_sigmoid1 (ao x0))) as HO.
  pose proof (derivable_pt_lim_comp ag tanh x0 _ _ Hg
                (derivable_pt_lim_tanh (ag x0))) as HG.
  pose proof (derivable_pt_lim_plus _ _ _ _ _
                (derivable_pt_lim_mult _ _ _ _ _ HF Hpc)
                (derivable_pt_lim_mult _ _ _ _ _ HI HG)) as HC.
  set (cc := ((comp sigmoid1 af * pc) + (comp sigmoid1 ai * comp tanh ag))%F) in HC.
  pose proof (derivable_pt_lim_comp cc tanh x0 _ _ HC
                (derivable_pt_lim_tanh (cc x0))) as HT.
  pose proof (derivable_pt_lim_plus _ _ _ _ _
                (derivable_pt_lim_scal _ wh _ _
                   (derivable_pt_lim_mult _ _ _ _ _ HO HT))
                (derivable_pt_lim_scal _ wc _ _ HC)) as Hd.
  eapply derivable_pt_lim_value.
  - eapply derivable_pt_lim_ext; [|exact Hd]. done.
  - unfold cc, comp, mult_fct, plus_fct. fold I F O G. fold C.
    unfold DC. ring.
Qed.

End lstm_unit.

Section lstm_values.
Import Np.
Import LSTM.
Local Open Scope R_scope.

Lemma lstm_step_forward_values (self : LSTM.t) (Wx Wh b x ph pc : ndarray R)
      (N D H : nat) :
  params self !! wx_name self = Some Wx →
  params self !! wh_name self = Some Wh →
  params self !! b_name self = Some b →
  has_shape Wx [D; (4 * H)%nat] → has_shape Wh [H; (4 * H)%nat] →
  h_dim self = H →
  has_shape x [N; D] → has_shape ph [N; H] → has_shape pc [N; H] →
  ∃ nh nc gi gf go gg,
    step_forward self x ph pc = Ok (nh, nc, [x; ph; nh; pc; gi; gf; nc; go; gg])
    ∧ has_shape nh [N; H] ∧ has_shape nc [N; H]
    ∧ has_shape gi [N; H] ∧ has_shape gf [N; H]
    ∧ has_shape go [N; H] ∧ has_shape gg [N; H]
    ∧ ∀ n j, (n < N)%nat → (j < H)%nat →
        get2 gi n j = sigmoid1 (affine x ph Wx Wh b D H n j)
        ∧ get2 gf n j = sigmoid1 (affine x ph Wx Wh b D H n (H + j))
        ∧ get2 go n j = sigmoid1 (affine x ph Wx Wh b D H n (2 * H + j))
        ∧ get2 gg n j = tanh (affine x ph Wx Wh b D H n (3 * H + j))
        ∧ get2 nc n j = get2 gf n j * get2 pc n j + get2 gi n j * get2 gg n j
        ∧ get2 nh n j = get2 go n j * tanh (get2 nc n j).
Proof.
  intros HWx HWh Hb HsWx HsWh HH Hx Hh Hc.
  unfold step_forward, getitem. rewrite HWx, HWh, Hb. cbn [bind]. rewrite HH.
  set (A := add_bias (add (dot x Wx) (dot ph Wh)) b).
  assert (has_shape A [N; 4 * H]%nat ∧
          ∀ n j, (n < N)%nat → (j < 4 * H)%nat →
                 get2 A n j = affine x ph Wx Wh b D H n j) as [HsA HgA].
  { pose proof (has_shape_dot _ _ _ _ _ Hx HsWx) as H1.
    pose proof (has_shape_dot _ _ _ _ _ Hh HsWh) as H2.
    pose proof (has_shape_ew2 Rplus _ _ _ H1 H2) as H3.
    unfold A. rewrite (add_bias_build _ _ _ _ H3). split; [apply has_shape_build2|].
    intros n j Hn Hj. rewrite get2_build2 by done. unfold add.
    rewrite (get2_ew2 _ _ _ _ _ _ _ H1 H2) by done.
    by rewrite (get2_dot _ _ _ _ _ _ _ Hx HsWx), (get2_dot _ _ _ _ _ _ _ Hh HsWh). }
  assert (∀ lo, (lo + H <= 4 * H)%nat →
            has_shape (slice_cols lo (lo + H) A) [N; H]
            ∧ ∀ n j, (n < N)%nat → (j < H)%nat →
                get2 (slice_cols lo (lo + H) A) n j
                = affine x ph Wx Wh b D H n (lo + j)) as Hslice.
  { intros lo Hlo. rewrite (slice_cols_build A N (4 * H)) by (done || lia).
    replace (lo + H - lo)%nat with H by lia. split; [apply has_shape_build2|].
    intros n j Hn Hj. rewrite get2_build2 by done. apply HgA; lia. }
  destruct (Hslice 0%nat ltac:(lia)) as [Hsi Hgi].
  destruct (Hslice H ltac:(lia)) as [Hsf Hgf].
  destruct (Hslice (2 * H)%nat ltac:(lia)) as [Hso Hgo].
  destruct (Hslice (3 * H)%nat ltac:(lia)) as [Hsg Hgg].
  simpl in Hsi, Hgi.
  replace (H + H)%nat with (2 * H)%nat in * by lia.
  replace (2 * H + H)%nat with (3 * H)%nat in * by lia.
  replace (3 * H + H)%nat with (4 * H)%nat in * by lia.
  set (i_t := sigmoid (slice_cols 0 H A)) in *.
  set (f_t := sigmoid (slice_cols H (2 * H) A)) in *.
  set (o_t := sigmoid (slice_cols (2 * H) (3 * H) A)) in *.
  set (g_t := amap tanh (slice_cols (3 * H) (4 * H) A)) in *.
  assert (has_shape i_t [N; H]) as Hi by (by apply has_shape_amap).
  assert (has_shape f_t [N; H]) as Hf by (by apply has_shape_amap).
  assert (has_shape o_t [N; H]) as Ho by (by apply has_shape_amap).
  assert (has_shape g_t [N; H]) as Hg by (by apply has_shape_amap).
  pose proof (has_shape_ew2 Rmult _ _ _ Hf Hc) as Hfc.
  pose proof (has_shape_ew2 Rmult _ _ _ Hi Hg) as Hig.
  pose proof (has_shape_ew2 Rplus _ _ _ Hfc Hig) as Hct.
  pose proof (has_shape_amap tanh _ _ Hct) as Htc.
  pose proof (has_shape_ew2 Rmult _ _ _ Ho Htc) as Hht.
  eexists _, _, _, _, _, _. split; [reflexivity|].
  repeat (split; [done|]).
  intros n j Hn Hj.
  split; [unfold i_t, sigmoid; rewrite (get2_amap _ _ _ _ _ _ Hsi) by done;
          by rewrite Hgi|].
  split; [unfold f_t, sigmoid; rewrite (get2_amap _ _ _ _ _ _ Hsf) by done;
          by rewrite Hgf|].
  split; [unfold o_t, sigmoid; rewrite (get2_amap _ _ _ _ _ _ Hso) by done;
          by rewrite Hgo|].
  split; [unfold g_t; rewrite (get2_amap _ _ _ _ _ _ Hsg) by done;
          by rewrite Hgg|].
  split.
  - unfold add, mul. rewrite (get2_ew2 _ _ _ _ _ _ _ Hfc Hig) by done.
    by rewrite (get2_ew2 _ _ _ _ _ _ _ Hf Hc), (get2_ew2 _ _ _ _ _ _ _ Hi Hg).
  - unfold mul at 1. rewrite (get2_ew2 _ _ _ _ _ _ _ Ho Htc) by done.
    by rewrite (get2_amap _ _ _ _ _ _ Hct).
Qed.

Lemma block_index H blk j : (j < H)%nat →
  ((blk * H + j) / H = blk)%nat ∧ ((blk * H + j) mod H = j)%nat.
Proof.
  intros Hj. split.
  - rewrite Nat.div_add_l by lia. rewrite Nat.div_small by done. lia.
  - rewrite Nat.add_comm, Nat.Div0.mod_add. by apply Nat.mod_small.
Qed.

Lemma lstm_dA_blocks dnh dnc pc A H i j :
  (j < H)%nat →
  lstm_dA dnh dnc pc A H i j = lstm_gate_grad dnh dnc pc A H 0 i j
  ∧ lstm_dA dnh dnc pc A H i (H + j) = lstm_gate_grad dnh dnc pc A H 1 i j
  ∧ lstm_dA dnh dnc pc A H i (2 * H + j) = lstm_gate_grad dnh dnc pc A H 2 i j
  ∧ lstm_dA dnh dnc pc A H i (3 * H + j) = lstm_gate_grad dnh dnc pc A H 3 i j.
Proof.
  intros Hj. unfold lstm_dA.
  pose proof (block_index H 0 j Hj) as [E0 M0].
  pose proof (block_index H 1 j Hj) as [E1 M1].
  pose proof (block_index H 2 j Hj) as [E2 M2].
  pose proof (block_index H 3 j Hj) as [E3 M3].
  replace (0 * H + j)%nat with j in * by lia.
  replace (1 * H + j)%nat with (H + j)%nat in * by lia.
  by rewrite E0, M0, E1, M1, E2, M2, E3, M3.
Qed.

Lemma lstm_objective_deriv (selfv : R → LSTM.t)
      (xv pv cv Wxv Whv bv : R → ndarray R) (dnh dnc : ndarray R)
      (N D H : nat) (x0 : R)
      (sX sP sC sWx sWh : nat → nat → R) (sb : nat → R) :
  (∀ v, params (selfv v) !! wx_name (selfv v) = Some (Wxv v)) →
  (∀ v, params (selfv v) !! wh_name (selfv v) = Some (Whv v)) →
  (∀ v, params (selfv v) !! b_name (selfv v) = Some (bv v)) →
  (∀ v, has_shape (Wxv v) [D; (4 * H)%nat]) →
  (∀ v, has_shape (Whv v) [H; (4 * H)%nat]) →
  (∀ v, h_dim (selfv v) = H) →
  (∀ v, has_shape (xv v) [N; D]) → (∀ v, has_shape (pv v) [N; H]) →
  (∀ v, has_shape (cv v) [N; H]) →
  (∀ i k, (i < N)%nat → (k < D)%nat →
     derivable_pt_lim (λ v, get2 (xv v) i k) x0 (sX i k)) →
  (∀ i k, (i < N)%nat → (k < H)%nat →
     derivable_pt_lim (λ v, get2 (pv v) i k) x0 (sP i k)) →
  (∀ i j, (i < N)%nat → (j < H)%nat →
     derivable_pt_lim (λ v, get2 (cv v) i j) x0 (sC i j)) →
  (∀ k c, (k < D)%nat → (c < 4 * H)%nat →
     derivable_pt_lim (λ v, get2 (Wxv v) k c) x0 (sWx k c)) →
  (∀ k c, (k < H)%nat → (c < 4 * H)%nat →
     derivable_pt_lim (λ v, get2 (Whv v) k c) x0 (sWh k c)) →
  (∀ c, (c < 4 * H)%nat → derivable_pt_lim (λ v, get1 (bv v) c) x0 (sb c)) →
  let A := affine (xv x0) (pv x0) (Wxv x0) (Whv x0) (bv x0) D H in
  let SA := λ i c,
    sum_n (λ k, sX i k * get2 (Wxv x0) k c + get2 (xv x0) i k * sWx k c) D
    + sum_n (λ k, sP i k * get2 (Whv x0) k c + get2 (pv x0) i k * sWh k c) H
    + sb c in
  derivable_pt_lim
    (λ v, lstm_step_objective (selfv v) dnh dnc N H (xv v) (pv v) (cv v)) x0
    (sum_n (λ i,
       sum_n (λ c, lstm_dA dnh dnc (cv x0) A H i c * SA i c) (4 * H)
       + sum_n (λ j, lstm_cell_grad dnh dnc (cv x0) A H i j
                     * sigmoid1 (A i (H + j)%nat) * sC i j) H) N).
Proof.
  intros HWx HWh Hb HsWx HsWh HH Hx Hp Hc HdX HdP HdC HdWx HdWh Hdb A SA.
  set (Av := λ i c v, affine (xv v) (pv v) (Wxv v) (Whv v) (bv v) D H i c).
  assert (∀ i c, (i < N)%nat → (c < 4 * H)%nat →
            derivable_pt_lim (Av i c) x0 (SA i c)) as HdA.
  { intros i c Hi Hcl. unfold Av, affine, SA.
    apply (derivable_pt_lim_preact
             (λ k v, get2 (xv v) i k) (λ k v, get2 (Wxv v) k c)
             (λ k v, get2 (pv v) i k) (λ k v, get2 (Whv v) k c)
             (λ v, get1 (bv v) c)
             (λ k, sX i k) (λ k, sWx k c) (λ k, sP i k) (λ k, sWh k c) (sb c)).
    - intros k Hk. by apply HdX.
    - intros k Hk. by apply HdWx.
    - intros k Hk. by apply HdP.
    - intros k Hk. by apply HdWh.
    - by apply Hdb. }
  eapply derivable_pt_lim_value.
  - eapply derivable_pt_lim_ext;
      [|apply (derivable_pt_lim_sum_n
                 (λ i v, sum_n (λ j,
                    get2 dnh i j
                    * (sigmoid1 (Av i (2 * H + j)%nat v)
                       * tanh (sigmoid1 (Av i (H + j)%nat v) * get2 (cv v) i j
                               + sigmoid1 (Av i j v) * tanh (Av i (3 * H + j)%nat v)))
                    + get2 dnc i j
                      * (sigmoid1 (Av i (H + j)%nat v) * get2 (cv v) i j
                         + sigmoid1 (Av i j v) * tanh (Av i (3 * H + j)%nat v))) H)
                 (λ i, sum_n (λ j,
                    lstm_gate_grad dnh dnc (cv x0) A H 0 i j * SA i j
                    + lstm_gate_grad dnh dnc (cv x0) A H 1 i j * SA i (H + j)%nat
                    + lstm_gate_grad dnh dnc (cv x0) A H 2 i j * SA i (2 * H + j)%nat
                    + lstm_gate_grad dnh dnc (cv x0) A H 3 i j * SA i (3 * H + j)%nat
                    + lstm_cell_grad dnh dnc (cv x0) A H i j
                      * sigmoid1 (A i (H + j)%nat) * sC i j) H))].
    + intros v. cbv beta. unfold lstm_step_objective.
      destruct (lstm_step_forward_values (selfv v) (Wxv v) (Whv v) (bv v)
                  (xv v) (pv v) (cv v) N D H (HWx v) (HWh v) (Hb v) (HsWx v)
                  (HsWh v) (HH v) (Hx v) (Hp v) (Hc v))
        as (nh & nc & gi & gf & go & gg & Hstep & _ & _ & _ & _ & _ & _ & Hg).
      rewrite Hstep. apply sum_n_ext. intros i Hi. apply sum_n_ext. intros j Hj.
      destruct (Hg i j Hi Hj) as (Ei & Ef & Eo & Eg & Ec & Eh).
      rewrite Eh, Ec, Ei, Ef, Eo, Eg. done.
    + intros i Hi.
      apply (derivable_pt_lim_sum_n
               (λ j v,
                  get2 dnh i j
                  * (sigmoid1 (Av i (2 * H + j)%nat v)
                     * tanh (sigmoid1 (Av i (H + j)%nat v) * get2 (cv v) i j
                             + sigmoid1 (Av i j v) * tanh (Av i (3 * H + j)%nat v)))
                  + get2 dnc i j
                    * (sigmoid1 (Av i (H + j)%nat v) * get2 (cv v) i j
                       + sigmoid1 (Av i j v) * tanh (Av i (3 * H + j)%nat v)))
               (λ j,
                  lstm_gate_grad dnh dnc (cv x0) A H 0 i j * SA i j
                  + lstm_gate_grad dnh dnc (cv x0) A H 1 i j * SA i (H + j)%nat
                  + lstm_gate_grad dnh dnc (cv x0) A H 2 i j * SA i (2 * H + j)%nat
                  + lstm_gate_grad dnh dnc (cv x0) A H 3 i j * SA i (3 * H + j)%nat
                  + lstm_cell_grad dnh dnc (cv x0) A H i j
                    * sigmoid1 (A i (H + j)%nat) * sC i j)).
      intros j Hj.
      pose proof (derivable_pt_lim_lstm_unit
                    (Av i j) (Av i (H + j)%nat) (Av i (2 * H + j)%nat)
                    (Av i (3 * H + j)%nat) (λ v, get2 (cv v) i j)
                    (get2 dnh i j) (get2 dnc i j) x0 _ _ _ _ _
                    (HdA i j Hi ltac:(lia)) (HdA i (H + j)%nat Hi ltac:(lia))
                    (HdA i (2 * H + j)%nat Hi ltac:(lia))
                    (HdA i (3 * H + j)%nat Hi ltac:(lia)) (HdC i j Hi Hj)) as Hu.
      cbv zeta in Hu.
      eapply derivable_pt_lim_value; [exact Hu|].
      unfold lstm_gate_grad, lstm_cell_grad, Av, A. ring.
  - apply sum_n_ext. intros i Hi.
    rewrite (sum_n_plus
               (λ j, lstm_gate_grad dnh dnc (cv x0) A H 0 i j * SA i j
                     + lstm_gate_grad dnh dnc (cv x0) A H 1 i j * SA i (H + j)%nat
                     + lstm_gate_grad dnh dnc (cv x0) A H 2 i j * SA i (2 * H + j)%nat
                     + lstm_gate_grad dnh dnc (cv x0) A H 3 i j * SA i (3 * H + j)%nat)).
    f_equal. rewrite sum_n_four. rewrite <- !sum_n_plus.
    apply sum_n_ext. intros j Hj.
    destruct (lstm_dA_blocks dnh dnc (cv x0) A H i j Hj) as (-> & -> & -> & ->).
    done.
Qed.

End lstm_values.

Section slopes.
Import Np.
Local Open Scope R_scope.

Lemma perturb2_same (a : ndarray R) r c n d :
  has_shape a [r; c] → perturb2 a n d (get2 a n d) = a.
Proof.
  intros Ha. apply (array_eq2 _ _ r c); [by apply has_shape_perturb2|done|].
  intros i k Hi Hk. by apply (get2_perturb2_same a r c).
Qed.

Lemma perturb1_same (a : ndarray R) m j :
  has_shape a [m] → perturb1 a j (get1 a j) = a.
Proof.
  intros Ha. apply (array_eq1 _ _ m); [by apply has_shape_perturb1|done|].
  intros k Hk. by apply (get1_perturb1_same a m).
Qed.

Lemma slope_zero (w u : nat → R) K : sum_n (λ k, 0 * w k + u k * 0) K = 0.
Proof. apply sum_n_all_zero. intros. ring. Qed.

Lemma slope_left (w u : nat → R) (i n d K : nat) :
  (d < K)%nat →
  sum_n (λ k, (if decide (i = n ∧ k = d) then 1 else 0) * w k + u k * 0) K
  = if decide (i = n) then w d else 0.
Proof.
  intros Hd. destruct (decide (i = n)) as [->|Hne].
  - rewrite <- (sum_n_pick w d K Hd). apply sum_n_ext. intros k Hk.
    destruct (decide (k = d)) as [->|Hk'].
    + rewrite decide_True by done. ring.
    + rewrite decide_False by (intros [_ ?]; done). ring.
  - apply sum_n_all_zero. intros k Hk.
    rewrite decide_False by (intros [? _]; done). ring.
Qed.

Lemma slope_right (w u : nat → R) (c c0 d K : nat) :
  (d < K)%nat →
  sum_n (λ k, 0 * w k + u k * (if decide (k = d ∧ c = c0) then 1 else 0)) K
  = if decide (c = c0) then u d else 0.
Proof.
  intros Hd. destruct (decide (c = c0)) as [->|Hne].
  - rewrite <- (sum_n_pick u d K Hd). apply sum_n_ext. intros k Hk.
    destruct (decide (k = d)) as [->|Hk'].
    + rewrite decide_True by done. ring.
    + rewrite decide_False by (intros [? _]; done). ring.
  - apply sum_n_all_zero. intros k Hk.
    rewrite decide_False by (intros [_ ?]; done). ring.
Qed.

End slopes.

Section lstm_step_gradient.
Import Np.
Import LSTM.
Local Open Scope R_scope.

Variables (self : LSTM.t) (x p pc dnh dnc Wx Wh b : ndarray R) (N D H : nat).
Hypothesis HWx : params self !! wx_name self = Some Wx.
Hypothesis HWh : params self !! wh_name self = Some Wh.
Hypothesis Hb : params self !! b_name self = Some b.
Hypothesis Hnd : NoDup [wx_name self; wh_name self; b_name self].
Hypothesis HsWx : has_shape Wx [D; (4 * H)%nat].
Hypothesis HsWh : has_shape Wh [H; (4 * H)%nat].
Hypothesis Hsb : has_shape b [(4 * H)%nat].
Hypothesis HH : h_dim self = H.
Hypothesis Hx : has_shape x [N; D].
Hypothesis Hp : has_shape p [N; H].
Hypothesis Hpc : has_shape pc [N; H].

Lemma lstm_names_distinct :
  wx_name self ≠ wh_name self ∧ wx_name self ≠ b_name self
  ∧ wh_name self ≠ b_name self.
Proof.
  pose proof Hnd as Hnd'.
  apply NoDup_cons in Hnd' as [H1 Hnd'].
  apply NoDup_cons in Hnd' as [H2 _].
  rewrite !elem_of_cons, elem_of_nil in H1.
  rewrite !elem_of_cons, elem_of_nil in H2.
  repeat split; intros E; [apply H1|apply H1|apply H2]; rewrite E; tauto.
Qed.

Lemma lstm_grad_x n d :
  (n < N)%nat → (d < D)%nat →
  derivable_pt_lim
    (λ v, lstm_step_objective self dnh dnc N H (perturb2 x n d v) p pc) (get2 x n d)
    (sum_n (λ c, lstm_dA dnh dnc pc (affine x p Wx Wh b D H) H n c * get2 Wx d c)
           (4 * H)).
Proof.
  intros Hn Hd.
  pose proof (lstm_objective_deriv (λ _, self) (perturb2 x n d) (λ _, p) (λ _, pc)
                (λ _, Wx) (λ _, Wh) (λ _, b) dnh dnc N D H (get2 x n d)
                (λ i k, if decide (i = n ∧ k = d) then 1 else 0)
                (λ _ _, 0) (λ _ _, 0) (λ _ _, 0) (λ _ _, 0) (λ _, 0)
                (λ _, HWx) (λ _, HWh) (λ _, Hb) (λ _, HsWx) (λ _, HsWh) (λ _, HH)
                (λ v, has_shape_perturb2 x N D n d v Hx) (λ _, Hp) (λ _, Hpc)) as Hder.
  cbv beta zeta in Hder. rewrite (perturb2_same x N D n d Hx) in Hder.
  eapply derivable_pt_lim_value.
  - apply Hder.
    + intros i k Hi Hk. by apply (derivable_pt_lim_perturb2 x N D).
    + intros. apply derivable_pt_lim_fixed.
    + intros. apply derivable_pt_lim_fixed.
    + intros. apply derivable_pt_lim_fixed.
    + intros. apply derivable_pt_lim_fixed.
    + intros. apply derivable_pt_lim_fixed.
  - etrans; [|apply (sum_n_pick
                       (λ i, sum_n (λ c, lstm_dA dnh dnc pc (affine x p Wx Wh b D H) H i c
                                         * get2 Wx d c) (4 * H)) n N Hn)].
    apply sum_n_ext. intros i Hi.
    rewrite (sum_n_all_zero (λ j, _ * _ * 0)) by (intros; ring).
    rewrite Rplus_0_r.
    destruct (decide (i = n)) as [->|Hne].
    + apply sum_n_ext. intros c Hc.
      rewrite slope_left, slope_zero by done. rewrite decide_True by done. ring.
    + apply sum_n_all_zero. intros c Hc.
      rewrite slope_left, slope_zero by done. rewrite decide_False by done. ring.
Qed.

Lemma lstm_grad_prev_h n k0 :
  (n < N)%nat → (k0 < H)%nat →
  derivable_pt_lim
    (λ v, lstm_step_objective self dnh dnc N H x (perturb2 p n k0 v) pc) (get2 p n k0)
    (sum_n (λ c, lstm_dA dnh dnc pc (affine x p Wx Wh b D H) H n c * get2 Wh k0 c)
           (4 * H)).
Proof.
  intros Hn Hk0.
  pose proof (lstm_objective_deriv (λ _, self) (λ _, x) (perturb2 p n k0) (λ _, pc)
                (λ _, Wx) (λ _, Wh) (λ _, b) dnh dnc N D H (get2 p n k0)
                (λ _ _, 0) (λ i k, if decide (i = n ∧ k = k0) then 1 else 0)
                (λ _ _, 0) (λ _ _, 0) (λ _ _, 0) (λ _, 0)
                (λ _, HWx) (λ _, HWh) (λ _, Hb) (λ _, HsWx) (λ _, HsWh) (λ _, HH)
                (λ _, Hx) (λ v, has_shape_perturb2 p N H n k0 v Hp) (λ _, Hpc)) as Hder.
  cbv beta zeta in Hder. rewrite (perturb2_same p N H n k0 Hp) in Hder.
  eapply derivable_pt_lim_value.
  - apply Hder.
    + intros. apply derivable_pt_lim_fixed.
    + intros i k Hi Hk. by apply (derivable_pt_lim_perturb2 p N H).
    + intros. apply derivable_pt_lim_fixed.
    + intros. apply derivable_pt_lim_fixed.
    + intros. apply derivable_pt_lim_fixed.
    + intros. apply derivable_pt_lim_fixed.
  - etrans; [|apply (sum_n_pick
                       (λ i, sum_n (λ c, lstm_dA dnh dnc pc (affine x p Wx Wh b D H) H i c
                                         * get2 Wh k0 c) (4 * H)) n N Hn)].
    apply sum_n_ext. intros i Hi.
    rewrite (sum_n_all_zero (λ j, _ * _ * 0)) by (intros; ring).
    rewrite Rplus_0_r.
    destruct (decide (i = n)) as [->|Hne].
    + apply sum_n_ext. intros c Hc.
      rewrite slope_left, slope_zero by done. rewrite decide_True by done. ring.
    + apply sum_n_all_zero. intros c Hc.
      rewrite slope_left, slope_zero by done. rewrite decide_False by done. ring.
Qed.

Lemma lstm_grad_prev_c n j0 :
  (n < N)%nat → (j0 < H)%nat →
  derivable_pt_lim
    (λ v, lstm_step_objective self dnh dnc N H x p (perturb2 pc n j0 v)) (get2 pc n j0)
    (lstm_cell_grad dnh dnc pc (affine x p Wx Wh b D H) H n j0
     * sigmoid1 (affine x p Wx Wh b D H n (H + j0)%nat)).
Proof.
  intros Hn Hj0.
  pose proof (lstm_objective_deriv (λ _, self) (λ _, x) (λ _, p) (perturb2 pc n j0)
                (λ _, Wx) (λ _, Wh) (λ _, b) dnh dnc N D H (get2 pc n j0)
                (λ _ _, 0) (λ _ _, 0)
                (λ i j, if decide (i = n ∧ j = j0) then 1 else 0)
                (λ _ _, 0) (λ _ _, 0) (λ _, 0)
                (λ _, HWx) (λ _, HWh) (λ _, Hb) (λ _, HsWx) (λ _, HsWh) (λ _, HH)
                (λ _, Hx) (λ _, Hp) (λ v, has_shape_perturb2 pc N H n j0 v Hpc)) as Hder.
  cbv beta zeta in Hder. rewrite (perturb2_same pc N H n j0 Hpc) in Hder.
  eapply derivable_pt_lim_value.
  - apply Hder.
    + intros. apply derivable_pt_lim_fixed.
    + intros. apply derivable_pt_lim_fixed.
    + intros i j Hi Hj. by apply (derivable_pt_lim_perturb2 pc N H).
    + intros. apply derivable_pt_lim_fixed.
    + intros. apply derivable_pt_lim_fixed.
    + intros. apply derivable_pt_lim_fixed.
  - etrans; [|apply (sum_n_pick
                       (λ i, lstm_cell_grad dnh dnc pc (affine x p Wx Wh b D H) H i j0
                             * sigmoid1 (affine x p Wx Wh b D H i (H + j0)%nat))
                       n N Hn)].
    apply sum_n_ext. intros i Hi.
    rewrite (sum_n_all_zero (λ c, lstm_dA dnh dnc pc _ H i c * _)).
    2:{ intros c Hc. rewrite !slope_zero. ring. }
    rewrite Rplus_0_l.
    destruct (decide (i = n)) as [->|Hne].
    + etrans; [|apply (sum_n_pick
                         (λ j, lstm_cell_grad dnh dnc pc (affine x p Wx Wh b D H) H n j
                               * sigmoid1 (affine x p Wx Wh b D H n (H + j)%nat))
                         j0 H Hj0)].
      apply sum_n_ext. intros j Hj.
      destruct (decide (j = j0)) as [->|Hj'].
      * rewrite decide_True by done. ring.
      * rewrite decide_False by (intros [_ ?]; done). ring.
    + apply sum_n_all_zero. intros j Hj.
      rewrite decide_False by (intros [? _]; done). ring.
Qed.

Lemma lstm_grad_Wx d0 c0 :
  (d0 < D)%nat → (c0 < 4 * H)%nat →
  derivable_pt_lim
    (λ v, lstm_step_objective
            (lstm_with_param self (wx_name self) (perturb2 Wx d0 c0 v))
            dnh dnc N H x p pc)
    (get2 Wx d0 c0)
    (sum_n (λ i, get2 x i d0
                 * lstm_dA dnh dnc pc (affine x p Wx Wh b D H) H i c0) N).
Proof.
  intros Hd0 Hc0. destruct lstm_names_distinct as (Hn1 & Hn2 & Hn3).
  pose proof (lstm_objective_deriv
                (λ v, lstm_with_param self (wx_name self) (perturb2 Wx d0 c0 v))
                (λ _, x) (λ _, p) (λ _, pc)
                (perturb2 Wx d0 c0) (λ _, Wh) (λ _, b) dnh dnc N D H (get2 Wx d0 c0)
                (λ _ _, 0) (λ _ _, 0) (λ _ _, 0)
                (λ k c, if decide (k = d0 ∧ c = c0) then 1 else 0)
                (λ _ _, 0) (λ _, 0)) as Hder.
  cbv beta zeta in Hder. rewrite (perturb2_same Wx D (4 * H) d0 c0 HsWx) in Hder.
  eapply derivable_pt_lim_value.
  - apply Hder.
    + intros v. cbn [lstm_with_param params wx_name]. apply lookup_insert_eq.
    + intros v. cbn [lstm_with_param params wh_name]. by rewrite lookup_insert_ne.
    + intros v. cbn [lstm_with_param params b_name]. by rewrite lookup_insert_ne.
    + intros v. by apply has_shape_perturb2.
    + done.
    + done.
    + done.
    + done.
    + done.
    + intros. apply derivable_pt_lim_fixed.
    + intros. apply derivable_pt_lim_fixed.
    + intros. apply derivable_pt_lim_fixed.
    + intros k c Hk Hc. by apply (derivable_pt_lim_perturb2 Wx D (4 * H)).
    + intros. apply derivable_pt_lim_fixed.
    + intros. apply derivable_pt_lim_fixed.
  - apply sum_n_ext. intros i Hi.
    rewrite (sum_n_all_zero (λ j, _ * _ * 0)) by (intros; ring).
    rewrite Rplus_0_r.
    etrans; [|apply (sum_n_pick
                       (λ c, get2 x i d0
                             * lstm_dA dnh dnc pc (affine x p Wx Wh b D H) H i c)
                       c0 (4 * H) Hc0)].
    apply sum_n_ext. intros c Hc.
    rewrite slope_right, slope_zero by done.
    destruct (decide (c = c0)); ring.
Qed.

Lemma lstm_grad_Wh k0 c0 :
  (k0 < H)%nat → (c0 < 4 * H)%nat →
  derivable_pt_lim
    (λ v, lstm_step_objective
            (lstm_with_param self (wh_name self) (perturb2 Wh k0 c0 v))
            dnh dnc N H x p pc)
    (get2 Wh k0 c0)
    (sum_n (λ i, get2 p i k0
                 * lstm_dA dnh dnc pc (affine x p Wx Wh b D H) H i c0) N).
Proof.
  intros Hk0 Hc0. destruct lstm_names_distinct as (Hn1 & Hn2 & Hn3).
  pose proof (lstm_objective_deriv
                (λ v, lstm_with_param self (wh_name self) (perturb2 Wh k0 c0 v))
                (λ _, x) (λ _, p) (λ _, pc)
                (λ _, Wx) (perturb2 Wh k0 c0) (λ _, b) dnh dnc N D H (get2 Wh k0 c0)
                (λ _ _, 0) (λ _ _, 0) (λ _ _, 0) (λ _ _, 0)
                (λ k c, if decide (k = k0 ∧ c = c0) then 1 else 0)
                (λ _, 0)) as Hder.
  cbv beta zeta in Hder. rewrite (perturb2_same Wh H (4 * H) k0 c0 HsWh) in Hder.
  eapply derivable_pt_lim_value.
  - apply Hder.
    + intros v. cbn [lstm_with_param params wx_name]. by rewrite lookup_insert_ne.
    + intros v. cbn [lstm_with_param params wh_name]. apply lookup_insert_eq.
    + intros v. cbn [lstm_with_param params b_name]. by rewrite lookup_insert_ne.
    + done.
    + intros v. by apply has_shape_perturb2.
    + done.
    + done.
    + done.
    + done.
    + intros. apply derivable_pt_lim_fixed.
    + intros. apply derivable_pt_lim_fixed.
    + intros. apply derivable_pt_lim_fixed.
    + intros. apply derivable_pt_lim_fixed.
    + intros k c Hk Hc. by apply (derivable_pt_lim_perturb2 Wh H (4 * H)).
    + intros. apply derivable_pt_lim_fixed.
  - apply sum_n_ext. intros i Hi.
    rewrite (sum_n_all_zero (λ j, _ * _ * 0)) by (intros; ring).
    rewrite Rplus_0_r.
    etrans; [|apply (sum_n_pick
                       (λ c, get2 p i k0
                             * lstm_dA dnh dnc pc (affine x p Wx Wh b D H) H i c)
                       c0 (4 * H) Hc0)].
    apply sum_n_ext. intros c Hc.
    rewrite slope_right, slope_zero by done.
    destruct (decide (c = c0)); ring.
Qed.

Lemma lstm_grad_b c0 :
  (c0 < 4 * H)%nat →
  derivable_pt_lim
    (λ v, lstm_step_objective
            (lstm_with_param self (b_name self) (perturb1 b c0 v))
            dnh dnc N H x p pc)
    (get1 b c0)
    (sum_n (λ i, lstm_dA dnh dnc pc (affine x p Wx Wh b D H) H i c0) N).
Proof.
  intros Hc0. destruct lstm_names_distinct as (Hn1 & Hn2 & Hn3).
  pose proof (lstm_objective_deriv
                (λ v, lstm_with_param self (b_name self) (perturb1 b c0 v))
                (λ _, x) (λ _, p) (λ _, pc)
                (λ _, Wx) (λ _, Wh) (perturb1 b c0) dnh dnc N D H (get1 b c0)
                (λ _ _, 0) (λ _ _, 0) (λ _ _, 0) (λ _ _, 0) (λ _ _, 0)
                (λ c, if decide (c = c0) then 1 else 0)) as Hder.
  cbv beta zeta in Hder. rewrite (perturb1_same b (4 * H) c0 Hsb) in Hder.
  eapply derivable_pt_lim_value.
  - apply Hder.
    + intros v. cbn [lstm_with_param params wx_name]. by rewrite lookup_insert_ne.
    + intros v. cbn [lstm_with_param params wh_name]. by rewrite lookup_insert_ne.
    + intros v. cbn [lstm_with_param params b_name]. apply lookup_insert_eq.
    + done.
    + done.
    + done.
    + done.
    + done.
    + done.
    + intros. apply derivable_pt_lim_fixed.
    + intros. apply derivable_pt_lim_fixed.
    + intros. apply derivable_pt_lim_fixed.
    + intros. apply derivable_pt_lim_fixed.
    + intros. apply derivable_pt_lim_fixed.
    + intros c Hc. by apply (derivable_pt_lim_perturb1 b (4 * H)).
  - apply sum_n_ext. intros i Hi.
    rewrite (sum_n_all_zero (λ j, _ * _ * 0)) by (intros; ring).
    rewrite Rplus_0_r.
    etrans; [|apply (sum_n_pick
                       (λ c, lstm_dA dnh dnc pc (affine x p Wx Wh b D H) H i c)
                       c0 (4 * H) Hc0)].
    apply sum_n_ext. intros c Hc.
    rewrite !slope_zero.
    destruct (decide (c = c0)); ring.
Qed.

End lstm_step_gradient.

Section lstm_gradient_claim.
Import Np.
Import LSTM.
Local Open Scope R_scope.

(** X25.  [LSTM.step_backward] computes gradients: for the scalar
    [sum (dnext_h * next_h + dnext_c * next_c)] of the states that
    [step_forward] returns, the entries of [dx], [dprev_h], [dprev_c],
    [dWx], [dWh] and [db] are its partial derivatives in the
    corresponding entries of [x], [prev_h], [prev_c], [Wx], [Wh] and
    [b]. *)
Theorem lstm_step_backward_gradient (self : LSTM.t)
        (x prev_h prev_c dnext_h dnext_c Wx Wh b : ndarray R) (N D H : nat) :
  params self !! wx_name self = Some Wx →
  params self !! wh_name self = Some Wh →
  params self !! b_name self = Some b →
  NoDup [wx_name self; wh_name self; b_name self] →
  has_shape Wx [D; (4 * H)%nat] → has_shape Wh [H; (4 * H)%nat] →
  has_shape b [(4 * H)%nat] → h_dim self = H →
  has_shape x [N; D] → has_shape prev_h [N; H] → has_shape prev_c [N; H] →
  has_shape dnext_h [N; H] → has_shape dnext_c [N; H] →
  (N * H ≠ 0)%nat →
  ∃ next_h next_c meta r,
    step_forward self x prev_h prev_c = Ok (next_h, next_c, meta)
    ∧ step_backward self dnext_h dnext_c meta = Ok r
    ∧ (∀ n d, (n < N)%nat → (d < D)%nat →
         derivable_pt_lim
           (λ v, lstm_step_objective self dnext_h dnext_c N H
                   (perturb2 x n d v) prev_h prev_c)
           (get2 x n d) (get2 (g_dx r) n d))
    ∧ (∀ n k, (n < N)%nat → (k < H)%nat →
         derivable_pt_lim
           (λ v, lstm_step_objective self dnext_h dnext_c N H
                   x (perturb2 prev_h n k v) prev_c)
           (get2 prev_h n k) (get2 (g_dprev_h r) n k))
    ∧ (∀ n j, (n < N)%nat → (j < H)%nat →
         derivable_pt_lim
           (λ v, lstm_step_objective self dnext_h dnext_c N H
                   x prev_h (perturb2 prev_c n j v))
           (get2 prev_c n j) (get2 (g_dprev_c r) n j))
    ∧ (∀ d c, (d < D)%nat → (c < 4 * H)%nat →
         derivable_pt_lim
           (λ v, lstm_step_objective
                   (lstm_with_param self (wx_name self) (perturb2 Wx d c v))
                   dnext_h dnext_c N H x prev_h prev_c)
           (get2 Wx d c) (get2 (g_dWx r) d c))
    ∧ (∀ k c, (k < H)%nat → (c < 4 * H)%nat →
         derivable_pt_lim
           (λ v, lstm_step_objective
                   (lstm_with_param self (wh_name self) (perturb2 Wh k c v))
                   dnext_h dnext_c N H x prev_h prev_c)
           (get2 Wh k c) (get2 (g_dWh r) k c))
    ∧ (∀ c, (c < 4 * H)%nat →
         derivable_pt_lim
           (λ v, lstm_step_objective
                   (lstm_with_param self (b_name self) (perturb1 b c v))
                   dnext_h dnext_c N H x prev_h prev_c)
           (get1 b c) (get1 (g_db r) c)).
Proof.
  intros HWx HWh Hb Hnd HsWx HsWh Hsb HH Hx Hp Hpc Hdnh Hdnc HNH.
  destruct (lstm_step_forward_values self Wx Wh b x prev_h prev_c N D H
              HWx HWh Hb HsWx HsWh HH Hx Hp Hpc)
    as (nh & nc & gi & gf & go & gg & Hstep & Hsnh & Hsnc & Hsi & Hsf & Hso
        & Hsg & Hval).
  destruct (lstm_step_backward_ok self Wx Wh N D H HWx HWh HsWx HsWh HH
              dnext_h dnext_c x prev_h nh prev_c gi gf nc go gg
              HNH Hdnh Hdnc Hx Hp Hpc Hsi Hsf Hsnc Hso Hsg)
    as (r & di & df & d_o & dg & Hr & Hdi & Hdf & Hdo & Hdg & Hent & Edx & Edh
        & EdWx & EdWh & Edb & _).
  eexists nh, nc, _, r. split; [exact Hstep|]. split; [exact Hr|].
  set (A := affine x prev_h Wx Wh b D H).
  pose proof (has_shape_hstack4 di df d_o dg N H Hdi Hdf Hdo Hdg) as HsdA.
  assert (∀ i c, (i < N)%nat → (c < 4 * H)%nat →
            get2 (hstack4 di df d_o dg) i c
            = lstm_dA dnext_h dnext_c prev_c A H i c) as EdA.
  { intros i c Hi Hc.
    assert (H ≠ 0)%nat as HH0 by lia.
    pose proof (Nat.div_mod_eq c H) as Hdm.
    pose proof (Nat.mod_upper_bound c H HH0) as Hj.
    assert (c / H < 4)%nat as Hblk by (apply Nat.Div0.div_lt_upper_bound; lia).
    set (j := (c mod H)%nat) in *. set (blk := (c / H)%nat) in *.
    destruct (get2_hstack4 di df d_o dg N H Hdi Hdf Hdo Hdg i j Hi Hj)
      as (E0 & E1 & E2 & E3).
    destruct (Hent i j Hi Hj) as (Gi & Gf & Go & Gg & _).
    destruct (Hval i j Hi Hj) as (Vi & Vf & Vo & Vg & Vc & _).
    unfold lstm_dA. fold j blk. unfold lstm_dcell in *.
    destruct blk as [|[|[|[|blk]]]]; [| | | |lia].
    - replace c with j by lia. rewrite E0, Gi, Vc, Vi, Vf, Vo, Vg. done.
    - replace c with (H + j)%nat by lia. rewrite E1, Gf, Vc, Vi, Vf, Vo, Vg. done.
    - replace c with (2 * H + j)%nat by lia.
      rewrite E2, Go, Vc, Vi, Vf, Vo, Vg. done.
    - replace c with (3 * H + j)%nat by lia.
      rewrite E3, Gg, Vc, Vi, Vf, Vo, Vg. done. }
  pose proof (has_shape_transpose _ _ _ HsWx) as HWxT.
  pose proof (has_shape_transpose _ _ _ HsWh) as HWhT.
  pose proof (has_shape_transpose _ _ _ Hx) as HxT.
  pose proof (has_shape_transpose _ _ _ Hp) as HpT.
  split; [|split; [|split; [|split; [|split]]]].
  - intros n d Hn Hd. eapply derivable_pt_lim_value.
    + by apply (lstm_grad_x self x prev_h prev_c dnext_h dnext_c Wx Wh b N D H).
    + rewrite Edx. rewrite (get2_dot _ _ N (4 * H) D) by done.
      apply sum_n_ext. intros c Hc.
      rewrite (get2_transpose _ D (4 * H)) by done. by rewrite EdA.
  - intros n k Hn Hk. eapply derivable_pt_lim_value.
    + by apply (lstm_grad_prev_h self x prev_h prev_c dnext_h dnext_c Wx Wh b N D H).
    + rewrite Edh. rewrite (get2_dot _ _ N (4 * H) H) by done.
      apply sum_n_ext. intros c Hc.
      rewrite (get2_transpose _ H (4 * H)) by done. by rewrite EdA.
  - intros n j Hn Hj. eapply derivable_pt_lim_value.
    + by apply (lstm_grad_prev_c self x prev_h prev_c dnext_h dnext_c Wx Wh b N D H).
    + destruct (Hent n j Hn Hj) as (_ & _ & _ & _ & Gc).
      destruct (Hval n j Hn Hj) as (Vi & Vf & Vo & Vg & Vc & _).
      rewrite Gc. unfold lstm_dcell, lstm_cell_grad.
      rewrite Vc, Vi, Vf, Vo, Vg. done.
  - intros d c Hd Hc. eapply derivable_pt_lim_value.
    + by apply (lstm_grad_Wx self x prev_h prev_c dnext_h dnext_c Wx Wh b N D H).
    + rewrite EdWx. rewrite (get2_dot _ _ D N (4 * H)) by done.
      apply sum_n_ext. intros i Hi.
      rewrite (get2_transpose _ N D) by done. by rewrite EdA.
  - intros k c Hk Hc. eapply derivable_pt_lim_value.
    + by apply (lstm_grad_Wh self x prev_h prev_c dnext_h dnext_c Wx Wh b N D H).
    + rewrite EdWh. rewrite (get2_dot _ _ H N (4 * H)) by done.
      apply sum_n_ext. intros i Hi.
      rewrite (get2_transpose _ N H) by done. by rewrite EdA.
  - intros c Hc. eapply derivable_pt_lim_value.
    + by apply (lstm_grad_b self x prev_h prev_c dnext_h dnext_c Wx Wh b N D H).
    + rewrite Edb. rewrite (sum_axis0_build _ N (4 * H)) by done.
      rewrite get1_build1 by done.
      apply sum_n_ext. intros i Hi. by rewrite EdA.
Qed.

Lemma lstm_step_backward_gradient_witness :
  ∃ next_h next_c meta r,
    step_forward lstm_example lstm_x lstm_h lstm_h = Ok (next_h, next_c, meta)
    ∧ step_backward lstm_example lstm_x lstm_h meta = Ok r
    ∧ derivable_pt_lim
        (λ v, lstm_step_objective lstm_example lstm_x lstm_h 1 1
                (perturb2 lstm_x 0 0 v) lstm_h lstm_h)
        (get2 lstm_x 0 0) (get2 (g_dx r) 0 0).
Proof.
  destruct (lstm_step_backward_gradient lstm_example lstm_x lstm_h lstm_h
              lstm_x lstm_h
              (amap (Rmult 1) (mk [1; 4]%nat [1; 2; 3; 4]))
              (amap (Rmult 1) (mk [1; 4]%nat [0; 0; 0; 0]))
              (zeros [4%nat]) 1 1 1)
    as (nh & nc & meta & r & Hf & Hb & Hdx & _).
  - reflexivity.
  - reflexivity.
  - reflexivity.
  - vm_compute. repeat (apply NoDup_cons_2 || apply NoDup_nil_2);
      rewrite ?elem_of_cons, ?elem_of_nil; intuition discriminate.
  - split; reflexivity.
  - split; reflexivity.
  - split; reflexivity.
  - reflexivity.
  - split; reflexivity.
  - split; reflexivity.
  - split; reflexivity.
  - split; reflexivity.
  - split; reflexivity.
  - simpl; lia.
  - exists nh, nc, meta, r. split; [exact Hf|]. split; [exact Hb|].
    apply Hdx; lia.
Defined.

End lstm_gradient_claim.

(* ===================================================================== *)
(** * temporal_fc: backward is the gradient *)
(* ===================================================================== *)

Section fc_gradient.
Import Np.
Import temporal_fc.
Local Open Scope R_scope.

Lemma derivable_pt_lim_perturb3 (a : ndarray R) N T V n t j i s k x0 :
  has_shape a [N; T; V] → (i < N)%nat → (s < T)%nat → (k < V)%nat →
  derivable_pt_lim (λ v, get3 (perturb3 a n t j v) i s k) x0
                   (if decide (i = n ∧ s = t ∧ k = j) then 1 else 0).
Proof.
  intros Ha Hi Hs Hk.
  apply (derivable_pt_lim_ext _ (λ v, if decide (i = n ∧ s = t ∧ k = j)
                                      then v else get3 a i s k)).
  - intros v. by apply (get3_perturb3 a N T V).
  - apply derivable_pt_lim_pick.
Qed.

Lemma slope_left3 (w u : nat → R) (n n0 t t0 d0 K : nat) :
  (d0 < K)%nat →
  sum_n (λ d, (if decide (n = n0 ∧ t = t0 ∧ d = d0) then 1 else 0) * w d
              + u d * 0) K
  = if decide (n = n0 ∧ t = t0) then w d0 else 0.
Proof.
  intros Hd. destruct (decide (n = n0 ∧ t = t0)) as [[-> ->]|HP].
  - rewrite <- (sum_n_pick w d0 K Hd). apply sum_n_ext. intros k Hk.
    destruct (decide (k = d0)) as [->|Hk'].
    + rewrite decide_True by done. ring.
    + rewrite decide_False by (intros (_ & _ & ?); done). ring.
  - apply sum_n_all_zero. intros k Hk.
    rewrite decide_False by (intros (? & ? & _); by apply HP). ring.
Qed.

Lemma fc_objective_deriv (selfv : R → temporal_fc.t) (xv Wv bv : R → ndarray R)
      (dout : ndarray R) (N T D M : nat) (x0 : R)
      (sX : nat → nat → nat → R) (sW : nat → nat → R) (sb : nat → R) :
  (∀ v, params (selfv v) !! w_name (selfv v) = Some (Wv v)) →
  (∀ v, params (selfv v) !! b_name (selfv v) = Some (bv v)) →
  (∀ v, has_shape (Wv v) [D; M]) → (∀ v, has_shape (bv v) [M]) →
  (∀ v, has_shape (xv v) [N; T; D]) →
  (∀ n t d, (n < N)%nat → (t < T)%nat → (d < D)%nat →
     derivable_pt_lim (λ v, get3 (xv v) n t d) x0 (sX n t d)) →
  (∀ d m, (d < D)%nat → (m < M)%nat →
     derivable_pt_lim (λ v, get2 (Wv v) d m) x0 (sW d m)) →
  (∀ m, (m < M)%nat → derivable_pt_lim (λ v, get1 (bv v) m) x0 (sb m)) →
  derivable_pt_lim
    (λ v, fc_objective (selfv v) dout N T M (xv v)) x0
    (sum_n (λ n, sum_n (λ t, sum_n (λ m,
       get3 dout n t m
       * (sum_n (λ d, sX n t d * get2 (Wv x0) d m + get3 (xv x0) n t d * sW d m) D
          + sb m)) M) T) N).
Proof.
  intros HW Hb HsW Hsb Hx HdX HdW Hdb.
  eapply derivable_pt_lim_ext.
  - intros v. unfold fc_objective.
    destruct (temporal_fc_forward_values (selfv v) (xv v) (Wv v) (bv v) N T D M
                (HW v) (Hb v) (HsW v) (Hsb v) (Hx v))
      as (out & Hfw & _ & Hg).
    rewrite Hfw. apply sum_n_ext. intros n Hn. apply sum_n_ext. intros t Ht.
    apply sum_n_ext. intros m Hm. rewrite (Hg n t m Hn Ht Hm). reflexivity.
  - apply (derivable_pt_lim_sum_n
             (λ n v, sum_n (λ t, sum_n (λ m,
                get3 dout n t m
                * (sum_n (λ d, get3 (xv v) n t d * get2 (Wv v) d m) D
                   + get1 (bv v) m)) M) T)
             (λ n, sum_n (λ t, sum_n (λ m,
                get3 dout n t m
                * (sum_n (λ d, sX n t d * get2 (Wv x0) d m
                               + get3 (xv x0) n t d * sW d m) D + sb m)) M) T)).
    intros n Hn.
    apply (derivable_pt_lim_sum_n
             (λ t v, sum_n (λ m,
                get3 dout n t m
                * (sum_n (λ d, get3 (xv v) n t d * get2 (Wv v) d m) D
                   + get1 (bv v) m)) M)
             (λ t, sum_n (λ m,
                get3 dout n t m
                * (sum_n (λ d, sX n t d * get2 (Wv x0) d m
                               + get3 (xv x0) n t d * sW d m) D + sb m)) M)).
    intros t Ht.
    apply (derivable_pt_lim_sum_n
             (λ m v, get3 dout n t m
                     * (sum_n (λ d, get3 (xv v) n t d * get2 (Wv v) d m) D
                        + get1 (bv v) m))
             (λ m, get3 dout n t m
                   * (sum_n (λ d, sX n t d * get2 (Wv x0) d m
                                  + get3 (xv x0) n t d * sW d m) D + sb m))).
    intros m Hm.
    pose proof (derivable_pt_lim_dot
                  (λ d v, get3 (xv v) n t d) (λ d v, get2 (Wv v) d m)
                  (λ d, sX n t d) (λ d, sW d m) x0 D
                  (λ d Hd, HdX n t d Hn Ht Hd) (λ d Hd, HdW d m Hd Hm)) as H1.
    pose proof (derivable_pt_lim_plus _ _ _ _ _ H1 (Hdb m Hm)) as H2.
    pose proof (derivable_pt_lim_scal _ (get3 dout n t m) _ _ H2) as H3.
    eapply derivable_pt_lim_ext; [|exact H3]. done.
Qed.

End fc_gradient.

Section fc_gradient_claim.
Import Np.
Import temporal_fc.
Local Open Scope R_scope.

(** X26.  [temporal_fc.backward] computes gradients: for the scalar
    [sum (dout * out)] of the output of [forward], the entries of [dx]
    and of the stored gradients of the weights and the bias are its
    partial derivatives in the corresponding entries of [x], [W] and
    [b]. *)
Theorem temporal_fc_backward_is_gradient (self : temporal_fc.t)
        (x dout W b : ndarray R) (N T D M : nat) :
  params self !! w_name self = Some W →
  params self !! b_name self = Some b →
  w_name self ≠ b_name self →
  has_shape W [D; M] → has_shape b [M] →
  has_shape x [N; T; D] → has_shape dout [N; T; M] →
  ∃ out self1 dx self2 gw gb,
    forward self x = Ok (out, self1)
    ∧ backward self1 dout = Ok (dx, self2)
    ∧ grads self2 !! w_name self = Some (Some gw)
    ∧ grads self2 !! b_name self = Some (Some gb)
    ∧ (∀ n t d, (n < N)%nat → (t < T)%nat → (d < D)%nat →
         derivable_pt_lim
           (λ v, fc_objective self dout N T M (perturb3 x n t d v))
           (get3 x n t d) (get3 dx n t d))
    ∧ (∀ d m, (d < D)%nat → (m < M)%nat →
         derivable_pt_lim
           (λ v, fc_objective (fc_with_param self (w_name self) (perturb2 W d m v))
                              dout N T M x)
           (get2 W d m) (get2 gw d m))
    ∧ (∀ m, (m < M)%nat →
         derivable_pt_lim
           (λ v, fc_objective (fc_with_param self (b_name self) (perturb1 b m v))
                              dout N T M x)
           (get1 b m) (get1 gb m)).
Proof.
  intros HW Hb Hne HsW Hsb Hx Hdout.
  destruct (temporal_fc_forward_values self x W b N T D M HW Hb HsW Hsb Hx)
    as (out & Hfw & _ & _).
  set (self1 := mkT _ _ _ _ _ _ _ (Some (x, out))) in *.
  destruct (temporal_fc_backward_values self1 x out dout W b N T D M
              eq_refl HW Hb Hx Hdout HsW Hsb)
    as (dx & gw & gb & Hbw & _ & Hdx & _ & Hgw & _ & Hgb).
  eexists out, self1, dx, _, gw, gb. split; [exact Hfw|]. split; [exact Hbw|].
  cbn [grads self1 w_name b_name].
  split; [by rewrite lookup_insert_ne, lookup_insert_eq|].
  split; [by rewrite lookup_insert_eq|].
  split; [|split].
  - intros n0 t0 d0 Hn0 Ht0 Hd0.
    pose proof (fc_objective_deriv (λ _, self) (perturb3 x n0 t0 d0) (λ _, W)
                  (λ _, b) dout N T D M (get3 x n0 t0 d0)
                  (λ n t d, if decide (n = n0 ∧ t = t0 ∧ d = d0) then 1 else 0)
                  (λ _ _, 0) (λ _, 0)
                  (λ _, HW) (λ _, Hb) (λ _, HsW) (λ _, Hsb)
                  (λ v, has_shape_perturb3 x N T D n0 t0 d0 v Hx)) as Hder.
    cbv beta in Hder.
    eapply derivable_pt_lim_value.
    + apply Hder.
      * intros n t d Hn Ht Hd. by apply (derivable_pt_lim_perturb3 x N T D).
      * intros. apply derivable_pt_lim_fixed.
      * intros. apply derivable_pt_lim_fixed.
    + rewrite (Hdx n0 t0 d0) by done.
      etrans; [|apply (sum_n_pick
                         (λ n, sum_n (λ m, get3 dout n t0 m * get2 W d0 m) M)
                         n0 N Hn0)].
      apply sum_n_ext. intros n Hn.
      destruct (decide (n = n0)) as [->|Hnn].
      * etrans; [|apply (sum_n_pick
                           (λ t, sum_n (λ m, get3 dout n0 t m * get2 W d0 m) M)
                           t0 T Ht0)].
        apply sum_n_ext. intros t Ht.
        destruct (decide (t = t0)) as [->|Htt].
        -- apply sum_n_ext. intros m Hm.
           rewrite (slope_left3 (λ d, get2 W d m) _ n0 n0 t0 t0 d0 D Hd0).
           rewrite decide_True by done. ring.
        -- apply sum_n_all_zero. intros m Hm.
           rewrite (slope_left3 (λ d, get2 W d m) _ n0 n0 t t0 d0 D Hd0).
           rewrite decide_False by (intros [_ ?]; done). ring.
      * apply sum_n_all_zero. intros t Ht. apply sum_n_all_zero. intros m Hm.
        rewrite (slope_left3 (λ d, get2 W d m) _ n n0 t t0 d0 D Hd0).
        rewrite decide_False by (intros [? _]; done). ring.
  - intros d0 m0 Hd0 Hm0.
    pose proof (fc_objective_deriv
                  (λ v, fc_with_param self (w_name self) (perturb2 W d0 m0 v))
                  (λ _, x) (perturb2 W d0 m0) (λ _, b) dout N T D M (get2 W d0 m0)
                  (λ _ _ _, 0)
                  (λ d m, if decide (d = d0 ∧ m = m0) then 1 else 0)
                  (λ _, 0)) as Hder.
    cbv beta in Hder.
    eapply derivable_pt_lim_value.
    + apply Hder.
      * intros v. cbn [fc_with_param params w_name]. apply lookup_insert_eq.
      * intros v. cbn [fc_with_param params b_name]. by rewrite lookup_insert_ne.
      * intros v. by apply has_shape_perturb2.
      * done.
      * done.
      * intros. apply derivable_pt_lim_fixed.
      * intros d m Hd Hm. by apply (derivable_pt_lim_perturb2 W D M).
      * intros. apply derivable_pt_lim_fixed.
    + rewrite (Hgw d0 m0) by done.
      apply sum_n_ext. intros n Hn. apply sum_n_ext. intros t Ht.
      etrans; [|apply (sum_n_pick (λ m, get3 dout n t m * get3 x n t d0) m0 M Hm0)].
      apply sum_n_ext. intros m Hm.
      rewrite (slope_right (λ d, get2 (perturb2 W d0 m0 (get2 W d0 m0)) d m)
                 (λ d, get3 x n t d) m m0 d0 D Hd0).
      destruct (decide (m = m0)); ring.
  - intros m0 Hm0.
    pose proof (fc_objective_deriv
                  (λ v, fc_with_param self (b_name self) (perturb1 b m0 v))
                  (λ _, x) (λ _, W) (perturb1 b m0) dout N T D M (get1 b m0)
                  (λ _ _ _, 0) (λ _ _, 0)
                  (λ m, if decide (m = m0) then 1 else 0)) as Hder.
    cbv beta in Hder.
    eapply derivable_pt_lim_value.
    + apply Hder.
      * intros v. cbn [fc_with_param params w_name]. by rewrite lookup_insert_ne.
      * intros v. cbn [fc_with_param params b_name]. apply lookup_insert_eq.
      * done.
      * intros v. by apply has_shape_perturb1.
      * done.
      * intros. apply derivable_pt_lim_fixed.
      * intros. apply derivable_pt_lim_fixed.
      * intros m Hm. by apply (derivable_pt_lim_perturb1 b M).
    + rewrite (Hgb m0) by done.
      apply sum_n_ext. intros n Hn. apply sum_n_ext. intros t Ht.
      etrans; [|apply (sum_n_pick (λ m, get3 dout n t m) m0 M Hm0)].
      apply sum_n_ext. intros m Hm.
      rewrite (slope_zero (λ d, get2 W d m) (λ d, get3 x n t d) D).
      destruct (decide (m = m0)); ring.
Qed.

Lemma temporal_fc_backward_is_gradient_witness :
  ∃ out self1 dx self2 gw,
    forward fc_example fc_x = Ok (out, self1)
    ∧ backward self1 fc_dout = Ok (dx, self2)
    ∧ grads self2 !! "t_fc_w" = Some (Some gw)
    ∧ derivable_pt_lim
        (λ v, fc_objective (fc_with_param fc_example "t_fc_w"
                              (perturb2 (mk [1; 1]%nat [5]) 0 0 v))
                           fc_dout 1 2 1 fc_x)
        (get2 (mk [1; 1]%nat [5]) 0 0) (get2 gw 0 0).
Proof.
  destruct (temporal_fc_backward_is_gradient fc_example fc_x fc_dout
              (mk [1; 1]%nat [5]) (mk [1%nat] [0]) 1 2 1 1)
    as (out & self1 & dx & self2 & gw & gb & Hfw & Hbw & Hgw & _ & _ & HdW & _).
  - reflexivity.
  - reflexivity.
  - simpl. discriminate.
  - split; reflexivity.
  - split; reflexivity.
  - split; reflexivity.
  - split; reflexivity.
  - exists out, self1, dx, self2, gw. split; [exact Hfw|]. split; [exact Hbw|].
    split; [exact Hgw|]. apply (HdW 0%nat 0%nat); lia.
Defined.

End fc_gradient_claim.

(* ===================================================================== *)
(** * word_embedding: backward is the gradient *)
(* ===================================================================== *)

Section embedding_gradient.
Import Np.
Import word_embedding.
Local Open Scope R_scope.

Lemma wrap_index_lt V i : index_in_range V i → (wrap_index V i < V)%nat.
Proof.
  unfold index_in_range, wrap_index. intros Hi.
  destruct (decide (0 ≤ i)%Z); lia.
Qed.

(** X27.  [word_embedding.backward] computes the gradient: for the scalar
    [sum (dout * out)] of the output of [forward], the entries of the
    stored weight gradient are its partial derivatives in the
    corresponding entries of the embedding matrix. *)
Theorem embedding_backward_is_gradient (self : word_embedding.t)
        (x : ndarray Z) (dout W : ndarray R) (N T V D : nat) :
  params self !! w_name self = Some W →
  has_shape W [V; D] → has_shape x [N; T] → has_shape dout [N; T; D] →
  Forall (index_in_range V) (data x) →
  ∃ out self1 self2 g,
    forward self x = Ok (out, self1)
    ∧ backward self1 dout = Ok self2
    ∧ grads self2 !! w_name self = Some (Some g)
    ∧ ∀ v d, (v < V)%nat → (d < D)%nat →
        derivable_pt_lim
          (λ u, emb_objective (emb_with_weights self (perturb2 W v d u))
                              dout N T D x)
          (get2 W v d) (get2 g v d).
Proof.
  intros HW HsW Hx Hdout Hr.
  assert (length (data x) = (N * T)%nat) as Hlx.
  { destruct Hx as [_ ->]. simpl. lia. }
  destruct (embedding_forward_values self x W N T V D HW HsW Hx Hr)
    as (out & Hfw & _ & _).
  set (self1 := mkT _ _ _ _ _ _ (Some (out, x))) in *.
  destruct (embedding_backward_values self1 out x dout W N T V D
              eq_refl HW HsW Hx Hdout Hr) as (g & Hbw & _ & Hg).
  eexists out, self1, _, g. split; [exact Hfw|]. split; [exact Hbw|].
  cbn [grads self1 w_name]. split; [by rewrite lookup_insert_eq|].
  intros v d Hv Hd.
  set (widx := λ n t, wrap_index V (nth (n * T + t) (data x) 0%Z)).
  assert (∀ n t, (n < N)%nat → (t < T)%nat → (widx n t < V)%nat) as Hw.
  { intros n t Hn Ht. apply wrap_index_lt. rewrite Forall_nth in Hr.
    apply Hr. rewrite Hlx. nia. }
  eapply derivable_pt_lim_value.
  - eapply (derivable_pt_lim_ext _
              (λ u, sum_n (λ n, sum_n (λ t, sum_n (λ k,
                 get3 dout n t k
                 * (if decide (widx n t = v ∧ k = d) then u
                    else get2 W (widx n t) k)) D) T) N)).
    + intros u. unfold emb_objective.
      destruct (embedding_forward_values
                  (emb_with_weights self (perturb2 W v d u)) x
                  (perturb2 W v d u) N T V D)
        as (out' & Hfw' & _ & Hg'); [|by apply has_shape_perturb2|done|done|].
      { cbn [emb_with_weights params w_name]. apply lookup_insert_eq. }
      rewrite Hfw'. apply sum_n_ext. intros n Hn. apply sum_n_ext. intros t Ht.
      apply sum_n_ext. intros k Hk. rewrite (Hg' n t k Hn Ht Hk).
      fold (widx n t). by rewrite (get2_perturb2 W V D) by (by apply Hw || done).
    + apply (derivable_pt_lim_sum_n
               (λ n u, sum_n (λ t, sum_n (λ k,
                  get3 dout n t k
                  * (if decide (widx n t = v ∧ k = d) then u
                     else get2 W (widx n t) k)) D) T)
               (λ n, sum_n (λ t, sum_n (λ k,
                  get3 dout n t k
                  * (if decide (widx n t = v ∧ k = d) then 1 else 0)) D) T)).
      intros n Hn.
      apply (derivable_pt_lim_sum_n
               (λ t u, sum_n (λ k,
                  get3 dout n t k
                  * (if decide (widx n t = v ∧ k = d) then u
                     else get2 W (widx n t) k)) D)
               (λ t, sum_n (λ k,
                  get3 dout n t k
                  * (if decide (widx n t = v ∧ k = d) then 1 else 0)) D)).
      intros t Ht.
      apply (derivable_pt_lim_sum_n
               (λ k u, get3 dout n t k
                       * (if decide (widx n t = v ∧ k = d) then u
                          else get2 W (widx n t) k))
               (λ k, get3 dout n t k
                     * (if decide (widx n t = v ∧ k = d) then 1 else 0))).
      intros k Hk.
      pose proof (derivable_pt_lim_scal _ (get3 dout n t k) (get2 W v d) _
                    (derivable_pt_lim_pick (widx n t = v ∧ k = d)
                       (get2 W (widx n t) k) (get2 W v d))) as Hs.
      eapply derivable_pt_lim_ext; [|exact Hs]. done.
  - rewrite (Hg v d Hv Hd).
    apply sum_n_ext. intros n Hn. apply sum_n_ext. intros t Ht. fold (widx n t).
    destruct (decide (widx n t = v)) as [E|E].
    + rewrite <- (sum_n_pick (λ k, get3 dout n t k) d D Hd).
      apply sum_n_ext. intros k Hk.
      destruct (decide (k = d)) as [->|Hk'].
      * rewrite decide_True by done. ring.
      * rewrite decide_False by (intros [_ ?]; done). ring.
    + apply sum_n_all_zero. intros k Hk.
      rewrite decide_False by (intros [? _]; done). ring.
Qed.

Lemma embedding_backward_is_gradient_witness :
  ∃ out self1 self2 g,
    forward emb_example emb_x = Ok (out, self1)
    ∧ backward self1 emb_dout = Ok self2
    ∧ grads self2 !! "we_w" = Some (Some g)
    ∧ derivable_pt_lim
        (λ u, emb_objective (emb_with_weights emb_example (perturb2 emb_w 0 0 u))
                            emb_dout 1 3 1 emb_x)
        (get2 emb_w 0 0) (get2 g 0 0).
Proof.
  destruct (embedding_backward_is_gradient emb_example emb_x emb_dout emb_w
              1 3 2 1) as (out & self1 & self2 & g & Hfw & Hbw & Hg & Hd).
  - reflexivity.
  - split; reflexivity.
  - split; reflexivity.
  - split; reflexivity.
  - repeat constructor; simpl; lia.
  - exists out, self1, self2, g. split; [exact Hfw|]. split; [exact Hbw|].
    split; [exact Hg|]. apply Hd; lia.
Defined.

End embedding_gradient.

(* ===================================================================== *)
(** * From the constructors to a training step *)
(* ===================================================================== *)

Section constructors.
Import Np.
Local Open Scope R_scope.

Lemma append_inv_head (s a b : string) : s +:+ a = s +:+ b → a = b.
Proof.
  induction s as [|c s IH]; [done|]. simpl. intros E. injection E as E. by apply IH.
Qed.

Lemma recurrent_names_distinct (name : string) :
  NoDup [name +:+ "_wx"; name +:+ "_wh"; name +:+ "_b"].
Proof.
  repeat (apply NoDup_cons_2 || apply NoDup_nil_2);
    rewrite ?elem_of_cons, ?elem_of_nil;
    intros H; repeat destruct H as [H|H]; try done;
    apply append_inv_head in H; discriminate.
Qed.

Lemma three_names (a b c : string) :
  NoDup [a; b; c] → a ≠ b ∧ a ≠ c ∧ b ≠ c.
Proof.
  intros Hnd. apply NoDup_cons in Hnd as [H1 Hnd].
  apply NoDup_cons in Hnd as [H2 _].
  rewrite !elem_of_cons, elem_of_nil in H1.
  rewrite !elem_of_cons, elem_of_nil in H2.
  repeat split; intros E; [apply H1|apply H1|apply H2]; rewrite E; tauto.
Qed.

(** X28.  A [VanillaRNN] built by [__init__], under any name: its three
    parameter names are distinct, the weights are the scaled draws and the
    bias is zero; [backward] raises [TypeError] on it, [forward] succeeds on
    [x] of shape (N,T,D) with T >= 1, and the [backward] that follows
    stores under each parameter name a gradient of the shape of the
    parameter and keeps the parameters. *)
Theorem rnn_init_cycle (input_dim h_dim : nat) (init_scale : R) (name : string)
        (randn_wx randn_wh x h0 dh : ndarray R) (N T : nat) :
  has_shape randn_wx [input_dim; h_dim] → has_shape randn_wh [h_dim; h_dim] →
  has_shape x [N; T; input_dim] → has_shape h0 [N; h_dim] →
  has_shape dh [N; T; h_dim] → T ≠ 0%nat →
  let self := VanillaRNN.__init__ input_dim h_dim init_scale name randn_wx randn_wh in
  NoDup [VanillaRNN.wx_name self; VanillaRNN.wh_name self; VanillaRNN.b_name self]
  ∧ VanillaRNN.params self !! VanillaRNN.wx_name self
    = Some (amap (Rmult init_scale) randn_wx)
  ∧ VanillaRNN.params self !! VanillaRNN.wh_name self
    = Some (amap (Rmult init_scale) randn_wh)
  ∧ VanillaRNN.params self !! VanillaRNN.b_name self = Some (zeros [h_dim])
  ∧ VanillaRNN.backward self dh = Raise TypeError
  ∧ ∃ h self1 dx dh0 self2 gWx gWh gb,
      VanillaRNN.forward self x h0 = Ok (h, self1)
      ∧ has_shape h [N; T; h_dim]
      ∧ VanillaRNN.backward self1 dh = Ok (dx, dh0, self2)
      ∧ has_shape dx [N; T; input_dim]
      ∧ VanillaRNN.grads self2 !! VanillaRNN.wx_name self = Some (Some gWx)
      ∧ VanillaRNN.grads self2 !! VanillaRNN.wh_name self = Some (Some gWh)
      ∧ VanillaRNN.grads self2 !! VanillaRNN.b_name self = Some (Some gb)
      ∧ has_shape gWx [input_dim; h_dim] ∧ has_shape gWh [h_dim; h_dim]
      ∧ has_shape gb [h_dim]
      ∧ VanillaRNN.params self2 = VanillaRNN.params self.
Proof.
  intros Hwx Hwh Hx Hh0 Hdh HT self.
  pose proof (recurrent_names_distinct name) as Hnd.
  destruct (three_names _ _ _ Hnd) as (N1 & N2 & N3).
  assert (VanillaRNN.params self !! VanillaRNN.wx_name self
          = Some (amap (Rmult init_scale) randn_wx)) as HWx.
  { unfold self, VanillaRNN.__init__. cbn [VanillaRNN.params VanillaRNN.wx_name].
    rewrite !lookup_insert_ne by done. apply lookup_insert_eq. }
  assert (VanillaRNN.params self !! VanillaRNN.wh_name self
          = Some (amap (Rmult init_scale) randn_wh)) as HWh.
  { unfold self, VanillaRNN.__init__. cbn [VanillaRNN.params VanillaRNN.wh_name].
    rewrite lookup_insert_ne by done. apply lookup_insert_eq. }
  assert (VanillaRNN.params self !! VanillaRNN.b_name self = Some (zeros [h_dim]))
    as Hb.
  { unfold self, VanillaRNN.__init__. cbn [VanillaRNN.params VanillaRNN.b_name].
    apply lookup_insert_eq. }
  pose proof (has_shape_amap (Rmult init_scale) _ _ Hwx) as HsWx.
  pose proof (has_shape_amap (Rmult init_scale) _ _ Hwh) as HsWh.
  split; [exact Hnd|]. split; [exact HWx|]. split; [exact HWh|]. split; [exact Hb|].
  split.
  { unfold VanillaRNN.backward, shape_at, list_getitem.
    destruct Hdh as [-> _]. done. }
  destruct (forward_ok self x h0 _ _ _ N T input_dim h_dim HWx HWh Hb HsWx HsWh
              eq_refl Hx Hh0 HT) as (h & metas & Hfw & Hh & Hlen & HF).
  set (self1 := VanillaRNN.mkT _ _ _ _ _ _ _ _ (Some metas)) in *.
  destruct (backward_general self1 dh _ _ metas N T input_dim h_dim HWx HWh
              HsWx HsWh Hdh Hlen HF HT eq_refl Hnd)
    as (dx & dh0 & self2 & gs & rs & gWx & gWh & gb & Hbw & _ & _ & Hdx & _
        & (r0 & Hr0 & Hd0) & G1 & G2 & G3 & S1 & S2 & S3 & _ & _ & _ & _ & Hpar).
  exists h, self1, dx, dh0, self2, gWx, gWh, gb.
  split; [exact Hfw|]. split; [exact Hh|]. split; [exact Hbw|].
  split; [exact Hdx|].
  split; [exact G1|]. split; [exact G2|]. split; [exact G3|].
  split; [exact S1|]. split; [exact S2|]. split; [exact S3|]. exact Hpar.
Qed.

Lemma rnn_init_cycle_witness :
  ∃ h self1 dx dh0 self2,
    VanillaRNN.forward rnn_example rnn_x rnn_h0 = Ok (h, self1)
    ∧ VanillaRNN.backward self1 rnn_dh = Ok (dx, dh0, self2)
    ∧ VanillaRNN.params self2 = VanillaRNN.params rnn_example.
Proof.
  destruct (rnn_init_cycle 1 1 1 "vanilla_rnn" (mk [1; 1]%nat [1])
              (mk [1; 1]%nat [1]) rnn_x rnn_h0 rnn_dh 1 2)
    as (_ & _ & _ & _ & _ & h & self1 & dx & dh0 & self2 & gWx & gWh & gb
        & Hfw & _ & Hbw & _ & _ & _ & _ & _ & _ & _ & Hpar).
  - split; reflexivity.
  - split; reflexivity.
  - split; reflexivity.
  - split; reflexivity.
  - split; reflexivity.
  - lia.
  - exists h, self1, dx, dh0, self2. split; [exact Hfw|]. split; [exact Hbw|].
    exact Hpar.
Defined.

(** X29.  An [LSTM] built by [__init__], under any name: its three parameter
    names are distinct, the weights are the scaled draws and the bias is
    zero; [backward] raises [TypeError] on it, [forward] succeeds on [x] of
    shape (N,T,D) with T >= 1, and on a non-empty batch the [backward] that
    follows stores under each parameter name a gradient of the shape of
    the parameter and keeps the parameters. *)
Theorem lstm_init_cycle (input_dim h_dim : nat) (init_scale : R) (name : string)
        (randn_wx randn_wh x h0 dh : ndarray R) (N T : nat) :
  has_shape randn_wx [input_dim; (4 * h_dim)%nat] →
  has_shape randn_wh [h_dim; (4 * h_dim)%nat] →
  has_shape x [N; T; input_dim] → has_shape h0 [N; h_dim] →
  has_shape dh [N; T; h_dim] → T ≠ 0%nat → (N * h_dim ≠ 0)%nat →
  let self := LSTM.__init__ input_dim h_dim init_scale name randn_wx randn_wh in
  NoDup [LSTM.wx_name self; LSTM.wh_name self; LSTM.b_name self]
  ∧ LSTM.params self !! LSTM.wx_name self = Some (amap (Rmult init_scale) randn_wx)
  ∧ LSTM.params self !! LSTM.wh_name self = Some (amap (Rmult init_scale) randn_wh)
  ∧ LSTM.params self !! LSTM.b_name self = Some (zeros [(4 * h_dim)%nat])
  ∧ LSTM.backward self dh = Raise TypeError
  ∧ ∃ h self1 dx dh0 self2 gWx gWh gb,
      LSTM.forward self x h0 = Ok (h, self1)
      ∧ has_shape h [N; T; h_dim]
      ∧ LSTM.backward self1 dh = Ok (dx, dh0, self2)
      ∧ has_shape dx [N; T; input_dim] ∧ has_shape dh0 [N; h_dim]
      ∧ LSTM.grads self2 !! LSTM.wx_name self = Some (Some gWx)
      ∧ LSTM.grads self2 !! LSTM.wh_name self = Some (Some gWh)
      ∧ LSTM.grads self2 !! LSTM.b_name self = Some (Some gb)
      ∧ has_shape gWx [input_dim; (4 * h_dim)%nat]
      ∧ has_shape gWh [h_dim; (4 * h_dim)%nat]
      ∧ has_shape gb [(4 * h_dim)%nat]
      ∧ LSTM.params self2 = LSTM.params self.
Proof.
  intros Hwx Hwh Hx Hh0 Hdh HT HNH self.
  pose proof (recurrent_names_distinct name) as Hnd.
  destruct (three_names _ _ _ Hnd) as (N1 & N2 & N3).
  assert (LSTM.params self !! LSTM.wx_name self
          = Some (amap (Rmult init_scale) randn_wx)) as HWx.
  { unfold self, LSTM.__init__. cbn [LSTM.params LSTM.wx_name].
    rewrite !lookup_insert_ne by done. apply lookup_insert_eq. }
  assert (LSTM.params self !! LSTM.wh_name self
          = Some (amap (Rmult init_scale) randn_wh)) as HWh.
  { unfold self, LSTM.__init__. cbn [LSTM.params LSTM.wh_name].
    rewrite lookup_insert_ne by done. apply lookup_insert_eq. }
  assert (LSTM.params self !! LSTM.b_name self = Some (zeros [(4 * h_dim)%nat]))
    as Hb.
  { unfold self, LSTM.__init__. cbn [LSTM.params LSTM.b_name].
    apply lookup_insert_eq. }
  pose proof (has_shape_amap (Rmult init_scale) _ _ Hwx) as HsWx.
  pose proof (has_shape_amap (Rmult init_scale) _ _ Hwh) as HsWh.
  split; [exact Hnd|]. split; [exact HWx|]. split; [exact HWh|]. split; [exact Hb|].
  split.
  { unfold LSTM.backward, shape_at, list_getitem.
    destruct Hdh as [-> _]. done. }
  destruct (lstm_forward_ok self _ _ _ N input_dim h_dim HWx HWh Hb HsWx HsWh
              eq_refl x h0 T Hx Hh0 HT)
    as (h & c & metas & Hfw & Hh & _ & Hlen & HF & _).
  set (self1 := LSTM.mkT _ _ _ _ _ _ _ _ (Some metas)) in *.
  destruct (lstm_backward_ok self1 _ _ N input_dim h_dim HWx HWh HsWx HsWh eq_refl
              dh metas T Hdh Hlen HF HNH HT eq_refl)
    as (st & Hbw & _ & _ & Hdx & Hd0 & HgWx & HgWh & Hgb).
  eexists h, self1, _, _, _, _, _, _.
  split; [exact Hfw|]. split; [exact Hh|]. split; [exact Hbw|].
  cbn [LSTM.grads LSTM.params self1 LSTM.wx_name LSTM.wh_name LSTM.b_name].
  split; [exact Hdx|]. split; [exact Hd0|].
  split; [rewrite !lookup_insert_ne by done; apply lookup_insert_eq|].
  split; [rewrite lookup_insert_ne by done; apply lookup_insert_eq|].
  split; [apply lookup_insert_eq|].
  split; [exact HgWx|]. split; [exact HgWh|]. split; [exact Hgb|]. done.
Qed.

Lemma lstm_init_cycle_witness :
  ∃ h self1 dx dh0 self2 gb,
    LSTM.forward lstm_example rnn_x rnn_h0 = Ok (h, self1)
    ∧ LSTM.backward self1 rnn_dh = Ok (dx, dh0, self2)
    ∧ LSTM.grads self2 !! "lstm_b" = Some (Some gb)
    ∧ has_shape gb [4%nat].
Proof.
  destruct (lstm_init_cycle 1 1 1 "lstm" (mk [1; 4]%nat [1; 2; 3; 4])
              (mk [1; 4]%nat [0; 0; 0; 0]) rnn_x rnn_h0 rnn_dh 1 2)
    as (_ & _ & _ & _ & _ & h & self1 & dx & dh0 & self2 & gWx & gWh & gb
        & Hfw & _ & Hbw & _ & _ & _ & _ & Hgb & _ & _ & Hsb & _).
  - split; reflexivity.
  - split; reflexivity.
  - split; reflexivity.
  - split; reflexivity.
  - split; reflexivity.
  - lia.
  - simpl; lia.
  - exists h, self1, dx, dh0, self2, gb. split; [exact Hfw|]. split; [exact Hbw|].
    split; [exact Hgb|exact Hsb].
Defined.

(** X30.  A [temporal_fc] built by [__init__], under any name: its two
    parameter names are distinct and the bias is zero, so that [forward]
    returns [x] times the scaled draw; [backward] raises [TypeError] before
    a forward, and after it stores under each parameter name a gradient of
    the shape of the parameter and keeps the parameters. *)
Theorem temporal_fc_init_cycle (input_dim output_dim : nat) (init_scale : R)
        (name : string) (randn_w x dout : ndarray R) (N T : nat) :
  has_shape randn_w [input_dim; output_dim] →
  has_shape x [N; T; input_dim] → has_shape dout [N; T; output_dim] →
  let self := temporal_fc.__init__ input_dim output_dim init_scale name randn_w in
  temporal_fc.w_name self ≠ temporal_fc.b_name self
  ∧ temporal_fc.params self !! temporal_fc.w_name self
    = Some (amap (Rmult init_scale) randn_w)
  ∧ temporal_fc.params self !! temporal_fc.b_name self = Some (zeros [output_dim])
  ∧ temporal_fc.backward self dout = Raise TypeError
  ∧ ∃ out self1 dx self2 gw gb,
      temporal_fc.forward self x = Ok (out, self1)
      ∧ has_shape out [N; T; output_dim]
      ∧ (∀ n t m, (n < N)%nat → (t < T)%nat → (m < output_dim)%nat →
           get3 out n t m
           = sum_n (λ d, get3 x n t d * (init_scale * get2 randn_w d m)) input_dim)
      ∧ temporal_fc.backward self1 dout = Ok (dx, self2)
      ∧ has_shape dx [N; T; input_dim]
      ∧ temporal_fc.grads self2 !! temporal_fc.w_name self = Some (Some gw)
      ∧ temporal_fc.grads self2 !! temporal_fc.b_name self = Some (Some gb)
      ∧ has_shape gw [input_dim; output_dim] ∧ has_shape gb [output_dim]
      ∧ temporal_fc.params self2 = temporal_fc.params self.
Proof.
  intros Hw Hx Hdout self.
  assert (temporal_fc.w_name self ≠ temporal_fc.b_name self) as Hne.
  { unfold self, temporal_fc.__init__. cbn [temporal_fc.w_name temporal_fc.b_name].
    intros E. apply append_inv_head in E. discriminate. }
  assert (temporal_fc.params self !! temporal_fc.w_name self
          = Some (amap (Rmult init_scale) randn_w)) as HW.
  { unfold self, temporal_fc.__init__ in *.
    cbn [temporal_fc.params temporal_fc.w_name temporal_fc.b_name] in *.
    rewrite lookup_insert_ne by done. apply lookup_insert_eq. }
  assert (temporal_fc.params self !! temporal_fc.b_name self
          = Some (zeros [output_dim])) as Hb.
  { unfold self, temporal_fc.__init__.
    cbn [temporal_fc.params temporal_fc.b_name]. apply lookup_insert_eq. }
  pose proof (has_shape_amap (Rmult init_scale) _ _ Hw) as HsW.
  split; [exact Hne|]. split; [exact HW|]. split; [exact Hb|].
  split; [done|].
  destruct (temporal_fc_forward_values self x _ _ N T input_dim output_dim
              HW Hb HsW (has_shape_zeros _) Hx) as (out & Hfw & Hso & Hg).
  set (self1 := temporal_fc.mkT _ _ _ _ _ _ _ (Some (x, out))) in *.
  destruct (temporal_fc_backward_values self1 x out dout _ _ N T input_dim output_dim
              eq_refl HW Hb Hx Hdout HsW (has_shape_zeros _))
    as (dx & gw & gb & Hbw & Hsdx & _ & Hsgw & _ & Hsgb & _).
  eexists out, self1, dx, _, gw, gb.
  split; [exact Hfw|]. split; [exact Hso|].
  split.
  { intros n t m Hn Ht Hm. rewrite (Hg n t m Hn Ht Hm), get1_zeros, Rplus_0_r.
    apply sum_n_ext. intros d Hd. by rewrite (get2_amap _ _ input_dim output_dim). }
  split; [exact Hbw|].
  cbn [temporal_fc.grads temporal_fc.params self1 temporal_fc.w_name
         temporal_fc.b_name].
  split; [exact Hsdx|].
  split; [rewrite lookup_insert_ne by done; apply lookup_insert_eq|].
  split; [apply lookup_insert_eq|].
  split; [exact Hsgw|]. split; [exact Hsgb|]. done.
Qed.

Lemma temporal_fc_init_cycle_witness :
  ∃ out self1 dx self2,
    temporal_fc.forward
      (temporal_fc.__init__ 1 1 2 "t_fc" (mk [1; 1]%nat [5])) fc_x = Ok (out, self1)
    ∧ get3 out 0 1 0 = 20
    ∧ temporal_fc.backward self1 fc_dout = Ok (dx, self2).
Proof.
  destruct (temporal_fc_init_cycle 1 1 2 "t_fc" (mk [1; 1]%nat [5]) fc_x fc_dout 1 2)
    as (_ & _ & _ & _ & out & self1 & dx & self2 & gw & gb & Hfw & _ & Hg & Hbw & _).
  - split; reflexivity.
  - split; reflexivity.
  - split; reflexivity.
  - exists out, self1, dx, self2. split; [exact Hfw|]. split; [|exact Hbw].
    rewrite (Hg 0%nat 1%nat 0%nat) by lia.
    unfold sum_n, get3, get2, dim. simpl. lra.
Defined.



End constructors.

(* ===================================================================== *)
(** * Instances of the further properties *)
(* ===================================================================== *)

Section more_instances.
Import Np.
Local Open Scope R_scope.

Lemma load_then_gather_params_witness :
  ∃ net h' net' out net'' l0,
    RNN.__init__ [layer_fc; layer_we] = Ok net
    ∧ RNN.load {[ "fc_w" := zeros [1%nat] ]} ∅ net = (h', net', out)
    ∧ RNN.get_params net' "fc_w" = Ok (Some 1%positive)
    ∧ RNN.gather_params net' = Ok net''
    ∧ RNN.get_params net'' "fc_w" = Ok (Some l0)
    ∧ h' !! l0 = Some (zeros [1%nat]).
Proof.
  set (net := RNN.mk (<["we_w" := Some 3%positive]> (<["fc_b" := Some 2%positive]> {["fc_w" := Some 1%positive]}))
                 (<["we_w" := None]> (<["fc_b" := None]> {["fc_w" := None]}))
                 [layer_fc; layer_we]
                 (<["we_w" := 1%nat]> (<["fc_b" := 0%nat]> {["fc_w" := 0%nat]}))
                 (<["we" := true]> {["fc" := true]})).
  destruct (load_then_gather_params {[ "fc_w" := zeros [1%nat] ]} ∅
              [layer_fc; layer_we] net "fc_w" (zeros [1%nat]) 0)
    as (h' & net' & out & net'' & l0 & Hload & Hget & Hgather & Hget' & _ & Hh').
  - vm_compute. reflexivity.
  - reflexivity.
  - exists layer_fc, (<[ "fc_b" := Some 2%positive ]> {[ "fc_w" := Some 1%positive ]}).
    split; [reflexivity|]. split; [reflexivity|]. vm_compute. eauto.
  - intros j l d Hj Hl Hd. destruct j as [|[|j]]; [done| |done].
    vm_compute in Hl. injection Hl as <-. vm_compute in Hd. injection Hd as <-.
    vm_compute. reflexivity.
  - exists net, h', net', out, net'', l0. split; [vm_compute; reflexivity|].
    split; [exact Hload|]. split; [rewrite Hget; vm_compute; reflexivity|].
    split; [exact Hgather|]. split; [exact Hget'|exact Hh'].
Defined.


Lemma rnn_forward_rejects_witness :
  VanillaRNN.forward rnn_example (mk [1; 1; 2]%nat [1; 2]) rnn_h0
  = Raise AssertionError.
Proof.
  destruct (rnn_forward_rejects rnn_example (mk [1; 1; 2]%nat [1; 2]) rnn_h0 1 1 2 1)
    as [_ Hd].
  - split; reflexivity.
  - split; reflexivity.
  - apply Hd; [lia|]. simpl. lia.
Defined.

Lemma embedding_forward_gather_witness :
  ∃ out self',
    word_embedding.forward emb_example (mk [1; 2]%nat [(-1)%Z; 0%Z]) = Ok (out, self')
    ∧ get3 out 0 0 0 = get2 emb_w 1 0
    ∧ get3 out 0 1 0 = get2 emb_w 0 0.
Proof.
  destruct (embedding_forward_gather emb_example (mk [1; 2]%nat [(-1)%Z; 0%Z])
              emb_w 1 2 2 1) as [Hok _].
  - reflexivity.
  - split; reflexivity.
  - split; reflexivity.
  - destruct Hok as (out & self' & Hfw & _ & _ & _ & _ & Hg).
    + repeat constructor; simpl; lia.
    + exists out, self'. split; [exact Hfw|].
      split; [exact (Hg 0%nat 0%nat 0%nat ltac:(lia) ltac:(lia) ltac:(lia))|].
      exact (Hg 0%nat 1%nat 0%nat ltac:(lia) ltac:(lia) ltac:(lia)).
Defined.

Lemma embedding_backward_conserves_witness :
  ∃ self' g,
    word_embedding.backward emb_example emb_dout = Ok self'
    ∧ word_embedding.grads self' !! "we_w" = Some (Some g)
    ∧ get2 g 0 0 + get2 g 1 0 = 1 + 2 + 4.
Proof.
  destruct (embedding_backward_conserves emb_example
              (mk [1; 3; 1]%nat [0; 0; 0]) emb_x emb_dout emb_w 1 3 2 1)
    as (self' & g & Hb & Hg & _ & _ & Hsum).
  - reflexivity.
  - reflexivity.
  - split; reflexivity.
  - split; reflexivity.
  - split; reflexivity.
  - repeat constructor; lia.
  - exists self', g. split; [exact Hb|]. split; [exact Hg|].
    pose proof (Hsum 0%nat ltac:(lia)) as Hs.
    unfold sum_n, get3, dim in Hs. simpl in Hs. lra.
Defined.

Lemma temporal_fc_forward_affine_witness :
  ∃ out self',
    temporal_fc.forward fc_example fc_x = Ok (out, self')
    ∧ has_shape out [1; 2; 1]%nat
    ∧ get3 out 0 1 0 = 10.
Proof.
  destruct (temporal_fc_forward_affine fc_example fc_x
              (mk [1; 1]%nat [5]) (mk [1%nat] [0]) 1 2 1 1)
    as (out & self' & Hfw & Hs & _ & _ & _ & Hg).
  - reflexivity.
  - reflexivity.
  - split; reflexivity.
  - split; reflexivity.
  - split; reflexivity.
  - exists out, self'. split; [exact Hfw|]. split; [exact Hs|].
    rewrite (Hg 0%nat 1%nat 0%nat) by lia.
    unfold sum_n, get3, get2, get1, dim. simpl. lra.
Defined.

Lemma temporal_fc_backward_dx_db_witness :
  ∃ dx self' gb,
    temporal_fc.backward fc_example fc_dout = Ok (dx, self')
    ∧ temporal_fc.grads self' !! "t_fc_b" = Some (Some gb)
    ∧ get1 gb 0 = 3 + 4
    ∧ get3 dx 0 1 0 = 20.
Proof.
  destruct (temporal_fc_backward_dx_db fc_example fc_x fc_x fc_dout
              (mk [1; 1]%nat [5]) (mk [1%nat] [0]) 1 2 1 1)
    as (dx & self' & gb & Hb & _ & Hdx & Hg & _ & Hgb & _).
  - reflexivity.
  - reflexivity.
  - reflexivity.
  - split; reflexivity.
  - split; reflexivity.
  - split; reflexivity.
  - split; reflexivity.
  - exists dx, self', gb. split; [exact Hb|]. split; [exact Hg|].
    rewrite (Hgb 0%nat) by lia. rewrite (Hdx 0%nat 1%nat 0%nat) by lia.
    unfold sum_n, get3, get2, dim. simpl. split; lra.
Defined.

Lemma loss_forward_probabilities_witness :
  ∃ loss probs self',
    temporal_softmax_loss.forward (temporal_softmax_loss.__init__ true)
      feat_uniform label_first mask_ones = Ok (loss, self')
    ∧ temporal_softmax_loss.dLoss self' = Some probs
    ∧ get2 probs 0 0 + get2 probs 0 1 = 1.
Proof.
  destruct (loss_forward_probabilities (temporal_softmax_loss.__init__ true)
              feat_uniform label_first mask_ones 1 1 2)
    as (loss & probs & self' & Hfw & Hd & _ & _ & _ & _ & Hp).
  - split; reflexivity.
  - split; reflexivity.
  - split; reflexivity.
  - constructor; [lia|constructor].
  - constructor; [by right|constructor].
  - lia.
  - exists loss, probs, self'. split; [exact Hfw|]. split; [exact Hd|].
    destruct (Hp 0%nat) as [Hs _]; [simpl; lia|].
    unfold sum_n in Hs. lra.
Defined.

Lemma loss_backward_gradient_witness :
  ∃ loss st1 g st2,
    temporal_softmax_loss.forward (temporal_softmax_loss.__init__ true)
      feat_uniform label_first mask_ones = Ok (loss, st1)
    ∧ temporal_softmax_loss.backward st1 = Ok (g, st2)
    ∧ get3 g 0 0 0 + get3 g 0 0 1 = 0.
Proof.
  destruct (loss_backward_gradient (temporal_softmax_loss.__init__ true)
              feat_uniform label_first mask_ones 1 1 2)
    as (loss & st1 & g & st2 & Hfw & Hbw & _ & Hg).
  - split; reflexivity.
  - split; reflexivity.
  - split; reflexivity.
  - constructor; [lia|constructor].
  - constructor; [by right|constructor].
  - simpl; lia.
  - exists loss, st1, g, st2. split; [exact Hfw|]. split; [exact Hbw|].
    destruct (Hg 0%nat 0%nat) as (_ & Hs & _); [lia|lia|].
    unfold sum_n in Hs. lra.
Defined.

Lemma loss_forward_label_out_of_range_witness :
  temporal_softmax_loss.forward (temporal_softmax_loss.__init__ true)
    feat_uniform (mk [1; 1]%nat [2%Z]) mask_ones = Raise IndexError.
Proof.
  apply (loss_forward_label_out_of_range (temporal_softmax_loss.__init__ true)
           feat_uniform (mk [1; 1]%nat [2%Z]) mask_ones 1 1 2).
  - split; reflexivity.
  - split; reflexivity.
  - split; reflexivity.
  - lia.
  - intros HF. apply Forall_cons in HF as [HF _].
    unfold index_in_range in HF. simpl in HF. lia.
Defined.

End more_instances.
